(** * dynohot: the reloadable module controller

    A shallow embedding of [runtime/controller.ts] (class
    [ReloadableModuleController]: [dispatch], [load], [select], [iterate],
    [iterateWithDynamics], [traverse], [requestUpdate]) and of
    [runtime/declaration.ts], with the statements that the specification
    makes about the update algorithm.

    JavaScript objects with identity (module instances, declarations) live in
    heaps and are named by their index; controllers are interned by URL, as
    [makeAcquire] does.  Exceptions and mutation are threaded through a state
    and error monad.  [await] is sequential: no other task runs in between. *)

From Stdlib Require Import List Arith Lia Bool.
From stdpp Require Import base gmap strings list fin_maps.

Set Warnings "-register-all".

(** ** Values thrown *)

Inductive Error :=
  | AssertionError
  | SyntaxError (url : string)
  | UserError (message : string)
  | Exhausted.

Global Instance Error_eq_dec : EqDecision Error.
Proof. solve_decision. Defined.

(** ** Bindings and declarations ([declaration.ts]) *)

(** Modelled from the spec: [binding.ts] is not part of the sources; the
    entries have the fields that [load] reads ([type], [name], [as]). *)
Inductive BindingType :=
  | import_ | importStar | indirectExport | indirectStarExport | exportStar.

Inductive BindingEntry :=
  | ImportEntry (name : string) (as_ : option string)
  | ImportStarEntry (as_ : string)
  | ExportIndirectEntry (name : string) (as_ : option string)
  | ExportIndirectStarEntry (as_ : string)
  | ExportStarEntry.

Definition bindingType (b : BindingEntry) : BindingType :=
  match b with
  | ImportEntry _ _ => import_
  | ImportStarEntry _ => importStar
  | ExportIndirectEntry _ _ => indirectExport
  | ExportIndirectStarEntry _ => indirectStarExport
  | ExportStarEntry => exportStar
  end.

Abbreviation Url := string (only parsing).
Abbreviation InstId := nat (only parsing).
Abbreviation DeclId := nat (only parsing).

(** A module controller is either reloadable (it is one of ours, named by its
    URL) or an adapter around a module of the host ([reloadable] is false). *)
Inductive ModuleController :=
  | Reloadable (url : Url)
  | Adapter (url : Url).

Record LoadedModuleRequestEntry := {
  specifier : string;
  bindings : list BindingEntry;
  controller : ModuleController;
}.

(** What a user callback does when it is run. *)
Inductive Callback :=
  | CbOk
  | CbThrows (e : Error)
  | CbInvalidates.

(** The registrations a module body makes through [import.meta.hot]. *)
Record HotRegistration := {
  hAcceptSelf : option Callback;
  hAccepts : list (Url * Callback);
  hDeclined : bool;
  hDispose : Callback;
  hPrune : Callback;
  hData : nat;
}.

Definition noHot : HotRegistration :=
  {| hAcceptSelf := None; hAccepts := []; hDeclined := false;
     hDispose := CbOk; hPrune := CbOk; hData := 0 |}.

(** A module body is user code.  [execute] is described by what one run of
    it does: the names of the exports object it yields, the registrations it
    makes, the controllers it imports dynamically, and whether it throws. *)
Record ModuleBody := {
  async : bool;
  bodyExports : list string;
  bodyHot : HotRegistration;
  bodyDynamicImports : list Url;
  bodyThrows : option Error;
}.

Record ModuleDeclaration := {
  body : ModuleBody;
  meta : option string;
  format : string;
  importAssertions : list (string * string);
  usesDynamicImport : bool;
  indirectExportEntries : list (string * (LoadedModuleRequestEntry * BindingEntry));
  starExportEntries : list (LoadedModuleRequestEntry * BindingEntry);
  loadedModules : list LoadedModuleRequestEntry;
}.

(** ** Instances

    Modelled from the spec: [instance.ts] and [module.ts] are not part of the
    sources.  An instance holds its declaration, its link and evaluation
    state, an evaluation error slot and the controllers it imported
    dynamically. *)
Inductive ModuleStatus := new | instantiated | linked | evaluated.

Global Instance ModuleStatus_eq_dec : EqDecision ModuleStatus.
Proof. solve_decision. Defined.

Record ReloadableModuleInstance := {
  iController : Url;
  declaration : DeclId;
  status : ModuleStatus;
  evaluationError : option Error;
  dynamicImports : list Url;
  iHot : HotRegistration;
  iInvalidated : bool;
  iData : option nat;
}.

Definition newInstance (u : Url) (d : DeclId) : ReloadableModuleInstance :=
  {| iController := u; declaration := d; status := new;
     evaluationError := None; dynamicImports := []; iHot := noHot;
     iInvalidated := false; iData := None |}.

(** ** Update results *)

Inductive UpdateStatus :=
  | success | declined | evaluationFailure | linkError | fatalError
  | unaccepted | unacceptedEvaluation.

Global Instance UpdateStatus_eq_dec : EqDecision UpdateStatus.
Proof. solve_decision. Defined.

(** [stats] is a closure over the counters of the call; it is read after the
    call returned, so it is the final value of the counters.  [duration] is
    wall-clock time and is left out. *)
Record UpdateStats := { loads : nat; reevaluations : nat }.

Record UpdateFatalError := { feType : UpdateStatus; feError : Error }.

Inductive ChainNext (A : Type) :=
  | NextUndefined
  | NextNull
  | NextChains (l : list A).
Arguments NextUndefined {A}.
Arguments NextNull {A}.
Arguments NextChains {A} l.

Inductive InvalidationChain :=
  | mkChain (modules : list Url) (next : ChainNext InvalidationChain).

Inductive UpdateResultObject :=
  | UpdateSuccess (type : UpdateStatus) (stats : UpdateStats)
  | UpdateDeclined (declined : list Url)
  | UpdateUnaccepted (chain : list InvalidationChain)
  | UpdateEvaluationError (error : Error) (stats : UpdateStats)
  | UpdateLinkError (error : Error)
  | UpdateFatal (f : UpdateFatalError).

Definition resultType (r : UpdateResultObject) : UpdateStatus :=
  match r with
  | UpdateSuccess t _ => t
  | UpdateDeclined _ => declined
  | UpdateUnaccepted _ => unaccepted
  | UpdateEvaluationError _ _ => evaluationFailure
  | UpdateLinkError _ => linkError
  | UpdateFatal f => feType f
  end.

(** [undefined] is [None]. *)
Definition UpdateResult := option UpdateResultObject.

(** ** Controllers and the store *)

Record ReloadableModuleController := {
  current : option InstId;
  pending : option InstId;
  previous : option InstId;
  staging : option InstId;
  temporary : option InstId;
  fatalErrorOf : option UpdateFatalError;
  visitIndex : nat;
  version : nat;
}.

(** A controller as its constructor leaves it. *)
Definition newController : ReloadableModuleController :=
  {| current := None; pending := None; previous := None; staging := None;
     temporary := None; fatalErrorOf := None; visitIndex := 0; version := 0 |}.

(** What the runtime did, in order; the user callbacks are [EvEvaluate],
    [EvDispose], [EvPrune], [EvAccept] and [EvAcceptSelf]. *)
Inductive Event :=
  | EvInstantiate (i : InstId)
  | EvLink (i : InstId)
  | EvRelink (i : InstId)
  | EvUnlink (i : InstId)
  | EvEvaluate (i : InstId)
  | EvDispose (i : InstId)
  | EvPrune (i : InstId)
  | EvAccept (i : InstId) (dep : Url)
  | EvAcceptSelf (i : InstId)
  | EvEvict (url : Url) (version : nat).

Global Instance Event_eq_dec : EqDecision Event.
Proof. solve_decision. Defined.

Definition isUserEvent (e : Event) : bool :=
  match e with
  | EvEvaluate _ | EvDispose _ | EvPrune _ | EvAccept _ _ | EvAcceptSelf _ => true
  | _ => false
  end.

(** The variables of one [requestUpdate] call that its closures share. *)
Record Frame := {
  fLoads : nat;
  fReevaluations : nat;
  nextControllers : list Url;
  fInstantiated : list Url;
  dispatchLinkErrorType : option UpdateStatus;
}.

Definition newFrame : Frame :=
  {| fLoads := 0; fReevaluations := 0; nextControllers := [];
     fInstantiated := []; dispatchLinkErrorType := None |}.

Record State := {
  controllers : gmap string ReloadableModuleController;
  instances : list ReloadableModuleInstance;
  declarations : list ModuleDeclaration;
  events : list Event;
  currentVisitIndex : nat;
  frame : Frame;
}.

Definition emptyState : State :=
  {| controllers := ∅; instances := []; declarations := []; events := [];
     currentVisitIndex := 0; frame := newFrame |}.

(** Reading a controller that was never acquired gives a new one, as
    [acquire] would make it. *)
Definition ctrl (u : Url) (s : State) : ReloadableModuleController :=
  default newController (controllers s !! u).

Definition emptyDeclaration : ModuleDeclaration :=
  {| body := {| async := false; bodyExports := []; bodyHot := noHot;
                bodyDynamicImports := []; bodyThrows := None |};
     meta := None; format := ""; importAssertions := [];
     usesDynamicImport := false; indirectExportEntries := [];
     starExportEntries := []; loadedModules := [] |}.

Definition inst (i : InstId) (s : State) : ReloadableModuleInstance :=
  default (newInstance "" 0) (instances s !! i).

Definition decl (d : DeclId) (s : State) : ModuleDeclaration :=
  default emptyDeclaration (declarations s !! d).

Definition declarationOf (i : InstId) (s : State) : ModuleDeclaration :=
  decl (declaration (inst i s)) s.

(** *** Field updates *)

Definition setControllers (f : gmap string ReloadableModuleController → gmap string ReloadableModuleController) (s : State) : State :=
  {| controllers := f (controllers s); instances := instances s;
     declarations := declarations s; events := events s;
     currentVisitIndex := currentVisitIndex s; frame := frame s |}.

Definition setInstances (f : list ReloadableModuleInstance → list ReloadableModuleInstance) (s : State) : State :=
  {| controllers := controllers s; instances := f (instances s);
     declarations := declarations s; events := events s;
     currentVisitIndex := currentVisitIndex s; frame := frame s |}.

Definition setDeclarations (f : list ModuleDeclaration → list ModuleDeclaration) (s : State) : State :=
  {| controllers := controllers s; instances := instances s;
     declarations := f (declarations s); events := events s;
     currentVisitIndex := currentVisitIndex s; frame := frame s |}.

Definition logEvent (e : Event) (s : State) : State :=
  {| controllers := controllers s; instances := instances s;
     declarations := declarations s; events := events s ++ [e];
     currentVisitIndex := currentVisitIndex s; frame := frame s |}.

Definition setCurrentVisitIndex (n : nat) (s : State) : State :=
  {| controllers := controllers s; instances := instances s;
     declarations := declarations s; events := events s;
     currentVisitIndex := n; frame := frame s |}.

Definition setFrame (f : Frame → Frame) (s : State) : State :=
  {| controllers := controllers s; instances := instances s;
     declarations := declarations s; events := events s;
     currentVisitIndex := currentVisitIndex s; frame := f (frame s) |}.

Definition withCurrent (v : option InstId) (c : ReloadableModuleController) :=
  {| current := v; pending := pending c; previous := previous c;
     staging := staging c; temporary := temporary c;
     fatalErrorOf := fatalErrorOf c; visitIndex := visitIndex c;
     version := version c |}.

Definition withPending (v : option InstId) (c : ReloadableModuleController) :=
  {| current := current c; pending := v; previous := previous c;
     staging := staging c; temporary := temporary c;
     fatalErrorOf := fatalErrorOf c; visitIndex := visitIndex c;
     version := version c |}.

Definition withPrevious (v : option InstId) (c : ReloadableModuleController) :=
  {| current := current c; pending := pending c; previous := v;
     staging := staging c; temporary := temporary c;
     fatalErrorOf := fatalErrorOf c; visitIndex := visitIndex c;
     version := version c |}.

Definition withStaging (v : option InstId) (c : ReloadableModuleController) :=
  {| current := current c; pending := pending c; previous := previous c;
     staging := v; temporary := temporary c;
     fatalErrorOf := fatalErrorOf c; visitIndex := visitIndex c;
     version := version c |}.

Definition withTemporary (v : option InstId) (c : ReloadableModuleController) :=
  {| current := current c; pending := pending c; previous := previous c;
     staging := staging c; temporary := v;
     fatalErrorOf := fatalErrorOf c; visitIndex := visitIndex c;
     version := version c |}.

Definition withFatalError (v : option UpdateFatalError) (c : ReloadableModuleController) :=
  {| current := current c; pending := pending c; previous := previous c;
     staging := staging c; temporary := temporary c;
     fatalErrorOf := v; visitIndex := visitIndex c;
     version := version c |}.

Definition withVisitIndex (n : nat) (c : ReloadableModuleController) :=
  {| current := current c; pending := pending c; previous := previous c;
     staging := staging c; temporary := temporary c;
     fatalErrorOf := fatalErrorOf c; visitIndex := n;
     version := version c |}.

(** A write to a field of controller [u].  Controllers are created by
    [acquire] only, so the set of controllers is the same after a write. *)
Definition updateCtrl (u : Url) (f : ReloadableModuleController → ReloadableModuleController) (s : State) : State :=
  setControllers (alter f u) s.

Definition updateInst (i : InstId) (f : ReloadableModuleInstance → ReloadableModuleInstance) (s : State) : State :=
  setInstances (alter f i) s.

Definition withStatus (v : ModuleStatus) (x : ReloadableModuleInstance) :=
  {| iController := iController x; declaration := declaration x; status := v;
     evaluationError := evaluationError x; dynamicImports := dynamicImports x;
     iHot := iHot x; iInvalidated := iInvalidated x; iData := iData x |}.

Definition withInvalidated (v : bool) (x : ReloadableModuleInstance) :=
  {| iController := iController x; declaration := declaration x;
     status := status x; evaluationError := evaluationError x;
     dynamicImports := dynamicImports x; iHot := iHot x; iInvalidated := v;
     iData := iData x |}.

Definition withData (v : option nat) (x : ReloadableModuleInstance) :=
  {| iController := iController x; declaration := declaration x;
     status := status x; evaluationError := evaluationError x;
     dynamicImports := dynamicImports x; iHot := iHot x;
     iInvalidated := iInvalidated x; iData := v |}.

(** ** The state and error monad *)

Inductive Outcome (A : Type) :=
  | Ok (a : A)
  | Throw (e : Error).
Arguments Ok {A} a.
Arguments Throw {A} e.

Definition M (A : Type) : Type := State → Outcome A * State.

Definition ret {A} (a : A) : M A := fun s => (Ok a, s).

Definition bind {A B} (m : M A) (k : A → M B) : M B :=
  fun s => match m s with
           | (Ok a, s') => k a s'
           | (Throw e, s') => (Throw e, s')
           end.

Definition throw {A} (e : Error) : M A := fun s => (Throw e, s).

Definition gets {A} (f : State → A) : M A := fun s => (Ok (f s), s).

Definition modify (f : State → State) : M unit := fun s => (Ok tt, f s).

Definition tryCatch {A} (m : M A) (handler : Error → M A) : M A :=
  fun s => match m s with
           | (Ok a, s') => (Ok a, s')
           | (Throw e, s') => handler e s'
           end.

Notation "'let*' x ':=' m 'in' k" := (bind m (fun x => k))
  (at level 10, x pattern, m at level 100, k at level 200).

Definition assert_ok (b : bool) : M unit :=
  if b then ret tt else throw AssertionError.

Fixpoint forEach {A} (l : list A) (f : A → M unit) : M unit :=
  match l with
  | [] => ret tt
  | x :: l' => let* _ := f x in forEach l' f
  end.

Definition isSome {A} (o : option A) : bool :=
  match o with Some _ => true | None => false end.

Definition optEqb (a b : option InstId) : bool := bool_decide (a = b).

(** ** The traversal primitive

    Modelled from the spec: [traverse.ts] is not part of the sources.
    [traverseDepthFirst root getState visitPre visitPost onCancel] walks the
    graph depth first and groups the nodes into strongly connected components
    (Tarjan).  [visitPre] is called on descent and returns the children;
    once a component is complete [visitPost] is called with its nodes, in the
    order they were discovered, and with the results of its successor
    components; when a visitor throws, [onCancel] is called with the nodes
    that were descended into and not yet post-visited.

    The per-node state that the source keeps in [node.traversal] (written by
    every [visitPre] with [node.traversal = traversal], read back through
    [node => node.traversal]) is the map [Info] here.  The iterable of
    children is taken as a list: the generators of the controller read only
    slots of the node being visited, which no visitor changes while the node
    is on the stack. *)

Section Traverse.
Context {Result : Type}.
Variable visitPre : Url → M (list Url).
Variable visitPost : list Url → list Result → M Result.

Inductive NodeState :=
  | Active (index : nat)
  | Done (scc : nat) (r : Result).

Record Traversal := {
  info : gmap string NodeState;
  nextIndex : nat;
}.

(** What a visit hands to the parent: the component was completed, or the
    node stays open with its low-link, the open nodes below it (newest
    first) and the results of completed successors. *)
Inductive Visit :=
  | Closed (scc : nat) (r : Result)
  | Opened (low : nat) (nodes : list Url) (forward : list (nat * Result)).

Inductive VisitOutcome :=
  | VOk (v : Visit)
  | VThrow (e : Error) (pendingNodes : list Url).

Inductive ChildrenOutcome :=
  | COk (low : nat) (nodes : list Url) (forward : list (nat * Result))
  | CThrow (e : Error) (pendingNodes : list Url).

Definition addForward (k : nat) (r : Result) (fw : list (nat * Result)) : list (nat * Result) :=
  if existsb (fun x => Nat.eqb k (fst x)) fw then fw else fw ++ [(k, r)].

Definition mergeForward (new fw : list (nat * Result)) : list (nat * Result) :=
  fold_left (fun acc x => addForward (fst x) (snd x) acc) new fw.

Fixpoint visitChildren
    (visit : Url → Traversal → State → VisitOutcome * Traversal * State)
    (children : list Url) (low : nat) (nodes : list Url)
    (fw : list (nat * Result)) (t : Traversal) (s : State)
    : ChildrenOutcome * Traversal * State :=
  match children with
  | [] => (COk low nodes fw, t, s)
  | child :: rest =>
    match info t !! child with
    | Some (Active index) =>
        visitChildren visit rest (Nat.min low index) nodes fw t s
    | Some (Done k r) =>
        visitChildren visit rest low nodes (addForward k r fw) t s
    | None =>
        match visit child t s with
        | (VOk (Closed k r), t', s') =>
            visitChildren visit rest low nodes (addForward k r fw) t' s'
        | (VOk (Opened l ns f), t', s') =>
            visitChildren visit rest (Nat.min low l) (ns ++ nodes) (mergeForward f fw) t' s'
        | (VThrow e ns, t', s') => (CThrow e (ns ++ nodes), t', s')
        end
    end
  end.

Definition markDone (k : nat) (r : Result) (nodes : list Url) (t : Traversal) : Traversal :=
  {| info := foldr (fun n m => <[n := Done k r]> m) (info t) nodes;
     nextIndex := nextIndex t |}.

Fixpoint visit (fuel : nat) (node : Url) (t : Traversal) (s : State)
    : VisitOutcome * Traversal * State :=
  match fuel with
  | 0 => (VThrow Exhausted [], t, s)
  | S fuel' =>
    match visitPre node s with
    | (Throw e, s1) => (VThrow e [], t, s1)
    | (Ok children, s1) =>
      let index := nextIndex t in
      let t1 := {| info := <[node := Active index]> (info t);
                   nextIndex := S index |} in
      match visitChildren (visit fuel') children index [] [] t1 s1 with
      | (CThrow e ns, t2, s2) => (VThrow e (ns ++ [node]), t2, s2)
      | (COk low nodes fw, t2, s2) =>
        if Nat.eqb low index then
          let cycleNodes := node :: rev nodes in
          match visitPost cycleNodes (map snd fw) s2 with
          | (Throw e, s3) => (VThrow e [], t2, s3)
          | (Ok r, s3) => (VOk (Closed index r), markDone index r cycleNodes t2, s3)
          end
        else (VOk (Opened low (nodes ++ [node]) fw), t2, s2)
      end
    end
  end.

(** The root has the lowest index, so its component is always completed
    when its visit returns. *)
Definition traverseDepthFirst (root : Url) (onCancel : list Url → M unit) : M Result :=
  fun s =>
    match visit (S (size (controllers s))) root {| info := ∅; nextIndex := 0 |} s with
    | (VOk (Closed _ r), _, s') => (Ok r, s')
    | (VOk (Opened _ _ _), _, s') => (Throw AssertionError, s')
    | (VThrow e ns, _, s') =>
        match onCancel (rev ns) s' with
        | (Ok _, s'') => (Throw e, s'')
        | (Throw e', s'') => (Throw e', s'')
        end
    end.
End Traverse.

Arguments Closed {Result} scc r.
Arguments Opened {Result} low nodes forward.
Arguments VOk {Result} v.
Arguments VThrow {Result} e pendingNodes.
Arguments COk {Result} low nodes forward.
Arguments CThrow {Result} e pendingNodes.

Definition noCancel : list Url → M unit := fun _ => ret tt.

(** Modelled from the spec: [iterateWithRollback] of [utility.ts] is not part
    of the sources.  It yields the values one by one; when the loop that
    consumes it throws, [rollback] is called with the values yielded so far
    and the error propagates. *)
Fixpoint iterateWithRollback {A} (vector : list A) (rollback : list A → M unit)
    (yielded : list A) (loopBody : A → M unit) : M unit :=
  match vector with
  | [] => ret tt
  | x :: rest =>
      let* _ := tryCatch (loopBody x)
                  (fun e => let* _ := rollback (yielded ++ [x]) in throw e) in
      iterateWithRollback rest rollback (yielded ++ [x]) loopBody
  end.

Definition orElse {A} (a b : option A) : option A :=
  match a with Some x => Some x | None => b end.

Definition mem (u : Url) (l : list Url) : bool := bool_decide (u ∈ l).

(** A selector picks one of the instance slots of a controller; it is a
    closure and may read the store when it is called. *)
Definition Selector := Url → State → option InstId.

Definition selectCurrent : Selector := fun u s => current (ctrl u s).
Definition selectPending : Selector := fun u s => pending (ctrl u s).
Definition selectStaging : Selector := fun u s => staging (ctrl u s).
Definition selectTemporary : Selector := fun u s => temporary (ctrl u s).

(** [load], line 336: the entries of a [Map] built from an iterable; a key
    that comes again keeps its place and takes the new value. *)
Fixpoint mapSet {V} (k : string) (v : V) (m : list (string * V)) : list (string * V) :=
  match m with
  | [] => [(k, v)]
  | (k', v') :: m' =>
      if String.eqb k k' then (k, v) :: m' else (k', v') :: mapSet k v m'
  end.

Definition mapFromEntries {V} (entries : list (string * V)) : list (string * V) :=
  fold_left (fun m kv => mapSet (fst kv) (snd kv) m) entries [].

Definition indirectEntriesOf (loaded : list LoadedModuleRequestEntry)
    : list (string * (LoadedModuleRequestEntry * BindingEntry)) :=
  flat_map (fun moduleRequest =>
    flat_map (fun binding =>
      match binding with
      | ExportIndirectStarEntry as_ => [(as_, (moduleRequest, binding))]
      | ExportIndirectEntry name as_ =>
          [(default name as_, (moduleRequest, binding))]
      | _ => []
      end) (bindings moduleRequest)) loaded.

Definition starEntriesOf (loaded : list LoadedModuleRequestEntry)
    : list (LoadedModuleRequestEntry * BindingEntry) :=
  flat_map (fun moduleRequest =>
    flat_map (fun binding =>
      match binding with
      | ExportStarEntry => [(moduleRequest, binding)]
      | _ => []
      end) (bindings moduleRequest)) loaded.

Definition makeDeclaration (body : ModuleBody) (meta : option string)
    (usesDynamicImport : bool) (format : string)
    (importAssertions : list (string * string))
    (loadedModules : list LoadedModuleRequestEntry) : ModuleDeclaration :=
  {| body := body; meta := meta; format := format;
     importAssertions := importAssertions;
     usesDynamicImport := usesDynamicImport;
     indirectExportEntries := mapFromEntries (indirectEntriesOf loadedModules);
     starExportEntries := starEntriesOf loadedModules;
     loadedModules := loadedModules |}.

Definition reloadableChildren (loaded : list LoadedModuleRequestEntry) : list Url :=
  flat_map (fun child =>
    match controller child with
    | Reloadable u => [u]
    | Adapter _ => []
    end) loaded.

(** [makeAcquire], line 16: one controller per URL. *)
Definition acquire (url : Url) : M unit :=
  modify (setControllers (fun modules =>
    match modules !! url with
    | Some _ => modules
    | None => <[url := newController]> modules
    end)).

Section Runtime.

(** The verdict of the name resolution of [instance.link]: [instance.ts] is
    not part of the sources, so the algorithm that resolves imports, star
    and indirect exports is a parameter.  It sees the declaration being
    linked and, through the selector, the declaration each controller
    resolves to. *)
Variable linkVerdict : (Url → option ModuleDeclaration) → Url → ModuleDeclaration → option Error.

(** Whether the host provides the [evictModule] hook of [utility.ts]. *)
Variable evictModule : bool.

(** *** Instance operations (modelled from the spec, section 4.2) *)

Definition resolved (sel : Selector) (s : State) : Url → option ModuleDeclaration :=
  fun u => match sel u s with
           | Some j => Some (declarationOf j s)
           | None => None
           end.

Definition constructInstance (u : Url) (d : DeclId) : M InstId :=
  fun s => (Ok (length (instances s)),
            setInstances (fun l => l ++ [newInstance u d]) s).

Definition clone (i : InstId) : M InstId :=
  fun s => constructInstance (iController (inst i s)) (declaration (inst i s)) s.

Definition instantiate (i : InstId) (data : option nat) : M unit :=
  modify (fun s => logEvent (EvInstantiate i)
    (updateInst i (fun x => withData data (withStatus instantiated x)) s)).

Definition markLinked (x : ReloadableModuleInstance) : ReloadableModuleInstance :=
  if decide (status x = evaluated) then x else withStatus linked x.

Definition link (i : InstId) (sel : Selector) : M unit :=
  fun s =>
    let s1 := logEvent (EvLink i) s in
    match linkVerdict (resolved sel s) (iController (inst i s)) (declarationOf i s) with
    | Some e => (Throw e, s1)
    | None => (Ok tt, updateInst i markLinked s1)
    end.

Definition relink (i : InstId) : M unit :=
  fun s =>
    let s1 := logEvent (EvRelink i) s in
    match linkVerdict (resolved selectCurrent s) (iController (inst i s)) (declarationOf i s) with
    | Some e => (Throw e, s1)
    | None => (Ok tt, updateInst i markLinked s1)
    end.

(** [unlink] releases the bindings and tells whether the caller should
    forget the slot: an evaluated instance stays usable. *)
Definition unlink (i : InstId) : M bool :=
  fun s =>
    let s1 := logEvent (EvUnlink i) s in
    if decide (status (inst i s) = evaluated) then (Ok false, s1)
    else (Ok true, updateInst i (withStatus new) s1).

Definition afterRun (b : ModuleBody) (x : ReloadableModuleInstance) : ReloadableModuleInstance :=
  {| iController := iController x; declaration := declaration x;
     status := evaluated; evaluationError := bodyThrows b;
     dynamicImports := dynamicImports x ++ bodyDynamicImports b;
     iHot := bodyHot b; iInvalidated := iInvalidated x; iData := iData x |}.

(** [evaluate] runs the body to completion; the instance is [evaluated]
    afterwards, with [evaluationError] set when the body threw.  An
    instance that was evaluated before is not run again. *)
Definition evaluate (i : InstId) : M unit :=
  fun s =>
    if decide (status (inst i s) = evaluated) then
      match evaluationError (inst i s) with
      | Some e => (Throw e, s)
      | None => (Ok tt, s)
      end
    else
      let b := body (declarationOf i s) in
      let s1 := updateInst i (afterRun b) (logEvent (EvEvaluate i) s) in
      match bodyThrows b with
      | Some e => (Throw e, s1)
      | None => (Ok tt, s1)
      end.

Definition iterateDependencies (i : InstId) (s : State) : list Url :=
  reloadableChildren (loadedModules (declarationOf i s)) ++ dynamicImports (inst i s).

(** *** The hot facade (modelled from the spec, section 4.3; [hot.ts] is
    not part of the sources) *)

Definition isAcceptedSelf (i : InstId) (s : State) : bool :=
  isSome (hAcceptSelf (iHot (inst i s))).

Definition acceptsDependency (i : InstId) (s : State) (dep : Url) : bool :=
  mem dep (map fst (hAccepts (iHot (inst i s)))).

Definition isAccepted (i : InstId) (changed : list Url) (s : State) : bool :=
  isAcceptedSelf i s || forallb (acceptsDependency i s) changed.

Definition isDeclined (i : InstId) (s : State) : bool :=
  hDeclined (iHot (inst i s)).

Definition isInvalidated (i : InstId) (s : State) : bool :=
  iInvalidated (inst i s).

Definition invalidate (i : InstId) : M unit :=
  modify (updateInst i (withInvalidated true)).

Definition runCallback (i : InstId) (cb : Callback) : M bool :=
  match cb with
  | CbOk => ret true
  | CbThrows _ => ret false
  | CbInvalidates => let* _ := invalidate i in ret false
  end.

Fixpoint runAccepts (i : InstId) (changed : list Url) (accepts : list (Url * Callback)) : M bool :=
  match accepts with
  | [] => ret true
  | (dep, cb) :: rest =>
      if mem dep changed then
        let* _ := modify (logEvent (EvAccept i dep)) in
        let* ok := runCallback i cb in
        if ok then runAccepts i changed rest else ret false
      else runAccepts i changed rest
  end.

(** [tryAccept] runs the accept callbacks registered for the changed
    dependencies.  A changed dependency without a registration of its own
    is an update that is not accepted (test "simple test": the importer
    with a bare [accept()] runs again). *)
Definition tryAccept (i : InstId) (changed : list Url) : M bool :=
  let* covered := gets (fun s => forallb (acceptsDependency i s) changed) in
  if covered then
    let* accepts := gets (fun s => hAccepts (iHot (inst i s))) in
    runAccepts i changed accepts
  else ret false.

Definition tryAcceptSelf (i : InstId) : M bool :=
  let* cb := gets (fun s => hAcceptSelf (iHot (inst i s))) in
  match cb with
  | None => ret false
  | Some cb =>
      let* _ := modify (logEvent (EvAcceptSelf i)) in
      runCallback i cb
  end.

Definition dispose (i : InstId) : M (option nat) :=
  let* _ := modify (logEvent (EvDispose i)) in
  let* hot := gets (fun s => iHot (inst i s)) in
  match hDispose hot with
  | CbOk => ret (Some (hData hot))
  | CbThrows e => throw e
  | CbInvalidates => let* _ := invalidate i in ret (Some (hData hot))
  end.

Definition prune (i : InstId) : M unit :=
  let* _ := modify (logEvent (EvPrune i)) in
  let* hot := gets (fun s => iHot (inst i s)) in
  match hPrune hot with
  | CbOk => ret tt
  | CbThrows e => throw e
  | CbInvalidates => invalidate i
  end.

(** Modelled from the spec: [makeAcquireVisitIndex] of [traverse.ts] hands
    out a fresh tag per traversal. *)
Definition acquireVisitIndex : M nat :=
  fun s => (Ok (S (currentVisitIndex s)),
            setCurrentVisitIndex (S (currentVisitIndex s)) s).

(** *** Methods of the controller *)

(** [select], line 360. *)
Definition select (this : Url) (sel : Selector) : M InstId :=
  fun s => match sel this s with
           | Some i => (Ok i, s)
           | None => (Throw AssertionError, s)
           end.

(** [iterate], line 366. *)
Definition iterate (this : Url) (sel : Selector) : M (list Url) :=
  let* i := select this sel in
  gets (fun s => reloadableChildren (loadedModules (declarationOf i s))).

(** [iterateWithDynamics], line 375. *)
Definition iterateWithDynamics (this : Url) (sel selectDynamic : Selector) : M (list Url) :=
  let* statics := iterate this sel in
  let* i := select this selectDynamic in
  let* dynamics := gets (fun s => dynamicImports (inst i s)) in
  ret (statics ++ dynamics).

(** [load], line 308. *)
Definition load (this : Url) (body : ModuleBody) (meta : option string)
    (usesDynamicImport : bool) (format : string)
    (importAssertions : list (string * string))
    (loadedModules : list LoadedModuleRequestEntry) : M unit :=
  let* _ :=
    (if evictModule then
       let* v := gets (fun s => version (ctrl this s)) in
       if negb (Nat.eqb v 0) then modify (logEvent (EvEvict this v)) else ret tt
     else ret tt) in
  let declaration :=
    makeDeclaration body meta usesDynamicImport format importAssertions loadedModules in
  let* d := (fun s => (Ok (length (declarations s)),
                       setDeclarations (fun l => l ++ [declaration]) s)) in
  let* i := constructInstance this d in
  modify (updateCtrl this (withStaging (Some i))).

(** The generator [traverse], line 384, run to its end; [onYield] is what
    the loop that consumes it does with each controller. *)
Fixpoint traverseChildren (recurse : Url → M (list Url)) (tag : nat)
    (onYield : Url → M unit) (children : list Url) : M (list Url) :=
  match children with
  | [] => ret []
  | child :: rest =>
      let* seen := gets (fun s => Nat.eqb (visitIndex (ctrl child s)) tag) in
      if seen then traverseChildren recurse tag onYield rest
      else
        let* _ := modify (updateCtrl child (withVisitIndex tag)) in
        let* _ := onYield child in
        let* below := recurse child in
        let* others := traverseChildren recurse tag onYield rest in
        ret (child :: below ++ others)
  end.

Fixpoint traverseFrom (fuel : nat) (tag : nat) (onYield : Url → M unit)
    (node : Url) : M (list Url) :=
  match fuel with
  | 0 => throw Exhausted
  | S fuel' =>
      let* children := iterateWithDynamics node selectCurrent selectCurrent in
      traverseChildren (traverseFrom fuel' tag onYield) tag onYield children
  end.

Definition traverse (this : Url) (onYield : Url → M unit) : M (list Url) :=
  let* tag := acquireVisitIndex in
  let* fuel := gets (fun s => S (S (size (controllers s)))) in
  traverseFrom fuel tag onYield this.

(** [dispatch], line 251. *)
Definition unlinkAndForget (nodes : list Url) : M unit :=
  forEach nodes (fun node =>
    let* i := select node selectCurrent in
    let* forget := unlink i in
    if forget then modify (updateCtrl node (withCurrent None)) else ret tt).

Definition dispatchPre (node : Url) : M (list Url) :=
  let* cur := gets (fun s => current (ctrl node s)) in
  let* _ :=
    (match cur with
     | None =>
         let* staged := select node selectStaging in
         let* _ := modify (updateCtrl node (withCurrent (Some staged))) in
         instantiate staged None
     | Some _ => ret tt
     end) in
  iterate node selectCurrent.

Definition dispatchLink (nodes : list Url) (forwardResults : list unit) : M unit :=
  iterateWithRollback nodes unlinkAndForget []
    (fun node => let* i := select node selectCurrent in link i selectCurrent).

Definition dispatchEvaluate (nodes : list Url) (forwardResults : list unit) : M unit :=
  forEach nodes (fun node =>
    let* cur := select node selectCurrent in
    let* staged := gets (fun s => staging (ctrl node s)) in
    let* _ := (if optEqb (Some cur) staged
               then modify (updateCtrl node (withStaging None)) else ret tt) in
    evaluate cur).

Definition dispatch (this : Url) : M unit :=
  let* cur := gets (fun s => current (ctrl this s)) in
  match cur with
  | Some _ => ret tt
  | None =>
      let* _ := traverseDepthFirst dispatchPre dispatchLink this unlinkAndForget in
      traverseDepthFirst (fun node => iterate node selectCurrent)
        dispatchEvaluate this noCancel
  end.

(** *** [requestUpdate], line 404 *)

Inductive DryRunResult :=
  | mkDryRunResult (forwardResults : list DryRunResult)
      (declined invalidated : list Url)
      (hasDecline hasNewCode needsDispatch : bool).

Definition drForwardResults (r : DryRunResult) : list DryRunResult :=
  match r with mkDryRunResult f _ _ _ _ _ => f end.
Definition drDeclined (r : DryRunResult) : list Url :=
  match r with mkDryRunResult _ d _ _ _ _ => d end.
Definition drInvalidated (r : DryRunResult) : list Url :=
  match r with mkDryRunResult _ _ i _ _ _ => i end.
Definition drHasDecline (r : DryRunResult) : bool :=
  match r with mkDryRunResult _ _ _ b _ _ => b end.
Definition drHasNewCode (r : DryRunResult) : bool :=
  match r with mkDryRunResult _ _ _ _ b _ => b end.
Definition drNeedsDispatch (r : DryRunResult) : bool :=
  match r with mkDryRunResult _ _ _ _ _ b => b end.

Inductive RunResult :=
  | mkRunResult (forwardResults : list RunResult) (invalidated : list Url)
      (treeDidUpdate : bool).

Definition rrInvalidated (r : RunResult) : list Url :=
  match r with mkRunResult _ i _ => i end.
Definition rrTreeDidUpdate (r : RunResult) : bool :=
  match r with mkRunResult _ _ b => b end.

Definition stats (s : State) : UpdateStats :=
  {| loads := fLoads (frame s); reevaluations := fReevaluations (frame s) |}.

Definition pushNextControllers (nodes : list Url) (f : Frame) : Frame :=
  {| fLoads := fLoads f; fReevaluations := fReevaluations f;
     nextControllers := nextControllers f ++ nodes;
     fInstantiated := fInstantiated f;
     dispatchLinkErrorType := dispatchLinkErrorType f |}.

Definition pushInstantiated (node : Url) (f : Frame) : Frame :=
  {| fLoads := fLoads f; fReevaluations := fReevaluations f;
     nextControllers := nextControllers f;
     fInstantiated := fInstantiated f ++ [node];
     dispatchLinkErrorType := dispatchLinkErrorType f |}.

Definition setDispatchLinkErrorType (v : option UpdateStatus) (f : Frame) : Frame :=
  {| fLoads := fLoads f; fReevaluations := fReevaluations f;
     nextControllers := nextControllers f;
     fInstantiated := fInstantiated f;
     dispatchLinkErrorType := v |}.

Definition countLoad (f : Frame) : Frame :=
  {| fLoads := S (fLoads f); fReevaluations := fReevaluations f;
     nextControllers := nextControllers f;
     fInstantiated := fInstantiated f;
     dispatchLinkErrorType := dispatchLinkErrorType f |}.

Definition countReevaluation (f : Frame) : Frame :=
  {| fLoads := fLoads f; fReevaluations := S (fReevaluations f);
     nextControllers := nextControllers f;
     fInstantiated := fInstantiated f;
     dispatchLinkErrorType := dispatchLinkErrorType f |}.

(** The two views of the children that phases 1 and 2 iterate with, lines
    440-441 and 556-557. *)
Definition selectPreviousOrPending : Selector :=
  fun controller s => orElse (previous (ctrl controller s)) (pending (ctrl controller s)).

(** The second view of phase 3, line 615: it falls back to the pending slot
    of the node that is being visited. *)
Definition selectPreviousOrPendingOf (node : Url) : Selector :=
  fun controller s => orElse (previous (ctrl controller s)) (pending (ctrl node s)).

(** Phase 1: the dry run, lines 432-472. *)
Definition dryRunPre (node : Url) : M (list Url) :=
  let* staged := gets (fun s => staging (ctrl node s)) in
  let* next := (match staged with
                | Some i => ret i
                | None => select node selectCurrent
                end) in
  let* _ := modify (updateCtrl node (withPending (Some next))) in
  let* _ := modify (fun s => updateCtrl node (withPrevious (current (ctrl node s))) s) in
  iterateWithDynamics node selectPending selectPreviousOrPending.

Definition nodeHasNewCode (s : State) (node : Url) : bool :=
  negb (optEqb (previous (ctrl node s)) (pending (ctrl node s))).

Definition nodeNeedsDispatch (forwardUpdates : list Url) (s : State) (node : Url) : bool :=
  nodeHasNewCode s node ||
  match current (ctrl node s) with
  | None => true
  | Some cur => isInvalidated cur s || negb (isAccepted cur forwardUpdates s)
  end.

Definition nodeInvalidated (forwardUpdates : list Url) (s : State) (node : Url) : bool :=
  nodeNeedsDispatch forwardUpdates s node &&
  match current (ctrl node s) with
  | None => true
  | Some cur => negb (isAcceptedSelf cur s)
  end.

Definition nodeDeclined (s : State) (node : Url) : bool :=
  match current (ctrl node s) with
  | None => false
  | Some cur => isDeclined cur s
  end.

Definition dryRunResultOf (cycleNodes : list Url) (forwardResults : list DryRunResult)
    (s : State) : DryRunResult :=
  let forwardUpdates := concat (map drInvalidated forwardResults) in
  let invalidated := List.filter (nodeInvalidated forwardUpdates s) cycleNodes in
  let declined := List.filter (nodeDeclined s) invalidated in
  mkDryRunResult forwardResults declined invalidated
    (negb (Nat.eqb (length declined) 0) || existsb drHasDecline forwardResults)
    (existsb (nodeHasNewCode s) cycleNodes || existsb drHasNewCode forwardResults)
    (existsb (nodeNeedsDispatch forwardUpdates s) cycleNodes
     || existsb drNeedsDispatch forwardResults).

Definition dryRunPost (cycleNodes : list Url) (forwardResults : list DryRunResult)
    : M DryRunResult :=
  let* _ := modify (setFrame (pushNextControllers cycleNodes)) in
  gets (dryRunResultOf cycleNodes forwardResults).

Definition clearPendingPrevious (nodes : list Url) : M unit :=
  forEach nodes (fun node =>
    let* _ := modify (updateCtrl node (withPending None)) in
    modify (updateCtrl node (withPrevious None))).

Definition rollback : M unit :=
  let* nodes := gets (fun s => nextControllers (frame s)) in
  clearPendingPrevious nodes.

(** The declining controllers of every result of the tree, lines 488-491. *)
Fixpoint flattenDeclined (result : DryRunResult) : list Url :=
  match result with
  | mkDryRunResult forwardResults declinedHere _ _ _ _ =>
      declinedHere ++ flat_map flattenDeclined forwardResults
  end.

(** The invalidation chain, lines 496-535. *)
Fixpoint markInvalidated (tag : nat) (nodes : list Url) : M bool :=
  match nodes with
  | [] => ret false
  | node :: rest =>
      let* seen := gets (fun s => Nat.eqb (visitIndex (ctrl node s)) tag) in
      if seen then ret true
      else
        let* _ := modify (updateCtrl node (withVisitIndex tag)) in
        markInvalidated tag rest
  end.

Fixpoint importedModulesOf (nodes : list Url) : M (list Url) :=
  match nodes with
  | [] => ret []
  | node :: rest =>
      let* cur := select node selectCurrent in
      let* deps := gets (iterateDependencies cur) in
      let* others := importedModulesOf rest in
      ret (deps ++ others)
  end.

Definition chainNextIsNull (c : InvalidationChain) : bool :=
  match c with
  | mkChain _ NextNull => true
  | _ => false
  end.

Definition chainNext (importedInvalidations : list InvalidationChain)
    : ChainNext InvalidationChain :=
  if Nat.eqb (length importedInvalidations) 0 then NextUndefined
  else if forallb chainNextIsNull importedInvalidations then NextNull
  else NextChains importedInvalidations.

Fixpoint invalidationChain (tag : nat) (result : DryRunResult)
    : M (list InvalidationChain) :=
  match result with
  | mkDryRunResult forwardResults _ invalidated _ _ _ =>
      let* seen := markInvalidated tag invalidated in
      if seen then ret [mkChain invalidated NextNull]
      else
        let* importedModules := importedModulesOf invalidated in
        let* importedInvalidations :=
          (fix each (results : list DryRunResult) : M (list InvalidationChain) :=
             match results with
             | [] => ret []
             | r :: rest =>
                 let invalidatedImports :=
                   List.filter (fun c => mem c importedModules) (drInvalidated r) in
                 let* chains :=
                   (if Nat.ltb 0 (length invalidatedImports)
                    then invalidationChain tag r else ret []) in
                 let* others := each rest in
                 ret (chains ++ others)
             end) forwardResults in
        ret [mkChain invalidated (chainNext importedInvalidations)]
  end.

(** Phase 2: the link test, lines 547-595. *)
Definition selectTemporaryOrPending : Selector :=
  fun controller s => orElse (temporary (ctrl controller s)) (pending (ctrl controller s)).

Definition linkTestPre (node : Url) : M (list Url) :=
  iterateWithDynamics node selectPending selectPreviousOrPending.

Fixpoint anyPendingDiffers (cycleNodes : list Url) : M bool :=
  match cycleNodes with
  | [] => ret false
  | node :: rest =>
      let* next := select node selectPending in
      let* cur := gets (fun s => current (ctrl node s)) in
      if negb (optEqb (Some next) cur) then ret true
      else anyPendingDiffers rest
  end.

Definition linkTestPost (cycleNodes : list Url) (forwardResults : list bool) : M bool :=
  let* hasUpdate :=
    (if existsb id forwardResults then ret true
     else anyPendingDiffers cycleNodes) in
  let* _ :=
    (if hasUpdate then
       let* _ := forEach cycleNodes (fun node =>
         let* next := select node selectPending in
         let* copy := clone next in
         let* _ := modify (updateCtrl node (withTemporary (Some copy))) in
         let* _ := instantiate copy None in
         modify (setFrame (pushInstantiated node))) in
       forEach cycleNodes (fun node =>
         let* temp := select node selectTemporary in
         link temp selectTemporaryOrPending)
     else ret tt) in
  ret hasUpdate.

Definition tryFinally {A} (m : M A) (finalizer : M unit) : M A :=
  fun s =>
    match m s with
    | (r, s1) =>
        match finalizer s1 with
        | (Ok _, s2) => (r, s2)
        | (Throw e, s2) => (Throw e, s2)
        end
    end.

Definition clearTemporaries : M unit :=
  let* nodes := gets (fun s => fInstantiated (frame s)) in
  forEach nodes (fun node =>
    let* temp := select node selectTemporary in
    let* _ := unlink temp in
    modify (updateCtrl node (withTemporary None))).

(** The result is [Some] when the link test returns from [requestUpdate]. *)
Definition linkTest (this : Url) : M (option UpdateResult) :=
  tryFinally
    (tryCatch
       (let* _ := traverseDepthFirst linkTestPre linkTestPost this noCancel in
        ret None)
       (fun error =>
          let* _ := rollback in
          ret (Some (Some (UpdateLinkError error)))))
    clearTemporaries.

(** Phase 3: link and evaluate, lines 608-706. *)
Definition commitPre (node : Url) : M (list Url) :=
  iterateWithDynamics node selectPending (selectPreviousOrPendingOf node).

Fixpoint anyNewCode (cycleNodes : list Url) : M bool :=
  match cycleNodes with
  | [] => ret false
  | node :: rest =>
      let* staged := gets (fun s => staging (ctrl node s)) in
      if isSome staged then ret true
      else
        let* cur := select node selectCurrent in
        let* invalid := gets (isInvalidated cur) in
        if invalid then ret true else anyNewCode rest
  end.

Fixpoint anyUnaccepted (forwardUpdates : list Url) (cycleNodes : list Url) : M bool :=
  match cycleNodes with
  | [] => ret false
  | node :: rest =>
      let* cur := select node selectCurrent in
      let* _ := relink cur in
      let* cur' := select node selectCurrent in
      let* accepted := tryAccept cur' forwardUpdates in
      if negb accepted then ret true else anyUnaccepted forwardUpdates rest
  end.

Definition replaceInstance (node : Url) : M unit :=
  let* next := select node selectPending in
  let* cur := gets (fun s => current (ctrl node s)) in
  let* data :=
    (match cur with
     | None => ret None
     | Some c =>
         tryCatch (dispose c)
           (fun error =>
              let* _ := modify (setFrame (setDispatchLinkErrorType (Some fatalError))) in
              throw error)
     end) in
  let* cur := gets (fun s => current (ctrl node s)) in
  let* _ :=
    (if optEqb cur (Some next) then
       let* copy := clone next in
       modify (updateCtrl node (withCurrent (Some copy)))
     else modify (updateCtrl node (withCurrent (Some next)))) in
  let* cur := select node selectCurrent in
  instantiate cur data.

Definition evaluationRollback (nodes : list Url) : M unit :=
  forEach nodes (fun node =>
    let* cur := select node selectCurrent in
    let* st := gets (fun s => status (inst cur s)) in
    let* _ := assert_ok (bool_decide (st = evaluated)) in
    let* err := gets (fun s => evaluationError (inst cur s)) in
    if isSome err
    then modify (fun s => updateCtrl node (withCurrent (previous (ctrl node s))) s)
    else ret tt).

Definition sameDeclarationAsPrevious (node : Url) (cur : InstId) (s : State) : bool :=
  match previous (ctrl node s) with
  | None => false
  | Some prev => Nat.eqb (declaration (inst cur s)) (declaration (inst prev s))
  end.

Definition evaluateNode (node : Url) : M unit :=
  let* cur := select node selectCurrent in
  let* same := gets (sameDeclarationAsPrevious node cur) in
  let* _ := modify (setFrame (if same then countReevaluation else countLoad)) in
  let* _ := evaluate cur in
  let* _ := modify (updateCtrl node (withPending None)) in
  let* staged := gets (fun s => staging (ctrl node s)) in
  if optEqb (Some cur) staged
  then modify (updateCtrl node (withStaging None)) else ret tt.

Fixpoint trySelfAccepts (cycleNodes : list Url) : M (list Url) :=
  match cycleNodes with
  | [] => ret []
  | node :: rest =>
      let* prev := gets (fun s => previous (ctrl node s)) in
      let* mine :=
        (match prev with
         | None => ret []
         | Some p =>
             let* _ := select node selectCurrent in
             let* accepted := tryAcceptSelf p in
             ret (if accepted then [] else [node])
         end) in
      let* others := trySelfAccepts rest in
      ret (mine ++ others)
  end.

Definition commitPost (cycleNodes : list Url) (forwardResults : list RunResult)
    : M RunResult :=
  let* newCode := anyNewCode cycleNodes in
  let treeDidUpdate := existsb rrTreeDidUpdate forwardResults in
  let* needsUpdate :=
    (if treeDidUpdate && negb newCode then
       anyUnaccepted (concat (map rrInvalidated forwardResults)) cycleNodes
     else ret newCode) in
  if negb needsUpdate then
    let* _ := forEach cycleNodes (fun node =>
      let* c := gets (ctrl node) in
      let* _ := assert_ok (optEqb (current c) (pending c)) in
      modify (updateCtrl node (withPending None))) in
    ret (mkRunResult forwardResults [] treeDidUpdate)
  else
    let* _ := forEach cycleNodes replaceInstance in
    let* _ := forEach cycleNodes (fun node =>
      let* cur := select node selectCurrent in link cur selectCurrent) in
    let* _ := iterateWithRollback cycleNodes evaluationRollback [] evaluateNode in
    let* invalidated := trySelfAccepts cycleNodes in
    ret (mkRunResult forwardResults invalidated true).

(** The [catch] of phase 3, lines 716-732. *)
Definition recoverPre (node : Url) : M (list Url) :=
  let* next := gets (fun s => pending (ctrl node s)) in
  let* _ :=
    (match next with
     | Some p =>
         let* _ := unlink p in
         modify (updateCtrl node (withPending None))
     | None => ret tt
     end) in
  iterateWithDynamics node selectCurrent selectCurrent.

Definition recoverPost (cycleNodes : list Url) (forwardResults : list unit) : M unit :=
  forEach cycleNodes (fun node =>
    let* cur := select node selectCurrent in relink cur).

Definition recover (this : Url) : M unit :=
  traverseDepthFirst recoverPre recoverPost this noCancel.

Definition setFatalError (this : Url) (f : UpdateFatalError) : M UpdateResult :=
  let* _ := modify (updateCtrl this (withFatalError (Some f))) in
  ret (Some (UpdateFatal f)).

(** The [finally] of phase 3, lines 740-764; the result is [Some] when a
    failed [prune] returns from [requestUpdate]. *)
Definition clearPrevious (node : Url) : M unit :=
  let* next := gets (fun s => pending (ctrl node s)) in
  let* _ := assert_ok (negb (isSome next)) in
  modify (updateCtrl node (withPrevious None)).

Fixpoint pruneOrphans (this : Url) (currentControllers : list Url)
    (previousControllers : list Url) : M (option UpdateResult) :=
  match previousControllers with
  | [] => ret None
  | controller :: rest =>
      if mem controller currentControllers
      then pruneOrphans this currentControllers rest
      else
        let* cur := select controller selectCurrent in
        let* failed :=
          tryCatch (let* _ := prune cur in ret None)
            (fun error =>
               let* r := setFatalError this {| feType := fatalError; feError := error |} in
               ret (Some r)) in
        match failed with
        | Some r => ret (Some r)
        | None =>
            let* copy := clone cur in
            let* _ := modify (updateCtrl controller (withStaging (Some copy))) in
            let* _ := modify (updateCtrl controller (withCurrent None)) in
            let* _ := modify (updateCtrl controller (withPrevious None)) in
            pruneOrphans this currentControllers rest
        end
  end.

Definition finalize (this : Url) (previousControllers : list Url)
    : M (option UpdateResult) :=
  let* currentControllers := traverse this clearPrevious in
  pruneOrphans this currentControllers previousControllers.

(** The [result] of line 608. *)
Definition commitResult (this : Url) : M RunResult :=
  traverseDepthFirst commitPre commitPost this noCancel.

(** The [try] block: [Some] is a [return] from inside it. *)
Definition commit (this : Url) : M (option UpdateResult) :=
  let* result := commitResult this in
  if negb (rrTreeDidUpdate result) then ret (Some None) else ret None.

Definition commitCatch (this : Url) (error : Error) : M (option UpdateResult) :=
  let* _ := recover this in
  let* kind := gets (fun s => dispatchLinkErrorType (frame s)) in
  match kind with
  | None =>
      let* st := gets stats in
      ret (Some (Some (UpdateEvaluationError error st)))
  | Some type =>
      let* r := setFatalError this {| feType := type; feError := error |} in
      ret (Some r)
  end.

(** [try]/[catch]/[finally] with the [return] statements of the three
    blocks: a [return] of the [finally] block wins, then an exception of
    the [catch] block, then a [return] of [try] or [catch]; otherwise the
    statement after it is reached. *)
Definition commitAndFinalize (this : Url) (previousControllers : list Url)
    : M UpdateResult :=
  fun s =>
    let '(completion, s1) := tryCatch (commit this) (commitCatch this) s in
    match finalize this previousControllers s1 with
    | (Throw e, s2) => (Throw e, s2)
    | (Ok (Some r), s2) => (Ok r, s2)
    | (Ok None, s2) =>
        match completion with
        | Throw e => (Throw e, s2)
        | Ok (Some r) => (Ok r, s2)
        | Ok None => (Ok (Some (UpdateSuccess success (stats s2))), s2)
        end
    end.

Definition dryRun (this : Url) : M DryRunResult :=
  traverseDepthFirst dryRunPre dryRunPost this clearPendingPrevious.

Definition requestUpdate (this : Url) : M UpdateResult :=
  let* fatal := gets (fun s => fatalErrorOf (ctrl this s)) in
  match fatal with
  | Some f => ret (Some (UpdateFatal f))
  | None =>
      let* _ := modify (setFrame (fun _ => newFrame)) in
      let* initialResult := dryRun this in
      if negb (drNeedsDispatch initialResult) then
        let* _ := rollback in
        ret None
      else if drHasDecline initialResult then
        let* _ := rollback in
        ret (Some (UpdateDeclined (flattenDeclined initialResult)))
      else if Nat.ltb 0 (length (drInvalidated initialResult)) then
        let* tag := acquireVisitIndex in
        let* chain := invalidationChain tag initialResult in
        let* _ := rollback in
        ret (Some (UpdateUnaccepted chain))
      else
        let* tested := (if drHasNewCode initialResult
                        then linkTest this else ret None) in
        match tested with
        | Some r => ret r
        | None =>
            let* previousControllers := traverse this (fun _ => ret tt) in
            commitAndFinalize this previousControllers
        end
  end.

End Runtime.

(** * Reasoning about the traversal

    An invariant of the visitors is an invariant of the traversal.  [Inv K
    opened done s] may mention the children [K] that [visitPre] returned for
    each node visited so far, the nodes [opened] that were descended into and
    not yet post-visited (newest first) and the nodes [done] whose component
    was completed. *)

Arguments info {Result} _.
Arguments nextIndex {Result} _.
Arguments Active {Result} index.
Arguments Done {Result} scc r.

Tactic Notation "destruct_decide" "as" ident(H) :=
  match goal with
  | |- context [@decide ?P ?d] => destruct (@decide P d) as [H|H]
  end.

Tactic Notation "destruct_decide" "in" hyp(H0) "as" ident(H) :=
  match type of H0 with
  | context [@decide ?P ?d] => destruct (@decide P d) as [H|H]
  end.

Section TraverseRule.
Context {Result : Type}.
Variable visitPre : Url → M (list Url).
Variable visitPost : list Url → list Result → M Result.
Variable U : gset string.
Variable Inv : list (Url * list Url) → list Url → list Url → State → Prop.
Variable P : Result → Prop.
Variable Q : Error → State → Prop.
Variable root : string.

(** A node that the traversal comes to: the root, or a child that
    [visitPre] returned. *)
Definition reached (K : list (string * list string)) (n : string) : Prop :=
  n = root ∨ ∃ m cs, (m, cs) ∈ K ∧ n ∈ cs.

Hypothesis Hpre : ∀ n K opened done s,
  Inv K opened done s → n ∉ opened → n ∉ done → reached K n →
  match visitPre n s with
  | (Ok cs, s') => n ∈ U ∧ Inv ((n, cs) :: K) (n :: opened) done s'
  | (Throw e, s') => Q e s'
  end.

Hypothesis Hpost : ∀ ns frs K opened done s,
  Inv K (rev ns ++ opened) done s → Forall P frs →
  match visitPost ns frs s with
  | (Ok r, s') => Inv K opened (ns ++ done) s' ∧ P r
  | (Throw e, s') => Q e s'
  end.

Definition visitedIn (t : Traversal (Result := Result)) (m : Url) : Prop :=
  is_Some (info t !! m).

Record TInv (t : Traversal (Result := Result)) (K : list (Url * list Url))
    (opened done : list Url) : Prop := {
  ti_dom : ∀ m, visitedIn t m → m ∈ U;
  ti_active : ∀ m, (∃ i, info t !! m = Some (Active i)) ↔ m ∈ opened;
  ti_done : ∀ m, (∃ k r, info t !! m = Some (Done k r)) ↔ m ∈ done;
  ti_P : ∀ m k r, info t !! m = Some (Done k r) → P r;
  ti_nodup : NoDup opened;
  ti_keys : ∀ m cs, (m, cs) ∈ K → visitedIn t m;
  ti_kids : ∀ m cs c, (m, cs) ∈ K → m ∈ done → c ∈ cs → visitedIn t c;
  ti_entry : ∀ m, visitedIn t m → ∃ cs, (m, cs) ∈ K;
}.

Definition kidsVisited (K : list (Url * list Url)) (t : Traversal (Result := Result))
    (l : list Url) : Prop :=
  ∀ m cs c, m ∈ l → (m, cs) ∈ K → c ∈ cs → visitedIn t c.

Record Ext (t : Traversal (Result := Result)) (K : list (Url * list Url))
    (t' : Traversal (Result := Result)) (K' : list (Url * list Url)) : Prop := {
  ext_mono : ∀ m, visitedIn t m → visitedIn t' m;
  ext_new : ∀ m cs, (m, cs) ∈ K' → (m, cs) ∈ K ∨ info t !! m = None;
  ext_sub : ∀ x, x ∈ K → x ∈ K';
}.

Lemma reached_ext t K t' K' n : Ext t K t' K' → reached K n → reached K' n.
Proof.
  intros HE [->|(m & cs & Hin & Hn)]; [by left|].
  right. exists m, cs. split; [by apply (ext_sub _ _ _ _ HE)|done].
Qed.

Lemma Ext_refl t K : Ext t K t K.
Proof. split; auto. Qed.

Lemma Ext_trans t K t1 K1 t2 K2 : Ext t K t1 K1 → Ext t1 K1 t2 K2 → Ext t K t2 K2.
Proof.
  intros [m1 n1 k1] [m2 n2 k2]. split; [auto| |auto].
  intros m cs H. destruct (n2 _ _ H) as [H1|H1]; [auto|].
  right. destruct (info t !! m) eqn:E; [|done].
  assert (visitedIn t1 m) as [x Hx] by (apply m1; unfold visitedIn; rewrite E; eauto).
  congruence.
Qed.

Lemma Ext_size t K t' K' : Ext t K t' K' → size (dom (info t)) ≤ size (dom (info t')).
Proof.
  intros [Hm _ _]. apply subseteq_size. intros m Hin.
  apply elem_of_dom. apply Hm. by apply elem_of_dom.
Qed.

Lemma addForward_P k r fw : P r → Forall P (map snd fw) → Forall P (map snd (addForward k r fw)).
Proof.
  intros Hr Hfw. unfold addForward. destruct (existsb _ fw); [done|].
  rewrite map_app. apply Forall_app. split; [done|]. by constructor.
Qed.

Lemma mergeForward_P new fw :
  Forall P (map snd new) → Forall P (map snd fw) → Forall P (map snd (mergeForward new fw)).
Proof.
  unfold mergeForward. revert fw. induction new as [|[k r] new IH]; intros fw Hn Hfw; simpl; [done|].
  inversion Hn; subst. apply IH; [done|]. by apply addForward_P.
Qed.

Lemma markDone_lookup k r ns (t : Traversal (Result := Result)) m :
  info (markDone k r ns t) !! m = if decide (m ∈ ns) then Some (Done k r) else info t !! m.
Proof.
  unfold markDone; simpl. induction ns as [|a ns IH]; simpl.
  - done.
  - destruct (decide (a = m)) as [->|Hne].
    + rewrite lookup_insert_eq. destruct_decide as Hn; [done|].
      exfalso. apply Hn. apply elem_of_cons. by left.
    + rewrite lookup_insert_ne; [|done]. rewrite IH.
      destruct_decide as Hin; destruct_decide as Hin'; try done.
      * exfalso. apply Hin'. apply elem_of_cons. by right.
      * apply elem_of_cons in Hin' as [->|]; done.
Qed.

Definition VisitPost (c : Url) (t : Traversal (Result := Result)) (K : list (Url * list Url))
    (st : list Url) (out : VisitOutcome * Traversal * State) : Prop :=
  match out with
  | (VOk (Closed k r), t', s') =>
      ∃ K' done', TInv t' K' st done' ∧ Inv K' st done' s' ∧ P r ∧ Ext t K t' K'
                  ∧ c ∈ done'
  | (VOk (Opened low nodes fw), t', s') =>
      ∃ K' done', TInv t' K' (nodes ++ st) done' ∧ Inv K' (nodes ++ st) done' s'
                  ∧ Forall P (map snd fw) ∧ kidsVisited K' t' nodes ∧ Ext t K t' K'
                  ∧ visitedIn t' c ∧ low < nextIndex t
  | (VThrow e ns, t', s') => Q e s'
  end.

Definition ChildrenPost (n : Url) (opened cs : list Url) (low : nat)
    (t : Traversal (Result := Result)) (K : list (Url * list Url))
    (out : ChildrenOutcome * Traversal * State) : Prop :=
  match out with
  | (COk low' nodes' fw', t', s') =>
      ∃ K' done', TInv t' K' (nodes' ++ n :: opened) done'
                  ∧ Inv K' (nodes' ++ n :: opened) done' s'
                  ∧ Forall P (map snd fw') ∧ kidsVisited K' t' nodes' ∧ Ext t K t' K'
                  ∧ low' ≤ low ∧ (∀ c, c ∈ cs → visitedIn t' c)
  | (CThrow e ns, t', s') => Q e s'
  end.

Lemma kidsVisited_ext t K t' K' st done l :
  TInv t K st done → (∀ m, m ∈ l → m ∈ st) →
  kidsVisited K t l → Ext t K t' K' → kidsVisited K' t' l.
Proof.
  intros HT Hsub Hk [Hm Hn _] m cs c Hl HK Hc.
  destruct (Hn _ _ HK) as [H|H].
  - apply Hm. eapply Hk; eauto.
  - destruct (proj2 (ti_active _ _ _ _ HT m) (Hsub _ Hl)) as [i Hi]. congruence.
Qed.

Lemma visitChildren_spec visitc fuel n opened :
  (∀ c t s K st done, TInv t K st done → Inv K st done s → info t !! c = None →
      reached K c →
      size U < fuel + size (dom (info t)) → VisitPost c t K st (visitc c t s)) →
  ∀ cs low nodes fw t s K done,
    TInv t K (nodes ++ n :: opened) done → Inv K (nodes ++ n :: opened) done s →
    Forall P (map snd fw) → kidsVisited K t nodes →
    (∀ c, c ∈ cs → reached K c) →
    size U < fuel + size (dom (info t)) →
    ChildrenPost n opened cs low t K (visitChildren visitc cs low nodes fw t s).
Proof.
  intros Hvisit. induction cs as [|c rest IH]; intros low nodes fw t s K done HT HI Hfw Hk Hre Hsz; simpl.
  all: try assert (∀ c', c' ∈ rest → reached K c') as Hre'
    by (intros c' Hc'; apply Hre, elem_of_cons; by right).
  - exists K, done. split_and!; auto using Ext_refl. intros c Hc. by apply elem_of_nil in Hc.
  - destruct (info t !! c) as [[i|k r]|] eqn:Ec.
    + specialize (IH (Nat.min low i) nodes fw t s K done HT HI Hfw Hk Hre' Hsz).
      unfold ChildrenPost in *. destruct (visitChildren _ _ _ _ _ _ _) as [[[low' nodes' fw'|e ns] t'] s']; [|done].
      destruct IH as (K' & done' & ? & ? & ? & ? & HE & ? & Hcs).
      exists K', done'. split_and!; auto; try apply HE; try lia.
      intros c' Hc'. apply elem_of_cons in Hc' as [->|]; [|auto].
      apply HE. unfold visitedIn; rewrite Ec. eauto.
    + assert (P r) by (eapply ti_P; eauto).
      specialize (IH low nodes (addForward k r fw) t s K done HT HI (addForward_P _ _ _ H Hfw) Hk Hre' Hsz).
      unfold ChildrenPost in *. destruct (visitChildren _ _ _ _ _ _ _) as [[[low' nodes' fw'|e ns] t'] s']; [|done].
      destruct IH as (K' & done' & ? & ? & ? & ? & HE & ? & Hcs).
      exists K', done'. split_and!; auto; try apply HE.
      intros c' Hc'. apply elem_of_cons in Hc' as [->|]; [|auto].
      apply HE. unfold visitedIn; rewrite Ec. eauto.
    + assert (reached K c) as Hrc by (apply Hre, elem_of_cons; by left).
      specialize (Hvisit c t s K _ done HT HI Ec Hrc Hsz).
      unfold VisitPost in Hvisit.
      destruct (visitc c t s) as [[[[k r|l ns f]|e ns] t1] s1]; [| |done].
      * destruct Hvisit as (K1 & done1 & HT1 & HI1 & HPr & HE1 & Hc1).
        assert (kidsVisited K1 t1 nodes) as Hk1.
        { apply (kidsVisited_ext t K t1 K1 _ done nodes HT); [|done|done].
          intros m Hm. apply elem_of_app. by left. }
        assert (size U < fuel + size (dom (info t1))) as Hsz1.
        { pose proof (Ext_size _ _ _ _ HE1). lia. }
        assert (∀ c', c' ∈ rest → reached K1 c') as Hre1
          by (intros c' Hc'; eapply reached_ext; eauto).
        specialize (IH low nodes (addForward k r fw) t1 s1 K1 done1 HT1 HI1 (addForward_P _ _ _ HPr Hfw) Hk1 Hre1 Hsz1).
        unfold ChildrenPost in *. destruct (visitChildren _ _ _ _ _ _ _) as [[[low' nodes' fw'|e ns] t'] s']; [|done].
        destruct IH as (K' & done' & ? & ? & ? & ? & HE & ? & Hcs).
        exists K', done'. split_and!; auto; try apply (Ext_trans _ _ _ _ _ _ HE1 HE).
        intros c' Hc'. apply elem_of_cons in Hc' as [->|]; [|auto].
        apply HE. apply (ti_done _ _ _ _ HT1) in Hc1 as (k' & r' & Hkr). unfold visitedIn; rewrite Hkr. eauto.
      * destruct Hvisit as (K1 & done1 & HT1 & HI1 & HPf & Hkn & HE1 & Hc1 & _).
        rewrite app_assoc in HT1, HI1.
        assert (kidsVisited K1 t1 (ns ++ nodes)) as Hk1.
        { intros m cs c' Hm. apply elem_of_app in Hm as [Hm|Hm].
          - by apply Hkn.
          - apply (kidsVisited_ext t K t1 K1 _ done nodes HT); [|done|done|done].
            intros m' Hm'. apply elem_of_app. by left. }
        assert (size U < fuel + size (dom (info t1))) as Hsz1.
        { pose proof (Ext_size _ _ _ _ HE1). lia. }
        assert (∀ c', c' ∈ rest → reached K1 c') as Hre1
          by (intros c' Hc'; eapply reached_ext; eauto).
        specialize (IH (Nat.min low l) (ns ++ nodes) (mergeForward f fw) t1 s1 K1 done1 HT1 HI1 (mergeForward_P _ _ HPf Hfw) Hk1 Hre1 Hsz1).
        unfold ChildrenPost in *. destruct (visitChildren _ _ _ _ _ _ _) as [[[low' nodes' fw'|e ns'] t'] s']; [|done].
        destruct IH as (K' & done' & ? & ? & ? & ? & HE & ? & Hcs).
        exists K', done'. split_and!; auto; try apply (Ext_trans _ _ _ _ _ _ HE1 HE); try lia.
        intros c' Hc'. apply elem_of_cons in Hc' as [->|]; [|auto].
        by apply HE.
Qed.

Lemma TInv_size t K st done : TInv t K st done → size (dom (info t)) ≤ size U.
Proof.
  intros HT. apply subseteq_size. intros m Hm.
  apply (ti_dom _ _ _ _ HT). by apply elem_of_dom.
Qed.

Lemma visited_not_open t K st done n :
  TInv t K st done → info t !! n = None → (n ∉ st) ∧ (n ∉ done).
Proof.
  intros HT Hn. split; intros Hin.
  - apply (ti_active _ _ _ _ HT) in Hin as [i Hi]. congruence.
  - apply (ti_done _ _ _ _ HT) in Hin as (k & r & Hi). congruence.
Qed.

Lemma visited_cases t K st done m :
  TInv t K st done → visitedIn t m → m ∈ st ∨ m ∈ done.
Proof.
  intros HT [[i|k r] Hx].
  - left. apply (ti_active _ _ _ _ HT). eauto.
  - right. apply (ti_done _ _ _ _ HT). eauto.
Qed.

Lemma open_visited t K st done m :
  TInv t K st done → m ∈ st → visitedIn t m.
Proof. intros HT Hin. apply (ti_active _ _ _ _ HT) in Hin as [i Hi]. unfold visitedIn. rewrite Hi. eauto. Qed.

Lemma done_visited t K st done m :
  TInv t K st done → m ∈ done → visitedIn t m.
Proof. intros HT Hin. apply (ti_done _ _ _ _ HT) in Hin as (k & r & Hi). unfold visitedIn. rewrite Hi. eauto. Qed.

Lemma TInv_push t K st done n cs :
  TInv t K st done → info t !! n = None → n ∈ U →
  TInv {| info := <[n := Active (nextIndex t)]> (info t); nextIndex := S (nextIndex t) |}
       ((n, cs) :: K) (n :: st) done.
Proof.
  intros HT Hn HU. destruct (visited_not_open _ _ _ _ _ HT Hn) as [Hst Hdn].
  assert (∀ m, visitedIn t m → m ≠ n) as Hne.
  { intros m [x Hx] Heq. subst. congruence. }
  split; simpl.
  - intros m [x Hx]. simpl in Hx. destruct (decide (n = m)) as [->|Hnm]; [done|].
    rewrite lookup_insert_ne in Hx; [|done]. apply (ti_dom _ _ _ _ HT). unfold visitedIn. rewrite Hx. eauto.
  - intros m. destruct (decide (n = m)) as [->|Hnm].
    + rewrite lookup_insert_eq. split; [intros _; apply elem_of_cons; by left | eauto].
    + rewrite lookup_insert_ne; [|done]. rewrite (ti_active _ _ _ _ HT m).
      rewrite elem_of_cons. split; [auto|]. intros [->|]; done.
  - intros m. destruct (decide (n = m)) as [->|Hnm].
    + rewrite lookup_insert_eq. split; [intros (k & r & Hx); done | done].
    + rewrite lookup_insert_ne; [|done]. apply (ti_done _ _ _ _ HT m).
  - intros m k r. destruct (decide (n = m)) as [->|Hnm].
    + rewrite lookup_insert_eq. done.
    + rewrite lookup_insert_ne; [|done]. apply (ti_P _ _ _ _ HT).
  - apply NoDup_cons. split; [done|]. apply (ti_nodup _ _ _ _ HT).
  - intros m cs' Hin. unfold visitedIn; simpl. apply elem_of_cons in Hin as [Heq|Hin].
    + inversion Heq; subst. rewrite lookup_insert_eq. eauto.
    + pose proof (ti_keys _ _ _ _ HT _ _ Hin) as Hv. rewrite lookup_insert_ne; [done|].
      intros <-. by apply (Hne n).
  - intros m cs' c Hin Hd Hc. apply elem_of_cons in Hin as [Heq|Hin].
    + inversion Heq; subst. done.
    + pose proof (ti_kids _ _ _ _ HT _ _ _ Hin Hd Hc) as Hv. unfold visitedIn; simpl.
      rewrite lookup_insert_ne; [done|]. intros <-. by apply (Hne n).
  - intros m [x Hx]. simpl in Hx. destruct (decide (n = m)) as [->|Hnm].
    + exists cs. apply elem_of_cons. by left.
    + rewrite lookup_insert_ne in Hx; [|done].
      destruct (ti_entry _ _ _ _ HT m) as [cs' Hcs']; [unfold visitedIn; rewrite Hx; eauto|].
      exists cs'. apply elem_of_cons. by right.
Qed.

Lemma elem_of_rev_iff (l : list Url) x : x ∈ rev l ↔ x ∈ l.
Proof. rewrite !list_elem_of_In. symmetry. apply in_rev. Qed.

Lemma TInv_close t K nodes n st done k r :
  TInv t K (nodes ++ n :: st) done → P r →
  kidsVisited K t (nodes ++ [n]) →
  TInv (markDone k r (n :: rev nodes) t) K st ((n :: rev nodes) ++ done).
Proof.
  intros HT HP Hk.
  assert (∀ m, m ∈ n :: rev nodes ↔ m ∈ nodes ∨ m = n) as Hns.
  { intros m. rewrite elem_of_cons, elem_of_rev_iff. tauto. }
  pose proof (ti_nodup _ _ _ _ HT) as Hnd.
  apply NoDup_app in Hnd as (Hnd1 & Hdisj & Hnd2).
  apply NoDup_cons in Hnd2 as (Hnst & Hnd2).
  assert (∀ m, m ∈ n :: rev nodes → m ∉ st) as Hsep.
  { intros m Hm Hst. apply Hns in Hm as [Hm| ->]; [|done].
    apply (Hdisj _ Hm). apply elem_of_cons. by right. }
  assert (∀ m, m ∈ n :: rev nodes → visitedIn t m) as Hvis.
  { intros m Hm. apply (open_visited _ _ _ _ _ HT). apply Hns in Hm as [Hm| ->].
    - apply elem_of_app. by left.
    - apply elem_of_app. right. apply elem_of_cons. by left. }
  assert (∀ m, visitedIn t m → visitedIn (markDone k r (n :: rev nodes) t) m) as Hmono.
  { intros m Hv. unfold visitedIn. rewrite markDone_lookup. destruct_decide as Hd; eauto. }
  split.
  - intros m [x Hx]. rewrite markDone_lookup in Hx. destruct_decide in Hx as Hd.
    + apply (ti_dom _ _ _ _ HT). by apply Hvis.
    + apply (ti_dom _ _ _ _ HT). unfold visitedIn. rewrite Hx. eauto.
  - intros m. rewrite markDone_lookup. destruct_decide as Hd.
    + split; [intros [i Hi]; done|]. intros Hst. by apply Hsep in Hd.
    + rewrite (ti_active _ _ _ _ HT m). rewrite elem_of_app, elem_of_cons.
      split; [|auto]. intros [Hm|[->|Hm]]; [| |done]; exfalso; apply Hd, Hns; auto.
  - intros m. rewrite markDone_lookup. rewrite elem_of_app. destruct_decide as Hd.
    + split; [auto|eauto].
    + rewrite (ti_done _ _ _ _ HT m). split; [auto|]. intros [|]; done.
  - intros m k' r'. rewrite markDone_lookup. destruct_decide as Hd.
    + intros Heq. by inversion Heq; subst.
    + apply (ti_P _ _ _ _ HT).
  - done.
  - intros m cs Hin. apply Hmono. by apply (ti_keys _ _ _ _ HT _ _ Hin).
  - intros m cs c Hin Hd Hc. apply Hmono. apply elem_of_app in Hd as [Hd|Hd].
    + apply (Hk m cs c); [|done|done]. apply Hns in Hd. rewrite elem_of_app, list_elem_of_singleton. done.
    + by apply (ti_kids _ _ _ _ HT _ _ _ Hin Hd Hc).
  - intros m [x Hx]. rewrite markDone_lookup in Hx. apply (ti_entry _ _ _ _ HT).
    destruct_decide in Hx as Hd; [by apply Hvis|]. unfold visitedIn. rewrite Hx. eauto.
Qed.

Lemma markDone_mono k r ns (t : Traversal (Result := Result)) m :
  visitedIn t m → visitedIn (markDone k r ns t) m.
Proof. intros Hv. unfold visitedIn. rewrite markDone_lookup. destruct_decide as Hd; eauto. Qed.

Lemma visit_spec fuel : ∀ n t s K st done,
  TInv t K st done → Inv K st done s → info t !! n = None →
  reached K n →
  size U < fuel + size (dom (info t)) →
  VisitPost n t K st (visit visitPre visitPost fuel n t s).
Proof.
  induction fuel as [|fuel IH]; intros n t s K st done HT HI Hn Hrn Hsz.
  - exfalso. pose proof (TInv_size _ _ _ _ HT). lia.
  - simpl. destruct (visited_not_open _ _ _ _ _ HT Hn) as [Hst Hdn].
    pose proof (Hpre n K st done s HI Hst Hdn Hrn) as Hp.
    destruct (visitPre n s) as [[cs|e] s1]; [|done].
    destruct Hp as [HnU HI1].
    pose proof (TInv_push _ _ _ _ n cs HT Hn HnU) as HT1.
    set (t1 := {| info := <[n := Active (nextIndex t)]> (info t); nextIndex := S (nextIndex t) |}) in *.
    assert (Ext t K t1 ((n, cs) :: K)) as HE1.
    { split.
      - intros m [x Hx]. unfold visitedIn, t1; simpl.
        destruct (decide (n = m)) as [->|Hnm]; [congruence|].
        rewrite lookup_insert_ne; [|done]. rewrite Hx. eauto.
      - intros m cs' Hin. apply elem_of_cons in Hin as [Heq|Hin]; [|by left].
        inversion Heq; subst. by right.
      - intros x Hx. apply elem_of_cons. by right. }
    assert (∀ c, c ∈ cs → reached ((n, cs) :: K) c) as Hrcs.
    { intros c Hc. right. exists n, cs. split; [apply elem_of_cons; by left|done]. }
    assert (size U < fuel + size (dom (info t1))) as Hsz1.
    { unfold t1; simpl. rewrite dom_insert_L.
      rewrite size_union; [rewrite size_singleton; lia|].
      apply disjoint_singleton_l. by apply not_elem_of_dom. }
    assert (kidsVisited ((n, cs) :: K) t1 []) as Hk0.
    { intros m cs' c Hm. by apply elem_of_nil in Hm. }
    pose proof (visitChildren_spec (visit visitPre visitPost fuel) fuel n st IH cs
                  (nextIndex t) [] [] t1 s1 _ done HT1 HI1 ltac:(constructor) Hk0 Hrcs Hsz1) as Hc.
    unfold ChildrenPost in Hc.
    destruct (visitChildren _ _ _ _ _ _ _) as [[[low nodes fw|e ns] t2] s2]; [|done].
    destruct Hc as (K2 & done2 & HT2 & HI2 & HPfw & Hk2 & HE2 & Hlow & Hcs).
    assert (kidsVisited K2 t2 (nodes ++ [n])) as Hk2'.
    { intros m cs' c Hm Hin Hc'. apply elem_of_app in Hm as [Hm|Hm]; [by apply (Hk2 m cs' c)|].
      apply list_elem_of_singleton in Hm as ->.
      destruct (ext_new _ _ _ _ HE2 _ _ Hin) as [Hin1|Hnone].
      - apply elem_of_cons in Hin1 as [Heq|Hin1].
        + inversion Heq; subst. by apply Hcs.
        + pose proof (ti_keys _ _ _ _ HT _ _ Hin1) as [x Hx]. congruence.
      - unfold t1 in Hnone; simpl in Hnone. by rewrite lookup_insert_eq in Hnone. }
    destruct (Nat.eqb low (nextIndex t)) eqn:Elow.
    + pose proof (Hpost (n :: rev nodes) (map snd fw) K2 st done2 s2) as Hq.
      simpl in Hq. rewrite rev_involutive, <- app_assoc in Hq. simpl in Hq.
      specialize (Hq HI2 HPfw).
      destruct (visitPost _ _ s2) as [[r|e] s3]; [|done].
      destruct Hq as [HI3 HPr].
      exists K2, ((n :: rev nodes) ++ done2). split_and!; auto.
      * by apply TInv_close.
      * destruct (Ext_trans _ _ _ _ _ _ HE1 HE2) as [Hm Hnew Hsub]. split; [|done|done].
        intros m Hv. apply markDone_mono. by apply Hm.
      * apply elem_of_app. left. apply elem_of_cons. by left.
    + exists K2, done2. rewrite <- app_assoc. simpl. split_and!; auto.
      * apply (Ext_trans _ _ _ _ _ _ HE1 HE2).
      * apply (ext_mono _ _ _ _ HE2). unfold visitedIn, t1; simpl. rewrite lookup_insert_eq. eauto.
      * apply Nat.eqb_neq in Elow. lia.
Qed.

(** The rule for a whole traversal: the invariant is kept, the result of
    the root satisfies [P], the completed nodes contain the root and are
    closed under the children that [visitPre] returned, and the traversal
    does not run out of fuel: an exception is one that a visitor threw. *)
Theorem traverseDepthFirst_rule onCancel s :
  Inv [] [] [] s → size U ≤ size (controllers s) →
  match traverseDepthFirst visitPre visitPost root onCancel s with
  | (Ok r, s') =>
      ∃ K done, Inv K [] done s' ∧ P r ∧ root ∈ done
        ∧ (∀ m cs, (m, cs) ∈ K → m ∈ done ∧ ∀ c, c ∈ cs → c ∈ done)
        ∧ (∀ m, m ∈ done → ∃ cs, (m, cs) ∈ K)
  | (Throw e, s') =>
      ∃ e0 s0 ns, Q e0 s0
        ∧ ((onCancel ns s0 = (Ok tt, s') ∧ e = e0) ∨ onCancel ns s0 = (Throw e, s'))
  end.
Proof.
  intros HI Hsz. unfold traverseDepthFirst.
  set (t0 := {| info := ∅; nextIndex := 0 |}).
  assert (TInv t0 [] [] []) as HT0.
  { split; unfold visitedIn, t0; simpl.
    - intros m [x Hx]. by rewrite lookup_empty in Hx.
    - intros m. rewrite lookup_empty. split; [intros [i Hi]; done|]. intros Hm. by apply elem_of_nil in Hm.
    - intros m. rewrite lookup_empty. split; [intros (k & r & Hi); done|]. intros Hm. by apply elem_of_nil in Hm.
    - intros m k r. by rewrite lookup_empty.
    - constructor.
    - intros m cs Hm. by apply elem_of_nil in Hm.
    - intros m cs c Hm. by apply elem_of_nil in Hm.
    - intros m [x Hx]. by rewrite lookup_empty in Hx. }
  pose proof (visit_spec (S (size (controllers s))) root t0 s [] [] [] HT0 HI) as Hv.
  unfold VisitPost in Hv.
  destruct (visit _ _ _ _ _ _) as [[[[k r|low nodes fw]|e ns] t'] s'].
  - destruct Hv as (K' & done' & HT' & HI' & HPr & HE & Hroot); [done|by left|unfold t0; simpl; lia|].
    exists K', done'. split_and!; auto.
    + intros m cs Hin. split.
      * destruct (visited_cases _ _ _ _ m HT' (ti_keys _ _ _ _ HT' _ _ Hin)) as [Ho|Hd]; [|done].
        by apply elem_of_nil in Ho.
      * intros c Hc.
        assert (m ∈ done') as Hmd.
        { destruct (visited_cases _ _ _ _ m HT' (ti_keys _ _ _ _ HT' _ _ Hin)) as [Ho|Hd]; [|done].
          by apply elem_of_nil in Ho. }
        destruct (visited_cases _ _ _ _ c HT' (ti_kids _ _ _ _ HT' _ _ _ Hin Hmd Hc)) as [Ho|Hd]; [|done].
        by apply elem_of_nil in Ho.
    + intros m Hm. apply (ti_entry _ _ _ _ HT'). by apply (done_visited _ _ _ _ _ HT').
  - destruct Hv as (K' & done' & _ & _ & _ & _ & _ & _ & Hlt); [done|by left|unfold t0; simpl; lia|].
    unfold t0 in Hlt; simpl in Hlt. lia.
  - assert (Q e s') as HQ by (apply Hv; [done|by left|unfold t0; simpl; lia]).
    destruct (onCancel (rev ns) s') as [[[]|e'] s''] eqn:Ec.
    + exists e, s', (rev ns). split; [done|]. left. by rewrite Ec.
    + exists e, s', (rev ns). split; [done|]. right. by rewrite Ec.
Qed.
End TraverseRule.

(** * Frame reasoning

    [keeps R m]: whatever [m] does and however it ends, the states before
    and after are related by [R]. *)

Definition keeps {A} (R : State → State → Prop) (m : M A) : Prop :=
  ∀ s, R s (snd (m s)).

(** A relation that is not concerned with the heaps or the counters of the
    call, and that holds when a new visit index is handed out. *)
Class Tolerates (R : State → State → Prop) : Prop := {
  tol_refl : ∀ s, R s s;
  tol_trans : ∀ a b c, R a b → R b c → R a c;
  tol_instances : ∀ f s, R s (setInstances f s);
  tol_declarations : ∀ f s, R s (setDeclarations f s);
  tol_frame : ∀ f s, R s (setFrame f s);
  tol_tag : ∀ s, R s (setCurrentVisitIndex (S (currentVisitIndex s)) s);
}.

Definition logs (R : State → State → Prop) (e : Event) : Prop :=
  ∀ s, R s (logEvent e s).

Definition writes (R : State → State → Prop) (u : string)
    (f : ReloadableModuleController → ReloadableModuleController) : Prop :=
  ∀ s, R s (updateCtrl u f s).

(** The field [g] of every controller outside [except] is unchanged. *)
Definition sameField {A} (g : ReloadableModuleController → A) (except : string → Prop)
    (s s' : State) : Prop :=
  ∀ u, ¬ except u → g (ctrl u s') = g (ctrl u s).

(** The events are extended, and only by events that [allowed] admits. *)
Definition eventsExtend (allowed : Event → bool) (s s' : State) : Prop :=
  ∃ l, events s' = events s ++ l ∧ forallb allowed l = true.

Lemma ctrl_updateCtrl_ne u v f s : u ≠ v → ctrl v (updateCtrl u f s) = ctrl v s.
Proof.
  intros Hne. unfold ctrl, updateCtrl; simpl. by rewrite lookup_alter_ne.
Qed.

Lemma ctrl_updateCtrl_eq u f s :
  is_Some (controllers s !! u) → ctrl u (updateCtrl u f s) = f (ctrl u s).
Proof.
  intros [c Hc]. unfold ctrl, updateCtrl; simpl. rewrite lookup_alter_eq, Hc. done.
Qed.

Lemma ctrl_updateCtrl_field {A} (g : ReloadableModuleController → A) u v f s :
  (∀ c, g (f c) = g c) → g (ctrl v (updateCtrl u f s)) = g (ctrl v s).
Proof.
  intros Hg. destruct (decide (u = v)) as [->|Hne]; [|by rewrite ctrl_updateCtrl_ne].
  unfold ctrl, updateCtrl; simpl. rewrite lookup_alter_eq.
  destruct (controllers s !! v); simpl; auto.
Qed.

Lemma ctrl_acquire u v s : ctrl u (snd (acquire v s)) = ctrl u s.
Proof.
  unfold acquire, modify, ctrl; simpl. destruct (controllers s !! v) eqn:Hv; [done|].
  destruct (decide (v = u)) as [->|Hne].
  - by rewrite lookup_insert_eq, Hv.
  - by rewrite lookup_insert_ne.
Qed.

Lemma dom_updateCtrl u f s : dom (controllers (updateCtrl u f s)) = dom (controllers s).
Proof. unfold updateCtrl; simpl. apply dom_alter_L. Qed.

Lemma sameField_Tolerates {A} (g : ReloadableModuleController → A) except :
  Tolerates (sameField g except).
Proof.
  split; unfold sameField; try done.
  intros a b c Hab Hbc u Hu. rewrite Hbc, Hab; auto.
Qed.

Global Existing Instance sameField_Tolerates.

Lemma sameField_logs {A} (g : ReloadableModuleController → A) except e :
  logs (sameField g except) e.
Proof. done. Qed.

Lemma sameField_writes {A} (g : ReloadableModuleController → A) except u f :
  (∀ c, g (f c) = g c) → writes (sameField g except) u f.
Proof. intros Hg s v _. by apply ctrl_updateCtrl_field. Qed.

Lemma sameField_writes_except {A} (g : ReloadableModuleController → A) (except : string → Prop) u f :
  except u → writes (sameField g except) u f.
Proof.
  intros Hu s v Hv. rewrite ctrl_updateCtrl_ne; [done|]. by intros ->.
Qed.

Lemma eventsExtend_Tolerates allowed : Tolerates (eventsExtend allowed).
Proof.
  split; unfold eventsExtend; simpl; intros.
  - exists []. by rewrite app_nil_r.
  - destruct H as (l1 & H1 & Hl1), H0 as (l2 & H2 & Hl2).
    exists (l1 ++ l2). rewrite H2, H1, <- app_assoc, forallb_app, Hl1, Hl2. done.
  - exists []. by rewrite app_nil_r.
  - exists []. by rewrite app_nil_r.
  - exists []. by rewrite app_nil_r.
  - exists []. by rewrite app_nil_r.
Qed.

Global Existing Instance eventsExtend_Tolerates.

Lemma eventsExtend_logs allowed e : allowed e = true → logs (eventsExtend allowed) e.
Proof. intros He s. exists [e]. simpl. by rewrite He. Qed.

Lemma eventsExtend_writes allowed u f : writes (eventsExtend allowed) u f.
Proof. intros s. exists []. simpl. by rewrite app_nil_r. Qed.

Section Keeps.
Context (R : State → State → Prop) `{!Tolerates R}.

Lemma keeps_pure {A} (m : M A) : (∀ s, snd (m s) = s) → keeps R m.
Proof. intros Hm s. rewrite Hm. apply tol_refl. Qed.

Lemma keeps_ret {A} (a : A) : keeps R (ret a).
Proof. by apply keeps_pure. Qed.

Lemma keeps_throw {A} e : keeps R (throw (A := A) e).
Proof. by apply keeps_pure. Qed.

Lemma keeps_gets {A} (f : State → A) : keeps R (gets f).
Proof. by apply keeps_pure. Qed.

Lemma keeps_assert_ok b : keeps R (assert_ok b).
Proof. destruct b; by apply keeps_pure. Qed.

Lemma keeps_modify f : (∀ s, R s (f s)) → keeps R (modify f).
Proof. intros Hf s. apply Hf. Qed.

Lemma keeps_bind {A B} (m : M A) (k : A → M B) :
  keeps R m → (∀ a, keeps R (k a)) → keeps R (bind m k).
Proof.
  intros Hm Hk s. unfold bind. specialize (Hm s).
  destruct (m s) as [[a|e] s1]; simpl in *; [|done].
  eapply tol_trans; [exact Hm|apply Hk].
Qed.

Lemma keeps_tryCatch {A} (m : M A) handler :
  keeps R m → (∀ e, keeps R (handler e)) → keeps R (tryCatch m handler).
Proof.
  intros Hm Hh s. unfold tryCatch. specialize (Hm s).
  destruct (m s) as [[a|e] s1]; simpl in *; [done|].
  eapply tol_trans; [exact Hm|apply Hh].
Qed.

Lemma keeps_tryFinally {A} (m : M A) finalizer :
  keeps R m → keeps R finalizer → keeps R (tryFinally m finalizer).
Proof.
  intros Hm Hf s. unfold tryFinally. specialize (Hm s).
  destruct (m s) as [r s1]; simpl in *. specialize (Hf s1).
  destruct (finalizer s1) as [[x|e] s2]; simpl in *; eapply tol_trans; eauto.
Qed.

Lemma keeps_forEach {A} (l : list A) f :
  (∀ x, keeps R (f x)) → keeps R (forEach l f).
Proof.
  intros Hf. induction l as [|x l IH]; simpl; [apply keeps_ret|].
  apply keeps_bind; auto.
Qed.

Lemma keeps_iterateWithRollback {A} (vector : list A) rollback yielded loopBody :
  (∀ l, keeps R (rollback l)) → (∀ x, keeps R (loopBody x)) →
  keeps R (iterateWithRollback vector rollback yielded loopBody).
Proof.
  intros Hr Hb. revert yielded. induction vector as [|x l IH]; intros yielded; simpl; [apply keeps_ret|].
  apply keeps_bind; [|auto]. apply keeps_tryCatch; [auto|].
  intros e. apply keeps_bind; [auto|]. intros _. apply keeps_throw.
Qed.

Lemma keeps_select u sel : keeps R (select u sel).
Proof. apply keeps_pure. intros s. unfold select. by destruct (sel u s). Qed.

Lemma keeps_iterate u sel : keeps R (iterate u sel).
Proof. apply keeps_bind; [apply keeps_select|]. intros i. apply keeps_gets. Qed.

Lemma keeps_iterateWithDynamics u sel sel' : keeps R (iterateWithDynamics u sel sel').
Proof.
  apply keeps_bind; [apply keeps_iterate|]. intros cs.
  apply keeps_bind; [apply keeps_select|]. intros i.
  apply keeps_bind; [apply keeps_gets|]. intros ds. apply keeps_ret.
Qed.

Lemma keeps_updateInst i f s : R s (updateInst i f s).
Proof. apply tol_instances. Qed.

Lemma keeps_constructInstance u d : keeps R (constructInstance u d).
Proof. intros s. apply tol_instances. Qed.

Lemma keeps_clone i : keeps R (clone i).
Proof. intros s. apply tol_instances. Qed.

Lemma keeps_invalidate i : keeps R (invalidate i).
Proof. intros s. apply tol_instances. Qed.

Lemma keeps_acquireVisitIndex : keeps R acquireVisitIndex.
Proof. intros s. apply tol_tag. Qed.

Lemma keeps_instantiate i data : logs R (EvInstantiate i) → keeps R (instantiate i data).
Proof.
  intros Hl s. unfold instantiate, modify; simpl.
  eapply tol_trans; [apply tol_instances|apply Hl].
Qed.

Lemma keeps_link linkVerdict i sel : logs R (EvLink i) → keeps R (link linkVerdict i sel).
Proof.
  intros Hl s. unfold link. destruct (linkVerdict _ _ _); simpl; [apply Hl|].
  eapply tol_trans; [apply Hl|apply tol_instances].
Qed.

Lemma keeps_relink linkVerdict i : logs R (EvRelink i) → keeps R (relink linkVerdict i).
Proof.
  intros Hl s. unfold relink. destruct (linkVerdict _ _ _); simpl; [apply Hl|].
  eapply tol_trans; [apply Hl|apply tol_instances].
Qed.

Lemma keeps_unlink i : logs R (EvUnlink i) → keeps R (unlink i).
Proof.
  intros Hl s. unfold unlink. destruct (decide _); simpl; [apply Hl|].
  eapply tol_trans; [apply Hl|apply tol_instances].
Qed.

Lemma keeps_evaluate i : logs R (EvEvaluate i) → keeps R (evaluate i).
Proof.
  intros Hl s. unfold evaluate. destruct (decide _).
  - destruct (evaluationError _); apply tol_refl.
  - destruct (bodyThrows _); simpl; (eapply tol_trans; [apply Hl|apply tol_instances]).
Qed.

Lemma keeps_runCallback i cb : keeps R (runCallback i cb).
Proof.
  destruct cb; simpl; try apply keeps_ret.
  apply keeps_bind; [apply keeps_invalidate|]. intros _. apply keeps_ret.
Qed.

Lemma keeps_runAccepts i changed accepts :
  (∀ dep, logs R (EvAccept i dep)) → keeps R (runAccepts i changed accepts).
Proof.
  intros Hl. induction accepts as [|[dep cb] l IH]; simpl; [apply keeps_ret|].
  destruct (mem dep changed); [|done].
  apply keeps_bind; [apply keeps_modify, Hl|]. intros _.
  apply keeps_bind; [apply keeps_runCallback|]. intros [|]; [done|apply keeps_ret].
Qed.

Lemma keeps_tryAccept i changed :
  (∀ dep, logs R (EvAccept i dep)) → keeps R (tryAccept i changed).
Proof.
  intros Hl. apply keeps_bind; [apply keeps_gets|]. intros [|]; [|apply keeps_ret].
  apply keeps_bind; [apply keeps_gets|]. intros l. by apply keeps_runAccepts.
Qed.

Lemma keeps_tryAcceptSelf i : logs R (EvAcceptSelf i) → keeps R (tryAcceptSelf i).
Proof.
  intros Hl. apply keeps_bind; [apply keeps_gets|]. intros [cb|]; [|apply keeps_ret].
  apply keeps_bind; [by apply keeps_modify|]. intros _. apply keeps_runCallback.
Qed.

Lemma keeps_dispose i : logs R (EvDispose i) → keeps R (dispose i).
Proof.
  intros Hl. apply keeps_bind; [by apply keeps_modify|]. intros _.
  apply keeps_bind; [apply keeps_gets|]. intros hot.
  destruct (hDispose hot); [apply keeps_ret|apply keeps_throw|].
  apply keeps_bind; [apply keeps_invalidate|]. intros _. apply keeps_ret.
Qed.

Lemma keeps_prune i : logs R (EvPrune i) → keeps R (prune i).
Proof.
  intros Hl. apply keeps_bind; [by apply keeps_modify|]. intros _.
  apply keeps_bind; [apply keeps_gets|]. intros hot.
  destruct (hPrune hot); [apply keeps_ret|apply keeps_throw|apply keeps_invalidate].
Qed.

(** The traversal keeps what its visitors keep. *)
Lemma keeps_visitChildren {Result} (visitc : string → Traversal → State → VisitOutcome (Result := Result) * Traversal * State) :
  (∀ c t s, R s (snd (visitc c t s))) →
  ∀ cs low nodes fw t s, R s (snd (visitChildren visitc cs low nodes fw t s)).
Proof.
  intros Hv. induction cs as [|c cs IH]; intros low nodes fw t s; simpl; [apply tol_refl|].
  destruct (info t !! c) as [[i|k r]|]; [apply IH|apply IH|].
  specialize (Hv c t s). destruct (visitc c t s) as [[[[k r|l ns f]|e ns] t1] s1]; simpl in *.
  - eapply tol_trans; [exact Hv|apply IH].
  - eapply tol_trans; [exact Hv|apply IH].
  - done.
Qed.

Lemma keeps_visit {Result} (visitPre : string → M (list string))
    (visitPost : list string → list Result → M Result) :
  (∀ n, keeps R (visitPre n)) → (∀ ns frs, keeps R (visitPost ns frs)) →
  ∀ fuel n t s, R s (snd (visit visitPre visitPost fuel n t s)).
Proof.
  intros Hpre Hpost. induction fuel as [|fuel IH]; intros n t s; simpl; [apply tol_refl|].
  specialize (Hpre n s). destruct (visitPre n s) as [[cs|e] s1]; simpl in *; [|done].
  match goal with |- context [visitChildren ?v ?a ?b ?c ?d ?t1 s1] =>
    pose proof (keeps_visitChildren v IH a b c d t1 s1) as Hc;
    destruct (visitChildren v a b c d t1 s1) as [[[low nodes fw|e ns] t2] s2] end; simpl in *.
  - destruct (Nat.eqb low (nextIndex t)); simpl.
    + specialize (Hpost (n :: rev nodes) (map snd fw) s2).
      destruct (visitPost _ _ s2) as [[r|e] s3]; simpl in *;
        (eapply tol_trans; [exact Hpre|]; eapply tol_trans; [exact Hc|exact Hpost]).
    + eapply tol_trans; eauto.
  - eapply tol_trans; eauto.
Qed.

Lemma keeps_traverseDepthFirst {Result} (visitPre : string → M (list string))
    (visitPost : list string → list Result → M Result) root onCancel :
  (∀ n, keeps R (visitPre n)) → (∀ ns frs, keeps R (visitPost ns frs)) →
  (∀ ns, keeps R (onCancel ns)) →
  keeps R (traverseDepthFirst visitPre visitPost root onCancel).
Proof.
  intros Hpre Hpost Hc s. unfold traverseDepthFirst.
  pose proof (keeps_visit visitPre visitPost Hpre Hpost (S (size (controllers s))) root
                {| info := ∅; nextIndex := 0 |} s) as Hv.
  destruct (visit _ _ _ _ _ _) as [[[[k r|low nodes fw]|e ns] t'] s']; simpl in *; try done.
  specialize (Hc (rev ns) s'). destruct (onCancel (rev ns) s') as [[x|e'] s'']; simpl in *;
    eapply tol_trans; eauto.
Qed.

Lemma keeps_noCancel ns : keeps R (noCancel ns).
Proof. apply keeps_ret. Qed.

End Keeps.

(** The conditions under which the phases keep a relation. *)
Definition writesSlot (R : State → State → Prop)
    (w : option nat → ReloadableModuleController → ReloadableModuleController) : Prop :=
  ∀ u v, writes R u (w v).

Ltac keeps_step :=
  match goal with
  | |- keeps ?R (ret _) => apply (keeps_ret R)
  | |- keeps ?R (throw _) => apply (keeps_throw R)
  | |- keeps ?R (gets _) => apply (keeps_gets R)
  | |- keeps ?R (assert_ok _) => apply (keeps_assert_ok R)
  | |- keeps ?R (bind _ _) => apply (keeps_bind R); [|intros ?]
  | |- keeps ?R (modify _) => apply (keeps_modify R); intros ?
  | |- keeps ?R (forEach _ _) => apply (keeps_forEach R); intros ?
  | |- keeps ?R (tryCatch _ _) => apply (keeps_tryCatch R); [|intros ?]
  | |- keeps ?R (tryFinally _ _) => apply (keeps_tryFinally R)
  | |- keeps ?R (iterateWithRollback _ _ _ _) => apply (keeps_iterateWithRollback R); intros ?
  | |- keeps ?R (select _ _) => apply (keeps_select R)
  | |- keeps ?R (iterate _ _) => apply (keeps_iterate R)
  | |- keeps ?R (iterateWithDynamics _ _ _) => apply (keeps_iterateWithDynamics R)
  | |- keeps ?R (clone _) => apply (keeps_clone R)
  | |- keeps ?R (constructInstance _ _) => apply (keeps_constructInstance R)
  | |- keeps ?R (invalidate _) => apply (keeps_invalidate R)
  | |- keeps ?R acquireVisitIndex => apply (keeps_acquireVisitIndex R)
  | |- keeps ?R (instantiate _ _) => apply (keeps_instantiate R)
  | |- keeps ?R (link _ _ _) => apply (keeps_link R)
  | |- keeps ?R (relink _ _) => apply (keeps_relink R)
  | |- keeps ?R (unlink _) => apply (keeps_unlink R)
  | |- keeps ?R (evaluate _) => apply (keeps_evaluate R)
  | |- keeps ?R (tryAccept _ _) => apply (keeps_tryAccept R); intros ?
  | |- keeps ?R (tryAcceptSelf _) => apply (keeps_tryAcceptSelf R)
  | |- keeps ?R (dispose _) => apply (keeps_dispose R)
  | |- keeps ?R (prune _) => apply (keeps_prune R)
  | |- keeps ?R (noCancel _) => apply (keeps_noCancel R)
  | |- keeps ?R (traverseDepthFirst _ _ _ _) =>
      apply (keeps_traverseDepthFirst R); [intros ?|intros ? ?|intros ?]
  | |- keeps _ (if ?b then _ else _) => destruct b
  | |- keeps _ (match ?x with _ => _ end) => destruct x
  | H : writesSlot ?R ?w |- ?R _ (updateCtrl _ (?w _) _) => apply H
  | H : writes ?R ?u ?f |- ?R _ (updateCtrl ?u ?f _) => apply H
  | H : ∀ u, writes ?R u ?f |- ?R _ (updateCtrl _ ?f _) => apply H
  | H : ∀ u n, writes ?R u (?w n) |- ?R _ (updateCtrl _ (?w _) _) => apply H
  | H : ∀ v, writes ?R ?u (?w v) |- ?R _ (updateCtrl ?u (?w _) _) => apply H
  | H : ∀ e, logs ?R e |- ?R _ (logEvent _ _) => apply H
  | H : ∀ i, logs ?R (?E i) |- ?R _ (logEvent (?E _) _) => apply H
  | H : ∀ i, logs ?R (?E i) |- logs ?R (?E _) => apply H
  | H : ∀ i d, logs ?R (?E i d) |- ?R _ (logEvent (?E _ _) _) => apply H
  | H : ∀ i d, logs ?R (?E i d) |- logs ?R (?E _ _) => apply H
  | |- ?R _ (setFrame _ _) => apply (tol_frame (R := R))
  | |- ?R _ (setInstances _ _) => apply (tol_instances (R := R))
  | |- ?R _ (setDeclarations _ _) => apply (tol_declarations (R := R))
  | |- ?R _ (setCurrentVisitIndex _ _) => apply (tol_tag (R := R))
  end.

Ltac keeps_auto := repeat keeps_step; try solve [auto].

Section KeepsPhases.
Context (R : State → State → Prop) `{!Tolerates R}.
Variable linkVerdict : (string → option ModuleDeclaration) → string → ModuleDeclaration → option Error.

Lemma keeps_clearPendingPrevious nodes :
  writesSlot R withPending → writesSlot R withPrevious →
  keeps R (clearPendingPrevious nodes).
Proof. intros Hp Hq. unfold clearPendingPrevious. keeps_auto. Qed.

Lemma keeps_rollback :
  writesSlot R withPending → writesSlot R withPrevious → keeps R rollback.
Proof.
  intros Hp Hq. unfold rollback. keeps_auto. by apply keeps_clearPendingPrevious.
Qed.

Lemma keeps_dryRunPre node :
  writesSlot R withPending → writesSlot R withPrevious → keeps R (dryRunPre node).
Proof. intros Hp Hq. unfold dryRunPre. keeps_auto. Qed.

Lemma keeps_dryRunPost ns frs : keeps R (dryRunPost ns frs).
Proof. unfold dryRunPost. keeps_auto. Qed.

Lemma keeps_dryRun this :
  writesSlot R withPending → writesSlot R withPrevious → keeps R (dryRun this).
Proof.
  intros Hp Hq. unfold dryRun. keeps_auto.
  - by apply keeps_dryRunPre.
  - apply keeps_dryRunPost.
  - by apply keeps_clearPendingPrevious.
Qed.

Lemma keeps_anyPendingDiffers l : keeps R (anyPendingDiffers l).
Proof. induction l as [|x l IH]; simpl; keeps_auto. Qed.

Lemma keeps_linkTestPost ns frs :
  writesSlot R withTemporary →
  (∀ i, logs R (EvInstantiate i)) → (∀ i, logs R (EvLink i)) →
  keeps R (linkTestPost linkVerdict ns frs).
Proof.
  intros Ht Hi Hl. unfold linkTestPost.
  pose proof keeps_anyPendingDiffers. keeps_auto.
Qed.

Lemma keeps_clearTemporaries :
  writesSlot R withTemporary → (∀ i, logs R (EvUnlink i)) → keeps R clearTemporaries.
Proof. intros Ht Hu. unfold clearTemporaries. keeps_auto. Qed.

Lemma keeps_linkTest this :
  writesSlot R withPending → writesSlot R withPrevious → writesSlot R withTemporary →
  (∀ i, logs R (EvInstantiate i)) → (∀ i, logs R (EvLink i)) → (∀ i, logs R (EvUnlink i)) →
  keeps R (linkTest linkVerdict this).
Proof.
  intros Hp Hq Ht Hi Hl Hu. unfold linkTest. keeps_auto.
  - unfold linkTestPre. keeps_auto.
  - by apply keeps_linkTestPost.
  - by apply keeps_rollback.
  - by apply keeps_clearTemporaries.
Qed.

Lemma keeps_markInvalidated tag nodes :
  (∀ u n, writes R u (withVisitIndex n)) → keeps R (markInvalidated tag nodes).
Proof. intros Hv. induction nodes as [|x l IH]; simpl; keeps_auto. Qed.

Lemma keeps_importedModulesOf nodes : keeps R (importedModulesOf nodes).
Proof. induction nodes as [|x l IH]; simpl; keeps_auto. Qed.

Lemma keeps_invalidationChain tag result :
  (∀ u n, writes R u (withVisitIndex n)) → keeps R (invalidationChain tag result).
Proof.
  intros Hv. revert result.
  fix IH 1. intros [frs ds inv b1 b2 b3]. simpl.
  apply (keeps_bind R); [by apply keeps_markInvalidated|]. intros [|]; [apply (keeps_ret R)|].
  apply (keeps_bind R); [apply keeps_importedModulesOf|]. intros imported.
  apply (keeps_bind R); [|intros ?; apply (keeps_ret R)].
  induction frs as [|r rest IHf]; [apply (keeps_ret R)|].
  apply (keeps_bind R).
  - destruct (Nat.ltb _ _); [apply IH|apply (keeps_ret R)].
  - intros chains. apply (keeps_bind R); [apply IHf|]. intros ?. apply (keeps_ret R).
Qed.

Lemma keeps_traverseChildren recurse tag onYield children :
  (∀ u n, writes R u (withVisitIndex n)) →
  (∀ u, keeps R (recurse u)) → (∀ u, keeps R (onYield u)) →
  keeps R (traverseChildren recurse tag onYield children).
Proof. intros Hv Hr Hy. induction children as [|c l IH]; simpl; keeps_auto. Qed.

Lemma keeps_traverseFrom fuel tag onYield node :
  (∀ u n, writes R u (withVisitIndex n)) → (∀ u, keeps R (onYield u)) →
  keeps R (traverseFrom fuel tag onYield node).
Proof.
  intros Hv Hy. revert node. induction fuel as [|fuel IH]; intros node; simpl; keeps_auto.
  by apply keeps_traverseChildren.
Qed.

Lemma keeps_traverse this onYield :
  (∀ u n, writes R u (withVisitIndex n)) → (∀ u, keeps R (onYield u)) →
  keeps R (traverse this onYield).
Proof. intros Hv Hy. unfold traverse. keeps_auto. by apply keeps_traverseFrom. Qed.

(** What phase 3 writes and logs. *)
Definition commitAllowed : Prop :=
  writesSlot R withCurrent ∧ writesSlot R withPending ∧ writesSlot R withStaging
  ∧ (∀ i, logs R (EvInstantiate i)) ∧ (∀ i, logs R (EvLink i))
  ∧ (∀ i, logs R (EvRelink i)) ∧ (∀ i, logs R (EvEvaluate i))
  ∧ (∀ i, logs R (EvDispose i)) ∧ (∀ i d, logs R (EvAccept i d))
  ∧ (∀ i, logs R (EvAcceptSelf i)).

Lemma keeps_anyNewCode l : keeps R (anyNewCode l).
Proof. induction l as [|x l IH]; simpl; keeps_auto. Qed.

Lemma keeps_anyUnaccepted forwardUpdates l :
  (∀ i, logs R (EvRelink i)) → (∀ i d, logs R (EvAccept i d)) →
  keeps R (anyUnaccepted linkVerdict forwardUpdates l).
Proof. intros Hr Ha. induction l as [|x l IH]; simpl; keeps_auto. Qed.

Lemma keeps_replaceInstance node :
  writesSlot R withCurrent → (∀ i, logs R (EvInstantiate i)) → (∀ i, logs R (EvDispose i)) →
  keeps R (replaceInstance node).
Proof. intros Hc Hi Hd. unfold replaceInstance. keeps_auto. Qed.

Lemma keeps_evaluationRollback nodes :
  writesSlot R withCurrent → keeps R (evaluationRollback nodes).
Proof. intros Hc. unfold evaluationRollback. keeps_auto. Qed.

Lemma keeps_evaluateNode node :
  writesSlot R withPending → writesSlot R withStaging → (∀ i, logs R (EvEvaluate i)) →
  keeps R (evaluateNode node).
Proof. intros Hp Hs He. unfold evaluateNode. keeps_auto. Qed.

Lemma keeps_trySelfAccepts l :
  (∀ i, logs R (EvAcceptSelf i)) → keeps R (trySelfAccepts l).
Proof. intros Ha. induction l as [|x l IH]; simpl; keeps_auto. Qed.

Lemma keeps_commitPost ns frs : commitAllowed → keeps R (commitPost linkVerdict ns frs).
Proof.
  intros (Hc & Hp & Hs & Hi & Hl & Hr & He & Hd & Ha & Hx). unfold commitPost.
  apply (keeps_bind R); [apply keeps_anyNewCode|]. intros newCode.
  apply (keeps_bind R).
  { destruct (_ && _); [by apply keeps_anyUnaccepted|apply (keeps_ret R)]. }
  intros needsUpdate. destruct (negb needsUpdate); [keeps_auto|].
  apply (keeps_bind R); [apply (keeps_forEach R); intros ?; by apply keeps_replaceInstance|]. intros _.
  apply (keeps_bind R); [keeps_auto|]. intros _.
  apply (keeps_bind R).
  { apply (keeps_iterateWithRollback R); intros ?;
      [by apply keeps_evaluationRollback|by apply keeps_evaluateNode]. }
  intros _. apply (keeps_bind R); [by apply keeps_trySelfAccepts|]. intros ?. apply (keeps_ret R).
Qed.

Lemma keeps_commit this : commitAllowed → keeps R (commit linkVerdict this).
Proof.
  intros Hc. unfold commit, commitResult. keeps_auto.
  - unfold commitPre. keeps_auto.
  - by apply keeps_commitPost.
Qed.

Lemma keeps_recover this :
  writesSlot R withPending → (∀ i, logs R (EvUnlink i)) → (∀ i, logs R (EvRelink i)) →
  keeps R (recover linkVerdict this).
Proof.
  intros Hp Hu Hr. unfold recover. keeps_auto.
  - unfold recoverPre. keeps_auto.
  - unfold recoverPost. keeps_auto.
Qed.

Lemma keeps_setFatalError this f :
  (∀ v, writes R this (withFatalError v)) → keeps R (setFatalError this f).
Proof. intros Hf. unfold setFatalError. keeps_auto. Qed.

Lemma keeps_commitCatch this error :
  writesSlot R withPending → (∀ i, logs R (EvUnlink i)) → (∀ i, logs R (EvRelink i)) →
  (∀ v, writes R this (withFatalError v)) →
  keeps R (commitCatch linkVerdict this error).
Proof.
  intros Hp Hu Hr Hf. unfold commitCatch.
  apply (keeps_bind R); [by apply keeps_recover|]. intros _. keeps_auto.
  by apply keeps_setFatalError.
Qed.

Lemma keeps_pruneOrphans this currentControllers previousControllers :
  writesSlot R withCurrent → writesSlot R withPrevious → writesSlot R withStaging →
  (∀ i, logs R (EvPrune i)) → (∀ v, writes R this (withFatalError v)) →
  keeps R (pruneOrphans this currentControllers previousControllers).
Proof.
  intros Hc Hp Hs Hl Hf. induction previousControllers as [|c l IH]; simpl; [apply (keeps_ret R)|].
  destruct (mem c currentControllers); [done|].
  apply (keeps_bind R); [apply (keeps_select R)|]. intros cur.
  apply (keeps_bind R).
  { apply (keeps_tryCatch R); [keeps_auto|]. intros e.
    apply (keeps_bind R); [by apply keeps_setFatalError|]. intros ?. apply (keeps_ret R). }
  intros [r|]; [apply (keeps_ret R)|]. keeps_auto.
Qed.

Lemma keeps_finalize this previousControllers :
  writesSlot R withCurrent → writesSlot R withPrevious → writesSlot R withStaging →
  (∀ u n, writes R u (withVisitIndex n)) →
  (∀ i, logs R (EvPrune i)) → (∀ v, writes R this (withFatalError v)) →
  keeps R (finalize this previousControllers).
Proof.
  intros Hc Hp Hs Hv Hl Hf. unfold finalize.
  apply (keeps_bind R).
  { apply keeps_traverse; [done|]. intros u. unfold clearPrevious. keeps_auto. }
  intros cs. by apply keeps_pruneOrphans.
Qed.

(** What a whole update writes and logs: everything but an eviction, and
    [fatalError] on the root only. *)
Definition updateAllowed (this : string) : Prop :=
  commitAllowed ∧ writesSlot R withPrevious ∧ writesSlot R withTemporary
  ∧ (∀ u n, writes R u (withVisitIndex n))
  ∧ (∀ i, logs R (EvUnlink i)) ∧ (∀ i, logs R (EvPrune i))
  ∧ (∀ v, writes R this (withFatalError v)).

Lemma keeps_commitAndFinalize this previousControllers :
  updateAllowed this → keeps R (commitAndFinalize linkVerdict this previousControllers).
Proof.
  intros (Hca & Hq & Ht & Hv & Hu & Hpr & Hf) s.
  pose proof Hca as (Hc & Hp & Hs & Hi & Hl & Hr & He & Hd & Ha & Hx).
  unfold commitAndFinalize.
  assert (keeps R (tryCatch (commit linkVerdict this) (commitCatch linkVerdict this))) as H1.
  { apply (keeps_tryCatch R); [by apply keeps_commit|]. intros e. by apply keeps_commitCatch. }
  specialize (H1 s). destruct (tryCatch _ _ s) as [completion s1]. simpl in H1.
  pose proof (keeps_finalize this previousControllers Hc Hq Hs Hv Hpr Hf s1) as H2.
  destruct (finalize this previousControllers s1) as [[[r|]|e] s2]; simpl in *;
    try (eapply tol_trans; [exact H1|exact H2]).
  destruct completion as [[r|]|e]; simpl; eapply tol_trans; eauto.
Qed.

Lemma keeps_requestUpdate this :
  updateAllowed this → keeps R (requestUpdate linkVerdict this).
Proof.
  intros Hall. pose proof Hall as (Hca & Hq & Ht & Hv & Hu & Hpr & Hf).
  pose proof Hca as (Hc & Hp & Hs & Hi & Hl & Hr & He & Hd & Ha & Hx).
  unfold requestUpdate.
  apply (keeps_bind R); [apply (keeps_gets R)|]. intros [f|]; [apply (keeps_ret R)|].
  apply (keeps_bind R); [keeps_auto|]. intros _.
  apply (keeps_bind R); [by apply keeps_dryRun|]. intros initialResult.
  destruct (negb _).
  { apply (keeps_bind R); [by apply keeps_rollback|]. intros _. apply (keeps_ret R). }
  destruct (drHasDecline _).
  { apply (keeps_bind R); [by apply keeps_rollback|]. intros _. apply (keeps_ret R). }
  destruct (Nat.ltb _ _).
  { apply (keeps_bind R); [apply (keeps_acquireVisitIndex R)|]. intros tag.
    apply (keeps_bind R); [by apply keeps_invalidationChain|]. intros chain.
    apply (keeps_bind R); [by apply keeps_rollback|]. intros _. apply (keeps_ret R). }
  apply (keeps_bind R).
  { destruct (drHasNewCode _); [by apply keeps_linkTest|apply (keeps_ret R)]. }
  intros [r|]; [apply (keeps_ret R)|].
  apply (keeps_bind R); [apply keeps_traverse; [done|intros u; apply (keeps_ret R)]|].
  intros previousControllers. by apply keeps_commitAndFinalize.
Qed.

Lemma keeps_load evictModule this body meta usesDynamicImport format importAssertions loadedModules :
  (∀ v, writes R this (withStaging v)) → (∀ v, logs R (EvEvict this v)) →
  keeps R (load evictModule this body meta usesDynamicImport format importAssertions loadedModules).
Proof.
  intros Hs He. unfold load.
  apply (keeps_bind R).
  { destruct evictModule; [|apply (keeps_ret R)]. keeps_auto. }
  intros _. apply (keeps_bind R); [intros s; apply tol_declarations|]. intros d. keeps_auto.
Qed.

Lemma keeps_unlinkAndForget nodes :
  writesSlot R withCurrent → (∀ i, logs R (EvUnlink i)) → keeps R (unlinkAndForget nodes).
Proof. intros Hc Hu. unfold unlinkAndForget. keeps_auto. Qed.

Lemma keeps_dispatch this :
  writesSlot R withCurrent → writesSlot R withStaging →
  (∀ i, logs R (EvInstantiate i)) → (∀ i, logs R (EvLink i)) →
  (∀ i, logs R (EvUnlink i)) → (∀ i, logs R (EvEvaluate i)) →
  keeps R (dispatch linkVerdict this).
Proof.
  intros Hc Hs Hi Hl Hu He. unfold dispatch.
  apply (keeps_bind R); [apply (keeps_gets R)|]. intros [c|]; [apply (keeps_ret R)|].
  apply (keeps_bind R).
  { apply (keeps_traverseDepthFirst R).
    - intros n. unfold dispatchPre. keeps_auto.
    - intros ns frs. unfold dispatchLink. keeps_auto. by apply keeps_unlinkAndForget.
    - intros ns. by apply keeps_unlinkAndForget. }
  intros _. apply (keeps_traverseDepthFirst R).
  - intros n. keeps_auto.
  - intros ns frs. unfold dispatchEvaluate. keeps_auto.
  - intros ns. apply (keeps_ret R).
Qed.

End KeepsPhases.

(** * The operations of the runtime, as the host, the file watcher and the
    user code call them between updates *)

Inductive Operation :=
  | OpLoad (u : string) (body : ModuleBody) (meta : option string)
      (usesDynamicImport : bool) (format : string)
      (importAssertions : list (string * string))
      (loadedModules : list LoadedModuleRequestEntry)
  | OpDispatch (u : string)
  | OpRequestUpdate (u : string)
  | OpInvalidate (i : nat)
  | OpFileChanged (u : string)
  | OpAcquire (u : string).

Definition withVersion (n : nat) (c : ReloadableModuleController) :=
  {| current := current c; pending := pending c; previous := previous c;
     staging := staging c; temporary := temporary c;
     fatalErrorOf := fatalErrorOf c; visitIndex := visitIndex c;
     version := n |}.

(** The watcher callback of the constructor, line 221: [++this.version]. *)
Definition fileChanged (u : string) : M unit :=
  modify (fun s => updateCtrl u (withVersion (S (version (ctrl u s)))) s).

Definition runOperation
    (linkVerdict : (string → option ModuleDeclaration) → string → ModuleDeclaration → option Error)
    (evictModule : bool) (op : Operation) (s : State) : State :=
  match op with
  | OpLoad u body meta usesDynamicImport format importAssertions loadedModules =>
      snd (load evictModule u body meta usesDynamicImport format importAssertions loadedModules s)
  | OpDispatch u => snd (dispatch linkVerdict u s)
  | OpRequestUpdate u => snd (requestUpdate linkVerdict u s)
  | OpInvalidate i => snd (invalidate i s)
  | OpFileChanged u => snd (fileChanged u s)
  | OpAcquire u => snd (acquire u s)
  end.

Definition runOperations linkVerdict evictModule (ops : list Operation) (s : State) : State :=
  fold_left (fun s op => runOperation linkVerdict evictModule op s) ops s.

Section StickyFatal.
Variable linkVerdict : (string → option ModuleDeclaration) → string → ModuleDeclaration → option Error.
Variable evictModule : bool.

Lemma sameField_updateAllowed {A} (g : ReloadableModuleController → A) (except : string → Prop) this :
  (∀ v c, g (withCurrent v c) = g c) → (∀ v c, g (withPending v c) = g c) →
  (∀ v c, g (withPrevious v c) = g c) → (∀ v c, g (withStaging v c) = g c) →
  (∀ v c, g (withTemporary v c) = g c) → (∀ v c, g (withVisitIndex v c) = g c) →
  ((∀ v c, g (withFatalError v c) = g c) ∨ except this) →
  updateAllowed (sameField g except) this.
Proof.
  intros Hc Hp Hq Hs Ht Hv Hf. unfold updateAllowed, commitAllowed, writesSlot.
  split_and!; try solve [intros; apply sameField_logs];
    try solve [intros; apply sameField_writes; intros; auto].
  intros w. destruct Hf as [Hf|Hf]; [by apply sameField_writes|by apply sameField_writes_except].
Qed.

(** No operation clears or replaces a [fatalError] that is set. *)
Lemma fatalError_kept op s u f :
  fatalErrorOf (ctrl u s) = Some f →
  fatalErrorOf (ctrl u (runOperation linkVerdict evictModule op s)) = Some f.
Proof.
  intros Hf. destruct op as [v b m d fm ia lm|v|v|i|v|v]; simpl.
  - rewrite <- Hf.
    apply (keeps_load (sameField fatalErrorOf (λ _, False)) (Tolerates0 := sameField_Tolerates _ _));
      [intros; by apply sameField_writes|intros; apply sameField_logs|auto].
  - rewrite <- Hf.
    apply (keeps_dispatch (sameField fatalErrorOf (λ _, False)) (Tolerates0 := sameField_Tolerates _ _));
      try (intros; apply sameField_logs); try (intros ? ?; by apply sameField_writes); auto.
  - destruct (decide (v = u)) as [->|Hne].
    + unfold requestUpdate, bind, gets. rewrite Hf. done.
    + rewrite <- Hf.
      apply (keeps_requestUpdate (sameField fatalErrorOf (eq v)) (Tolerates0 := sameField_Tolerates _ _));
        [|done]. apply sameField_updateAllowed; auto.
  - done.
  - unfold fileChanged, modify; simpl. rewrite <- Hf. by apply ctrl_updateCtrl_field.
  - rewrite <- Hf. f_equal. apply ctrl_acquire.
Qed.

Lemma fatalError_kept_all ops s u f :
  fatalErrorOf (ctrl u s) = Some f →
  fatalErrorOf (ctrl u (runOperations linkVerdict evictModule ops s)) = Some f.
Proof.
  revert s. induction ops as [|op ops IH]; intros s Hf; simpl; [done|].
  apply IH. by apply fatalError_kept.
Qed.

End StickyFatal.

(** * Inversion of monadic computations *)

Lemma bind_Ok {A B} (m : M A) (k : A → M B) s b s' :
  bind m k s = (Ok b, s') → ∃ a s1, m s = (Ok a, s1) ∧ k a s1 = (Ok b, s').
Proof.
  unfold bind. destruct (m s) as [[a|e] s1]; [eauto|done].
Qed.

Lemma bind_Throw {A B} (m : M A) (k : A → M B) s e s' :
  bind m k s = (Throw e, s') →
  m s = (Throw e, s') ∨ ∃ a s1, m s = (Ok a, s1) ∧ k a s1 = (Throw e, s').
Proof.
  unfold bind. destruct (m s) as [[a|e0] s1]; [eauto|]. intros [= -> ->]. by left.
Qed.

Lemma bind_eq {A B} (m : M A) (k : A → M B) s a s1 :
  m s = (Ok a, s1) → bind m k s = k a s1.
Proof. unfold bind. by intros ->. Qed.

Lemma ret_Ok {A} (a b : A) s s' : ret a s = (Ok b, s') → a = b ∧ s = s'.
Proof. by intros [= -> ->]. Qed.

Lemma gets_Ok {A} (f : State → A) b s s' : gets f s = (Ok b, s') → f s = b ∧ s = s'.
Proof. by intros [= -> ->]. Qed.

Lemma modify_Ok f b s s' : modify f s = (Ok b, s') → f s = s'.
Proof. by intros [= _ ->]. Qed.

Lemma select_Ok u sel i s s' : select u sel s = (Ok i, s') → sel u s = Some i ∧ s' = s.
Proof. unfold select. destruct (sel u s); by intros [= -> ->]. Qed.

(** The set of controllers is fixed. *)
Definition sameDom (s s' : State) : Prop := dom (controllers s') = dom (controllers s).

Lemma sameDom_Tolerates : Tolerates sameDom.
Proof.
  split; unfold sameDom; try done. intros a b c Hab Hbc. by rewrite Hbc.
Qed.

Global Existing Instance sameDom_Tolerates.

Lemma sameDom_logs e : logs sameDom e.
Proof. done. Qed.

Lemma sameDom_writes u f : writes sameDom u f.
Proof. intros s. apply dom_updateCtrl. Qed.

Lemma sameDom_updateAllowed this : updateAllowed sameDom this.
Proof.
  unfold updateAllowed, commitAllowed, writesSlot.
  split_and!; intros; try apply sameDom_logs; apply sameDom_writes.
Qed.

Lemma ctrl_some_dom {A} (g : ReloadableModuleController → option A) u s x :
  g newController = None → g (ctrl u s) = Some x → u ∈ dom (controllers s).
Proof.
  intros Hg Hx. apply elem_of_dom. unfold ctrl in Hx.
  destruct (controllers s !! u); [eauto|]. simpl in Hx. congruence.
Qed.

(** A traversal that returns has pre-visited its root. *)
Lemma traverseDepthFirst_Ok_pre {Result} (visitPre : string → M (list string))
    (visitPost : list string → list Result → M Result) root onCancel s r s' :
  traverseDepthFirst visitPre visitPost root onCancel s = (Ok r, s') →
  ∃ cs s1, visitPre root s = (Ok cs, s1).
Proof.
  unfold traverseDepthFirst. simpl. destruct (visitPre root s) as [[cs|e] s1]; [eauto|].
  destruct (onCancel _ s1) as [[x|e'] s2]; done.
Qed.

Lemma dryRun_Ok_dom this s r s' :
  dryRun this s = (Ok r, s') → this ∈ dom (controllers s).
Proof.
  intros H. apply traverseDepthFirst_Ok_pre in H as (cs & s1 & H).
  unfold dryRunPre in H. apply bind_Ok in H as (staged & s2 & H1 & H).
  apply gets_Ok in H1 as [H1 ->]. apply bind_Ok in H as (next & s3 & H2 & _).
  destruct staged as [i|].
  - by apply (ctrl_some_dom staging _ _ i).
  - apply select_Ok in H2 as [H2 _]. by apply (ctrl_some_dom current _ _ next).
Qed.

Section FatalStored.
Variable linkVerdict : (string → option ModuleDeclaration) → string → ModuleDeclaration → option Error.

Definition sameFatal : State → State → Prop := sameField fatalErrorOf (λ _, False).

Lemma sameFatal_Tolerates : Tolerates sameFatal.
Proof. apply sameField_Tolerates. Qed.

Global Existing Instance sameFatal_Tolerates.

Lemma setFatalError_stored this f s :
  this ∈ dom (controllers s) →
  ∃ s', setFatalError this f s = (Ok (Some (UpdateFatal f)), s')
        ∧ fatalErrorOf (ctrl this s') = Some f
        ∧ sameDom s s'.
Proof.
  intros Hd. eexists. split; [reflexivity|]. split.
  - apply elem_of_dom in Hd. by rewrite ctrl_updateCtrl_eq.
  - apply dom_updateCtrl.
Qed.

(** What the [finally] block returns. *)
Definition finalizePost (this : string) (s : State)
    (out : Outcome (option UpdateResult) * State) : Prop :=
  match out with
  | (Ok (Some r), s2) =>
      ∃ f, r = Some (UpdateFatal f) ∧ feType f = fatalError
           ∧ fatalErrorOf (ctrl this s2) = Some f
  | (Ok None, s2) => sameFatal s s2
  | (Throw _, _) => True
  end.

Lemma pruneOrphans_fatal this currentControllers previousControllers s :
  this ∈ dom (controllers s) →
  finalizePost this s (pruneOrphans this currentControllers previousControllers s).
Proof.
  revert s. induction previousControllers as [|c rest IH]; intros s Hd; simpl.
  - by intros u _.
  - destruct (mem c currentControllers); [by apply IH|].
    unfold bind at 1. destruct (select c selectCurrent s) as [[cur|e] s1] eqn:Hsel; [|done].
    apply select_Ok in Hsel as [_ ->].
    unfold bind at 1. unfold tryCatch.
    pose proof (keeps_prune sameFatal (Tolerates0 := sameFatal_Tolerates) cur
                  (sameField_logs _ _ _) s) as Hp1.
    pose proof (keeps_prune sameDom (Tolerates0 := sameDom_Tolerates) cur
                  (sameDom_logs _) s) as Hp2.
    unfold bind at 1. destruct (prune cur s) as [[[]|e] sp]; simpl in Hp1, Hp2.
    + cbn [ret]. unfold bind, clone, constructInstance, modify. cbn [fst snd].
      match goal with |- finalizePost _ _ (pruneOrphans _ _ _ ?sk) =>
        assert (sameFatal sp sk) as Hk1 by
          (intros u _; rewrite !(ctrl_updateCtrl_field fatalErrorOf) by done; done);
        assert (sameDom sp sk) as Hk2 by
          (unfold sameDom; by rewrite !dom_updateCtrl);
        specialize (IH sk)
      end.
      match type of IH with ?P → _ => assert P as Hd' end.
      { rewrite Hk2, Hp2. done. }
      specialize (IH Hd'). unfold finalizePost in *.
      destruct (pruneOrphans _ _ _ _) as [[[r|]|e] s2]; [done| |done].
      intros u Hu. rewrite (IH u Hu), (Hk1 u Hu), (Hp1 u Hu). done.
    + assert (this ∈ dom (controllers sp)) as Hd' by (by rewrite Hp2).
      destruct (setFatalError_stored this {| feType := fatalError; feError := e |} sp Hd')
        as (s' & Hs & Hst & _).
      unfold bind at 1. rewrite Hs. cbn [ret]. exists {| feType := fatalError; feError := e |}. done.
Qed.

Lemma keeps_traverse_clearPrevious R `{!Tolerates R} this :
  (∀ u n, writes R u (withVisitIndex n)) → writesSlot R withPrevious →
  keeps R (traverse this clearPrevious).
Proof.
  intros Hv Hp. apply (keeps_traverse R); [done|].
  intros u. unfold clearPrevious. keeps_auto.
Qed.

Lemma finalize_fatal this previousControllers s :
  this ∈ dom (controllers s) →
  finalizePost this s (finalize this previousControllers s).
Proof.
  intros Hd. unfold finalize, bind.
  pose proof (keeps_traverse_clearPrevious sameDom (Tolerates0 := sameDom_Tolerates) this
                ltac:(intros; apply sameDom_writes) ltac:(intros ? ?; apply sameDom_writes) s) as H1.
  pose proof (keeps_traverse_clearPrevious sameFatal (Tolerates0 := sameFatal_Tolerates) this
                ltac:(intros; by apply sameField_writes)
                ltac:(intros ? ?; by apply sameField_writes) s) as H2.
  destruct (traverse this clearPrevious s) as [[cs|e] s1]; simpl in *; [|done].
  assert (this ∈ dom (controllers s1)) as Hd1 by (by rewrite H1).
  pose proof (pruneOrphans_fatal this cs previousControllers s1 Hd1) as H3.
  unfold finalizePost in *.
  destruct (pruneOrphans _ _ _ _) as [[[r|]|e] s2]; [done| |done].
  intros u Hu. by rewrite (H3 u Hu), (H2 u Hu).
Qed.

(** A [fatalError] result is the object stored in the controller. *)
Definition fatalResultStored (this : string) (r : UpdateResult) (s : State) : Prop :=
  ∀ f, r = Some (UpdateFatal f) → fatalErrorOf (ctrl this s) = Some f.

Lemma commitCatch_stored this error s :
  this ∈ dom (controllers s) →
  match commitCatch linkVerdict this error s with
  | (Ok (Some r), s1) => fatalResultStored this r s1
  | (Ok None, _) => False
  | (Throw _, _) => True
  end.
Proof.
  intros Hd. unfold commitCatch, bind.
  pose proof (keeps_recover sameDom (Tolerates0 := sameDom_Tolerates) linkVerdict this
                ltac:(intros ? ?; apply sameDom_writes) ltac:(intros; apply sameDom_logs)
                ltac:(intros; apply sameDom_logs) s) as H1.
  destruct (recover linkVerdict this s) as [[[]|e] s1]; simpl in *; [|done].
  cbn [gets]. destruct (dispatchLinkErrorType (frame s1)) as [type|].
  - assert (this ∈ dom (controllers s1)) as Hd1 by (by rewrite H1).
    cbn [ret]. intros f [= <-]. rewrite ctrl_updateCtrl_eq; [done|]. by apply elem_of_dom.
  - cbn [ret]. intros f [=].
Qed.

Lemma commit_returns this s :
  match commit linkVerdict this s with
  | (Ok (Some r), _) => r = None
  | _ => True
  end.
Proof.
  unfold commit, bind. destruct (commitResult _ _ s) as [[r|e] s1]; [|done].
  destruct (negb _); done.
Qed.

Lemma commitAndFinalize_stored this previousControllers s :
  this ∈ dom (controllers s) →
  match commitAndFinalize linkVerdict this previousControllers s with
  | (Ok r, s2) => fatalResultStored this r s2
  | (Throw _, _) => True
  end.
Proof.
  intros Hd. unfold commitAndFinalize.
  assert (match tryCatch (commit linkVerdict this) (commitCatch linkVerdict this) s with
          | (Ok (Some r), s1) => fatalResultStored this r s1
          | _ => True
          end ∧ sameDom s (snd (tryCatch (commit linkVerdict this) (commitCatch linkVerdict this) s)))
    as [H1 H1d].
  { unfold tryCatch.
    pose proof (commit_returns this s) as Hc.
    pose proof (keeps_commit sameDom (Tolerates0 := sameDom_Tolerates) linkVerdict this
                  (proj1 (sameDom_updateAllowed this)) s) as Hcd.
    destruct (commit linkVerdict this s) as [[[r|]|e] s1]; simpl in *.
    - subst r. split; [|done]. intros f [=].
    - done.
    - assert (this ∈ dom (controllers s1)) as Hd1 by (by rewrite Hcd).
      pose proof (commitCatch_stored this e s1 Hd1) as Hcc.
      pose proof (keeps_commitCatch sameDom (Tolerates0 := sameDom_Tolerates) linkVerdict this e
                ltac:(intros ? ?; apply sameDom_writes) ltac:(intros; apply sameDom_logs)
                ltac:(intros; apply sameDom_logs) ltac:(intros; apply sameDom_writes) s1) as Hccd.
      destruct (commitCatch linkVerdict this e s1) as [[[r|]|e'] s2]; simpl in *; try done.
      + split; [done|]. unfold sameDom in *. by rewrite Hccd.
      + split; [done|]. unfold sameDom in *. by rewrite Hccd. }
  destruct (tryCatch _ _ s) as [completion s1]. simpl in H1d.
  assert (this ∈ dom (controllers s1)) as Hd1 by (by rewrite H1d).
  pose proof (finalize_fatal this previousControllers s1 Hd1) as H2.
  unfold finalizePost in H2.
  destruct (finalize this previousControllers s1) as [[[r|]|e] s2]; [| |done].
  - destruct H2 as (f & -> & _ & Hf). by intros f' [= <-].
  - destruct completion as [[r|]|e]; [| |done].
    + intros f Hr. rewrite (H2 this); [by apply H1|tauto].
    + intros f [=].
Qed.

Lemma linkTest_returns this s :
  match linkTest linkVerdict this s with
  | (Ok (Some r), _) => ∃ error, r = Some (UpdateLinkError error)
  | _ => True
  end.
Proof.
  unfold linkTest, tryFinally, tryCatch, bind.
  destruct (traverseDepthFirst _ _ _ _ s) as [[r|e] s1].
  - cbn [ret]. by destruct (clearTemporaries s1) as [[[]|?] ?].
  - destruct (rollback s1) as [[[]|?] s2]; cbn [ret].
    + destruct (clearTemporaries s2) as [[[]|?] ?]; eauto.
    + by destruct (clearTemporaries s2) as [[[]|?] ?].
Qed.

Lemma requestUpdate_stored this s :
  match requestUpdate linkVerdict this s with
  | (Ok r, s') => fatalResultStored this r s'
  | (Throw _, _) => True
  end.
Proof.
  unfold requestUpdate. unfold bind at 1. cbn [gets].
  destruct (fatalErrorOf (ctrl this s)) as [f|] eqn:Hf.
  { cbn [ret]. by intros f' [= <-]. }
  unfold bind at 1. cbn [modify]. set (s0 := setFrame _ s).
  unfold bind at 1.
  pose proof (dryRun_Ok_dom this s0) as Hd.
  pose proof (keeps_dryRun sameDom (Tolerates0 := sameDom_Tolerates) this
                ltac:(intros ? ?; apply sameDom_writes) ltac:(intros ? ?; apply sameDom_writes) s0) as Hdd.
  destruct (dryRun this s0) as [[initialResult|e] s1]; [|done].
  specialize (Hd _ _ eq_refl). simpl in Hdd.
  destruct (negb _).
  { unfold bind. destruct (rollback s1) as [[[]|?] ?]; [|done]. cbn [ret]. intros f [=]. }
  destruct (drHasDecline _).
  { unfold bind. destruct (rollback s1) as [[[]|?] ?]; [|done]. cbn [ret]. intros f [=]. }
  destruct (Nat.ltb _ _).
  { unfold bind. destruct (acquireVisitIndex s1) as [[tag|?] s2]; [|done].
    destruct (invalidationChain tag initialResult s2) as [[chain|?] s3]; [|done].
    destruct (rollback s3) as [[[]|?] ?]; [|done]. cbn [ret]. intros f [=]. }
  unfold bind at 1.
  assert (match (if drHasNewCode initialResult then linkTest linkVerdict this else ret None) s1 with
          | (Ok (Some r), _) => ∃ error, r = Some (UpdateLinkError error)
          | (_, s2) => sameDom s1 s2
          end) as Hlt.
  { destruct (drHasNewCode initialResult); [|done].
    pose proof (linkTest_returns this s1) as H1.
    pose proof (keeps_linkTest sameDom (Tolerates0 := sameDom_Tolerates) linkVerdict this
                ltac:(intros ? ?; apply sameDom_writes) ltac:(intros ? ?; apply sameDom_writes)
                ltac:(intros ? ?; apply sameDom_writes) ltac:(intros; apply sameDom_logs)
                ltac:(intros; apply sameDom_logs) ltac:(intros; apply sameDom_logs) s1) as H2.
    destruct (linkTest linkVerdict this s1) as [[[r|]|e] s2]; done. }
  destruct ((if drHasNewCode initialResult then linkTest linkVerdict this else ret None) s1)
    as [[[r|]|e] s2]; [| |done].
  { destruct Hlt as [error ->]. cbn [ret]. intros f [=]. }
  unfold bind at 1.
  pose proof (keeps_traverse sameDom (Tolerates0 := sameDom_Tolerates) this (λ _, ret tt)
                ltac:(intros; apply sameDom_writes) ltac:(intros; apply (keeps_ret sameDom)) s2) as Ht.
  destruct (traverse this _ s2) as [[previousControllers|e] s3]; [|done].
  apply commitAndFinalize_stored. simpl in Ht. unfold sameDom in *.
  rewrite Ht, Hlt, Hdd. done.
Qed.

End FatalStored.

(** C5. Once [requestUpdate] has returned a [fatalError] result, every later
    call on that controller, after any operations of the runtime (loads,
    dispatches, invalidations, watcher events and updates, also of other
    roots), returns that same result at once: the store, and with it the log
    of callbacks that ran, is what it was before the call. *)
Theorem requestUpdate_sticky_fatal linkVerdict evictModule this s f s1 ops :
  requestUpdate linkVerdict this s = (Ok (Some (UpdateFatal f)), s1) →
  let s2 := runOperations linkVerdict evictModule ops s1 in
  fatalErrorOf (ctrl this s2) = Some f
  ∧ requestUpdate linkVerdict this s2 = (Ok (Some (UpdateFatal f)), s2).
Proof.
  intros Hr s2. pose proof (requestUpdate_stored linkVerdict this s) as Hs.
  rewrite Hr in Hs. specialize (Hs f eq_refl).
  assert (fatalErrorOf (ctrl this s2) = Some f) as H2 by (by apply fatalError_kept_all).
  split; [done|]. unfold requestUpdate, bind, gets. by rewrite H2.
Qed.

(** * Phase 1: the dry run and the rollback

    The dry run writes [pending] and [previous] of the controllers it visits
    and nothing else; the rollback clears them again. *)

Lemma dryRunPre_Ok n s cs s' :
  dryRunPre n s = (Ok cs, s') →
  ∃ next, orElse (staging (ctrl n s)) (current (ctrl n s)) = Some next
    ∧ n ∈ dom (controllers s)
    ∧ s' = updateCtrl n (withPrevious (current (ctrl n s)))
             (updateCtrl n (withPending (Some next)) s)
    ∧ cs = reloadableChildren (loadedModules (declarationOf next s))
           ++ dynamicImports (inst (default next (current (ctrl n s))) s).
Proof.
  unfold dryRunPre. intros H.
  apply bind_Ok in H as (staged & s1 & H1 & H). apply gets_Ok in H1 as [<- <-].
  apply bind_Ok in H as (next & s1 & H1 & H).
  assert (orElse (staging (ctrl n s)) (current (ctrl n s)) = Some next ∧ s1 = s) as [Hnext ->].
  { destruct (staging (ctrl n s)) as [i|].
    - by apply ret_Ok in H1 as [-> ->].
    - apply select_Ok in H1 as [H1 ->]. done. }
  clear H1.
  assert (n ∈ dom (controllers s)) as Hdom.
  { destruct (staging (ctrl n s)) as [i|] eqn:Hs.
    - by apply (ctrl_some_dom staging _ _ i).
    - by apply (ctrl_some_dom current _ _ next). }
  assert (is_Some (controllers s !! n)) as Hsome by (by apply elem_of_dom).
  exists next. split; [done|]. split; [done|].
  apply bind_Ok in H as ([] & s1 & H1 & H). apply modify_Ok in H1 as <-.
  apply bind_Ok in H as ([] & s1 & H1 & H). apply modify_Ok in H1 as <-.
  set (s2 := updateCtrl n _ (updateCtrl n _ s)) in *.
  assert (ctrl n (updateCtrl n (withPending (Some next)) s) = withPending (Some next) (ctrl n s)) as E1
    by (by rewrite ctrl_updateCtrl_eq).
  assert (ctrl n s2 = withPrevious (current (ctrl n s)) (withPending (Some next) (ctrl n s))) as E2.
  { subst s2. rewrite ctrl_updateCtrl_eq, E1; [done|].
    apply elem_of_dom. rewrite dom_updateCtrl. by apply elem_of_dom. }
  unfold iterateWithDynamics, iterate in H.
  apply bind_Ok in H as (statics & s3 & H1 & H).
  apply bind_Ok in H1 as (i & s4 & H1 & H2). apply select_Ok in H1 as [H1 ->].
  apply gets_Ok in H2 as [<- <-].
  apply bind_Ok in H as (j & s4 & H1' & H). apply select_Ok in H1' as [H1' ->].
  apply bind_Ok in H as (dynamics & s4 & H2 & H). apply gets_Ok in H2 as [<- <-].
  apply ret_Ok in H as [<- <-].
  unfold selectPending in H1. rewrite E2 in H1. simpl in H1. injection H1 as <-.
  unfold selectPreviousOrPending in H1'. rewrite E2 in H1'. simpl in H1'.
  split.
  - subst s2. by rewrite E1.
  - change (declarationOf next s2) with (declarationOf next s).
    change (inst j s2) with (inst j s).
    f_equal. f_equal. f_equal. destruct (current (ctrl n s)); simpl in *; congruence.
Qed.

Lemma gets_Throw {A} (f : State → A) e s s' : gets f s = (Throw e, s') → False.
Proof. done. Qed.

Lemma modify_Throw f e s s' : modify f s = (Throw e, s') → False.
Proof. done. Qed.

Lemma ret_Throw {A} (a : A) e s s' : ret a s = (Throw e, s') → False.
Proof. done. Qed.

Lemma select_Throw u sel e s s' : select u sel s = (Throw e, s') → sel u s = None.
Proof. unfold select. by destruct (sel u s). Qed.

Lemma dryRunPre_total n s next :
  orElse (staging (ctrl n s)) (current (ctrl n s)) = Some next →
  ∃ cs s', dryRunPre n s = (Ok cs, s').
Proof.
  intros Hnext. destruct (dryRunPre n s) as [[cs|e] s'] eqn:H; [eauto|exfalso].
  assert (n ∈ dom (controllers s)) as Hdom.
  { destruct (staging (ctrl n s)) as [i|] eqn:Hs.
    - by apply (ctrl_some_dom staging _ _ i).
    - by apply (ctrl_some_dom current _ _ next). }
  assert (is_Some (controllers s !! n)) as Hsome by (by apply elem_of_dom).
  unfold dryRunPre in H.
  apply bind_Throw in H as [H|(staged & s1 & H1 & H)]; [done|].
  apply gets_Ok in H1 as [<- <-].
  apply bind_Throw in H as [H|(next' & s1 & H1 & H)].
  { destruct (staging (ctrl n s)); [done|]. apply select_Throw in H.
    unfold selectCurrent in H. simpl in Hnext. congruence. }
  assert (s1 = s) as ->.
  { destruct (staging (ctrl n s)); [by apply ret_Ok in H1 as [_ ->]|].
    by apply select_Ok in H1 as [_ ->]. }
  clear H1.
  apply bind_Throw in H as [H|([] & s1 & H1 & H)]; [done|]. apply modify_Ok in H1 as <-.
  apply bind_Throw in H as [H|([] & s1 & H1 & H)]; [done|]. apply modify_Ok in H1 as <-.
  set (s2 := updateCtrl n _ (updateCtrl n _ s)) in *.
  assert (ctrl n (updateCtrl n (withPending (Some next')) s) = withPending (Some next') (ctrl n s)) as E1
    by (by rewrite ctrl_updateCtrl_eq).
  assert (ctrl n s2 = withPrevious (current (ctrl n s)) (withPending (Some next') (ctrl n s))) as E2.
  { subst s2. rewrite ctrl_updateCtrl_eq, E1; [done|].
    apply elem_of_dom. rewrite dom_updateCtrl. by apply elem_of_dom. }
  unfold iterateWithDynamics, iterate in H.
  apply bind_Throw in H as [H|(statics & s3 & H1 & H)].
  { apply bind_Throw in H as [H|(i & s3 & H1 & H)]; [|done].
    apply select_Throw in H. unfold selectPending in H. rewrite E2 in H. done. }
  apply bind_Ok in H1 as (i & s4 & H1 & H2). apply select_Ok in H1 as [_ ->].
  apply gets_Ok in H2 as [_ <-].
  apply bind_Throw in H as [H|(j & s3 & H1 & H)].
  { apply select_Throw in H. unfold selectPreviousOrPending in H. rewrite E2 in H.
    simpl in H. by destruct (current (ctrl n s)). }
  apply bind_Throw in H as [H|(? & ? & _ & H)]; done.
Qed.

Lemma dryRunPost_eq ns frs s :
  dryRunPost ns frs s
  = (Ok (dryRunResultOf ns frs s), setFrame (pushNextControllers ns) s).
Proof. done. Qed.

(** The slots that the dry run does not write. *)
Definition sameOtherSlots (c c' : ReloadableModuleController) : Prop :=
  current c = current c' ∧ staging c = staging c' ∧ temporary c = temporary c'
  ∧ fatalErrorOf c = fatalErrorOf c' ∧ visitIndex c = visitIndex c'
  ∧ version c = version c'.

(** The store during a dry run that started in [s0]: only [pending] and
    [previous] of the controllers visited so far were written, and
    [nextControllers] holds the controllers that were post-visited. *)
Record DryInv (s0 : State) (opened done : list string) (s : State) : Prop := {
  dry_instances : instances s = instances s0;
  dry_declarations : declarations s = declarations s0;
  dry_events : events s = events s0;
  dry_tag : currentVisitIndex s = currentVisitIndex s0;
  dry_dom : dom (controllers s) = dom (controllers s0);
  dry_slots : ∀ u, sameOtherSlots (ctrl u s) (ctrl u s0);
  dry_untouched : ∀ u, u ∉ opened → u ∉ done → ctrl u s = ctrl u s0;
  dry_marked : ∀ u, u ∈ opened ∨ u ∈ done →
    u ∈ dom (controllers s0)
    ∧ pending (ctrl u s) = orElse (staging (ctrl u s0)) (current (ctrl u s0))
    ∧ previous (ctrl u s) = current (ctrl u s0);
  dry_next : ∀ u, u ∈ nextControllers (frame s) ↔ u ∈ nextControllers (frame s0) ∨ u ∈ done;
  dry_instantiated : fInstantiated (frame s) = fInstantiated (frame s0);
}.

(** The children that the dry run iterates at a controller. *)
Definition dryChildren (s0 : State) (n : string) : list string :=
  let next := default 0 (orElse (staging (ctrl n s0)) (current (ctrl n s0))) in
  reloadableChildren (loadedModules (declarationOf next s0))
  ++ dynamicImports (inst (default next (current (ctrl n s0))) s0).

Lemma DryInv_start s0 : DryInv s0 [] [] s0.
Proof.
  split; try done.
  - intros u [Hu|Hu]; by apply elem_of_nil in Hu.
  - intros u. split; [auto|]. intros [|Hu]; [done|]. by apply elem_of_nil in Hu.
Qed.

Lemma declarationOf_same i s s0 :
  instances s = instances s0 → declarations s = declarations s0 →
  declarationOf i s = declarationOf i s0.
Proof. intros Hi Hd. unfold declarationOf, decl, inst. by rewrite Hi, Hd. Qed.

Lemma inst_same i s s0 : instances s = instances s0 → inst i s = inst i s0.
Proof. intros Hi. unfold inst. by rewrite Hi. Qed.

Lemma dryRunPre_DryInv s0 opened done n s :
  DryInv s0 opened done s → n ∉ opened → n ∉ done →
  match dryRunPre n s with
  | (Ok cs, s') =>
      n ∈ dom (controllers s0) ∧ cs = dryChildren s0 n
      ∧ is_Some (orElse (staging (ctrl n s0)) (current (ctrl n s0)))
      ∧ DryInv s0 (n :: opened) done s'
  | (Throw _, _) => True
  end.
Proof.
  intros HI Hno Hnd. destruct (dryRunPre n s) as [[cs|e] s'] eqn:H; [|done].
  apply dryRunPre_Ok in H as (next & Hnext & Hdom & -> & ->).
  pose proof (dry_untouched _ _ _ _ HI n Hno Hnd) as Hn.
  rewrite Hn in *. split; [by rewrite <- (dry_dom _ _ _ _ HI)|]. split.
  { unfold dryChildren. rewrite Hnext. simpl.
    rewrite (declarationOf_same _ _ s0), (inst_same _ _ s0);
      [done|apply HI|apply HI|apply HI]. }
  split; [by rewrite Hnext|].
  assert (is_Some (controllers s !! n)) as Hsome by (by apply elem_of_dom).
  split; try apply HI.
  - rewrite !dom_updateCtrl. apply HI.
  - intros u. unfold sameOtherSlots.
    rewrite !(ctrl_updateCtrl_field current), !(ctrl_updateCtrl_field staging),
      !(ctrl_updateCtrl_field temporary), !(ctrl_updateCtrl_field fatalErrorOf),
      !(ctrl_updateCtrl_field visitIndex), !(ctrl_updateCtrl_field version) by done.
    apply HI.
  - intros u Hu Hd. apply not_elem_of_cons in Hu as [Hne Hu].
    rewrite !ctrl_updateCtrl_ne by congruence. by apply HI.
  - intros u Hu. destruct (decide (u = n)) as [->|Hne].
    + split; [by rewrite <- (dry_dom _ _ _ _ HI)|].
      rewrite ctrl_updateCtrl_eq, ctrl_updateCtrl_eq; [|done|].
      * simpl. by rewrite ?Hn.
      * apply elem_of_dom. rewrite dom_updateCtrl. by apply elem_of_dom.
    + rewrite !ctrl_updateCtrl_ne by congruence. apply HI.
      destruct Hu as [Hu|Hu]; [|by right]. apply elem_of_cons in Hu as [|]; [done|by left].
Qed.

Lemma dryRunPost_DryInv s0 opened done ns s :
  DryInv s0 (rev ns ++ opened) done s →
  DryInv s0 opened (ns ++ done) (setFrame (pushNextControllers ns) s).
Proof.
  intros HI. split; try apply HI.
  - intros u Ho Hd. apply not_elem_of_app in Hd as [Hn Hd].
    change (ctrl u s = ctrl u s0). apply HI; [|done].
    apply not_elem_of_app. split; [|done]. by rewrite elem_of_rev_iff.
  - intros u Hu. change (ctrl u (setFrame (pushNextControllers ns) s)) with (ctrl u s).
    apply HI. rewrite elem_of_app, elem_of_rev_iff. rewrite elem_of_app in Hu. tauto.
  - intros u. simpl. rewrite !elem_of_app. rewrite (dry_next _ _ _ _ HI u). tauto.
Qed.

(** The results of the components that a result was computed from. *)
Inductive inTree : DryRunResult → DryRunResult → Prop :=
  | inTree_here r : inTree r r
  | inTree_forward r' f r : f ∈ drForwardResults r → inTree r' f → inTree r' r.

Lemma inTree_inv r' r :
  inTree r' r → r' = r ∨ ∃ f, f ∈ drForwardResults r ∧ inTree r' f.
Proof. intros H. inversion H; subst; eauto. Qed.

Lemma flattenDeclined_unfold r :
  flattenDeclined r = drDeclined r ++ flat_map flattenDeclined (drForwardResults r).
Proof. by destruct r. Qed.

Lemma inTree_flattenDeclined r' r u :
  inTree r' r → u ∈ drDeclined r' → u ∈ flattenDeclined r.
Proof.
  induction 1 as [r|r' f r Hf Hin IH]; intros Hu; rewrite flattenDeclined_unfold.
  - apply elem_of_app. by left.
  - apply elem_of_app. right. apply list_elem_of_In, in_flat_map.
    exists f. split; apply list_elem_of_In; auto.
Qed.

(** What the dry run knows about a result, in the store [s0] it started in:
    [hasDecline] says whether some component of the tree has a declining
    member, a decline implies [needsDispatch], and the declining members are
    invalidated members whose current instance is declined. *)
Record DryWf (s0 : State) (r : DryRunResult) : Prop := {
  wf_hasDecline : drHasDecline r = true ↔ ∃ r', inTree r' r ∧ drDeclined r' ≠ [];
  wf_needsDispatch : drHasDecline r = true → drNeedsDispatch r = true;
  wf_declined : ∀ r' u, inTree r' r →
    u ∈ drDeclined r' ↔ u ∈ drInvalidated r' ∧ nodeDeclined s0 u = true;
  wf_flatten : ∀ u, u ∈ flattenDeclined r → ∃ r', inTree r' r ∧ u ∈ drDeclined r';
}.

Lemma nodeDeclined_same s s0 u :
  instances s = instances s0 → current (ctrl u s) = current (ctrl u s0) →
  nodeDeclined s u = nodeDeclined s0 u.
Proof.
  intros Hi Hc. unfold nodeDeclined, isDeclined. rewrite Hc.
  destruct (current (ctrl u s0)); [|done]. by rewrite (inst_same _ _ _ Hi).
Qed.

Lemma existsb_elem {A} (f : A → bool) (l : list A) :
  existsb f l = true ↔ ∃ x, x ∈ l ∧ f x = true.
Proof.
  rewrite existsb_exists. split; intros (x & Hx & Hf); exists x; split;
    try done; by apply list_elem_of_In.
Qed.

Lemma elem_of_filter_list {A} (f : A → bool) (l : list A) x :
  x ∈ List.filter f l ↔ x ∈ l ∧ f x = true.
Proof. rewrite !list_elem_of_In. apply filter_In. Qed.

Lemma dryRunResultOf_wf s0 opened done ns frs s :
  DryInv s0 opened done s → Forall (DryWf s0) frs →
  DryWf s0 (dryRunResultOf ns frs s).
Proof.
  intros HI Hfrs. rewrite Forall_forall in Hfrs.
  set (r := dryRunResultOf ns frs s).
  assert (∀ u, nodeDeclined s u = nodeDeclined s0 u) as Hnd.
  { intros u. apply nodeDeclined_same; [apply HI|apply (dry_slots _ _ _ _ HI u)]. }
  assert (∀ u, u ∈ drDeclined r ↔ u ∈ drInvalidated r ∧ nodeDeclined s0 u = true) as Hown.
  { intros u. subst r. simpl. rewrite elem_of_filter_list, Hnd. done. }
  split.
  - subst r. simpl. rewrite orb_true_iff, negb_true_iff, Nat.eqb_neq, existsb_elem. split.
    + intros [Hd|(f & Hf & Hfd)].
      * eexists. split; [apply inTree_here|]. simpl. intros Heq. by rewrite Heq in Hd.
      * apply (wf_hasDecline _ _ (Hfrs f Hf)) in Hfd as (r' & Hin & Hr').
        exists r'. split; [|done]. by eapply inTree_forward.
    + intros (r' & Hin & Hr'). apply inTree_inv in Hin as [->|(f & Hf & Hin)].
      * left. simpl in Hr'. by destruct (List.filter _ _).
      * right. exists f. split; [done|]. apply (wf_hasDecline _ _ (Hfrs f Hf)). eauto.
  - subst r. simpl. rewrite !orb_true_iff, negb_true_iff, Nat.eqb_neq, !existsb_elem.
    intros [Hd|(f & Hf & Hfd)].
    + left. destruct (List.filter (nodeDeclined s) _) as [|u l] eqn:Hl; [done|].
      assert (u ∈ List.filter (nodeDeclined s)
                (List.filter (nodeInvalidated (concat (map drInvalidated frs)) s) ns)) as Hu
        by (rewrite Hl; apply elem_of_cons; by left).
      apply elem_of_filter_list in Hu as [Hu _]. apply elem_of_filter_list in Hu as [Hu Hinv].
      exists u. split; [done|]. unfold nodeInvalidated in Hinv. by apply andb_true_iff in Hinv as [? _].
    + right. exists f. split; [done|]. by apply (wf_needsDispatch _ _ (Hfrs f Hf)).
  - intros r' u Hin. apply inTree_inv in Hin as [->|(f & Hf & Hin)]; [by apply Hown|].
    by apply (wf_declined _ _ (Hfrs f Hf) r' u).
  - intros u Hu. rewrite flattenDeclined_unfold in Hu. apply elem_of_app in Hu as [Hu|Hu].
    + exists r. split; [apply inTree_here|done].
    + apply list_elem_of_In, in_flat_map in Hu as (f & Hf & Hu).
      apply list_elem_of_In in Hf, Hu.
      destruct (wf_flatten _ _ (Hfrs f Hf) u Hu) as (r' & Hin & Hr').
      exists r'. split; [|done]. by eapply inTree_forward.
Qed.

(** The dry run, when it returns. *)
Lemma dryRun_spec this s0 r s1 :
  dryRun this s0 = (Ok r, s1) →
  ∃ done, DryInv s0 [] done s1 ∧ DryWf s0 r ∧ this ∈ done.
Proof.
  intros H.
  assert (∀ n (K : list (string * list string)) opened done s,
    DryInv s0 opened done s → n ∉ opened → n ∉ done → reached this K n →
    match dryRunPre n s with
    | (Ok cs, s') => n ∈ dom (controllers s0) ∧ DryInv s0 (n :: opened) done s'
    | (Throw e, s') => True
    end) as Hpre.
  { intros n K opened done s HI Hno Hnd _.
    pose proof (dryRunPre_DryInv s0 opened done n s HI Hno Hnd) as Hp.
    destruct (dryRunPre n s) as [[cs|e] s']; [|done]. tauto. }
  assert (∀ ns frs (K : list (string * list string)) opened done s,
    DryInv s0 (rev ns ++ opened) done s → Forall (DryWf s0) frs →
    match dryRunPost ns frs s with
    | (Ok r, s') => DryInv s0 opened (ns ++ done) s' ∧ DryWf s0 r
    | (Throw e, s') => True
    end) as Hpost.
  { intros ns frs K opened done s HI HP. rewrite dryRunPost_eq. split.
    - by apply dryRunPost_DryInv.
    - eapply dryRunResultOf_wf; [exact HI|done]. }
  pose proof (traverseDepthFirst_rule dryRunPre dryRunPost (dom (controllers s0))
                (λ _ opened done s, DryInv s0 opened done s) (DryWf s0) (λ _ _, True) this
                Hpre Hpost clearPendingPrevious s0 (DryInv_start s0)) as Hrule.
  unfold dryRun in H. rewrite H in Hrule.
  destruct Hrule as (K & done & HI & HP & Hroot & _); [by rewrite size_dom|eauto].
Qed.

(** The rollback routine, lines 475-480. *)
Lemma clearPendingPrevious_spec nodes s :
  ∃ s', clearPendingPrevious nodes s = (Ok tt, s')
    ∧ instances s' = instances s ∧ declarations s' = declarations s
    ∧ events s' = events s ∧ frame s' = frame s
    ∧ currentVisitIndex s' = currentVisitIndex s
    ∧ dom (controllers s') = dom (controllers s)
    ∧ (∀ u, sameOtherSlots (ctrl u s') (ctrl u s))
    ∧ (∀ u, u ∉ nodes → ctrl u s' = ctrl u s)
    ∧ (∀ u, u ∈ nodes → u ∈ dom (controllers s) →
            pending (ctrl u s') = None ∧ previous (ctrl u s') = None).
Proof.
  revert s. induction nodes as [|x l IH]; intros s.
  - exists s. split_and!; try done. intros u Hu. by apply elem_of_nil in Hu.
  - set (sa := updateCtrl x (withPrevious None) (updateCtrl x (withPending None) s)).
    destruct (IH sa) as (s' & Hrun & Hi & Hd & He & Hf & Ht & Hdom & Hs & Hun & Hcl).
    exists s'. split; [exact Hrun|].
    assert (dom (controllers sa) = dom (controllers s)) as Hda
      by (subst sa; by rewrite !dom_updateCtrl).
    split_and!; try done.
    + by rewrite Hdom.
    + intros u. specialize (Hs u). unfold sameOtherSlots in *. subst sa.
      rewrite !(ctrl_updateCtrl_field current), !(ctrl_updateCtrl_field staging),
        !(ctrl_updateCtrl_field temporary), !(ctrl_updateCtrl_field fatalErrorOf),
        !(ctrl_updateCtrl_field visitIndex), !(ctrl_updateCtrl_field version) in Hs by done.
      done.
    + intros u Hu. apply not_elem_of_cons in Hu as [Hne Hu]. rewrite (Hun u Hu).
      subst sa. by rewrite !ctrl_updateCtrl_ne by congruence.
    + intros u Hu Hud. destruct (decide (u ∈ l)) as [Hl|Hl].
      * apply Hcl; [done|]. by rewrite Hda.
      * apply elem_of_cons in Hu as [->|]; [|done]. rewrite (Hun x Hl). subst sa.
        assert (is_Some (controllers s !! x)) as Hsome by (by apply elem_of_dom).
        rewrite ctrl_updateCtrl_eq, ctrl_updateCtrl_eq; [done|done|].
        apply elem_of_dom. rewrite dom_updateCtrl. by apply elem_of_dom.
Qed.

(** The store after a dry run from [s] that was rolled back: nothing but the
    counters of the call has changed, and [pending] and [previous] are
    cleared on the controllers that the dry run visited. *)
Record RolledBack (this : string) (s s' : State) : Prop := {
  rb_events : events s' = events s;
  rb_instances : instances s' = instances s;
  rb_declarations : declarations s' = declarations s;
  rb_slots : ∀ u, sameOtherSlots (ctrl u s') (ctrl u s);
  rb_root : this ∈ nextControllers (frame s');
  rb_cleared : ∀ u, u ∈ nextControllers (frame s') →
    pending (ctrl u s') = None ∧ previous (ctrl u s') = None;
  rb_others : ∀ u, u ∉ nextControllers (frame s') → ctrl u s' = ctrl u s;
}.

Lemma sameOtherSlots_trans a b c : sameOtherSlots a b → sameOtherSlots b c → sameOtherSlots a c.
Proof.
  unfold sameOtherSlots. intros (?&?&?&?&?&?) (?&?&?&?&?&?). split_and!; congruence.
Qed.

Lemma rollback_after_dryRun this s done s1 :
  DryInv (setFrame (λ _, newFrame) s) [] done s1 → this ∈ done →
  ∃ s', rollback s1 = (Ok tt, s') ∧ RolledBack this s s'
        ∧ ∀ u, u ∈ nextControllers (frame s') ↔ u ∈ done.
Proof.
  intros HI Hroot. unfold rollback, bind. cbn [gets].
  destruct (clearPendingPrevious_spec (nextControllers (frame s1)) s1)
    as (s' & Hrun & Hi & Hd & He & Hf & Ht & Hdom & Hs & Hun & Hcl).
  exists s'. rewrite Hrun. split; [done|].
  assert (∀ u, u ∈ nextControllers (frame s1) ↔ u ∈ done) as Hnext.
  { intros u. rewrite (dry_next _ _ _ _ HI u). simpl. split; [|auto].
    intros [Hu|]; [|done]. by apply elem_of_nil in Hu. }
  split; [|by rewrite Hf].
  split.
  - rewrite He. apply HI.
  - rewrite Hi. apply HI.
  - rewrite Hd. apply HI.
  - intros u. eapply sameOtherSlots_trans; [apply Hs|]. apply (dry_slots _ _ _ _ HI u).
  - rewrite Hf. by apply Hnext.
  - rewrite Hf. intros u Hu. apply Hcl; [done|].
    rewrite (dry_dom _ _ _ _ HI). apply (dry_marked _ _ _ _ HI u). right. by apply Hnext.
  - rewrite Hf. intros u Hu. rewrite (Hun u Hu).
    apply (dry_untouched _ _ _ _ HI u); [apply not_elem_of_nil|]. by rewrite <- Hnext.
Qed.

Definition declining (s : State) (u : string) : Prop :=
  ∃ i, current (ctrl u s) = Some i ∧ isDeclined i s = true.

Lemma nodeDeclined_declining s u : nodeDeclined s u = true ↔ declining s u.
Proof.
  unfold nodeDeclined, declining. destruct (current (ctrl u s)) as [i|].
  - split; [eauto|]. by intros (? & [= <-] & ?).
  - split; [done|]. by intros (? & ? & ?).
Qed.

Lemma requestUpdate_after_dryRun linkVerdict this s r s1 :
  fatalErrorOf (ctrl this s) = None →
  dryRun this (setFrame (λ _, newFrame) s) = (Ok r, s1) →
  requestUpdate linkVerdict this s =
    (if negb (drNeedsDispatch r) then
       let* _ := rollback in ret None
     else if drHasDecline r then
       let* _ := rollback in ret (Some (UpdateDeclined (flattenDeclined r)))
     else if Nat.ltb 0 (length (drInvalidated r)) then
       let* tag := acquireVisitIndex in
       let* chain := invalidationChain tag r in
       let* _ := rollback in
       ret (Some (UpdateUnaccepted chain))
     else
       let* tested := (if drHasNewCode r then linkTest linkVerdict this else ret None) in
       match tested with
       | Some res => ret res
       | None =>
           let* previousControllers := traverse this (fun _ => ret tt) in
           commitAndFinalize linkVerdict this previousControllers
       end) s1.
Proof.
  intros Hf Hd. unfold requestUpdate. unfold bind at 1. cbn [gets]. rewrite Hf.
  unfold bind at 1. cbn [modify]. unfold bind at 1. rewrite Hd. done.
Qed.


(** The results the commit phase can produce. *)
Definition commitKind (r : UpdateResult) : Prop :=
  match r with
  | None => True
  | Some (UpdateSuccess type _) => type = success
  | Some (UpdateEvaluationError _ _) => True
  | Some (UpdateFatal _) => True
  | _ => False
  end.

Lemma pruneOrphans_kind this currentControllers previousControllers s :
  match pruneOrphans this currentControllers previousControllers s with
  | (Ok (Some r), _) => ∃ f, r = Some (UpdateFatal f)
  | _ => True
  end.
Proof.
  revert s. induction previousControllers as [|c rest IH]; intros s; simpl; [done|].
  destruct (mem c currentControllers); [by apply IH|].
  unfold bind at 1. destruct (select c selectCurrent s) as [[cur|e] s1]; [|done].
  unfold bind at 1. unfold tryCatch. unfold bind at 1.
  destruct (prune cur s1) as [[[]|e] sp].
  - cbn [ret]. unfold bind at 1. destruct (clone cur sp) as [[copy|e] s2]; [|done].
    unfold bind, modify. apply IH.
  - unfold setFatalError, bind, modify, ret. eauto.
Qed.

Lemma finalize_kind this previousControllers s :
  match finalize this previousControllers s with
  | (Ok (Some r), _) => ∃ f, r = Some (UpdateFatal f)
  | _ => True
  end.
Proof.
  unfold finalize, bind. destruct (traverse this clearPrevious s) as [[cs|e] s1]; [|done].
  apply pruneOrphans_kind.
Qed.

Lemma commitCatch_kind linkVerdict this error s :
  match commitCatch linkVerdict this error s with
  | (Ok (Some r), _) => commitKind r
  | (Ok None, _) => False
  | (Throw _, _) => True
  end.
Proof.
  unfold commitCatch, bind. destruct (recover linkVerdict this s) as [[[]|e] s1]; [|done].
  cbn [gets]. by destruct (dispatchLinkErrorType (frame s1)).
Qed.

Lemma commitAndFinalize_kind linkVerdict this previousControllers s :
  match commitAndFinalize linkVerdict this previousControllers s with
  | (Ok r, _) => commitKind r
  | (Throw _, _) => True
  end.
Proof.
  unfold commitAndFinalize.
  assert (match tryCatch (commit linkVerdict this) (commitCatch linkVerdict this) s with
          | (Ok (Some r), _) => commitKind r
          | _ => True
          end) as H1.
  { unfold tryCatch. pose proof (commit_returns linkVerdict this s) as Hc.
    destruct (commit linkVerdict this s) as [[[r|]|e] s1]; [by subst r|done|].
    pose proof (commitCatch_kind linkVerdict this e s1) as Hcc.
    by destruct (commitCatch linkVerdict this e s1) as [[[r|]|e'] s2]. }
  destruct (tryCatch _ _ s) as [completion s1].
  pose proof (finalize_kind this previousControllers s1) as H2.
  destruct (finalize this previousControllers s1) as [[[r|]|e] s2]; [| |done].
  - by destruct H2 as [f ->].
  - by destruct completion as [[r|]|e].
Qed.

Lemma optEqb_refl a : optEqb a a = true.
Proof. unfold optEqb. by apply bool_decide_eq_true. Qed.

Lemma isAccepted_nil i s : isAccepted i [] s = true.
Proof. unfold isAccepted. simpl. apply orb_true_r. Qed.

(** A result of the dry run that asks for nothing. *)
Definition dryIdle (r : DryRunResult) : Prop :=
  drNeedsDispatch r = false ∧ drInvalidated r = [].

Lemma dryIdle_forward frs :
  Forall dryIdle frs →
  concat (map drInvalidated frs) = [] ∧ existsb drNeedsDispatch frs = false.
Proof.
  induction 1 as [|f frs [Hn Hi] _ [IH1 IH2]]; [done|]. simpl. by rewrite Hn, Hi, IH1, IH2.
Qed.

(** * Phase 2: the link test *)

(** The events of the link test: instantiate, link and unlink, of instances
    that did not exist before it. *)
Definition linkEvent (n0 : nat) (e : Event) : bool :=
  match e with
  | EvInstantiate i | EvLink i | EvUnlink i => n0 <=? i
  | _ => false
  end.

Lemma linkEvent_not_user n0 e : linkEvent n0 e = true → isUserEvent e = false.
Proof. by destruct e. Qed.

(** The slots that neither the link test nor the rollback writes. *)
Definition sameLiveSlots (c c' : ReloadableModuleController) : Prop :=
  current c = current c' ∧ staging c = staging c' ∧ fatalErrorOf c = fatalErrorOf c'
  ∧ visitIndex c = visitIndex c' ∧ version c = version c'.

(** The store during a link test that started in [s1]; [held] are the
    controllers whose [temporary] slot holds a clone that is still to be
    unlinked. *)
Record LinkInv (s1 : State) (held : list string) (s : State) : Prop := {
  li_dom : dom (controllers s) = dom (controllers s1);
  li_slots : ∀ u, sameLiveSlots (ctrl u s) (ctrl u s1);
  li_declarations : declarations s = declarations s1;
  li_next : nextControllers (frame s) = nextControllers (frame s1);
  li_old : ∀ i, i < length (instances s1) → instances s !! i = instances s1 !! i;
  li_length : length (instances s1) ≤ length (instances s);
  li_events : eventsExtend (linkEvent (length (instances s1))) s1 s;
  li_nodup : NoDup held;
  li_held : ∀ u, u ∈ held →
    u ∈ fInstantiated (frame s) ∧ u ∈ dom (controllers s1)
    ∧ ∃ t, temporary (ctrl u s) = Some t
           ∧ length (instances s1) ≤ t ∧ t < length (instances s);
  li_other : ∀ u, u ∉ held →
    temporary (ctrl u s)
    = if decide (u ∈ fInstantiated (frame s)) then None else temporary (ctrl u s1);
  li_fresh : ∀ i, length (instances s1) ≤ i → i < length (instances s) →
    status (inst i s) ≠ evaluated
    ∧ (status (inst i s) = new ∨ ∃ u, u ∈ held ∧ temporary (ctrl u s) = Some i);
}.

Lemma inst_updateInst_ne i j f s : i ≠ j → inst j (updateInst i f s) = inst j s.
Proof. intros Hne. unfold inst, updateInst. simpl. by rewrite list_lookup_alter_ne. Qed.

Lemma inst_updateInst_eq i f s :
  i < length (instances s) → inst i (updateInst i f s) = f (inst i s).
Proof.
  intros Hi. unfold inst, updateInst. simpl. rewrite list_lookup_alter_eq.
  apply lookup_lt_is_Some in Hi as [x ->]. done.
Qed.

Lemma LinkInv_start s1 :
  fInstantiated (frame s1) = [] → LinkInv s1 [] s1.
Proof.
  intros Hf. split; try done.
  - exists []. by rewrite app_nil_r.
  - constructor.
  - intros u Hu. by apply elem_of_nil in Hu.
  - intros u _. rewrite Hf. by rewrite decide_False by apply not_elem_of_nil.
  - intros i Hi Hlt. lia.
Qed.

Lemma LinkInv_log s1 held s e :
  LinkInv s1 held s → linkEvent (length (instances s1)) e = true →
  LinkInv s1 held (logEvent e s).
Proof.
  intros HI He. split; try apply HI.
  destruct (li_events _ _ _ HI) as (l & Hl & Hall). exists (l ++ [e]). simpl.
  rewrite Hl, <- app_assoc. split; [done|]. rewrite forallb_app, Hall. simpl. by rewrite He.
Qed.

Lemma LinkInv_alloc s1 held s x :
  LinkInv s1 held s → status x = new →
  LinkInv s1 held (setInstances (fun l => l ++ [x]) s).
Proof.
  intros HI Hx. pose proof (li_length _ _ _ HI) as Hlen. split; try apply HI.
  - intros i Hi. simpl. rewrite lookup_app_l by lia. by apply HI.
  - simpl. rewrite length_app. lia.
  - intros u Hu. destruct (li_held _ _ _ HI u Hu) as (Hf & Hd & t & Ht & Hge & Hlt).
    split; [done|]. split; [done|]. exists t. split; [done|]. split; [done|].
    simpl. rewrite length_app. lia.
  - intros i Hge Hlt. simpl in Hlt. rewrite length_app in Hlt. simpl in Hlt.
    destruct (decide (i = length (instances s))) as [->|Hne].
    + unfold inst. simpl. rewrite list_lookup_middle by done. simpl. rewrite Hx. split; [done|by left].
    + assert (i < length (instances s)) as Hi by lia.
      unfold inst. simpl. rewrite lookup_app_l by done. by apply (li_fresh _ _ _ HI i).
Qed.

Lemma LinkInv_update s1 held s t f :
  LinkInv s1 held s → length (instances s1) ≤ t →
  status (f (inst t s)) ≠ evaluated →
  (status (f (inst t s)) = new ∨ ∃ u, u ∈ held ∧ temporary (ctrl u s) = Some t) →
  LinkInv s1 held (updateInst t f s).
Proof.
  intros HI Hge Hne Hh. split; try apply HI.
  - intros i Hi. simpl. rewrite list_lookup_alter_ne by lia. by apply HI.
  - simpl. rewrite length_alter. apply HI.
  - intros u Hu. destruct (li_held _ _ _ HI u Hu) as (Hf & Hd & t' & Ht & Hge' & Hlt).
    split; [done|]. split; [done|]. exists t'. split; [done|]. split; [done|].
    simpl. by rewrite length_alter.
  - intros i Hgei Hlt. simpl in Hlt. rewrite length_alter in Hlt.
    destruct (decide (t = i)) as [->|Hti].
    + rewrite inst_updateInst_eq by done. done.
    + rewrite inst_updateInst_ne by done. by apply (li_fresh _ _ _ HI i).
Qed.

Lemma LinkInv_hold s1 held s node t :
  LinkInv s1 held s → node ∉ held → node ∈ dom (controllers s) →
  length (instances s1) ≤ t → t < length (instances s) →
  LinkInv s1 (held ++ [node])
    (setFrame (pushInstantiated node) (updateCtrl node (withTemporary (Some t)) s)).
Proof.
  intros HI Hnode Hdom Hge Hlt.
  assert (∀ u, ctrl u (setFrame (pushInstantiated node)
                         (updateCtrl node (withTemporary (Some t)) s))
               = ctrl u (updateCtrl node (withTemporary (Some t)) s)) as Hc by done.
  split; try apply HI.
  - simpl. rewrite dom_alter_L. apply HI.
  - intros u. rewrite Hc. destruct (li_slots _ _ _ HI u) as (H1 & H2 & H3 & H4 & H5).
    unfold sameLiveSlots.
    rewrite !(ctrl_updateCtrl_field _ node u (withTemporary (Some t)) s) by done. done.
  - apply NoDup_app. split; [apply HI|]. split; [|apply NoDup_singleton].
    intros u Hu Hu'. apply list_elem_of_singleton in Hu'. by subst u.
  - intros u Hu. rewrite Hc. apply elem_of_app in Hu as [Hu|Hu].
    + destruct (li_held _ _ _ HI u Hu) as (Hf & Hd & t' & Ht & Hge' & Hlt').
      split; [simpl; apply elem_of_app; by left|]. split; [done|].
      exists t'. rewrite ctrl_updateCtrl_ne by (intros ->; done). done.
    + apply list_elem_of_singleton in Hu. subst u.
      split; [simpl; apply elem_of_app; right; by apply list_elem_of_singleton|].
      split; [by rewrite <- (li_dom _ _ _ HI)|].
      exists t. rewrite ctrl_updateCtrl_eq by (by apply elem_of_dom). done.
  - intros u Hu. rewrite Hc. apply not_elem_of_app in Hu as [Hu Hne].
    rewrite list_elem_of_singleton in Hne.
    rewrite ctrl_updateCtrl_ne by done. rewrite (li_other _ _ _ HI u Hu). simpl.
    destruct (decide (u ∈ fInstantiated (frame s))) as [Hin|Hin].
    + rewrite decide_True; [done|]. apply elem_of_app. by left.
    + rewrite decide_False; [done|]. rewrite elem_of_app, list_elem_of_singleton. tauto.
  - intros i Hgei Hlti. change (inst i _) with (inst i s).
    destruct (li_fresh _ _ _ HI i Hgei Hlti) as [Hne [Hnew|(u & Hu & Ht)]].
    + split; [done|by left].
    + split; [done|]. right. exists u. split; [apply elem_of_app; by left|].
      rewrite Hc, ctrl_updateCtrl_ne; [done|]. by intros ->.
Qed.

Lemma LinkInv_release s1 node held s t :
  LinkInv s1 (node :: held) s → temporary (ctrl node s) = Some t →
  status (inst t s) = new →
  LinkInv s1 held (updateCtrl node (withTemporary None) s).
Proof.
  intros HI Ht Hnew. pose proof (li_nodup _ _ _ HI) as Hnd.
  apply NoDup_cons in Hnd as [Hnode Hnd].
  destruct (li_held _ _ _ HI node) as (Hf & Hd & _); [apply elem_of_cons; by left|].
  split; try apply HI; try done.
  - simpl. rewrite dom_alter_L. apply HI.
  - intros u. destruct (li_slots _ _ _ HI u) as (H1 & H2 & H3 & H4 & H5).
    unfold sameLiveSlots.
    rewrite !(ctrl_updateCtrl_field _ node u (withTemporary None) s) by done. done.
  - intros u Hu. destruct (li_held _ _ _ HI u) as (Hfu & Hdu & Hu'); [apply elem_of_cons; by right|].
    split; [done|]. split; [done|]. rewrite ctrl_updateCtrl_ne; [done|]. by intros ->.
  - intros u Hu. change (frame (updateCtrl node (withTemporary None) s)) with (frame s).
    destruct (decide (u = node)) as [->|Hne].
    + rewrite ctrl_updateCtrl_eq by (apply elem_of_dom; by rewrite (li_dom _ _ _ HI)).
      by rewrite decide_True.
    + rewrite ctrl_updateCtrl_ne by done. apply (li_other _ _ _ HI).
      rewrite elem_of_cons. tauto.
  - intros i Hge Hlt. change (inst i _) with (inst i s).
    destruct (li_fresh _ _ _ HI i Hge Hlt) as [Hne [Hn|(u & Hu & Hut)]]; [by split; [|left]|].
    split; [done|]. apply elem_of_cons in Hu as [->|Hu].
    + left. rewrite Ht in Hut. by injection Hut as <-.
    + right. exists u. split; [done|]. rewrite ctrl_updateCtrl_ne; [done|]. by intros ->.
Qed.

Definition instantiateTemporary (node : string) : M unit :=
  let* next := select node selectPending in
  let* copy := clone next in
  let* _ := modify (updateCtrl node (withTemporary (Some copy))) in
  let* _ := instantiate copy None in
  modify (setFrame (pushInstantiated node)).

Lemma instantiateTemporary_LinkInv s1 held node s :
  LinkInv s1 held s → node ∉ held →
  match instantiateTemporary node s with
  | (Ok _, s') =>
      LinkInv s1 (held ++ [node]) s'
      ∧ fInstantiated (frame s') = fInstantiated (frame s) ++ [node]
  | (Throw _, s') => s' = s
  end.
Proof.
  intros HI Hnode. unfold instantiateTemporary. unfold bind at 1. unfold select.
  destruct (selectPending node s) as [next|] eqn:Hnext; [|done].
  assert (node ∈ dom (controllers s)) as Hdom by (by apply (ctrl_some_dom pending _ _ next)).
  pose proof (li_length _ _ _ HI) as Hlen.
  set (x := newInstance (iController (inst next s)) (declaration (inst next s))).
  set (t := length (instances s)).
  assert (LinkInv s1 (held ++ [node])
            (updateInst t (fun x => withData None (withStatus instantiated x))
               (logEvent (EvInstantiate t)
                  (setFrame (pushInstantiated node)
                     (updateCtrl node (withTemporary (Some t))
                        (setInstances (fun l => l ++ [x]) s)))))) as HI'.
  { apply LinkInv_update; [|done|done|].
    - apply LinkInv_log; [|by apply Nat.leb_le].
      apply LinkInv_hold; [by apply LinkInv_alloc|done|done|done|].
      simpl. rewrite length_app. simpl. lia.
    - right. exists node. split; [apply elem_of_app; right; by apply list_elem_of_singleton|].
      change (ctrl node _) with
        (ctrl node (updateCtrl node (withTemporary (Some t)) (setInstances (fun l => l ++ [x]) s))).
      rewrite ctrl_updateCtrl_eq; [done|]. by apply elem_of_dom. }
  split; [exact HI'|done].
Qed.

Lemma instantiateTemporaries_LinkInv s1 ns : ∀ s,
  LinkInv s1 (fInstantiated (frame s)) s → NoDup ns →
  (∀ u, u ∈ ns → u ∉ fInstantiated (frame s)) →
  match forEach ns instantiateTemporary s with
  | (Ok _, s') =>
      LinkInv s1 (fInstantiated (frame s')) s'
      ∧ fInstantiated (frame s') = fInstantiated (frame s) ++ ns
  | (Throw _, s') =>
      LinkInv s1 (fInstantiated (frame s')) s'
      ∧ ∀ u, u ∈ fInstantiated (frame s') → u ∈ fInstantiated (frame s) ∨ u ∈ ns
  end.
Proof.
  induction ns as [|node ns IH]; intros s HI Hnd Hnew; simpl.
  - by rewrite app_nil_r.
  - apply NoDup_cons in Hnd as [Hnode Hnd]. unfold bind.
    pose proof (instantiateTemporary_LinkInv s1 _ node s HI
                  (Hnew node ltac:(apply elem_of_cons; by left))) as Hstep.
    destruct (instantiateTemporary node s) as [[[]|e] s']; [|subst s'; by split; [|left]].
    destruct Hstep as [HI' Hf]. rewrite <- Hf in HI'.
    specialize (IH s' HI' Hnd).
    assert (∀ u, u ∈ ns → u ∉ fInstantiated (frame s')) as Hnew'.
    { intros u Hu. rewrite Hf, not_elem_of_app, list_elem_of_singleton. split.
      - apply Hnew. apply elem_of_cons. by right.
      - by intros ->. }
    specialize (IH Hnew').
    destruct (forEach ns instantiateTemporary s') as [[[]|e] s''].
    + destruct IH as [HI'' Hf'']. split; [done|]. by rewrite Hf'', Hf, <- app_assoc.
    + destruct IH as [HI'' Hf'']. split; [done|]. intros u Hu.
      destruct (Hf'' u Hu) as [Hu'|Hu'].
      * rewrite Hf, elem_of_app, list_elem_of_singleton in Hu'. rewrite elem_of_cons. tauto.
      * rewrite elem_of_cons. tauto.
Qed.

Definition linkTemporary (linkVerdict : (string → option ModuleDeclaration) → string
    → ModuleDeclaration → option Error) (node : string) : M unit :=
  let* temp := select node selectTemporary in
  link linkVerdict temp selectTemporaryOrPending.

Lemma linkTemporary_LinkInv linkVerdict s1 held node s :
  LinkInv s1 held s → node ∈ held →
  LinkInv s1 held (snd (linkTemporary linkVerdict node s))
  ∧ frame (snd (linkTemporary linkVerdict node s)) = frame s.
Proof.
  intros HI Hin.
  destruct (li_held _ _ _ HI node Hin) as (_ & _ & t & Ht & Hge & Hlt).
  destruct (li_fresh _ _ _ HI t Hge Hlt) as [Hne _].
  unfold linkTemporary, bind, select, selectTemporary. rewrite Ht. unfold link.
  assert (LinkInv s1 held (logEvent (EvLink t) s)) as HIl
    by (apply LinkInv_log; [done|by apply Nat.leb_le]).
  destruct (linkVerdict _ _ _) as [e|]; [done|]. split; [|done].
  assert (status (markLinked (inst t (logEvent (EvLink t) s))) = linked) as Hst.
  { change (inst t (logEvent (EvLink t) s)) with (inst t s). unfold markLinked.
    by rewrite decide_False. }
  apply LinkInv_update; [done|done|by rewrite Hst|].
  right. by exists node.
Qed.

Lemma linkTemporaries_LinkInv linkVerdict s1 held ns : ∀ s,
  LinkInv s1 held s → (∀ u, u ∈ ns → u ∈ held) →
  LinkInv s1 held (snd (forEach ns (linkTemporary linkVerdict) s))
  ∧ frame (snd (forEach ns (linkTemporary linkVerdict) s)) = frame s.
Proof.
  induction ns as [|node ns IH]; intros s HI Hin; simpl; [done|].
  destruct (linkTemporary_LinkInv linkVerdict s1 held node s HI) as [H1 H2];
    [apply Hin, elem_of_cons; by left|].
  unfold bind. destruct (linkTemporary linkVerdict node s) as [[[]|e] s']; [|done].
  simpl in H1, H2. destruct (IH s' H1) as [H3 H4].
  { intros u Hu. apply Hin, elem_of_cons. by right. }
  split; [done|]. by rewrite H4.
Qed.

Definition clearTemporary (node : string) : M unit :=
  let* temp := select node selectTemporary in
  let* _ := unlink temp in
  modify (updateCtrl node (withTemporary None)).

Lemma clearTemporary_LinkInv s1 node held s :
  LinkInv s1 (node :: held) s →
  ∃ s', clearTemporary node s = (Ok tt, s') ∧ LinkInv s1 held s'.
Proof.
  intros HI.
  destruct (li_held _ _ _ HI node) as (_ & _ & t & Ht & Hge & Hlt);
    [apply elem_of_cons; by left|].
  destruct (li_fresh _ _ _ HI t Hge Hlt) as [Hne _].
  unfold clearTemporary, bind, select, selectTemporary. rewrite Ht.
  unfold unlink. rewrite decide_False by done. cbn [modify].
  eexists. split; [reflexivity|].
  apply (LinkInv_release s1 node held _ t).
  - apply LinkInv_update; [|done|done|by left].
    apply LinkInv_log; [done|by apply Nat.leb_le].
  - done.
  - rewrite inst_updateInst_eq by done. done.
Qed.

Lemma clearTemporaries_LinkInv s1 held : ∀ s,
  LinkInv s1 held s →
  ∃ s', forEach held clearTemporary s = (Ok tt, s') ∧ LinkInv s1 [] s'.
Proof.
  induction held as [|node held IH]; intros s HI; simpl; [by exists s|].
  destruct (clearTemporary_LinkInv s1 node held s HI) as (s' & Hs & HI').
  rewrite (bind_eq _ _ _ _ _ Hs). by apply IH.
Qed.

(** The loops of [linkTestPost] and [clearTemporaries] run these bodies. *)
Lemma linkTestPost_eq linkVerdict ns frs :
  linkTestPost linkVerdict ns frs
  = (let* hasUpdate := (if existsb id frs then ret true else anyPendingDiffers ns) in
     let* _ := (if hasUpdate then
                  let* _ := forEach ns instantiateTemporary in
                  forEach ns (linkTemporary linkVerdict)
                else ret tt) in
     ret hasUpdate).
Proof. reflexivity. Qed.

Lemma clearTemporaries_eq :
  clearTemporaries
  = (let* nodes := gets (fun s => fInstantiated (frame s)) in
     forEach nodes clearTemporary).
Proof. reflexivity. Qed.

Lemma snd_bind {A B} (m : M A) (k : A → M B) s :
  snd (bind m k s)
  = match m s with (Ok a, s1) => snd (k a s1) | (Throw _, s1) => s1 end.
Proof. unfold bind. by destruct (m s) as [[a|e] s1]. Qed.

Lemma anyPendingDiffers_readonly ns s : snd (anyPendingDiffers ns s) = s.
Proof.
  induction ns as [|node ns IH]; simpl; [done|].
  unfold bind, select. destruct (selectPending node s); [|done]. cbn [gets].
  by destruct (negb _).
Qed.

Lemma iterateWithDynamics_readonly node sel selectDynamic s :
  snd (iterateWithDynamics node sel selectDynamic s) = s.
Proof.
  unfold iterateWithDynamics, iterate, bind, select.
  destruct (sel node s); [|done]. cbn [gets]. by destruct (selectDynamic node s).
Qed.

Lemma iterateWithDynamics_Ok node sel selectDynamic cs s s' :
  iterateWithDynamics node sel selectDynamic s = (Ok cs, s') → is_Some (sel node s).
Proof.
  unfold iterateWithDynamics, iterate, bind, select.
  destruct (sel node s); [eauto|done].
Qed.

Lemma linkTestPost_LinkInv linkVerdict s1 ns frs s :
  LinkInv s1 (fInstantiated (frame s)) s → NoDup ns →
  (∀ u, u ∈ ns → u ∉ fInstantiated (frame s)) →
  LinkInv s1 (fInstantiated (frame (snd (linkTestPost linkVerdict ns frs s))))
    (snd (linkTestPost linkVerdict ns frs s))
  ∧ ∀ u, u ∈ fInstantiated (frame (snd (linkTestPost linkVerdict ns frs s))) →
         u ∈ fInstantiated (frame s) ∨ u ∈ ns.
Proof.
  intros HI Hnd Hnew. unfold linkTestPost.
  assert (∀ b : bool,
    let out := (let* _ := (if b then
                   let* _ := forEach ns instantiateTemporary in
                   forEach ns (linkTemporary linkVerdict)
                 else ret tt) in ret b) s in
    LinkInv s1 (fInstantiated (frame (snd out))) (snd out)
    ∧ ∀ u, u ∈ fInstantiated (frame (snd out)) → u ∈ fInstantiated (frame s) ∨ u ∈ ns) as Hbody.
  { intros [|]; [|simpl; by split; [|left]]. simpl. unfold bind.
    pose proof (instantiateTemporaries_LinkInv s1 ns s HI Hnd Hnew) as H1.
    destruct (forEach ns instantiateTemporary s) as [[[]|e] s'].
    - destruct H1 as [H1 Hf].
      destruct (linkTemporaries_LinkInv linkVerdict s1 _ ns s' H1) as [H2 H3].
      { intros u Hu. rewrite Hf. apply elem_of_app. by right. }
      destruct (forEach ns (linkTemporary linkVerdict) s') as [[[]|e] s'']; simpl in *.
      + rewrite H3. split; [done|]. intros u. rewrite Hf, elem_of_app. tauto.
      + rewrite H3. split; [done|]. intros u. rewrite Hf, elem_of_app. tauto.
    - simpl. done. }
  destruct (existsb id frs).
  - apply (Hbody true).
  - pose proof (anyPendingDiffers_readonly ns s) as Hr.
    rewrite (snd_bind (anyPendingDiffers ns)).
    destruct (anyPendingDiffers ns s) as [[b|e] s']; simpl in Hr; subst s'.
    + apply (Hbody b).
    + by split; [|left].
Qed.

Lemma NoDup_of_rev (l : list string) : NoDup (rev l) → NoDup l.
Proof.
  intros H. apply NoDup_ListNoDup in H. apply NoDup_ListNoDup.
  rewrite <- (rev_involutive l). by apply List.NoDup_rev.
Qed.

Lemma linkTraversal_LinkInv linkVerdict this s1 :
  fInstantiated (frame s1) = [] →
  LinkInv s1
    (fInstantiated (frame (snd (traverseDepthFirst linkTestPre (linkTestPost linkVerdict)
                                  this noCancel s1))))
    (snd (traverseDepthFirst linkTestPre (linkTestPost linkVerdict) this noCancel s1)).
Proof.
  intros Hf.
  set (Inv := λ (K : list (string * list string)) (opened done : list string) (st : State),
         LinkInv s1 (fInstantiated (frame st)) st
         ∧ NoDup (opened ++ done)
         ∧ ∀ u, u ∈ fInstantiated (frame st) → u ∈ done).
  set (Q := λ (_ : Error) (st : State), LinkInv s1 (fInstantiated (frame st)) st).
  assert (∀ n K opened done st,
    Inv K opened done st → n ∉ opened → n ∉ done → reached this K n →
    match linkTestPre n st with
    | (Ok cs, s') => n ∈ dom (controllers s1) ∧ Inv ((n, cs) :: K) (n :: opened) done s'
    | (Throw e, s') => Q e s'
    end) as Hpre.
  { intros n K opened done st (HI & Hnd & Hsub) Hno Hndone _.
    pose proof (iterateWithDynamics_readonly n selectPending selectPreviousOrPending st) as Hr.
    unfold linkTestPre.
    destruct (iterateWithDynamics n selectPending selectPreviousOrPending st) as [[cs|e] s']
      eqn:Hrun; simpl in Hr; subst s'; [|done].
    destruct (iterateWithDynamics_Ok _ _ _ _ _ _ Hrun) as [next Hnext]. split.
    - rewrite <- (li_dom _ _ _ HI). by apply (ctrl_some_dom pending _ _ next).
    - split; [done|]. split; [|done]. simpl. apply NoDup_cons. split; [|done].
      rewrite elem_of_app. tauto. }
  assert (∀ ns (frs : list bool) K opened done st,
    Inv K (rev ns ++ opened) done st → Forall (λ _, True) frs →
    match linkTestPost linkVerdict ns frs st with
    | (Ok r, s') => Inv K opened (ns ++ done) s' ∧ True
    | (Throw e, s') => Q e s'
    end) as Hpost.
  { intros ns frs K opened done st (HI & Hnd & Hsub) _.
    apply NoDup_app in Hnd as (Hnd1 & Hdisj & Hnd3).
    apply NoDup_app in Hnd1 as (Hnd1 & Hdisj1 & Hnd2).
    apply NoDup_of_rev in Hnd1.
    destruct (linkTestPost_LinkInv linkVerdict s1 ns frs st HI) as [HI' Hsub'].
    { done. }
    { intros u Hu Hin. apply (Hdisj u); [|by apply Hsub].
      rewrite elem_of_app, elem_of_rev_iff. by left. }
    destruct (linkTestPost linkVerdict ns frs st) as [[r|e] s']; simpl in *; [|done].
    split; [|done]. split; [done|]. split.
    - apply NoDup_app. split; [done|]. split.
      + intros u Hu Hin. apply elem_of_app in Hin as [Hin|Hin].
        * apply (Hdisj1 u); [by rewrite elem_of_rev_iff|done].
        * apply (Hdisj u); [|done]. rewrite elem_of_app. by right.
      + apply NoDup_app. split; [done|]. split; [|done].
        intros u Hu Hin. apply (Hdisj u); [|done]. rewrite elem_of_app, elem_of_rev_iff. by left.
    - intros u Hu. rewrite elem_of_app. destruct (Hsub' u Hu); [right; by apply Hsub|by left]. }
  assert (Inv [] [] [] s1) as Hstart.
  { split; [rewrite Hf; by apply LinkInv_start|]. split; [constructor|].
    intros u Hu. by rewrite Hf in Hu. }
  pose proof (traverseDepthFirst_rule linkTestPre (linkTestPost linkVerdict)
                (dom (controllers s1)) Inv (λ _, True) Q this Hpre Hpost noCancel s1) as Hrule.
  destruct (traverseDepthFirst linkTestPre (linkTestPost linkVerdict) this noCancel s1)
    as [[r|e] s'].
  - destruct Hrule as (K & done & (HI & _) & _).
    + done.
    + by rewrite size_dom.
    + done.
  - destruct Hrule as (e0 & st & ns & HQ & Hc).
    + done.
    + by rewrite size_dom.
    + unfold noCancel in Hc. destruct Hc as [[[= ->] _]|[=]]. done.
Qed.

Lemma LinkInv_transfer s1 held s s' :
  LinkInv s1 held s →
  instances s' = instances s → declarations s' = declarations s →
  events s' = events s → frame s' = frame s →
  dom (controllers s') = dom (controllers s) →
  (∀ u, sameOtherSlots (ctrl u s') (ctrl u s)) →
  LinkInv s1 held s'.
Proof.
  intros HI Hi Hd He Hf Hdom Hs.
  assert (∀ i, inst i s' = inst i s) as Hinst by (intros i; unfold inst; by rewrite Hi).
  assert (∀ u, temporary (ctrl u s') = temporary (ctrl u s)) as Ht
    by (intros u; by destruct (Hs u) as (_ & _ & ? & _)).
  split.
  - rewrite Hdom. apply HI.
  - intros u. destruct (Hs u) as (H1 & H2 & H3 & H4 & H5 & H6).
    destruct (li_slots _ _ _ HI u) as (G1 & G2 & G3 & G4 & G5).
    unfold sameLiveSlots. split_and!; congruence.
  - rewrite Hd. apply HI.
  - rewrite Hf. apply HI.
  - intros i Hlt. rewrite Hi. by apply HI.
  - rewrite Hi. apply HI.
  - destruct (li_events _ _ _ HI) as (l & Hl & Hall). exists l. by rewrite He.
  - apply HI.
  - intros u Hu. rewrite Hf, Ht, Hi. by apply HI.
  - intros u Hu. rewrite Hf, Ht. by apply HI.
  - intros i Hge Hlt. rewrite Hi in Hlt. rewrite Hinst.
    destruct (li_fresh _ _ _ HI i Hge Hlt) as [Hne [Hn|(u & Hu & Hut)]]; split; try done.
    + by left.
    + right. exists u. by rewrite Ht.
Qed.

Lemma clearTemporaries_spec s1 s :
  LinkInv s1 (fInstantiated (frame s)) s →
  ∃ s', clearTemporaries s = (Ok tt, s') ∧ LinkInv s1 [] s'.
Proof.
  intros HI. unfold clearTemporaries, bind. cbn [gets].
  apply (clearTemporaries_LinkInv s1 _ s HI).
Qed.

Definition samePendingPrevious (s s' : State) : Prop :=
  ∀ u, pending (ctrl u s') = pending (ctrl u s)
       ∧ previous (ctrl u s') = previous (ctrl u s).

Lemma linkTraversal_pending linkVerdict this s :
  samePendingPrevious s
    (snd (traverseDepthFirst linkTestPre (linkTestPost linkVerdict) this noCancel s)).
Proof.
  assert (∀ A (g : ReloadableModuleController → A),
            (∀ v c, g (withTemporary v c) = g c) →
            keeps (sameField g (λ _, False))
              (traverseDepthFirst linkTestPre (linkTestPost linkVerdict) this noCancel)) as Hk.
  { intros A g Hg. apply (keeps_traverseDepthFirst (sameField g (λ _, False))).
    - intros n. apply (keeps_iterateWithDynamics (sameField g (λ _, False))).
    - intros ns frs. apply (keeps_linkTestPost (sameField g (λ _, False))).
      + intros u v. by apply sameField_writes.
      + intros i. apply sameField_logs.
      + intros i. apply sameField_logs.
    - intros ns. apply (keeps_noCancel (sameField g (λ _, False))). }
  intros u. split.
  - apply (Hk _ pending); [done|tauto].
  - apply (Hk _ previous); [done|tauto].
Qed.

Lemma clearTemporaries_pending s : samePendingPrevious s (snd (clearTemporaries s)).
Proof.
  assert (∀ A (g : ReloadableModuleController → A),
            (∀ v c, g (withTemporary v c) = g c) →
            keeps (sameField g (λ _, False)) clearTemporaries) as Hk.
  { intros A g Hg. apply (keeps_clearTemporaries (sameField g (λ _, False))).
    - intros u v. by apply sameField_writes.
    - intros i. apply sameField_logs. }
  intros u. split.
  - apply (Hk _ pending); [done|tauto].
  - apply (Hk _ previous); [done|tauto].
Qed.

Lemma bind_eq_Throw {A B} (m : M A) (k : A → M B) s e s1 :
  m s = (Throw e, s1) → bind m k s = (Throw e, s1).
Proof. unfold bind. by intros ->. Qed.

(** The link test returns; it leaves no temporary instance behind, and its
    result is [linkError] exactly when the traversal threw. *)
Lemma linkTest_spec linkVerdict this s1 :
  fInstantiated (frame s1) = [] →
  ∃ out s2,
    linkTest linkVerdict this s1 = (Ok out, s2)
    ∧ LinkInv s1 [] s2
    ∧ match traverseDepthFirst linkTestPre (linkTestPost linkVerdict) this noCancel s1 with
      | (Ok _, _) => out = None ∧ samePendingPrevious s1 s2
      | (Throw e, _) =>
          out = Some (Some (UpdateLinkError e))
          ∧ (∀ u, u ∈ nextControllers (frame s1) → u ∈ dom (controllers s1) →
                  pending (ctrl u s2) = None ∧ previous (ctrl u s2) = None)
          ∧ (∀ u, u ∉ nextControllers (frame s1) →
                  pending (ctrl u s2) = pending (ctrl u s1)
                  ∧ previous (ctrl u s2) = previous (ctrl u s1))
      end.
Proof.
  intros Hf. unfold linkTest, tryFinally, tryCatch.
  pose proof (linkTraversal_LinkInv linkVerdict this s1 Hf) as HI.
  pose proof (linkTraversal_pending linkVerdict this s1) as Hp.
  destruct (traverseDepthFirst linkTestPre (linkTestPost linkVerdict) this noCancel s1)
    as [[r|e] st] eqn:Htr; simpl in HI, Hp.
  - rewrite (bind_eq _ _ _ _ _ Htr). cbn [ret]. destruct (clearTemporaries_spec s1 st HI) as (s2 & Hc & HI2).
    pose proof (clearTemporaries_pending st) as Hp2. rewrite Hc in *. simpl in Hp2.
    exists None, s2. split; [done|]. split; [done|]. split; [done|].
    intros u. destruct (Hp u), (Hp2 u). split; congruence.
  - rewrite (bind_eq_Throw _ _ _ _ _ Htr). unfold rollback, bind. cbn [gets].
    destruct (clearPendingPrevious_spec (nextControllers (frame st)) st)
      as (sr & Hrun & Hi & Hd & He & Hfr & Ht & Hdom & Hs & Hun & Hcl).
    rewrite Hrun. cbn [ret].
    assert (LinkInv s1 (fInstantiated (frame sr)) sr) as HIr.
    { rewrite Hfr. by apply (LinkInv_transfer s1 _ st sr). }
    destruct (clearTemporaries_spec s1 sr HIr) as (s2 & Hc & HI2).
    pose proof (clearTemporaries_pending sr) as Hp2. rewrite Hc in *. simpl in Hp2.
    exists (Some (Some (UpdateLinkError e))), s2. split; [done|]. split; [done|].
    split; [done|]. rewrite (li_next _ _ _ HI) in *. split.
    + intros u Hu Hud. destruct (Hcl u Hu) as [H1 H2]; [by rewrite (li_dom _ _ _ HI)|].
      destruct (Hp2 u). split; congruence.
    + intros u Hu. destruct (Hp u), (Hp2 u). rewrite (Hun u Hu) in *. split; congruence.
Qed.

(** What the link test leaves of the store [s] that [requestUpdate] was
    called in: the instances that existed are untouched, the instances that
    were added are unlinked again and held by no [temporary] slot, and the
    events are those of the link test. *)
Record LinkTested (s s2 : State) : Prop := {
  lt_dom : dom (controllers s2) = dom (controllers s);
  lt_slots : ∀ u, sameLiveSlots (ctrl u s2) (ctrl u s);
  lt_temporary : ∀ u,
    temporary (ctrl u s2)
    = if decide (u ∈ fInstantiated (frame s2)) then None else temporary (ctrl u s);
  lt_declarations : declarations s2 = declarations s;
  lt_old : ∀ i, i < length (instances s) → instances s2 !! i = instances s !! i;
  lt_fresh : ∀ i, length (instances s) ≤ i → i < length (instances s2) →
    status (inst i s2) = new;
  lt_events : eventsExtend (linkEvent (length (instances s))) s s2;
}.

(** The guards of lines 483-547 under which phase 2 runs. *)
Definition linkTestRuns (r : DryRunResult) : Prop :=
  drNeedsDispatch r = true ∧ drHasDecline r = false ∧ drInvalidated r = []
  ∧ drHasNewCode r = true.

Lemma LinkTested_after_dryRun s done s1 s2 :
  DryInv (setFrame (λ _, newFrame) s) [] done s1 → LinkInv s1 [] s2 →
  LinkTested s s2.
Proof.
  intros HD HI.
  pose proof (dry_instances _ _ _ _ HD) as Hi. simpl in Hi.
  split.
  - rewrite (li_dom _ _ _ HI). apply (dry_dom _ _ _ _ HD).
  - intros u. destruct (li_slots _ _ _ HI u) as (G1 & G2 & G3 & G4 & G5).
    destruct (dry_slots _ _ _ _ HD u) as (H1 & H2 & H3 & H4 & H5 & H6).
    change (ctrl u (setFrame (λ _, newFrame) s)) with (ctrl u s) in *.
    unfold sameLiveSlots. split_and!; congruence.
  - intros u. rewrite (li_other _ _ _ HI u) by apply not_elem_of_nil.
    destruct (dry_slots _ _ _ _ HD u) as (_ & _ & H3 & _).
    change (ctrl u (setFrame (λ _, newFrame) s)) with (ctrl u s) in *. by rewrite H3.
  - rewrite (li_declarations _ _ _ HI). apply (dry_declarations _ _ _ _ HD).
  - intros i Hlt. rewrite <- Hi in *. by apply (li_old _ _ _ HI).
  - intros i Hge Hlt. rewrite <- Hi in *.
    destruct (li_fresh _ _ _ HI i Hge Hlt) as [_ [Hn|(u & Hu & _)]]; [done|].
    by apply elem_of_nil in Hu.
  - destruct (li_events _ _ _ HI) as (l & Hl & Hall). exists l.
    rewrite <- Hi. split; [|done]. rewrite Hl. by rewrite (dry_events _ _ _ _ HD).
Qed.

(** * The [finally] block: pruning *)

(** The controllers of [previousControllers] that the loop of line 749
    prunes. *)
Definition orphansOf (currentControllers previousControllers : list string) : list string :=
  List.filter (fun u => negb (mem u currentControllers)) previousControllers.

(** What a completed pruning loop did to the store [s]: one [prune] per
    orphan, on its [current] instance and in the order of the list; the
    orphan then has a clone of that instance in [staging] and neither
    [current] nor [previous]. *)
Record Pruned (orphans : list string) (s s2 : State) : Prop := {
  pr_events :
    events s2 = events s ++ map (fun u => EvPrune (default 0 (current (ctrl u s)))) orphans;
  pr_orphan : ∀ u, u ∈ orphans →
    ∃ i c, current (ctrl u s) = Some i
      ∧ ctrl u s2 = withPrevious None (withCurrent None (withStaging (Some c) (ctrl u s)))
      ∧ length (instances s) ≤ c ∧ c < length (instances s2)
      ∧ withInvalidated true (inst c s2)
        = withInvalidated true (newInstance (iController (inst i s)) (declaration (inst i s)));
  pr_others : ∀ u, u ∉ orphans → ctrl u s2 = ctrl u s;
  pr_dom : dom (controllers s2) = dom (controllers s);
  pr_declarations : declarations s2 = declarations s;
  pr_length : length (instances s) ≤ length (instances s2);
  pr_instances : ∀ j, j < length (instances s) →
    withInvalidated true (inst j s2) = withInvalidated true (inst j s);
}.

Lemma Pruned_nil s : Pruned [] s s.
Proof.
  split; try done.
  - simpl. by rewrite app_nil_r.
  - intros u Hu. by apply elem_of_nil in Hu.
Qed.

Lemma mem_elem u (l : list string) : mem u l = true ↔ u ∈ l.
Proof. unfold mem. apply bool_decide_eq_true. Qed.

Lemma orphansOf_cons cur c rest :
  orphansOf cur (c :: rest)
  = if mem c cur then orphansOf cur rest else c :: orphansOf cur rest.
Proof. unfold orphansOf. simpl. by destruct (mem c cur). Qed.

Lemma elem_of_orphansOf cur prev u : u ∈ orphansOf cur prev ↔ u ∈ prev ∧ u ∉ cur.
Proof.
  unfold orphansOf. rewrite elem_of_filter_list, negb_true_iff.
  rewrite <- (not_true_iff_false (mem u cur)), mem_elem. done.
Qed.

(** One round of the loop, for an orphan whose [prune] returns. *)
Definition pruned (c : string) (i : nat) (invalidates : bool) (s : State) : State :=
  let s1 := logEvent (EvPrune i) s in
  let s2 := if invalidates then updateInst i (withInvalidated true) s1 else s1 in
  let copy := length (instances s2) in
  updateCtrl c (withPrevious None)
    (updateCtrl c (withCurrent None)
       (updateCtrl c (withStaging (Some copy))
          (setInstances
             (fun l => l ++ [newInstance (iController (inst i s2)) (declaration (inst i s2))])
             s2))).

Lemma inst_withInvalidated i j s :
  withInvalidated true (inst j (updateInst i (withInvalidated true) s))
  = withInvalidated true (inst j s)
  ∧ iController (inst j (updateInst i (withInvalidated true) s)) = iController (inst j s)
  ∧ declaration (inst j (updateInst i (withInvalidated true) s)) = declaration (inst j s).
Proof.
  destruct (decide (i = j)) as [->|Hne]; [|by rewrite inst_updateInst_ne].
  unfold inst, updateInst. simpl. rewrite list_lookup_alter_eq.
  by destruct (instances s !! j).
Qed.

Lemma is_Some_updateCtrl u v f s :
  is_Some (controllers s !! v) → is_Some (controllers (updateCtrl u f s) !! v).
Proof. intros H. apply elem_of_dom. rewrite dom_updateCtrl. by apply elem_of_dom. Qed.

Lemma pruned_Pruned c i invalidates s :
  current (ctrl c s) = Some i →
  Pruned [c] s (pruned c i invalidates s).
Proof.
  intros Hc.
  assert (c ∈ dom (controllers s)) as Hdom by (by apply (ctrl_some_dom current _ _ i)).
  set (s1 := logEvent (EvPrune i) s).
  set (s2 := if invalidates then updateInst i (withInvalidated true) s1 else s1).
  assert (length (instances s2) = length (instances s)) as Hlen.
  { subst s2. destruct invalidates; [|done]. simpl. by rewrite length_alter. }
  assert (∀ j, withInvalidated true (inst j s2) = withInvalidated true (inst j s)
               ∧ iController (inst j s2) = iController (inst j s)
               ∧ declaration (inst j s2) = declaration (inst j s)) as Hinst.
  { intros j. subst s2. destruct invalidates; [|done]. apply (inst_withInvalidated i j s1). }
  assert (controllers s2 = controllers s) as Hctrl by (subst s2; by destruct invalidates).
  assert (events s2 = events s ++ [EvPrune i]) as Hev by (subst s2; by destruct invalidates).
  assert (declarations s2 = declarations s) as Hdecl by (subst s2; by destruct invalidates).
  unfold pruned. fold s1. fold s2.
  set (x := newInstance (iController (inst i s2)) (declaration (inst i s2))).
  set (sa := setInstances (fun l => l ++ [x]) s2).
  assert (∀ u, ctrl u sa = ctrl u s) as Hsa by (intros u; unfold ctrl; simpl; by rewrite Hctrl).
  assert (is_Some (controllers sa !! c)) as Hsome.
  { apply elem_of_dom. simpl. by rewrite Hctrl. }
  split.
  - simpl. rewrite Hev, Hc. done.
  - intros u Hu. apply list_elem_of_singleton in Hu. subst u.
    exists i, (length (instances s2)). split; [done|]. split.
    + rewrite ctrl_updateCtrl_eq by (by do 2 apply is_Some_updateCtrl).
      rewrite ctrl_updateCtrl_eq by (by apply is_Some_updateCtrl).
      rewrite ctrl_updateCtrl_eq by done. by rewrite Hsa.
    + split; [lia|]. split; [simpl; rewrite length_app; simpl; lia|].
      unfold inst at 1. simpl. rewrite list_lookup_middle by done.
      subst x. by destruct (Hinst i) as (_ & -> & ->).
  - intros u Hu. rewrite list_elem_of_singleton in Hu.
    rewrite !ctrl_updateCtrl_ne by (intros ->; done). apply Hsa.
  - simpl. rewrite !dom_alter_L. by rewrite Hctrl.
  - simpl. done.
  - simpl. rewrite length_app. lia.
  - intros j Hj. destruct (Hinst j) as (<- & _).
    unfold inst at 1. simpl. rewrite lookup_app_l by lia. done.
Qed.

Lemma Pruned_cons c l s s' s'' :
  Pruned [c] s s' → Pruned l s' s'' → c ∉ l →
  (∀ u i, u ∈ l → current (ctrl u s) = Some i → i < length (instances s)) →
  Pruned (c :: l) s s''.
Proof.
  intros H1 H2 Hc Halloc.
  assert (∀ u, u ∈ l → ctrl u s' = ctrl u s) as Hsame.
  { intros u Hu. apply (pr_others _ _ _ H1). rewrite list_elem_of_singleton. by intros ->. }
  pose proof (pr_length _ _ _ H1) as Hl1. pose proof (pr_length _ _ _ H2) as Hl2.
  split.
  - rewrite (pr_events _ _ _ H2), (pr_events _ _ _ H1). simpl. rewrite <- app_assoc. simpl.
    do 2 f_equal. apply map_ext_in. intros u Hu. apply list_elem_of_In in Hu.
    by rewrite (Hsame u Hu).
  - intros u Hu. apply elem_of_cons in Hu as [->|Hu].
    + destruct (pr_orphan _ _ _ H1 c) as (i & k & Hi & Hctrl & Hge & Hlt & Hk);
        [by apply list_elem_of_singleton|].
      exists i, k. split; [done|]. split; [by rewrite (pr_others _ _ _ H2 c Hc)|].
      split; [done|]. split; [lia|]. by rewrite (pr_instances _ _ _ H2 k Hlt).
    + destruct (pr_orphan _ _ _ H2 u Hu) as (i & k & Hi & Hctrl & Hge & Hlt & Hk).
      rewrite (Hsame u Hu) in Hi, Hctrl.
      exists i, k. split; [done|]. split; [done|]. split; [lia|]. split; [done|].
      rewrite Hk. pose proof (pr_instances _ _ _ H1 i (Halloc u i Hu Hi)) as Hii.
      assert (iController (inst i s') = iController (inst i s)) as ->
        by exact (f_equal iController Hii).
      assert (declaration (inst i s') = declaration (inst i s)) as ->
        by exact (f_equal declaration Hii).
      done.
  - intros u Hu. apply not_elem_of_cons in Hu as [Hne Hu].
    rewrite (pr_others _ _ _ H2 u Hu). apply (pr_others _ _ _ H1).
    by rewrite list_elem_of_singleton.
  - rewrite (pr_dom _ _ _ H2). apply (pr_dom _ _ _ H1).
  - rewrite (pr_declarations _ _ _ H2). apply (pr_declarations _ _ _ H1).
  - lia.
  - intros j Hj. rewrite (pr_instances _ _ _ H2 j) by lia. by apply (pr_instances _ _ _ H1).
Qed.

Lemma pruneOrphans_skip this cur c rest s :
  mem c cur = true →
  pruneOrphans this cur (c :: rest) s = pruneOrphans this cur rest s.
Proof. intros H. simpl. by rewrite H. Qed.

Lemma pruneOrphans_step this cur c rest s i :
  mem c cur = false → current (ctrl c s) = Some i →
  pruneOrphans this cur (c :: rest) s
  = match hPrune (iHot (inst i s)) with
    | CbOk => pruneOrphans this cur rest (pruned c i false s)
    | CbInvalidates => pruneOrphans this cur rest (pruned c i true s)
    | CbThrows e =>
        let f := {| feType := fatalError; feError := e |} in
        (Ok (Some (Some (UpdateFatal f))),
         updateCtrl this (withFatalError (Some f)) (logEvent (EvPrune i) s))
    end.
Proof.
  intros Hm Hc. simpl. rewrite Hm.
  unfold bind at 1. unfold select, selectCurrent. rewrite Hc.
  unfold bind at 1. unfold tryCatch. unfold bind at 1. unfold prune.
  unfold bind at 1. cbn [modify]. unfold bind at 1. cbn [gets].
  change (inst i (logEvent (EvPrune i) s)) with (inst i s).
  destruct (hPrune (iHot (inst i s))) as [|e|]; reflexivity.
Qed.

(** The [prune] callback of the current instance of [u] throws [e]. *)
Definition pruneThrows (s : State) (u : string) (e : Error) : Prop :=
  ∃ i, current (ctrl u s) = Some i ∧ hPrune (iHot (inst i s)) = CbThrows e.

Lemma pruneThrows_Pruned c s s' u e :
  Pruned [c] s s' → u ≠ c →
  (∀ i, current (ctrl u s) = Some i → i < length (instances s)) →
  pruneThrows s' u e ↔ pruneThrows s u e.
Proof.
  intros HP Hne Halloc. unfold pruneThrows.
  rewrite (pr_others _ _ _ HP u) by (by rewrite list_elem_of_singleton).
  split; intros (i & Hi & Hp); exists i; (split; [done|]);
    pose proof (pr_instances _ _ _ HP i (Halloc i Hi)) as Hii;
    pose proof (f_equal iHot Hii : iHot (inst i s') = iHot (inst i s)) as Hh; congruence.
Qed.

Lemma pruneOrphans_spec this cur prev : ∀ s,
  NoDup prev → this ∈ dom (controllers s) →
  (∀ u, u ∈ orphansOf cur prev →
        ∃ i, current (ctrl u s) = Some i ∧ i < length (instances s)) →
  ∃ out s2,
    pruneOrphans this cur prev s = (Ok out, s2)
    ∧ match out with
      | None =>
          Pruned (orphansOf cur prev) s s2
          ∧ ∀ u e, u ∈ orphansOf cur prev → ¬ pruneThrows s u e
      | Some r =>
          ∃ f, r = Some (UpdateFatal f) ∧ feType f = fatalError
               ∧ fatalErrorOf (ctrl this s2) = Some f
               ∧ ∃ u, u ∈ orphansOf cur prev ∧ pruneThrows s u (feError f)
      end.
Proof.
  induction prev as [|c rest IH]; intros s Hnd Hthis Halloc.
  { exists None, s. split; [done|]. split; [apply Pruned_nil|].
    intros u e Hu. by apply elem_of_nil in Hu. }
  apply NoDup_cons in Hnd as [Hc Hnd]. rewrite orphansOf_cons in *.
  destruct (mem c cur) eqn:Hm.
  { rewrite (pruneOrphans_skip _ _ _ _ _ Hm). by apply IH. }
  destruct (Halloc c) as (i & Hi & Hlt); [apply elem_of_cons; by left|].
  rewrite (pruneOrphans_step _ _ _ _ _ i Hm Hi).
  assert (c ∉ orphansOf cur rest) as Hc'.
  { rewrite elem_of_orphansOf. tauto. }
  assert (∀ invalidates,
    (∀ e, hPrune (iHot (inst i s)) ≠ CbThrows e) →
    ∃ out s2,
      pruneOrphans this cur rest (pruned c i invalidates s) = (Ok out, s2)
      ∧ match out with
        | None =>
            Pruned (c :: orphansOf cur rest) s s2
            ∧ ∀ u e, u ∈ c :: orphansOf cur rest → ¬ pruneThrows s u e
        | Some r =>
            ∃ f, r = Some (UpdateFatal f) ∧ feType f = fatalError
                 ∧ fatalErrorOf (ctrl this s2) = Some f
                 ∧ ∃ u, u ∈ c :: orphansOf cur rest ∧ pruneThrows s u (feError f)
        end) as Hgo.
  { intros invalidates Hok.
    pose proof (pruned_Pruned c i invalidates s Hi) as HP.
    destruct (IH (pruned c i invalidates s) Hnd) as (out & s2 & Hrun & Hout).
    { by rewrite (pr_dom _ _ _ HP). }
    { intros u Hu. destruct (Halloc u) as (j & Hj & Hjl); [apply elem_of_cons; by right|].
      exists j. rewrite (pr_others _ _ _ HP u).
      - split; [done|]. pose proof (pr_length _ _ _ HP). lia.
      - rewrite list_elem_of_singleton. by intros ->. }
    assert (∀ u e, u ∈ orphansOf cur rest →
              pruneThrows (pruned c i invalidates s) u e ↔ pruneThrows s u e) as Hback.
    { intros u e Hu. apply (pruneThrows_Pruned c); [done|by intros ->|].
      intros j Hj. destruct (Halloc u) as (j' & Hj' & Hjl); [apply elem_of_cons; by right|].
      congruence. }
    exists out, s2. split; [done|]. destruct out as [r|].
    - destruct Hout as (f & -> & Hty & Hst & u & Hu & Hthrow).
      exists f. split; [done|]. split; [done|]. split; [done|].
      exists u. split; [apply elem_of_cons; by right|by apply Hback].
    - destruct Hout as [HP2 Hno]. split.
      + apply (Pruned_cons c _ s _ s2 HP HP2 Hc').
        intros u j Hu Hj. destruct (Halloc u) as (j' & Hj' & Hjl); [apply elem_of_cons; by right|].
        congruence.
      + intros u e Hu Hthrow. apply elem_of_cons in Hu as [->|Hu].
        * destruct Hthrow as (j & Hj & Hp). rewrite Hi in Hj. injection Hj as <-.
          by apply (Hok e).
        * apply (Hno u e Hu). by apply Hback. }
  destruct (hPrune (iHot (inst i s))) as [|e|] eqn:Hp.
  - by apply (Hgo false).
  - eexists _, _. split; [reflexivity|]. cbn zeta.
    exists {| feType := fatalError; feError := e |}. split; [done|]. split; [done|]. split.
    + rewrite ctrl_updateCtrl_eq; [done|]. by apply elem_of_dom.
    + exists c. split; [apply elem_of_cons; by left|]. by exists i.
  - by apply (Hgo true).
Qed.

(** * The generator [traverse] *)

(** [c] is imported, statically or dynamically, by the current instance of
    [u]. *)
Definition imports (s : State) (u c : string) : Prop :=
  ∃ i, current (ctrl u s) = Some i ∧ c ∈ iterateDependencies i s.

(** The graph of current instances is the same in both stores. *)
Definition Quiet (s s' : State) : Prop :=
  instances s' = instances s ∧ declarations s' = declarations s
  ∧ dom (controllers s') = dom (controllers s)
  ∧ currentVisitIndex s' = currentVisitIndex s
  ∧ ∀ u, current (ctrl u s') = current (ctrl u s).

Lemma Quiet_refl s : Quiet s s.
Proof. done. Qed.

Lemma Quiet_trans a b c : Quiet a b → Quiet b c → Quiet a c.
Proof.
  intros (H1 & H2 & H3 & H5 & H4) (G1 & G2 & G3 & G5 & G4).
  split_and!; first [congruence | intros u; by rewrite G4, H4].
Qed.

Lemma imports_Quiet s s' u c : Quiet s s' → imports s' u c ↔ imports s u c.
Proof.
  intros (H1 & H2 & H3 & _ & H4). unfold imports, iterateDependencies, declarationOf, decl, inst.
  by rewrite H1, H2, H4.
Qed.

Definition marked (tag : nat) (s : State) (u : string) : Prop :=
  visitIndex (ctrl u s) = tag.

(** What a consumer of the generator may do with a controller: it leaves
    the graph and the visit indices alone. *)
Definition quietYield (onYield : string → M unit) : Prop :=
  ∀ u s, Quiet s (snd (onYield u s))
         ∧ ∀ v, visitIndex (ctrl v (snd (onYield u s))) = visitIndex (ctrl v s).

Definition Fresh (s : State) : Prop :=
  ∀ u, visitIndex (ctrl u s) ≤ currentVisitIndex s.

(** The controllers [l] that a walk yielded, between the stores [s] and
    [s']: they are the controllers it marked, and it left none of their
    imports unmarked. *)
Record Walked (tag : nat) (s : State) (l : list string) (s' : State) : Prop := {
  wk_quiet : Quiet s s';
  wk_nodup : NoDup l;
  wk_new : ∀ u, u ∈ l → ¬ marked tag s u;
  wk_marks : ∀ u, marked tag s' u ↔ marked tag s u ∨ u ∈ l;
  wk_closed : ∀ u c, u ∈ l → imports s u c → marked tag s' c;
  wk_rest : ∀ u, u ∉ l → visitIndex (ctrl u s') = visitIndex (ctrl u s);
}.

Lemma iterateWithDynamics_current node s cs s' :
  iterateWithDynamics node selectCurrent selectCurrent s = (Ok cs, s') →
  s' = s ∧ ∃ i, current (ctrl node s) = Some i ∧ cs = iterateDependencies i s.
Proof.
  unfold iterateWithDynamics, iterate. intros H.
  apply bind_Ok in H as (statics & s1 & H1 & H).
  apply bind_Ok in H1 as (i & s0 & Hi & H1). apply select_Ok in Hi as [Hi ->].
  apply gets_Ok in H1 as [<- <-].
  apply bind_Ok in H as (j & s1 & Hj & H). apply select_Ok in Hj as [Hj ->].
  apply bind_Ok in H as (dynamics & s1 & Hd & H). apply gets_Ok in Hd as [<- <-].
  apply ret_Ok in H as [<- <-]. split; [done|].
  unfold selectCurrent in Hi, Hj. rewrite Hi in Hj. injection Hj as <-. eauto.
Qed.

Section Walk.

Variable tag : nat.
Variable onYield : string → M unit.
Hypothesis HonYield : quietYield onYield.

Definition walkedFrom (node : string) (s : State) (l : list string) (s' : State) : Prop :=
  Walked tag s l s'
  ∧ (∀ c, imports s node c → marked tag s' c)
  ∧ (∀ u, u ∈ l → tc (imports s) node u).

Definition walkedChildren (children : list string) (s : State) (l : list string)
    (s' : State) : Prop :=
  Walked tag s l s'
  ∧ (∀ c, c ∈ children → marked tag s' c)
  ∧ (∀ u, u ∈ l → ∃ c, c ∈ children ∧ rtc (imports s) c u).

Lemma traverseChildren_walked recurse :
  (∀ node s l s', recurse node s = (Ok l, s') →
     is_Some (current (ctrl node s)) ∧ walkedFrom node s l s') →
  ∀ children s l s',
    traverseChildren recurse tag onYield children s = (Ok l, s') →
    walkedChildren children s l s'.
Proof.
  intros Hrec. induction children as [|c rest IH]; intros s l s' Hrun; simpl in Hrun.
  { injection Hrun as <- <-. split; [|split].
    - split; [done|constructor|..].
      + intros u Hu. by apply elem_of_nil in Hu.
      + intros u. rewrite elem_of_nil. tauto.
      + intros u c Hu. by apply elem_of_nil in Hu.
      + done.
    - intros c Hc. by apply elem_of_nil in Hc.
    - intros u Hu. by apply elem_of_nil in Hu. }
  unfold bind at 1 in Hrun. cbn [gets] in Hrun.
  destruct (Nat.eqb_spec (visitIndex (ctrl c s)) tag) as [Hseen|Hseen].
  { destruct (IH s l s' Hrun) as (HW & Hcs & Hreach). split; [done|]. split.
    - intros c' Hc'. apply elem_of_cons in Hc' as [->|Hc']; [|by apply Hcs].
      apply (wk_marks _ _ _ _ HW). by left.
    - intros u Hu. destruct (Hreach u Hu) as (c' & Hc' & Hr). exists c'.
      split; [apply elem_of_cons; by right|done]. }
  apply bind_Ok in Hrun as ([] & sa & Hmark & Hrun). apply modify_Ok in Hmark.
  apply bind_Ok in Hrun as ([] & sb & Hy & Hrun).
  apply bind_Ok in Hrun as (below & sc & Hbelow & Hrun).
  apply bind_Ok in Hrun as (others & sd & Hothers & Hrun).
  apply ret_Ok in Hrun as [<- <-].
  destruct (HonYield c sa) as [Hq1 Hv1]. rewrite Hy in Hq1, Hv1. simpl in Hq1, Hv1.
  destruct (Hrec c sb below sc Hbelow) as ([i Hi] & HWb & Hcb & Hrb).
  destruct (IH sc others sd Hothers) as (HWo & Hco & Hro).
  assert (Quiet s sa) as Hq0.
  { subst sa. split_and!; try done; [apply dom_updateCtrl|].
    intros u. by apply ctrl_updateCtrl_field. }
  assert (Quiet s sb) as Hqb by (by apply (Quiet_trans s sa sb)).
  assert (Quiet s sc) as Hqc by (apply (Quiet_trans s sb sc); [done|apply HWb]).
  assert (c ∈ dom (controllers s)) as Hdom.
  { destruct Hqb as (_ & _ & <- & _). by apply (ctrl_some_dom current _ _ i). }
  assert (∀ u, u ≠ c → visitIndex (ctrl u sb) = visitIndex (ctrl u s)) as Hrest.
  { intros u Hne. rewrite Hv1. subst sa. by rewrite ctrl_updateCtrl_ne. }
  assert (∀ u, marked tag sb u ↔ marked tag s u ∨ u = c) as Hmb.
  { intros u. unfold marked. rewrite Hv1. subst sa.
    destruct (decide (u = c)) as [->|Hne].
    - rewrite ctrl_updateCtrl_eq by (by apply elem_of_dom). simpl. tauto.
    - rewrite ctrl_updateCtrl_ne by done. intuition. }
  assert (∀ u, marked tag sc u ↔ marked tag s u ∨ u = c ∨ u ∈ below) as Hmc.
  { intros u. rewrite (wk_marks _ _ _ _ HWb), Hmb. tauto. }
  assert (∀ u, marked tag sd u ↔ marked tag s u ∨ u ∈ c :: below ++ others) as Hmd.
  { intros u. rewrite (wk_marks _ _ _ _ HWo), Hmc, elem_of_cons, elem_of_app. tauto. }
  split; [split|split].
  - apply (Quiet_trans s sc sd); [done|apply HWo].
  - apply NoDup_cons. split.
    + rewrite elem_of_app. intros [Hin|Hin].
      * apply (wk_new _ _ _ _ HWb c Hin). apply Hmb. by right.
      * apply (wk_new _ _ _ _ HWo c Hin). apply Hmc. tauto.
    + apply NoDup_app. split; [apply HWb|]. split; [|apply HWo].
      intros u Hu Hu'. apply (wk_new _ _ _ _ HWo u Hu'). apply Hmc. tauto.
  - intros u Hu Hm. apply elem_of_cons in Hu as [->|Hu]; [done|].
    apply elem_of_app in Hu as [Hu|Hu].
    + apply (wk_new _ _ _ _ HWb u Hu). apply Hmb. by left.
    + apply (wk_new _ _ _ _ HWo u Hu). apply Hmc. by left.
  - done.
  - intros u c' Hu Himp. apply elem_of_cons in Hu as [->|Hu].
    + apply (wk_marks _ _ _ _ HWo). left. apply Hcb. by apply (imports_Quiet s sb).
    + apply elem_of_app in Hu as [Hu|Hu].
      * apply (wk_marks _ _ _ _ HWo). left.
        apply (wk_closed _ _ _ _ HWb u c' Hu). by apply (imports_Quiet s sb).
      * apply (wk_closed _ _ _ _ HWo u c' Hu). by apply (imports_Quiet s sc).
  - intros u Hu. apply not_elem_of_cons in Hu as [Hne Hu].
    apply not_elem_of_app in Hu as [Hub Huo].
    rewrite (wk_rest _ _ _ _ HWo u Huo), (wk_rest _ _ _ _ HWb u Hub). by apply Hrest.
  - intros c' Hc'. apply elem_of_cons in Hc' as [->|Hc'].
    + apply Hmd. right. apply elem_of_cons. by left.
    + by apply Hco.
  - intros u Hu. apply elem_of_cons in Hu as [->|Hu].
    + exists c. split; [apply elem_of_cons; by left|done].
    + apply elem_of_app in Hu as [Hu|Hu].
      * exists c. split; [apply elem_of_cons; by left|].
        apply tc_rtc. apply (tc_congruence (λ x, x) (imports s) c u) in Hrb; [done| |done].
        intros x y. by apply (imports_Quiet s sb).
      * destruct (Hro u Hu) as (c' & Hc' & Hr). exists c'.
        split; [apply elem_of_cons; by right|].
        apply (rtc_congruence (λ x, x) (imports s) c' u) in Hr; [done|].
        intros x y. by apply (imports_Quiet s sc).
Qed.

Lemma traverseFrom_walked fuel : ∀ node s l s',
  traverseFrom fuel tag onYield node s = (Ok l, s') →
  is_Some (current (ctrl node s)) ∧ walkedFrom node s l s'.
Proof.
  induction fuel as [|fuel IH]; intros node s l s' Hrun; simpl in Hrun; [done|].
  apply bind_Ok in Hrun as (cs & s0 & Hcs & Hrun).
  apply iterateWithDynamics_current in Hcs as (-> & i & Hi & ->).
  destruct (traverseChildren_walked _ IH _ _ _ _ Hrun) as (HW & Hcs & Hreach).
  split; [eauto|]. split; [done|]. split.
  - intros c (j & Hj & Hc). rewrite Hi in Hj. injection Hj as <-. by apply Hcs.
  - intros u Hu. destruct (Hreach u Hu) as (c & Hc & Hr).
    apply (tc_rtc_r _ c); [|done]. apply tc_once. by exists i.
Qed.

End Walk.

(** The generator yields, once each, the controllers that the root imports
    directly or through other controllers. *)
Lemma traverse_walked this onYield s l s' :
  quietYield onYield → Fresh s →
  traverse this onYield s = (Ok l, s') →
  NoDup l ∧ (∀ u, u ∈ l ↔ tc (imports s) this u)
  ∧ is_Some (current (ctrl this s))
  ∧ instances s' = instances s ∧ declarations s' = declarations s
  ∧ dom (controllers s') = dom (controllers s)
  ∧ (∀ u, current (ctrl u s') = current (ctrl u s))
  ∧ Fresh s'.
Proof.
  intros Hy Hfresh Hrun. unfold traverse in Hrun.
  apply bind_Ok in Hrun as (tag & s0 & Htag & Hrun). injection Htag as <- <-.
  apply bind_Ok in Hrun as (fuel & s0 & Hfuel & Hrun). apply gets_Ok in Hfuel as [<- <-].
  set (tag := S (currentVisitIndex s)) in *.
  set (st := setCurrentVisitIndex tag s) in *.
  destruct (traverseFrom_walked tag onYield Hy _ _ _ _ _ Hrun) as (Hcur & HW & Hkids & Hreach).
  assert (∀ u, ¬ marked tag st u) as Hnone.
  { intros u Hu. unfold marked in Hu. change (ctrl u st) with (ctrl u s) in Hu.
    pose proof (Hfresh u). subst tag. lia. }
  assert (∀ x y, imports st x y ↔ imports s x y) as Himp by done.
  destruct (wk_quiet _ _ _ _ HW) as (Hi & Hd & Hdom & Hcvi & Hc).
  split; [apply HW|]. split; [|split; [done|split_and!; try done]].
  - intros u. split.
    + intros Hu. apply (tc_congruence (λ x, x) (imports s) this u) in Hreach; [done| |done].
      intros x y. by apply Himp.
    + intros Hpath.
      assert (∀ x, tc (imports s) this x → marked tag s' x) as Hall.
      { apply (tc_ind_r (R := imports s) (λ x, marked tag s' x) this).
        - intros z Hz. apply Hkids. by apply Himp.
        - intros y z _ Hyz IH'.
          apply (wk_marks _ _ _ _ HW) in IH' as [IH'|IH']; [by apply Hnone in IH'|].
          apply (wk_closed _ _ _ _ HW y z IH'). by apply Himp. }
      apply Hall in Hpath. apply (wk_marks _ _ _ _ HW) in Hpath as [Hm|Hin]; [|done].
      by apply Hnone in Hm.
  - intros u. rewrite Hcvi. simpl. destruct (decide (u ∈ l)) as [Hin|Hin].
    + assert (marked tag s' u) as Hm by (apply (wk_marks _ _ _ _ HW); by right).
      unfold marked in Hm. lia.
    + rewrite (wk_rest _ _ _ _ HW u Hin). change (ctrl u st) with (ctrl u s).
      pose proof (Hfresh u). subst tag. lia.
Qed.

Lemma quietYield_ret : quietYield (fun _ => ret tt).
Proof. done. Qed.

Lemma quietYield_clearPrevious : quietYield clearPrevious.
Proof.
  intros u s. unfold clearPrevious, bind. cbn [gets]. unfold assert_ok.
  destruct (negb _); [|done]. cbn [ret modify snd]. split.
  - split_and!; try done; [apply dom_updateCtrl|]. intros v. by apply ctrl_updateCtrl_field.
  - intros v. by apply ctrl_updateCtrl_field.
Qed.

(** The visit indices are kept and the counter did not go back. *)
Definition freshKept (s s' : State) : Prop :=
  (∀ u, visitIndex (ctrl u s') = visitIndex (ctrl u s))
  ∧ currentVisitIndex s ≤ currentVisitIndex s'.

Lemma freshKept_Tolerates : Tolerates freshKept.
Proof.
  split; unfold freshKept; simpl; try done.
  - intros a b c [H1 H2] [H3 H4]. split; [|lia]. intros u. by rewrite H3.
  - intros s. split; [done|lia].
Qed.

Lemma freshKept_writes u f :
  (∀ c, visitIndex (f c) = visitIndex c) → writes freshKept u f.
Proof. intros Hf s. split; [|done]. intros v. by apply ctrl_updateCtrl_field. Qed.

Lemma freshKept_logs e : logs freshKept e.
Proof. done. Qed.

Lemma Fresh_kept s s' : Fresh s → freshKept s s' → Fresh s'.
Proof. intros Hf [H1 H2] u. rewrite H1. pose proof (Hf u). lia. Qed.

Lemma commit_freshKept linkVerdict this s :
  freshKept s (snd (tryCatch (commit linkVerdict this) (commitCatch linkVerdict this) s)).
Proof.
  assert (keeps freshKept (tryCatch (commit linkVerdict this) (commitCatch linkVerdict this)))
    as Hk.
  { apply (keeps_tryCatch freshKept (Tolerates0 := freshKept_Tolerates)).
    - apply (keeps_commit freshKept (Tolerates0 := freshKept_Tolerates)).
      unfold commitAllowed, writesSlot.
      split_and!; intros; try apply freshKept_logs; by apply freshKept_writes.
    - intros e. apply (keeps_commitCatch freshKept (Tolerates0 := freshKept_Tolerates));
        unfold writesSlot; intros; try apply freshKept_logs; by apply freshKept_writes. }
  apply Hk.
Qed.

Lemma commit_sameDom linkVerdict this s :
  dom (controllers (snd (tryCatch (commit linkVerdict this) (commitCatch linkVerdict this) s)))
  = dom (controllers s).
Proof.
  assert (keeps sameDom (tryCatch (commit linkVerdict this) (commitCatch linkVerdict this)))
    as Hk.
  { apply (keeps_tryCatch sameDom).
    - apply (keeps_commit sameDom). apply (proj1 (sameDom_updateAllowed this)).
    - intros e. apply (keeps_commitCatch sameDom);
        unfold writesSlot; intros; try apply sameDom_logs; apply sameDom_writes. }
  apply Hk.
Qed.

(** A pruned controller is revived by the pre-visit of [dispatch]: it adopts
    the staged clone as its current instance. *)
Lemma dispatchPre_revives u c x s :
  u ∈ dom (controllers s) →
  ctrl u s = withPrevious None (withCurrent None (withStaging (Some c) x)) →
  ∃ cs s', dispatchPre u s = (Ok cs, s') ∧ current (ctrl u s') = Some c.
Proof.
  intros Hdom Hc.
  set (s1 := logEvent (EvInstantiate c)
               (updateInst c (fun y => withData None (withStatus instantiated y))
                  (updateCtrl u (withCurrent (Some c)) s))).
  assert (current (ctrl u s1) = Some c) as Hcur.
  { change (ctrl u s1) with (ctrl u (updateCtrl u (withCurrent (Some c)) s)).
    rewrite ctrl_updateCtrl_eq; [done|]. by apply elem_of_dom. }
  exists (reloadableChildren (loadedModules (declarationOf c s1))), s1. split; [|done].
  unfold dispatchPre.
  rewrite (bind_eq _ _ s None s) by (unfold gets; by rewrite Hc).
  assert ((let* staged := select u selectStaging in
           let* _ := modify (updateCtrl u (withCurrent (Some staged))) in
           instantiate staged None) s = (Ok tt, s1)) as Hstep.
  { unfold bind, select, selectStaging. by rewrite Hc. }
  rewrite (bind_eq _ _ _ _ _ Hstep).
  unfold iterate, bind, select, selectCurrent. by rewrite Hcur.
Qed.

(** The completion of the [try]/[catch] statement, when the [finally] block
    completes without a [return] of its own. *)
Definition completed (completion : Outcome (option UpdateResult)) (s : State)
    : Outcome UpdateResult :=
  match completion with
  | Throw e => Throw e
  | Ok (Some r) => Ok r
  | Ok None => Ok (Some (UpdateSuccess success (stats s)))
  end.

(** * Phase 3: the evaluation loop *)

(** The current instance of [n] exists and has been evaluated. *)
Definition Evaluated (n : string) (s : State) : Prop :=
  ∃ c, current (ctrl n s) = Some c ∧ c < length (instances s)
       ∧ status (inst c s) = evaluated.

(** What [evaluate] leaves of the store. *)
Lemma evaluate_frame i s :
  let s' := snd (evaluate i s) in
  controllers s' = controllers s ∧ frame s' = frame s
  ∧ declarations s' = declarations s
  ∧ length (instances s') = length (instances s)
  ∧ (∀ j, j ≠ i → inst j s' = inst j s)
  ∧ (status (inst i s) = evaluated → s' = s).
Proof.
  unfold evaluate. destruct (decide (status (inst i s) = evaluated)) as [He|He].
  - destruct (evaluationError (inst i s)); simpl; split_and!; done.
  - assert (∀ r, let s' := snd (r : Outcome unit,
                updateInst i (afterRun (body (declarationOf i s))) (logEvent (EvEvaluate i) s)) in
              controllers s' = controllers s ∧ frame s' = frame s
              ∧ declarations s' = declarations s
              ∧ length (instances s') = length (instances s)
              ∧ (∀ j, j ≠ i → inst j s' = inst j s)
              ∧ (status (inst i s) = evaluated → s' = s)) as H.
    { intros r. simpl. split_and!; try done.
      - by rewrite length_alter.
      - intros j Hj. by rewrite inst_updateInst_ne. }
    destruct (bodyThrows (body (declarationOf i s))); apply H.
Qed.

Lemma evaluate_outcome i s :
  i < length (instances s) →
  status (inst i (snd (evaluate i s))) = evaluated
  ∧ match fst (evaluate i s) with
    | Ok _ => evaluationError (inst i (snd (evaluate i s))) = None
    | Throw e => evaluationError (inst i (snd (evaluate i s))) = Some e
    end.
Proof.
  intros Hi. unfold evaluate. destruct (decide (status (inst i s) = evaluated)) as [He|He].
  - destruct (evaluationError (inst i s)) eqn:Herr; simpl; done.
  - destruct (bodyThrows (body (declarationOf i s))) eqn:Hb; simpl;
      rewrite inst_updateInst_eq by done; simpl; done.
Qed.

Lemma Evaluated_evaluate n i s : Evaluated n s → Evaluated n (snd (evaluate i s)).
Proof.
  intros (c & Hc & Hlt & Hst).
  destruct (evaluate_frame i s) as (Hctrl & _ & _ & Hlen & Hother & Hsame).
  exists c. unfold ctrl. rewrite Hctrl, Hlen. split; [done|]. split; [done|].
  destruct (decide (c = i)) as [->|Hne]; [by rewrite (Hsame Hst)|by rewrite Hother].
Qed.

(** The steps of [evaluateNode] around [evaluate]. *)
Definition counted (node : string) (cur : nat) (s : State) : State :=
  setFrame (if sameDeclarationAsPrevious node cur s then countReevaluation else countLoad) s.

Definition settled (node : string) (cur : nat) (s : State) : State :=
  let s1 := updateCtrl node (withPending None) s in
  if optEqb (Some cur) (staging (ctrl node s1))
  then updateCtrl node (withStaging None) s1 else s1.

Lemma evaluateNode_eq node s cur :
  current (ctrl node s) = Some cur →
  evaluateNode node s
  = match evaluate cur (counted node cur s) with
    | (Ok _, s1) => (Ok tt, settled node cur s1)
    | (Throw e, s1) => (Throw e, s1)
    end.
Proof.
  intros Hc. unfold evaluateNode, bind, select, selectCurrent. rewrite Hc. cbn [gets modify].
  fold (counted node cur s).
  destruct (evaluate cur (counted node cur s)) as [[[]|e] s1]; [|done].
  unfold settled. by destruct (optEqb _ _).
Qed.

Lemma evaluateNode_none node s :
  current (ctrl node s) = None → evaluateNode node s = (Throw AssertionError, s).
Proof.
  intros Hc. unfold evaluateNode, bind, select, selectCurrent. by rewrite Hc.
Qed.

Lemma settled_frame node cur s :
  instances (settled node cur s) = instances s
  ∧ frame (settled node cur s) = frame s
  ∧ events (settled node cur s) = events s
  ∧ (∀ m, current (ctrl m (settled node cur s)) = current (ctrl m s))
  ∧ (∀ m, previous (ctrl m (settled node cur s)) = previous (ctrl m s)).
Proof.
  unfold settled. destruct (optEqb _ _); simpl; split_and!; try done;
    intros m; rewrite ?(ctrl_updateCtrl_field current), ?(ctrl_updateCtrl_field previous); done.
Qed.

Lemma Evaluated_evaluateNode n node s : Evaluated n s → Evaluated n (snd (evaluateNode node s)).
Proof.
  intros He. destruct (current (ctrl node s)) as [cur|] eqn:Hc.
  - rewrite (evaluateNode_eq node s cur Hc).
    assert (Evaluated n (counted node cur s)) as He' by done.
    pose proof (Evaluated_evaluate n cur _ He') as H.
    destruct (evaluate cur (counted node cur s)) as [[[]|e] s1]; simpl in *; [|done].
    destruct H as (c & H1 & H2 & H3). destruct (settled_frame node cur s1) as (Hi & _ & _ & Hcur & _).
    exists c. rewrite Hcur. unfold inst. rewrite Hi. done.
  - by rewrite (evaluateNode_none node s Hc).
Qed.

Lemma evaluateNode_Evaluated node s cur :
  current (ctrl node s) = Some cur → cur < length (instances s) →
  Evaluated node (snd (evaluateNode node s))
  ∧ current (ctrl node (snd (evaluateNode node s))) = Some cur
  ∧ match fst (evaluateNode node s) with
    | Ok _ => evaluationError (inst cur (snd (evaluateNode node s))) = None
    | Throw e => evaluationError (inst cur (snd (evaluateNode node s))) = Some e
    end.
Proof.
  intros Hc Hlt. rewrite (evaluateNode_eq node s cur Hc).
  assert (cur < length (instances (counted node cur s))) as Hlt' by done.
  destruct (evaluate_outcome cur _ Hlt') as [Hst Hout].
  destruct (evaluate_frame cur (counted node cur s)) as (Hctrl & _ & _ & Hlen & _).
  destruct (evaluate cur (counted node cur s)) as [[[]|e] s1]; simpl in *.
  - destruct (settled_frame node cur s1) as (Hi & _ & _ & Hcur & _).
    assert (current (ctrl node s1) = Some cur) as Hc1 by (unfold ctrl; by rewrite Hctrl).
    split; [|split].
    + exists cur. rewrite Hcur. unfold inst. rewrite Hi. split; [done|]. split; [lia|done].
    + by rewrite Hcur.
    + unfold inst. by rewrite Hi.
  - assert (current (ctrl node s1) = Some cur) as Hc1 by (unfold ctrl; by rewrite Hctrl).
    split; [|done]. exists cur. split; [done|]. split; [lia|done].
Qed.

(** The store after the rollback of line 672 over [nodes]: a member whose
    current instance holds an evaluation error has [current] reverted to
    [previous]; nothing else changed. *)
Record Reverted (nodes : list string) (s s' : State) : Prop := {
  rv_instances : instances s' = instances s;
  rv_declarations : declarations s' = declarations s;
  rv_events : events s' = events s;
  rv_frame : frame s' = frame s;
  rv_dom : dom (controllers s') = dom (controllers s);
  rv_others : ∀ n, n ∉ nodes → ctrl n s' = ctrl n s;
  rv_members : ∀ n c, n ∈ nodes → current (ctrl n s) = Some c →
    ctrl n s' = if isSome (evaluationError (inst c s))
                then withCurrent (previous (ctrl n s)) (ctrl n s)
                else ctrl n s;
}.

Lemma evaluationRollback_spec nodes : ∀ s,
  NoDup nodes → (∀ n, n ∈ nodes → Evaluated n s) →
  ∃ s', evaluationRollback nodes s = (Ok tt, s') ∧ Reverted nodes s s'.
Proof.
  induction nodes as [|a l IH]; intros s Hnd Hev.
  { exists s. split; [done|]. split; try done. intros n c Hn. by apply elem_of_nil in Hn. }
  apply NoDup_cons in Hnd as [Ha Hnd].
  destruct (Hev a) as (c & Hc & Hlt & Hst); [apply elem_of_cons; by left|].
  assert (a ∈ dom (controllers s)) as Hdom by (by apply (ctrl_some_dom current _ _ c)).
  set (s1 := if isSome (evaluationError (inst c s))
             then updateCtrl a (withCurrent (previous (ctrl a s))) s else s).
  assert ((let* cur := select a selectCurrent in
          let* st := gets (fun s => status (inst cur s)) in
          let* _ := assert_ok (bool_decide (st = evaluated)) in
          let* err := gets (fun s => evaluationError (inst cur s)) in
          if isSome err
          then modify (fun s => updateCtrl a (withCurrent (previous (ctrl a s))) s)
          else ret tt) s = (Ok tt, s1)) as Hstep.
  { unfold bind, select, selectCurrent. rewrite Hc. cbn [gets]. rewrite Hst.
    rewrite bool_decide_eq_true_2 by done. cbn [assert_ok ret]. subst s1.
    by destruct (isSome (evaluationError (inst c s))). }
  assert (instances s1 = instances s ∧ declarations s1 = declarations s
          ∧ events s1 = events s ∧ frame s1 = frame s
          ∧ dom (controllers s1) = dom (controllers s)
          ∧ (∀ n, n ≠ a → ctrl n s1 = ctrl n s)
          ∧ ctrl a s1 = if isSome (evaluationError (inst c s))
                        then withCurrent (previous (ctrl a s)) (ctrl a s) else ctrl a s)
    as (Hi & Hd & He & Hf & Hdm & Hne & Heq).
  { subst s1. destruct (isSome (evaluationError (inst c s))); [|done].
    split_and!; try done.
    - apply dom_updateCtrl.
    - intros n Hn. by rewrite ctrl_updateCtrl_ne.
    - rewrite ctrl_updateCtrl_eq; [done|]. by apply elem_of_dom. }
  destruct (IH s1 Hnd) as (s' & Hrun & HR).
  { intros n Hn. destruct (Hev n) as (k & Hk & Hkl & Hks); [apply elem_of_cons; by right|].
    exists k. rewrite (Hne n) by (intros ->; done). unfold inst. rewrite Hi. done. }
  exists s'. split.
  { unfold evaluationRollback. cbn [forEach]. by rewrite (bind_eq _ _ _ _ _ Hstep). }
  split.
  - by rewrite (rv_instances _ _ _ HR).
  - by rewrite (rv_declarations _ _ _ HR).
  - by rewrite (rv_events _ _ _ HR).
  - by rewrite (rv_frame _ _ _ HR).
  - by rewrite (rv_dom _ _ _ HR).
  - intros n Hn. apply not_elem_of_cons in Hn as [Hna Hn].
    rewrite (rv_others _ _ _ HR n Hn). by apply Hne.
  - intros n k Hn Hk. apply elem_of_cons in Hn as [->|Hn].
    + rewrite (rv_others _ _ _ HR a Ha), Heq. rewrite Hc in Hk. by injection Hk as <-.
    + assert (n ≠ a) as Hna by (intros ->; done).
      rewrite (rv_members _ _ _ HR n k Hn) by (by rewrite (Hne n Hna)).
      rewrite (Hne n Hna). unfold inst. by rewrite Hi.
Qed.

Lemma iterateWithRollback_app {A} (done rest : list A) rollback yielded body : ∀ s sy,
  forEach done body s = (Ok tt, sy) →
  iterateWithRollback (done ++ rest) rollback yielded body s
  = iterateWithRollback rest rollback (yielded ++ done) body sy.
Proof.
  revert yielded. induction done as [|x l IH]; intros yielded s sy Hrun; simpl in *.
  - injection Hrun as <-. by rewrite app_nil_r.
  - apply bind_Ok in Hrun as ([] & s1 & Hx & Hrun).
    unfold bind at 1. unfold tryCatch. rewrite Hx.
    rewrite (IH (yielded ++ [x]) s1 sy Hrun). by rewrite <- app_assoc.
Qed.

Lemma forEach_Evaluated nodes : ∀ s sy,
  (∀ n c, n ∈ nodes → current (ctrl n s) = Some c → c < length (instances s)) →
  forEach nodes evaluateNode s = (Ok tt, sy) →
  length (instances sy) = length (instances s)
  ∧ (∀ m, current (ctrl m sy) = current (ctrl m s))
  ∧ ∀ n, n ∈ nodes → Evaluated n sy.
Proof.
  induction nodes as [|a l IH]; intros s sy Halloc Hrun; simpl in Hrun.
  { injection Hrun as <-. split; [done|]. split; [done|].
    intros n Hn. by apply elem_of_nil in Hn. }
  apply bind_Ok in Hrun as ([] & s1 & Ha & Hrun).
  destruct (current (ctrl a s)) as [c|] eqn:Hc; [|by rewrite (evaluateNode_none a s Hc) in Ha].
  pose proof (Halloc a c ltac:(apply elem_of_cons; by left) Hc) as Hlt.
  destruct (evaluateNode_Evaluated a s c Hc Hlt) as (Hev & Hcc & _).
  assert (length (instances s1) = length (instances s)
          ∧ ∀ m, current (ctrl m s1) = current (ctrl m s)) as [Hlen Hsame].
  { rewrite (evaluateNode_eq a s c Hc) in Ha.
    destruct (evaluate_frame c (counted a c s)) as (Hctrl & _ & _ & Hl & _).
    destruct (evaluate c (counted a c s)) as [[[]|e] sx]; [|done]. injection Ha as <-.
    destruct (settled_frame a c sx) as (Hi & _ & _ & Hcur' & _). simpl in *.
    split; [by rewrite Hi|]. intros m. rewrite Hcur'. unfold ctrl. by rewrite Hctrl. }
  rewrite Ha in Hev. simpl in Hev.
  destruct (IH s1 sy) as (Hlen' & Hsame' & Hall); [|done|].
  { intros n k Hn Hk. rewrite Hsame in Hk. rewrite Hlen. apply (Halloc n k); [|done].
    apply elem_of_cons. by right. }
  split; [lia|]. split; [intros m; by rewrite Hsame'|].
  intros n Hn. apply elem_of_cons in Hn as [->|Hn]; [|by apply Hall].
  clear -Hev Hrun. revert s1 Hev Hrun. induction l as [|b l IHl]; intros s1 Hev Hrun; simpl in Hrun.
  - by injection Hrun as <-.
  - apply bind_Ok in Hrun as ([] & s2 & Hb & Hrun). apply (IHl s2); [|done].
    pose proof (Evaluated_evaluateNode a b s1 Hev) as H. by rewrite Hb in H.
Qed.

(** Lines 672-695: when the members [yielded] were evaluated and the
    evaluation of the next member [x] throws, the rollback runs over
    [yielded] and [x], and the error propagates. *)
Lemma evaluation_rollback yielded x rest s sy e sx :
  NoDup (yielded ++ [x]) →
  (∀ n c, n ∈ yielded ++ [x] → current (ctrl n s) = Some c → c < length (instances s)) →
  forEach yielded evaluateNode s = (Ok tt, sy) →
  is_Some (current (ctrl x sy)) →
  evaluateNode x sy = (Throw e, sx) →
  ∃ s',
    iterateWithRollback (yielded ++ x :: rest) evaluationRollback [] evaluateNode s
      = (Throw e, s')
    ∧ Reverted (yielded ++ [x]) sx s'
    ∧ current (ctrl x s') = previous (ctrl x sx).
Proof.
  intros Hnd Halloc Hrun [c Hc] Hx.
  destruct (forEach_Evaluated yielded s sy) as (Hlen & Hsame & Hall); [|done|].
  { intros n k Hn. apply Halloc. apply elem_of_app. by left. }
  assert (c < length (instances sy)) as Hlt.
  { rewrite Hlen. apply (Halloc x c); [|by rewrite <- Hsame].
    apply elem_of_app. right. by apply list_elem_of_singleton. }
  destruct (evaluateNode_Evaluated x sy c Hc Hlt) as (Hev & Hcx & Herr).
  rewrite Hx in Hev, Hcx, Herr. simpl in Hev, Hcx, Herr.
  destruct (evaluationRollback_spec (yielded ++ [x]) sx Hnd) as (s' & Hrb & HR).
  { intros n Hn. apply elem_of_app in Hn as [Hn|Hn].
    - pose proof (Evaluated_evaluateNode n x sy (Hall n Hn)) as H. by rewrite Hx in H.
    - apply list_elem_of_singleton in Hn. by subst n. }
  exists s'. split; [|split; [done|]].
  - rewrite (iterateWithRollback_app yielded (x :: rest) _ [] _ s sy Hrun). simpl.
    unfold bind at 1. unfold tryCatch. rewrite Hx. unfold bind at 1. by rewrite Hrb.
  - rewrite (rv_members _ _ _ HR x c) by (done || (apply elem_of_app; right;
      by apply list_elem_of_singleton)).
    by rewrite Herr.
Qed.

(** * The [catch] block: recovery *)

Definition recoveryEvent (e : Event) : bool :=
  match e with
  | EvUnlink _ | EvRelink _ => true
  | _ => false
  end.

(** The instances are those of [s], up to their link status. *)
Definition sameGraph (s s' : State) : Prop :=
  declarations s' = declarations s
  ∧ frame s' = frame s
  ∧ dom (controllers s') = dom (controllers s)
  ∧ (∀ u, current (ctrl u s') = current (ctrl u s))
  ∧ ∀ i, declaration (inst i s') = declaration (inst i s)
         ∧ dynamicImports (inst i s') = dynamicImports (inst i s).

Lemma sameGraph_refl s : sameGraph s s.
Proof. done. Qed.

Lemma sameGraph_trans a b c : sameGraph a b → sameGraph b c → sameGraph a c.
Proof.
  intros (H1 & H2 & H3 & H4 & H5) (G1 & G2 & G3 & G4 & G5).
  split_and!; first [congruence | intros u; by rewrite G4, H4 | idtac].
  intros i. destruct (H5 i), (G5 i). split; congruence.
Qed.

Lemma sameGraph_imports s s' u c : sameGraph s s' → imports s' u c ↔ imports s u c.
Proof.
  intros (H1 & _ & _ & H4 & H5). unfold imports, iterateDependencies, declarationOf, decl.
  rewrite H4, H1. split; intros (i & Hi & Hc); exists i; (split; [done|]);
    destruct (H5 i) as [-> ->] || destruct (H5 i) as [<- <-]; done.
Qed.

Lemma inst_updateInst_field {A} (g : ReloadableModuleInstance → A) i j f s :
  (∀ x, g (f x) = g x) → g (inst i (updateInst j f s)) = g (inst i s).
Proof.
  intros Hg. destruct (decide (j = i)) as [->|Hne]; [|by rewrite inst_updateInst_ne].
  unfold inst, updateInst. simpl. rewrite list_lookup_alter_eq.
  destruct (instances s !! i); simpl; auto.
Qed.

Lemma sameGraph_updateInst s j f :
  (∀ x, declaration (f x) = declaration x) →
  (∀ x, dynamicImports (f x) = dynamicImports x) →
  sameGraph s (updateInst j f s).
Proof.
  intros Hd Hy. split_and!; try done. intros i.
  split; by apply inst_updateInst_field.
Qed.

Lemma markLinked_fields x :
  declaration (markLinked x) = declaration x
  ∧ dynamicImports (markLinked x) = dynamicImports x.
Proof. unfold markLinked. by destruct (decide _). Qed.

(** The store during the recovery that started in [s2]; [l] are the events
    it logged so far. *)
Record RecInv (s2 : State) (opened done : list string) (l : list Event) (s : State)
    : Prop := {
  ri_graph : sameGraph s2 s;
  ri_events : events s = events s2 ++ l;
  ri_kind : forallb recoveryEvent l = true;
  ri_untouched : ∀ u, u ∉ opened → u ∉ done → ctrl u s = ctrl u s2;
  ri_visited : ∀ u, u ∈ opened ∨ u ∈ done →
    pending (ctrl u s) = None
    ∧ ∀ p, pending (ctrl u s2) = Some p → EvUnlink p ∈ l;
  ri_done : ∀ u, u ∈ done → ∃ c, current (ctrl u s2) = Some c ∧ EvRelink c ∈ l;
}.

Lemma recoverPre_RecInv s2 opened done l n s cs s' :
  RecInv s2 opened done l s → n ∉ opened → n ∉ done →
  recoverPre n s = (Ok cs, s') →
  n ∈ dom (controllers s2)
  ∧ (∀ c, imports s2 n c → c ∈ cs)
  ∧ ∃ l', RecInv s2 (n :: opened) done l' s'.
Proof.
  intros HI Hno Hnd Hrun. unfold recoverPre in Hrun.
  apply bind_Ok in Hrun as (next & s0 & Hnext & Hrun). apply gets_Ok in Hnext as [<- <-].
  apply bind_Ok in Hrun as ([] & s1 & Hstep & Hrun).
  apply iterateWithDynamics_current in Hrun as (-> & i & Hi & ->).
  pose proof (ri_untouched _ _ _ _ _ HI n Hno Hnd) as Hsame.
  assert (∃ l', RecInv s2 (n :: opened) done l' s1 ∧ sameGraph s s1) as (l' & HI' & HG).
  { destruct (pending (ctrl n s)) as [p|] eqn:Hp.
    - apply bind_Ok in Hstep as (forget & sa & Hu & Hstep). apply modify_Ok in Hstep.
      assert (∃ f, (∀ x, declaration (f x) = declaration x)
                   ∧ (∀ x, dynamicImports (f x) = dynamicImports x)
                   ∧ sa = updateInst p f (logEvent (EvUnlink p) s)) as (f & Hf1 & Hf2 & ->).
      { unfold unlink in Hu. destruct (decide _); injection Hu as _ <-.
        - exists (λ x, x). split_and!; try done.
          unfold updateInst, setInstances, logEvent. simpl. by rewrite list_alter_id.
        - by exists (withStatus new). }
      assert (sameGraph s s1) as HG.
      { subst s1. apply (sameGraph_trans _ (updateInst p f (logEvent (EvUnlink p) s))).
        - by apply (sameGraph_updateInst (logEvent (EvUnlink p) s)).
        - split_and!; try done; [apply dom_updateCtrl|]. intros u. by apply ctrl_updateCtrl_field. }
      exists (l ++ [EvUnlink p]). split; [|done]. split.
      + apply (sameGraph_trans _ s); [apply HI|done].
      + subst s1. simpl. by rewrite (ri_events _ _ _ _ _ HI), <- app_assoc.
      + by rewrite forallb_app, (ri_kind _ _ _ _ _ HI).
      + intros u Hu' Hd. apply not_elem_of_cons in Hu' as [Hne Hu'].
        subst s1. rewrite ctrl_updateCtrl_ne by done.
        change (ctrl u (updateInst p f (logEvent (EvUnlink p) s))) with (ctrl u s).
        by apply HI.
      + intros u Hu'. subst s1. destruct (decide (u = n)) as [->|Hne].
        * split.
          -- rewrite ctrl_updateCtrl_eq; [done|]. apply elem_of_dom.
             change (dom (controllers (updateInst p f (logEvent (EvUnlink p) s))))
               with (dom (controllers s)).
             by apply (ctrl_some_dom pending _ _ p).
          -- intros q Hq. rewrite <- Hsame, Hp in Hq. injection Hq as <-.
             apply elem_of_app. right. by apply list_elem_of_singleton.
        * rewrite ctrl_updateCtrl_ne by done.
          change (ctrl u (updateInst p f (logEvent (EvUnlink p) s))) with (ctrl u s).
          destruct (ri_visited _ _ _ _ _ HI u) as [H1 H2].
          { destruct Hu' as [Hu'|Hu']; [|by right]. apply elem_of_cons in Hu' as [?|?]; [done|by left]. }
          split; [done|]. intros q Hq. apply elem_of_app. left. by apply H2.
      + intros u Hu'. destruct (ri_done _ _ _ _ _ HI u Hu') as (c & Hc & Hin).
        exists c. split; [done|]. apply elem_of_app. by left.
    - apply ret_Ok in Hstep as [_ <-]. exists l. split; [|done]. split; try apply HI.
      + intros u Hu' Hd. apply not_elem_of_cons in Hu' as [Hne Hu']. by apply HI.
      + intros u Hu'. destruct (decide (u = n)) as [->|Hne].
        * split; [done|]. intros q Hq. by rewrite <- Hsame, Hp in Hq.
        * apply (ri_visited _ _ _ _ _ HI u).
          destruct Hu' as [Hu'|Hu']; [|by right]. apply elem_of_cons in Hu' as [?|?]; [done|by left]. }
  assert (sameGraph s2 s1) as HG2 by apply HI'.
  split; [|split; [|by exists l']].
  - destruct HG2 as (_ & _ & <- & _). by apply (ctrl_some_dom current _ _ i).
  - intros c Hc. apply (sameGraph_imports s2 s1) in Hc; [|done].
    destruct Hc as (j & Hj & Hc). rewrite Hi in Hj. by injection Hj as <-.
Qed.

Lemma RecInv_step s2 opened done l s e j f :
  RecInv s2 opened done l s → recoveryEvent e = true →
  (∀ x, declaration (f x) = declaration x) →
  (∀ x, dynamicImports (f x) = dynamicImports x) →
  RecInv s2 opened done (l ++ [e]) (updateInst j f (logEvent e s)).
Proof.
  intros HI He Hf1 Hf2. split.
  - apply (sameGraph_trans _ s); [apply HI|].
    by apply (sameGraph_updateInst (logEvent e s)).
  - simpl. by rewrite (ri_events _ _ _ _ _ HI), <- app_assoc.
  - rewrite forallb_app, (ri_kind _ _ _ _ _ HI). simpl. by rewrite He.
  - intros u Hu Hd. by apply (ri_untouched _ _ _ _ _ HI).
  - intros u Hu. destruct (ri_visited _ _ _ _ _ HI u Hu) as [H1 H2].
    split; [done|]. intros p Hp. apply elem_of_app. left. by apply H2.
  - intros u Hu. destruct (ri_done _ _ _ _ _ HI u Hu) as (c & Hc & Hin).
    exists c. split; [done|]. apply elem_of_app. by left.
Qed.

Lemma relinkAll_RecInv linkVerdict s2 opened done ns : ∀ l s s',
  RecInv s2 opened done l s →
  forEach ns (fun node => let* cur := select node selectCurrent in relink linkVerdict cur) s
    = (Ok tt, s') →
  ∃ l', RecInv s2 opened done l' s'
        ∧ (∀ e, e ∈ l → e ∈ l')
        ∧ ∀ n, n ∈ ns → ∃ c, current (ctrl n s2) = Some c ∧ EvRelink c ∈ l'.
Proof.
  induction ns as [|a ns IH]; intros l s s' HI Hrun; simpl in Hrun.
  { injection Hrun as <-. exists l. split; [done|]. split; [done|].
    intros n Hn. by apply elem_of_nil in Hn. }
  apply bind_Ok in Hrun as ([] & s1 & Ha & Hrun).
  apply bind_Ok in Ha as (c & s0 & Hc & Ha). apply select_Ok in Hc as [Hc ->].
  unfold relink in Ha. destruct (linkVerdict _ _ _); [done|]. injection Ha as <-.
  assert (RecInv s2 opened done (l ++ [EvRelink c])
            (updateInst c markLinked (logEvent (EvRelink c) s))) as HI1.
  { apply RecInv_step; [done|done|intros x; apply markLinked_fields..]. }
  destruct (IH _ _ _ HI1 Hrun) as (l' & HI' & Hmono & Hall).
  exists l'. split; [done|]. split.
  - intros e He. apply Hmono. apply elem_of_app. by left.
  - intros n Hn. apply elem_of_cons in Hn as [->|Hn]; [|by apply Hall].
    exists c. split.
    + destruct (ri_graph _ _ _ _ _ HI) as (_ & _ & _ & <- & _). done.
    + apply Hmono. apply elem_of_app. right. by apply list_elem_of_singleton.
Qed.

Lemma recoverPost_RecInv linkVerdict s2 opened done l ns frs s s' :
  RecInv s2 (rev ns ++ opened) done l s →
  recoverPost linkVerdict ns frs s = (Ok tt, s') →
  ∃ l', RecInv s2 opened (ns ++ done) l' s'.
Proof.
  intros HI Hrun. unfold recoverPost in Hrun.
  destruct (relinkAll_RecInv linkVerdict s2 _ _ ns l s s' HI Hrun) as (l' & HI' & Hmono & Hall).
  exists l'. split; try apply HI'.
  - intros u Hu Hd. apply not_elem_of_app in Hd as [Hn Hd].
    apply (ri_untouched _ _ _ _ _ HI'); [|done].
    rewrite elem_of_app, elem_of_rev_iff. tauto.
  - intros u Hu. apply (ri_visited _ _ _ _ _ HI').
    rewrite elem_of_app, elem_of_rev_iff. rewrite elem_of_app in Hu. tauto.
  - intros u Hu. apply elem_of_app in Hu as [Hu|Hu]; [by apply Hall|].
    by apply (ri_done _ _ _ _ _ HI').
Qed.

(** What a completed recovery did to the store [s2]: on every controller
    that the root reaches through current instances, the pending instance
    was unlinked and dropped and the current instance was linked again. *)
Record Recovered (this : string) (s2 s3 : State) : Prop := {
  rc_graph : sameGraph s2 s3;
  rc_events : ∃ l, events s3 = events s2 ++ l ∧ forallb recoveryEvent l = true
    ∧ ∀ u, rtc (imports s2) this u →
        (∀ p, pending (ctrl u s2) = Some p → EvUnlink p ∈ l)
        ∧ ∃ c, current (ctrl u s2) = Some c ∧ EvRelink c ∈ l;
  rc_pending : ∀ u, rtc (imports s2) this u → pending (ctrl u s3) = None;
}.

Lemma recover_spec linkVerdict this s2 s3 :
  recover linkVerdict this s2 = (Ok tt, s3) → Recovered this s2 s3.
Proof.
  intros Hrun.
  set (Inv := λ (K : list (string * list string)) (opened done : list string) (st : State),
         (∃ l, RecInv s2 opened done l st)
         ∧ ∀ m cs c, (m, cs) ∈ K → imports s2 m c → c ∈ cs).
  assert (∀ n K opened done st,
    Inv K opened done st → n ∉ opened → n ∉ done → reached this K n →
    match recoverPre n st with
    | (Ok cs, s') => n ∈ dom (controllers s2) ∧ Inv ((n, cs) :: K) (n :: opened) done s'
    | (Throw e, s') => True
    end) as Hpre.
  { intros n K opened done st ([l HI] & HK) Hno Hnd _.
    destruct (recoverPre n st) as [[cs|e] s'] eqn:Hp; [|done].
    destruct (recoverPre_RecInv _ _ _ _ _ _ _ _ HI Hno Hnd Hp) as (Hdom & Hcs & l' & HI').
    split; [done|]. split; [by exists l'|].
    intros m cs' c Hm Himp. apply elem_of_cons in Hm as [[= -> ->]|Hm]; [by apply Hcs|].
    by apply (HK m cs' c). }
  assert (∀ ns (frs : list unit) K opened done st,
    Inv K (rev ns ++ opened) done st → Forall (λ _, True) frs →
    match recoverPost linkVerdict ns frs st with
    | (Ok r, s') => Inv K opened (ns ++ done) s' ∧ True
    | (Throw e, s') => True
    end) as Hpost.
  { intros ns frs K opened done st ([l HI] & HK) _.
    destruct (recoverPost linkVerdict ns frs st) as [[[]|e] s'] eqn:Hp; [|done].
    destruct (recoverPost_RecInv _ _ _ _ _ _ _ _ _ HI Hp) as (l' & HI').
    split; [|done]. split; [by exists l'|done]. }
  assert (Inv [] [] [] s2) as Hstart.
  { split.
    - exists []. split; try done.
      + by rewrite app_nil_r.
      + intros u [Hu|Hu]; by apply elem_of_nil in Hu.
      + intros u Hu. by apply elem_of_nil in Hu.
    - intros m cs c Hm. by apply elem_of_nil in Hm. }
  pose proof (traverseDepthFirst_rule recoverPre (recoverPost linkVerdict)
                (dom (controllers s2)) Inv (λ _, True) (λ _ _, True) this Hpre Hpost
                noCancel s2 Hstart) as Hrule.
  unfold recover in Hrun. rewrite Hrun in Hrule.
  destruct Hrule as (K & done & ([l HI] & HK) & _ & Hroot & Hclosed & Hall);
    [by rewrite size_dom|].
  assert (∀ u, rtc (imports s2) this u → u ∈ done) as Hreach.
  { apply (rtc_ind_r (R := imports s2) (λ u, u ∈ done) this); [done|].
    intros y z _ Hyz IH.
    destruct (Hall y IH) as [cs Hcs]. destruct (Hclosed y cs Hcs) as [_ Hsub].
    apply Hsub. by apply (HK y cs z). }
  split.
  - apply HI.
  - exists l. split; [apply HI|]. split; [apply HI|]. intros u Hu. split.
    + apply (ri_visited _ _ _ _ _ HI u). right. by apply Hreach.
    + apply (ri_done _ _ _ _ _ HI u). by apply Hreach.
  - intros u Hu. apply (ri_visited _ _ _ _ _ HI u). right. by apply Hreach.
Qed.

(** The result of the [catch] block, lines 733-737, after a recovery that
    ended in [s3]. *)
Definition caught (e : Error) (s3 : State) : UpdateResult :=
  match dispatchLinkErrorType (frame s3) with
  | None => Some (UpdateEvaluationError e (stats s3))
  | Some type => Some (UpdateFatal {| feType := type; feError := e |})
  end.

Definition caughtState (this : string) (e : Error) (s3 : State) : State :=
  match dispatchLinkErrorType (frame s3) with
  | None => s3
  | Some type => updateCtrl this (withFatalError (Some {| feType := type; feError := e |})) s3
  end.

Lemma commitCatch_eq linkVerdict this e s2 s3 :
  recover linkVerdict this s2 = (Ok tt, s3) →
  commitCatch linkVerdict this e s2 = (Ok (Some (caught e s3)), caughtState this e s3).
Proof.
  intros Hr. unfold commitCatch. rewrite (bind_eq _ _ _ _ _ Hr).
  unfold bind at 1. cbn [gets]. unfold caught, caughtState.
  by destruct (dispatchLinkErrorType (frame s3)).
Qed.

Lemma recover_root_dom linkVerdict this s2 s3 :
  recover linkVerdict this s2 = (Ok tt, s3) → this ∈ dom (controllers s2).
Proof.
  intros Hr. destruct (recover_spec _ _ _ _ Hr) as [_ (l & _ & _ & Hev) _].
  destruct (Hev this (rtc_refl _ _)) as [_ (c & Hc & _)].
  by apply (ctrl_some_dom current _ _ c).
Qed.

(** ** The generator does not run out of fuel *)

(** The controllers that do not carry the tag. *)
Definition unmarked (tag : nat) (s : State) : gset string :=
  filter (λ u, visitIndex (ctrl u s) ≠ tag) (dom (controllers s)).

Lemma unmarked_Walked tag s l s' : Walked tag s l s' → unmarked tag s' ⊆ unmarked tag s.
Proof.
  intros HW u. unfold unmarked. rewrite !elem_of_filter.
  destruct (wk_quiet _ _ _ _ HW) as (_ & _ & Hdom & _). rewrite Hdom.
  intros [Hu Hd]. split; [|done]. intros Hm. apply Hu.
  apply (wk_marks _ _ _ _ HW). by left.
Qed.

Section Fuel.

Variable tag : nat.
Variable onYield : string → M unit.
Hypothesis HonYield : quietYield onYield.
Hypothesis Hnever : ∀ u s, fst (onYield u s) ≠ Throw Exhausted.

Lemma traverseChildren_fuel recurse fuel :
  (∀ node s l s', recurse node s = (Ok l, s') →
     is_Some (current (ctrl node s)) ∧ walkedFrom tag node s l s') →
  (∀ node s, size (unmarked tag s) + 2 ≤ fuel → fst (recurse node s) ≠ Throw Exhausted) →
  (∀ node s, 1 ≤ fuel → node ∉ dom (controllers s) → fst (recurse node s) ≠ Throw Exhausted) →
  ∀ children s,
    size (unmarked tag s) + 2 ≤ S fuel →
    fst (traverseChildren recurse tag onYield children s) ≠ Throw Exhausted.
Proof.
  intros Hrec Hfuel Hout. induction children as [|c rest IH]; intros s Hs; simpl; [done|].
  unfold bind at 1. cbn [gets].
  destruct (Nat.eqb_spec (visitIndex (ctrl c s)) tag) as [Hseen|Hseen]; [by apply IH|].
  unfold bind at 1. cbn [modify]. set (sa := updateCtrl c (withVisitIndex tag) s).
  unfold bind at 1. destruct (HonYield c sa) as [Hq Hv]. pose proof (Hnever c sa) as Hn.
  destruct (onYield c sa) as [[[]|e] sb] eqn:Hy; simpl in *; [|intros [= He]; apply Hn; by rewrite He].
  assert (dom (controllers sb) = dom (controllers s)) as Hdom.
  { destruct Hq as (_ & _ & -> & _). apply dom_updateCtrl. }
  assert (unmarked tag sb ⊆ unmarked tag s) as Hsub.
  { intros u. unfold unmarked. rewrite !elem_of_filter, Hdom, Hv. intros [Hu Hd].
    split; [|done]. intros Hm. apply Hu. subst sa.
    destruct (decide (c = u)) as [->|Hne]; [done|by rewrite ctrl_updateCtrl_ne]. }
  assert (fst (recurse c sb) ≠ Throw Exhausted) as Hrc.
  { destruct (decide (c ∈ dom (controllers s))) as [Hin|Hin].
    - apply Hfuel.
      assert (unmarked tag sb ⊂ unmarked tag s) as Hstrict.
      { split; [done|]. intros Hback.
        assert (c ∈ unmarked tag s) as Hc by (unfold unmarked; by rewrite elem_of_filter).
        apply Hback in Hc. unfold unmarked in Hc. rewrite elem_of_filter, Hv in Hc.
        destruct Hc as [Hc _]. apply Hc. subst sa.
        rewrite ctrl_updateCtrl_eq; [done|]. by apply elem_of_dom. }
      apply subset_size in Hstrict. lia.
    - apply Hout; [lia|]. by rewrite Hdom. }
  unfold bind at 1. destruct (recurse c sb) as [[below|e] sc] eqn:Hb; simpl in *; [|done].
  destruct (Hrec c sb below sc Hb) as (_ & HW & _).
  pose proof (unmarked_Walked _ _ _ _ HW) as Hsub2.
  assert (size (unmarked tag sc) + 2 ≤ S fuel) as Hsc.
  { apply subseteq_size in Hsub, Hsub2. lia. }
  specialize (IH sc Hsc). unfold bind.
  by destruct (traverseChildren recurse tag onYield rest sc) as [[others|e] sd].
Qed.

Lemma traverseFrom_fuel fuel : ∀ node s,
  (size (unmarked tag s) + 2 ≤ fuel ∨ (1 ≤ fuel ∧ node ∉ dom (controllers s))) →
  fst (traverseFrom fuel tag onYield node s) ≠ Throw Exhausted.
Proof.
  induction fuel as [|fuel IH]; intros node s Hs; [lia|]. simpl.
  unfold bind at 1.
  destruct (iterateWithDynamics node selectCurrent selectCurrent s) as [[cs|e] s0] eqn:Hcs.
  - apply iterateWithDynamics_current in Hcs as (-> & i & Hi & ->).
    destruct Hs as [Hs|[_ Hout]].
    + apply (traverseChildren_fuel (traverseFrom fuel tag onYield) fuel); try done.
      * intros n st l st' Hrun. by apply (traverseFrom_walked tag onYield HonYield fuel).
      * intros n st Hst. apply IH. by left.
      * intros n st Hf Hn. apply IH. by right.
    + exfalso. apply Hout. by apply (ctrl_some_dom current _ _ i).
  - simpl. intros [= ->]. revert Hcs.
    unfold iterateWithDynamics, iterate, bind, select, selectCurrent.
    destruct (current (ctrl node s)); [|done]. cbn [gets].
    by destruct (current (ctrl node s)).
Qed.

End Fuel.

(** The fuel that [traverse] takes suffices: it returns, or it fails as the
    source does. *)
Lemma traverse_fuel this onYield s :
  quietYield onYield → (∀ u st, fst (onYield u st) ≠ Throw Exhausted) →
  fst (traverse this onYield s) ≠ Throw Exhausted.
Proof.
  intros Hy Hnever. unfold traverse, bind. cbn [acquireVisitIndex gets].
  apply (traverseFrom_fuel _ onYield Hy Hnever). left.
  assert (size (unmarked (S (currentVisitIndex s))
                  (setCurrentVisitIndex (S (currentVisitIndex s)) s))
          ≤ size (controllers s)).
  { rewrite <- size_dom. apply subseteq_size. intros u. unfold unmarked.
    rewrite elem_of_filter. by intros [_ ?]. }
  simpl. lia.
Qed.

(** Both traversals of [requestUpdate] return, or fail as the source does. *)
Lemma traverse_collect_fuel this s :
  fst (traverse this (fun _ => ret tt) s) ≠ Throw Exhausted.
Proof. by apply traverse_fuel; [apply quietYield_ret|]. Qed.

Lemma traverse_clearPrevious_fuel this s :
  fst (traverse this clearPrevious s) ≠ Throw Exhausted.
Proof.
  apply traverse_fuel; [apply quietYield_clearPrevious|].
  intros u st. unfold clearPrevious, bind. cbn [gets].
  by destruct (pending (ctrl u st)).
Qed.

(** * Scenarios

    Concrete module graphs, built with the operations of the runtime; the
    tests of the repository are run on the model. *)

Definition noLinkErrors
    : (string → option ModuleDeclaration) → string → ModuleDeclaration → option Error :=
  fun _ _ _ => None.

Definition exportedNames (d : ModuleDeclaration) : list string :=
  bodyExports (body d) ++ map fst (indirectExportEntries d).

(** A resolution that looks one module far: a named import needs an export
    of that name in the module it is imported from. *)
Definition directVerdict (resolve : string → option ModuleDeclaration) (url : string)
    (d : ModuleDeclaration) : option Error :=
  if forallb (fun request =>
       match controller request with
       | Adapter _ => true
       | Reloadable u =>
           match resolve u with
           | None => false
           | Some target =>
               forallb (fun b =>
                 match b with
                 | ImportEntry name _ | ExportIndirectEntry name _ =>
                     mem name (exportedNames target)
                 | _ => true
                 end) (bindings request)
           end
       end) (loadedModules d)
  then None else Some (SyntaxError url).

Definition importing (u : string) (names : list string) : LoadedModuleRequestEntry :=
  {| specifier := u; bindings := map (fun n => ImportEntry n None) names;
     controller := Reloadable u |}.

Definition bodyWith (exports : list string) (hot : HotRegistration) : ModuleBody :=
  {| async := false; bodyExports := exports; bodyHot := hot;
     bodyDynamicImports := []; bodyThrows := None |}.

Definition accepting (cb : Callback) : HotRegistration :=
  {| hAcceptSelf := Some cb; hAccepts := []; hDeclined := false;
     hDispose := CbOk; hPrune := CbOk; hData := 0 |}.

Definition acceptingOf (deps : list string) (isDeclined : bool) : HotRegistration :=
  {| hAcceptSelf := None; hAccepts := map (fun d => (d, CbOk)) deps;
     hDeclined := isDeclined; hDispose := CbOk; hPrune := CbOk; hData := 0 |}.

Definition OpSource (u : string) (b : ModuleBody)
    (loaded : list LoadedModuleRequestEntry) : Operation :=
  OpLoad u b None false "module" [] loaded.

Definition runScript (ops : list Operation) : State :=
  runOperations directVerdict false ops emptyState.

Definition evaluations (u : string) (s : State) : nat :=
  length (List.filter (fun e =>
    match e with
    | EvEvaluate i => String.eqb (iController (inst i s)) u
    | _ => false
    end) (events s)).

Definition updateType (s : State) (this : string) : option UpdateStatus :=
  match fst (requestUpdate directVerdict this s) with
  | Ok (Some r) => Some (resultType r)
  | _ => None
  end.

(** Test "simple test": the child changes, main has a bare [accept()]. *)
Definition simpleTest : State :=
  runScript [OpAcquire "main"; OpAcquire "child";
             OpSource "child" (bodyWith ["counter"] noHot) [];
             OpSource "main" (bodyWith [] (accepting CbOk)) [importing "child" ["counter"]];
             OpDispatch "main";
             OpSource "child" (bodyWith ["counter"] noHot) []].

Example simple_test :
  updateType simpleTest "main" = Some success
  ∧ evaluations "main" (snd (requestUpdate directVerdict "main" simpleTest)) = 2.
Proof. vm_compute. done. Qed.

(** Test "unaccepted should not run". *)
Definition unacceptedTest : State :=
  runScript [OpAcquire "main"; OpAcquire "child";
             OpSource "child" (bodyWith [] noHot) [];
             OpSource "main" (bodyWith [] noHot) [importing "child" []];
             OpDispatch "main";
             OpSource "child" (bodyWith [] noHot) []].

Example unaccepted_should_not_run :
  updateType unacceptedTest "main" = Some unaccepted
  ∧ evaluations "main" (snd (requestUpdate directVerdict "main" unacceptedTest)) = 1.
Proof. vm_compute. done. Qed.

(** Test "accepted with unupdated accepted". *)
Definition acceptedTest : State :=
  runScript [OpAcquire "main"; OpAcquire "updated"; OpAcquire "unupdated";
             OpSource "updated" (bodyWith [] noHot) [];
             OpSource "unupdated" (bodyWith [] noHot) [];
             OpSource "main" (bodyWith [] (acceptingOf ["updated"; "unupdated"] false))
               [importing "updated" []; importing "unupdated" []];
             OpDispatch "main";
             OpSource "updated" (bodyWith [] noHot) []].

Example accepted_with_unupdated_accepted :
  updateType acceptedTest "main" = Some success
  ∧ evaluations "main" (snd (requestUpdate directVerdict "main" acceptedTest)) = 1.
Proof. vm_compute. done. Qed.

(** Test "unchanged declined import". *)
Definition unchangedDeclinedTest : State :=
  runScript [OpAcquire "main"; OpAcquire "accepted"; OpAcquire "declined";
             OpSource "accepted" (bodyWith [] noHot) [];
             OpSource "declined" (bodyWith [] (acceptingOf [] true)) [];
             OpSource "main" (bodyWith [] (acceptingOf ["accepted"] false))
               [importing "accepted" []; importing "declined" []];
             OpDispatch "main";
             OpSource "accepted" (bodyWith [] noHot) []].

Example unchanged_declined_import :
  updateType unchangedDeclinedTest "main" = Some success.
Proof. vm_compute. done. Qed.

(** Test "declined with accept import". *)
Definition declinedAcceptTest : State :=
  runScript [OpAcquire "main"; OpAcquire "accepted"; OpAcquire "declined";
             OpSource "accepted" (bodyWith [] noHot) [];
             OpSource "declined" (bodyWith [] (acceptingOf ["accepted"] true))
               [importing "accepted" []];
             OpSource "main" (bodyWith [] noHot) [importing "declined" []];
             OpDispatch "main";
             OpSource "accepted" (bodyWith [] noHot) []].

Example declined_with_accept_import :
  updateType declinedAcceptTest "main" = Some success.
Proof. vm_compute. done. Qed.

(** Test "link error is recoverable from parent". *)
Definition linkErrorTest : State :=
  runScript [OpAcquire "main"; OpAcquire "child";
             OpSource "child" (bodyWith ["symbol"] noHot) [];
             OpSource "main" (bodyWith [] (accepting CbOk)) [importing "child" ["symbol"]];
             OpDispatch "main";
             OpSource "child" (bodyWith [] noHot) []].

Definition linkErrorRecovered : State :=
  runOperations directVerdict false
    [OpRequestUpdate "main";
     OpSource "main" (bodyWith [] (accepting CbOk)) [importing "child" []]]
    linkErrorTest.

Example link_error_is_recoverable_from_parent :
  updateType linkErrorTest "main" = Some linkError
  ∧ updateType linkErrorRecovered "main" = Some success.
Proof. vm_compute. done. Qed.

(** * The claims about [load], the selectors and the results *)

(** C10. [load] appends the declaration it builds and one new instance of it
    to the heaps and writes that instance to the [staging] slot of its
    controller; every other slot of every controller, [fatalError], [version]
    and the visit index are unchanged, as are all instances and declarations
    that existed, and no user callback runs. *)
Theorem load_only_stages evictModule this body meta usesDynamicImport format
    importAssertions loadedModules s :
  let result := load evictModule this body meta usesDynamicImport format
                  importAssertions loadedModules s in
  let s' := snd result in
  fst result = Ok tt
  ∧ (∀ u, current (ctrl u s') = current (ctrl u s)
          ∧ pending (ctrl u s') = pending (ctrl u s)
          ∧ previous (ctrl u s') = previous (ctrl u s)
          ∧ temporary (ctrl u s') = temporary (ctrl u s)
          ∧ fatalErrorOf (ctrl u s') = fatalErrorOf (ctrl u s)
          ∧ version (ctrl u s') = version (ctrl u s)
          ∧ visitIndex (ctrl u s') = visitIndex (ctrl u s))
  ∧ (∀ u, u ≠ this → ctrl u s' = ctrl u s)
  ∧ dom (controllers s') = dom (controllers s)
  ∧ declarations s' = declarations s
       ++ [makeDeclaration body meta usesDynamicImport format importAssertions loadedModules]
  ∧ instances s' = instances s ++ [newInstance this (length (declarations s))]
  ∧ staging (ctrl this s') =
      (if decide (this ∈ dom (controllers s)) then Some (length (instances s)) else None)
  ∧ eventsExtend (fun e => negb (isUserEvent e)) s s'.
Proof.
  intros result s'. subst result s'. unfold load.
  set (evict := if evictModule then _ else _).
  assert (∃ l, evict s = (Ok tt, fold_left (fun s e => logEvent e s) l s)
               ∧ forallb (fun e => negb (isUserEvent e)) l = true) as (l & He & Hl).
  { subst evict. destruct evictModule; [|by exists []].
    unfold bind, gets. destruct (negb _); [|by exists []].
    by exists [EvEvict this (version (ctrl this s))]. }
  rewrite !(bind_eq _ _ _ _ _ He). clear He evict.
  set (s1 := fold_left _ l s).
  assert (controllers s1 = controllers s ∧ instances s1 = instances s
          ∧ declarations s1 = declarations s ∧ events s1 = events s ++ l) as (Hc & Hi & Hd & Hev).
  { subst s1. clear Hl. revert s. induction l as [|e l IH]; intros s; simpl.
    - by rewrite app_nil_r.
    - destruct (IH (logEvent e s)) as (-> & -> & -> & ->). simpl. by rewrite <- app_assoc. }
  assert (∀ u, ctrl u s1 = ctrl u s) as Hctrl by (intros u; unfold ctrl; by rewrite Hc).
  unfold bind, constructInstance, modify. cbn [fst snd].
  cbn [instances declarations setDeclarations setInstances updateCtrl setControllers].
  rewrite Hi, Hd. split_and!; try done.
  - intros u. rewrite <- !Hctrl.
    split_and!; (etrans; [by apply ctrl_updateCtrl_field|done]).
  - intros u Hu. rewrite <- Hctrl. etrans; [by apply ctrl_updateCtrl_ne|done].
  - rewrite dom_updateCtrl. simpl. by rewrite Hc.
  - destruct (decide (this ∈ dom (controllers s))) as [Hin|Hin].
    + rewrite ctrl_updateCtrl_eq; [done|]. simpl. rewrite Hc. by apply elem_of_dom.
    + unfold ctrl, updateCtrl; simpl. rewrite lookup_alter_eq, Hc.
      apply not_elem_of_dom in Hin. by rewrite Hin.
  - exists l. done.
Qed.

(** The selectors of phases 1 and 2 resolve the previous slot of the
    controller they are applied to and fall back to its pending slot. *)
Lemma selectPreviousOrPending_own controller s :
  selectPreviousOrPending controller s
  = orElse (previous (ctrl controller s)) (pending (ctrl controller s)).
Proof. done. Qed.

(** The selector of phase 3 agrees with them on the visited node itself, the
    only controller that [iterateWithDynamics] applies it to. *)
Lemma commitPre_as_linkTestPre node s : commitPre node s = linkTestPre node s.
Proof. done. Qed.

(** [iterateWithDynamics] applies both selectors through [this.select], lines
    367 and 380: to the visited controller and to no other. *)
Lemma iterateWithDynamics_selects_this this sel sel' selectDynamic selectDynamic' s :
  sel this s = sel' this s → selectDynamic this s = selectDynamic' this s →
  iterateWithDynamics this sel selectDynamic s
  = iterateWithDynamics this sel' selectDynamic' s.
Proof.
  intros H1 H2. unfold iterateWithDynamics, iterate, bind, select. rewrite H1.
  destruct (sel' this s) as [i|]; [|done]. cbn [gets]. by rewrite H2.
Qed.

(** The claim in its own words, for one controller: the children are read
    in two views.  What the controller will look like is its [pending]
    instance, whose declaration gives the static imports; what it used to
    look like is its [previous] instance, or its [pending] one when there is
    no previous one, whose dynamic imports follow.  A view that is undefined
    fails the assertion of [select]. *)
Definition childrenInBothViews (node : Url) : M (list Url) :=
  fun s =>
    match pending (ctrl node s),
          orElse (previous (ctrl node s)) (pending (ctrl node s)) with
    | Some willLook, Some usedToLook =>
        (Ok (reloadableChildren (loadedModules (declarationOf willLook s))
             ++ dynamicImports (inst usedToLook s)), s)
    | _, _ => (Throw AssertionError, s)
    end.

(** Both views of the children, as [iterateWithDynamics] reads them. *)
Lemma iterateWithDynamics_views node st :
  iterateWithDynamics node selectPending selectPreviousOrPending st
  = childrenInBothViews node st.
Proof.
  unfold iterateWithDynamics, iterate, bind, select, childrenInBothViews,
    selectPending, selectPreviousOrPending.
  destruct (pending (ctrl node st)) as [p|] eqn:Hp; [|done]. cbn [gets].
  rewrite ?Hp. by destruct (orElse (previous (ctrl node st)) (Some p)).
Qed.

(** What the dry run writes to a controller before it iterates its
    children, lines 437-438. *)
Definition dryRunMarked (node : Url) (next : InstId) (s : State) : State :=
  updateCtrl node (withPrevious (current (ctrl node s)))
    (updateCtrl node (withPending (Some next)) s).

(** C7. In each of the three phases the pre-visit of a controller iterates
    its children in the two views of the claim: the static imports of its
    [pending] instance and the dynamic imports of its [previous] instance,
    falling back to its own [pending] instance.  The dry run does so once it
    has set [pending] and [previous] of the controller; the link test and
    phase 3 read the slots as they are.  Line 615 spells the fallback
    [node.pending]; the selector is applied to [node] only, so that this is
    the pending slot of the controller that is resolved. *)
Theorem phases_iterate_in_both_views node s :
  dryRunPre node s
  = match orElse (staging (ctrl node s)) (current (ctrl node s)) with
    | Some next => childrenInBothViews node (dryRunMarked node next s)
    | None => (Throw AssertionError, s)
    end
  ∧ linkTestPre node s = childrenInBothViews node s
  ∧ commitPre node s = childrenInBothViews node s
  ∧ selectPreviousOrPendingOf node node s
    = orElse (previous (ctrl node s)) (pending (ctrl node s)).
Proof.
  pose proof (iterateWithDynamics_views node) as Hview.
  split; [|split; [apply Hview|split; [|done]]].
  - unfold dryRunPre. unfold bind at 1. cbn [gets]. unfold bind at 1.
    destruct (staging (ctrl node s)) as [i|] eqn:Hs; simpl.
    + unfold bind, modify. rewrite Hview. unfold dryRunMarked.
      by rewrite (ctrl_updateCtrl_field current).
    + unfold select, selectCurrent. destruct (current (ctrl node s)) as [i|] eqn:Hc; [|done].
      unfold bind, modify. rewrite Hview. unfold dryRunMarked.
      by rewrite (ctrl_updateCtrl_field current).
  - rewrite commitPre_as_linkTestPre. apply Hview.
Qed.

(** The two views differ on a controller whose source changed: after the
    dry run of the first test the import is about to look like its staged
    instance and used to look like its current one. *)
Example views_of_a_changed_import :
  let s := snd (dryRun "main" (setFrame (fun _ => newFrame) simpleTest)) in
  pending (ctrl "child" s) = Some 2 ∧ previous (ctrl "child" s) = Some 0
  ∧ selectPreviousOrPendingOf "child" "child" s = Some 0
  ∧ fst (commitPre "main" s) = Ok ["child"].
Proof. vm_compute. done. Qed.

(** A root with a self-accept callback that throws; its source changes. *)
Definition selfAcceptThrows : State :=
  runScript [OpAcquire "main";
             OpSource "main" (bodyWith [] (accepting (CbThrows (UserError "accept")))) [];
             OpDispatch "main";
             OpSource "main" (bodyWith [] (accepting CbOk)) []].

(** The store when the [try] block of phase 3 is entered. *)
Definition beforeCommit (this : string) (s : State) : State :=
  snd (traverse this (fun _ => ret tt)
    (snd (linkTest directVerdict this
      (snd (dryRun this (setFrame (fun _ => newFrame) s)))))).

(** C8, at the failing input: phase 3 completes, the result of the root
    component has [treeDidUpdate] and a non-empty [invalidated], and
    [requestUpdate] returns [success]. *)
Theorem unaccepted_evaluation_returns_success :
  fst (commitResult directVerdict "main" (beforeCommit "main" selfAcceptThrows))
    = Ok (mkRunResult [] ["main"] true)
  ∧ fst (requestUpdate directVerdict "main" selfAcceptThrows)
    = Ok (Some (UpdateSuccess success {| loads := 1; reevaluations := 0 |})).
Proof. vm_compute. done. Qed.

(** A root with a bare [accept()]; its source changes. *)
Definition selfAccepted : State :=
  runScript [OpAcquire "main";
             OpSource "main" (bodyWith [] (accepting CbOk)) [];
             OpDispatch "main";
             OpSource "main" (bodyWith [] (accepting CbOk)) []].

(** C9, at the failing input: the update succeeds and the [previous] slot of
    the root still holds the instance that was replaced. *)
Theorem success_leaves_previous_on_root :
  current (ctrl "main" selfAccepted) = Some 0
  ∧ fst (requestUpdate directVerdict "main" selfAccepted)
    = Ok (Some (UpdateSuccess success {| loads := 1; reevaluations := 0 |}))
  ∧ ctrl "main" (snd (requestUpdate directVerdict "main" selfAccepted))
    = {| current := Some 1; pending := None; previous := Some 0; staging := None;
         temporary := None; fatalErrorOf := None; visitIndex := 0; version := 0 |}.
Proof. vm_compute. done. Qed.

(** A root whose dispose callback throws; its source changes. *)
Definition disposeThrows : State :=
  runScript [OpAcquire "main";
             OpSource "main"
               (bodyWith [] {| hAcceptSelf := Some CbOk; hAccepts := []; hDeclined := false;
                               hDispose := CbThrows (UserError "dispose");
                               hPrune := CbOk; hData := 0 |}) [];
             OpDispatch "main";
             OpSource "main" (bodyWith [] (accepting CbOk)) []].

Lemma requestUpdate_sticky_fatal_witness :
  let f := {| feType := fatalError; feError := UserError "dispose" |} in
  let s1 := snd (requestUpdate directVerdict "main" disposeThrows) in
  let s2 := runOperations directVerdict false
              [OpSource "main" (bodyWith [] (accepting CbOk)) []; OpRequestUpdate "main";
               OpFileChanged "main"] s1 in
  requestUpdate directVerdict "main" disposeThrows = (Ok (Some (UpdateFatal f)), s1)
  ∧ fatalErrorOf (ctrl "main" s2) = Some f
  ∧ requestUpdate directVerdict "main" s2 = (Ok (Some (UpdateFatal f)), s2).
Proof.
  assert (requestUpdate directVerdict "main" disposeThrows
          = (Ok (Some (UpdateFatal {| feType := fatalError; feError := UserError "dispose" |})),
             snd (requestUpdate directVerdict "main" disposeThrows))) as H.
  { vm_compute. reflexivity. }
  split; [exact H|].
  exact (requestUpdate_sticky_fatal directVerdict false "main" disposeThrows _ _
           [OpSource "main" (bodyWith [] (accepting CbOk)) []; OpRequestUpdate "main";
            OpFileChanged "main"] H).
Defined.

(** * The claims about the dry run *)

(** A root that imports a declined module whose source changes. *)
Definition declinedChanged : State :=
  runScript [OpAcquire "main"; OpAcquire "declined";
             OpSource "declined" (bodyWith [] (acceptingOf [] true)) [];
             OpSource "main" (bodyWith [] (accepting CbOk)) [importing "declined" []];
             OpDispatch "main";
             OpSource "declined" (bodyWith [] (acceptingOf [] true)) []].

(** C3. When the dry run returns and some component of its result has an
    invalidated member whose current instance is declined, [requestUpdate]
    returns [declined] with the declining controllers of every component,
    nothing was logged (no callback ran), no instance was touched, and
    [pending] and [previous] are cleared on every controller that was
    visited.  The declining controllers are the invalidated members whose
    current instance is declined; when no invalidated member is declined,
    the result is not [declined], whatever else is declined. *)
Theorem declined_blocks_update linkVerdict this s r s1 :
  fatalErrorOf (ctrl this s) = None →
  dryRun this (setFrame (λ _, newFrame) s) = (Ok r, s1) →
  ((∃ r' u, inTree r' r ∧ u ∈ drInvalidated r' ∧ declining s u) →
     ∃ s', requestUpdate linkVerdict this s
             = (Ok (Some (UpdateDeclined (flattenDeclined r))), s')
       ∧ RolledBack this s s')
  ∧ (∀ u, u ∈ flattenDeclined r ↔
          ∃ r', inTree r' r ∧ u ∈ drInvalidated r' ∧ declining s u)
  ∧ ((∀ r' u, inTree r' r → u ∈ drInvalidated r' → ¬ declining s u) →
     ∀ res s', requestUpdate linkVerdict this s = (Ok res, s') →
       ∀ d, res ≠ Some (UpdateDeclined d)).
Proof.
  intros Hf Hd. pose proof (requestUpdate_after_dryRun linkVerdict this s r s1 Hf Hd) as Hreq.
  destruct (dryRun_spec _ _ _ _ Hd) as (done & HI & HW & Hroot).
  assert (∀ u, nodeDeclined (setFrame (λ _, newFrame) s) u = true ↔ declining s u) as Hdecl.
  { intros u. apply (nodeDeclined_declining s u). }
  assert (∀ r' u, inTree r' r →
            u ∈ drDeclined r' ↔ u ∈ drInvalidated r' ∧ declining s u) as Hmem.
  { intros r' u Hin. rewrite (wf_declined _ _ HW r' u Hin), Hdecl. done. }
  split_and!.
  - intros (r' & u & Hin & Hinv & Hu).
    assert (∃ r', inTree r' r ∧ drDeclined r' ≠ []) as Hex.
    { exists r'. split; [done|]. intros Hnil.
      assert (u ∈ drDeclined r') as Hmemb by (by apply Hmem).
      rewrite Hnil in Hmemb. by apply elem_of_nil in Hmemb. }
    apply (wf_hasDecline _ _ HW) in Hex as Hhas.
    pose proof (wf_needsDispatch _ _ HW Hhas) as Hneeds.
    rewrite Hneeds, Hhas in Hreq. simpl in Hreq.
    destruct (rollback_after_dryRun this s done s1 HI Hroot) as (s' & Hrb & HR & _).
    exists s'. split; [by rewrite Hreq, (bind_eq _ _ _ _ _ Hrb)|done].
  - intros u. split.
    + intros Hu. destruct (wf_flatten _ _ HW u Hu) as (r' & Hin & Hr').
      exists r'. split; [done|]. by apply Hmem.
    + intros (r' & Hin & Hu). apply (inTree_flattenDeclined r'); [done|]. by apply Hmem.
  - intros Hnone res s' Hres d ->.
    assert (drHasDecline r = false) as Hhas.
    { destruct (drHasDecline r) eqn:E; [|done].
      apply (wf_hasDecline _ _ HW) in E as (r' & Hin & Hr').
      destruct (drDeclined r') as [|u l] eqn:El; [done|].
      assert (u ∈ drDeclined r') as Hu by (rewrite El; apply elem_of_cons; by left).
      apply Hmem in Hu as [Hu1 Hu2]; [|done]. by destruct (Hnone r' u). }
    rewrite Hreq, Hhas in Hres. destruct (negb _).
    { apply bind_Ok in Hres as (? & ? & _ & Hres). by apply ret_Ok in Hres as [? _]. }
    destruct (Nat.ltb _ _).
    { apply bind_Ok in Hres as (? & ? & _ & Hres). apply bind_Ok in Hres as (? & ? & _ & Hres).
      apply bind_Ok in Hres as (? & ? & _ & Hres). by apply ret_Ok in Hres as [? _]. }
    apply bind_Ok in Hres as (tested & s2 & Ht & Hres).
    destruct tested as [res|].
    + apply ret_Ok in Hres as [-> _]. destruct (drHasNewCode r); [|done].
      pose proof (linkTest_returns linkVerdict this s1) as Hl. rewrite Ht in Hl.
      by destruct Hl as [e He].
    + apply bind_Ok in Hres as (prevs & s3 & _ & Hres).
      pose proof (commitAndFinalize_kind linkVerdict this prevs s3) as Hk.
      by rewrite Hres in Hk.
Qed.

Lemma declined_blocks_update_witness :
  let s := declinedChanged in
  let leaf := mkDryRunResult [] ["declined"] ["declined"] true true true in
  let r := mkDryRunResult [leaf] [] [] true true true in
  fatalErrorOf (ctrl "main" s) = None
  ∧ fst (dryRun "main" (setFrame (fun _ => newFrame) s)) = Ok r
  ∧ (∃ r' u, inTree r' r ∧ u ∈ drInvalidated r' ∧ declining s u)
  ∧ ∃ s', requestUpdate directVerdict "main" s
            = (Ok (Some (UpdateDeclined (flattenDeclined r))), s')
          ∧ RolledBack "main" s s'.
Proof.
  intros s leaf r.
  assert (fatalErrorOf (ctrl "main" s) = None) as Hf by (vm_compute; reflexivity).
  assert (dryRun "main" (setFrame (fun _ => newFrame) s)
          = (Ok r, snd (dryRun "main" (setFrame (fun _ => newFrame) s)))) as Hd
    by (vm_compute; reflexivity).
  assert (∃ r' u, inTree r' r ∧ u ∈ drInvalidated r' ∧ declining s u) as Hex.
  { exists leaf, "declined". split; [|split].
    - apply (inTree_forward leaf leaf r); [|apply inTree_here]. apply elem_of_cons. by left.
    - apply elem_of_cons. by left.
    - exists 0. vm_compute. split; reflexivity. }
  split; [exact Hf|]. split; [rewrite Hd; reflexivity|]. split; [exact Hex|].
  exact (proj1 (declined_blocks_update directVerdict "main" s r _ Hf Hd) Hex).
Defined.

(** A root and its import, evaluated; no source changes. *)
Definition unchangedGraph : State :=
  runScript [OpAcquire "main"; OpAcquire "child";
             OpSource "child" (bodyWith [] noHot) [];
             OpSource "main" (bodyWith [] noHot) [importing "child" []];
             OpDispatch "main"].

(** C4. In a store where every controller reachable from the root has an
    empty [staging] slot and a [current] instance that is not invalidated,
    the dry run returns with [needsDispatch = false]; [requestUpdate] then
    returns [undefined], the log of the store is what it was (no module body
    and no callback ran) and [pending] and [previous] are cleared on every
    controller that was visited. *)
Theorem unchanged_graph_is_no_update linkVerdict this s (G : gset string) :
  fatalErrorOf (ctrl this s) = None →
  this ∈ G →
  (∀ u, u ∈ G → staging (ctrl u s) = None
        ∧ ∃ i, current (ctrl u s) = Some i ∧ isInvalidated i s = false) →
  (∀ u c, u ∈ G → c ∈ dryChildren s u → c ∈ G) →
  ∃ r s1 s',
    dryRun this (setFrame (λ _, newFrame) s) = (Ok r, s1)
    ∧ drNeedsDispatch r = false
    ∧ requestUpdate linkVerdict this s = (Ok None, s')
    ∧ RolledBack this s s'.
Proof.
  intros Hf Hroot HG Hclosed. set (s0 := setFrame (λ _, newFrame) s).
  set (Inv := λ (K : list (string * list string)) (opened done : list string) (st : State),
         DryInv s0 opened done st
         ∧ (∀ u, u ∈ opened ∨ u ∈ done → u ∈ G)
         ∧ (∀ m cs c, (m, cs) ∈ K → c ∈ cs → c ∈ G)).
  assert (∀ n K opened done st,
    Inv K opened done st → n ∉ opened → n ∉ done → reached this K n →
    match dryRunPre n st with
    | (Ok cs, s') => n ∈ dom (controllers s0) ∧ Inv ((n, cs) :: K) (n :: opened) done s'
    | (Throw e, s') => False
    end) as Hpre.
  { intros n K opened done st (HI & HGv & HK) Hno Hnd Hreach.
    assert (n ∈ G) as Hn.
    { destruct Hreach as [->|(m & cs & Hm & Hc)]; [done|]. by apply (HK m cs). }
    destruct (HG n Hn) as (Hst & i & Hcur & _).
    assert (ctrl n st = ctrl n s0) as Hsame by (by apply (dry_untouched _ _ _ _ HI)).
    destruct (dryRunPre_total n st i) as (cs & s' & Hrun).
    { rewrite Hsame. change (ctrl n s0) with (ctrl n s). by rewrite Hst, Hcur. }
    pose proof (dryRunPre_DryInv s0 opened done n st HI Hno Hnd) as Hp.
    rewrite Hrun in *. destruct Hp as (Hdom & -> & _ & HI').
    split; [done|]. split; [done|]. split.
    - intros u [Hu|Hu]; [|by apply HGv; right].
      apply elem_of_cons in Hu as [->|Hu]; [done|]. apply HGv. by left.
    - intros m cs c Hm Hc. apply elem_of_cons in Hm as [[= Hmn Hcs]|Hm]; [|by apply (HK m cs)].
      subst m cs. by apply (Hclosed n c). }
  assert (∀ ns frs K opened done st,
    Inv K (rev ns ++ opened) done st → Forall dryIdle frs →
    match dryRunPost ns frs st with
    | (Ok r, s') => Inv K opened (ns ++ done) s' ∧ dryIdle r
    | (Throw e, s') => False
    end) as Hpost.
  { intros ns frs K opened done st (HI & HGv & HK) Hfrs. rewrite dryRunPost_eq.
    destruct (dryIdle_forward frs Hfrs) as [Hup Hnd].
    assert (∀ u, u ∈ ns → nodeNeedsDispatch [] st u = false) as Hidle.
    { intros u Hu.
      assert (u ∈ rev ns ++ opened) as Huo by (rewrite elem_of_app, elem_of_rev_iff; by left).
      destruct (HG u (HGv u (or_introl Huo))) as (Hst & i & Hcur & Hinv).
      destruct (dry_marked _ _ _ _ HI u (or_introl Huo)) as (_ & Hpe & Hpr).
      change (ctrl u s0) with (ctrl u s) in Hpe, Hpr.
      rewrite Hst, Hcur in Hpe. rewrite Hcur in Hpr. simpl in Hpe.
      destruct (dry_slots _ _ _ _ HI u) as (Hc & _).
      change (ctrl u s0) with (ctrl u s) in Hc. rewrite Hcur in Hc.
      unfold nodeNeedsDispatch, nodeHasNewCode. rewrite Hpe, Hpr, Hc, optEqb_refl, isAccepted_nil.
      simpl. unfold isInvalidated in *. rewrite (inst_same i st s0 (dry_instances _ _ _ _ HI)).
      change (inst i s0) with (inst i s). by rewrite Hinv. }
    split; [split; [by apply dryRunPost_DryInv|split; [|done]]|].
    - intros u [Hu|Hu]; apply HGv.
      + left. rewrite elem_of_app. by right.
      + apply elem_of_app in Hu as [Hu|Hu]; [|by right].
        left. rewrite elem_of_app, elem_of_rev_iff. by left.
    - unfold dryIdle, dryRunResultOf. simpl. rewrite Hup, Hnd, orb_false_r. split.
      + apply not_true_is_false. intros Hex. apply existsb_elem in Hex as (u & Hu & Hex).
        by rewrite (Hidle u Hu) in Hex.
      + destruct (List.filter _ ns) as [|u l] eqn:Hl; [done|].
        assert (u ∈ List.filter (nodeInvalidated [] st) ns) as Hu
          by (rewrite Hl; apply elem_of_cons; by left).
        apply elem_of_filter_list in Hu as [Hu Hinv]. unfold nodeInvalidated in Hinv.
        by rewrite (Hidle u Hu) in Hinv. }
  pose proof (traverseDepthFirst_rule dryRunPre dryRunPost (dom (controllers s0))
                Inv dryIdle (λ _ _, False) this
                Hpre Hpost clearPendingPrevious s0) as Hrule.
  fold (dryRun this) in Hrule.
  destruct (dryRun this s0) as [[r|e] s1] eqn:Hd.
  - destruct Hrule as (K & done & (HI & _) & [Hn _] & Hdone & _).
    { split; [apply DryInv_start|]. split.
      - intros u [Hu|Hu]; by apply elem_of_nil in Hu.
      - intros m cs c Hm. by apply elem_of_nil in Hm. }
    { by rewrite size_dom. }
    destruct (rollback_after_dryRun this s done s1 HI Hdone) as (s' & Hrb & HR & _).
    exists r, s1, s'. split; [done|]. split; [done|]. split; [|done].
    rewrite (requestUpdate_after_dryRun linkVerdict this s r s1 Hf Hd), Hn. simpl.
    by rewrite (bind_eq _ _ _ _ _ Hrb).
  - destruct Hrule as (e0 & st & ns & [] & _).
    + split; [apply DryInv_start|]. split.
      * intros u [Hu|Hu]; by apply elem_of_nil in Hu.
      * intros m cs c Hm. by apply elem_of_nil in Hm.
    + by rewrite size_dom.
Qed.

Lemma unchanged_graph_is_no_update_witness :
  let s := unchangedGraph in
  let G : gset string := {[ "main"; "child" ]} in
  fatalErrorOf (ctrl "main" s) = None
  ∧ "main" ∈ G
  ∧ (∀ u, u ∈ G → staging (ctrl u s) = None
          ∧ ∃ i, current (ctrl u s) = Some i ∧ isInvalidated i s = false)
  ∧ (∀ u c, u ∈ G → c ∈ dryChildren s u → c ∈ G)
  ∧ ∃ r s1 s',
      dryRun "main" (setFrame (fun _ => newFrame) s) = (Ok r, s1)
      ∧ drNeedsDispatch r = false
      ∧ requestUpdate directVerdict "main" s = (Ok None, s')
      ∧ RolledBack "main" s s'.
Proof.
  intros s G.
  assert ("main" ∈ G) as Hroot by (apply elem_of_union; left; apply elem_of_singleton; reflexivity).
  assert ("child" ∈ G) as Hchild by (apply elem_of_union; right; apply elem_of_singleton; reflexivity).
  assert (fatalErrorOf (ctrl "main" s) = None) as Hf by (vm_compute; reflexivity).
  assert (∀ u, u ∈ G → staging (ctrl u s) = None
            ∧ ∃ i, current (ctrl u s) = Some i ∧ isInvalidated i s = false) as HG.
  { intros u Hu. apply elem_of_union in Hu as [Hu|Hu]; apply elem_of_singleton in Hu; subst u.
    - split; [vm_compute; reflexivity|]. exists 1. vm_compute. split; reflexivity.
    - split; [vm_compute; reflexivity|]. exists 0. vm_compute. split; reflexivity. }
  assert (∀ u c, u ∈ G → c ∈ dryChildren s u → c ∈ G) as Hclosed.
  { intros u c Hu. apply elem_of_union in Hu as [Hu|Hu]; apply elem_of_singleton in Hu; subst u.
    - assert (dryChildren s "main" = ["child"]) as -> by (vm_compute; reflexivity).
      intros Hc. apply list_elem_of_singleton in Hc. subst c. exact Hchild.
    - assert (dryChildren s "child" = []) as -> by (vm_compute; reflexivity).
      intros Hc. apply elem_of_nil in Hc. destruct Hc. }
  split; [exact Hf|]. split; [exact Hroot|]. split; [exact HG|]. split; [exact Hclosed|].
  exact (unchanged_graph_is_no_update directVerdict "main" s G Hf Hroot HG Hclosed).
Defined.

(** The current and staged instances of every controller exist. *)
Definition Allocated (s : State) : Prop :=
  ∀ u i, current (ctrl u s) = Some i ∨ staging (ctrl u s) = Some i →
         i < length (instances s).

Definition allocatedIn (n : nat) (c : ReloadableModuleController) : bool :=
  match current c with Some i => i <? n | None => true end
  && match staging c with Some i => i <? n | None => true end.

Lemma Allocated_intro s :
  map_Forall (fun _ c => allocatedIn (length (instances s)) c = true) (controllers s) →
  Allocated s.
Proof.
  intros H u i. unfold ctrl. destruct (controllers s !! u) as [c|] eqn:E; simpl.
  - specialize (H u c E). simpl in H. unfold allocatedIn in H.
    apply andb_true_iff in H as [H1 H2].
    intros [Hi|Hi]; rewrite Hi in *; by apply Nat.ltb_lt.
  - by intros [|].
Qed.

(** ** The links of the link test *)

(** The store during the link test that follows the dry run [s1]:
    [pending] and [previous] are as the dry run left them, and the
    [temporary] slot of every controller that was instantiated holds a clone
    of its pending instance. *)
Record Cloned (s1 st : State) : Prop := {
  cl_pending : samePendingPrevious s1 st;
  cl_clone : ∀ u, u ∈ fInstantiated (frame st) →
    ∃ p t, pending (ctrl u s1) = Some p ∧ p < length (instances s1)
           ∧ temporary (ctrl u st) = Some t
           ∧ iController (inst t st) = iController (inst p s1)
           ∧ declaration (inst t st) = declaration (inst p s1);
}.

(** A link of the link test, with its outcome: in a store [st] of the test
    a controller [node] holds in [temporary] the instance [t], which the
    test created as a clone of the pending instance [p] of [node], and [t]
    is linked with the selector [temporary ?? pending] of line 579. *)
Definition linksClone
    (linkVerdict : (string → option ModuleDeclaration) → string → ModuleDeclaration
                   → option Error)
    (s1 : State) (t : InstId) (outcome : Outcome unit) : Prop :=
  ∃ st node p,
    LinkInv s1 (fInstantiated (frame st)) st ∧ Cloned s1 st
    ∧ node ∈ fInstantiated (frame st)
    ∧ pending (ctrl node st) = Some p
    ∧ temporary (ctrl node st) = Some t
    ∧ p < length (instances s1) ∧ length (instances s1) ≤ t
    ∧ iController (inst t st) = iController (inst p st)
    ∧ declaration (inst t st) = declaration (inst p st)
    ∧ fst (link linkVerdict t
             (fun controller σ =>
                orElse (temporary (ctrl controller σ)) (pending (ctrl controller σ))) st)
      = outcome.

(** Every link that the log holds since [s1] was such a link, and did not
    throw. *)
Definition Linked
    (linkVerdict : (string → option ModuleDeclaration) → string → ModuleDeclaration
                   → option Error)
    (s1 st : State) : Prop :=
  ∀ l t, events st = events s1 ++ l → EvLink t ∈ l → linksClone linkVerdict s1 t (Ok tt).

Section LinkSteps.
Variable linkVerdict : (string → option ModuleDeclaration) → string → ModuleDeclaration
                       → option Error.
Variable s1 : State.
Variable D : list string.

(** The controllers [D] that the dry run visited: each has a pending
    instance that exists, a previous instance that exists if it has one,
    and its children are in [D]. *)
Hypothesis D_pending : ∀ u, u ∈ D →
  ∃ p, pending (ctrl u s1) = Some p ∧ p < length (instances s1).
Hypothesis D_previous : ∀ u q, u ∈ D → previous (ctrl u s1) = Some q →
  q < length (instances s1).
Hypothesis D_closed : ∀ u cs c, u ∈ D →
  fst (childrenInBothViews u s1) = Ok cs → c ∈ cs → c ∈ D.

Lemma inst_old held st i :
  LinkInv s1 held st → i < length (instances s1) → inst i st = inst i s1.
Proof. intros HI Hi. unfold inst. by rewrite (li_old _ _ _ HI i Hi). Qed.

Lemma childrenInBothViews_stable held st u :
  LinkInv s1 held st → samePendingPrevious s1 st → u ∈ D →
  ∃ cs, childrenInBothViews u st = (Ok cs, st)
        ∧ fst (childrenInBothViews u s1) = Ok cs.
Proof.
  intros HI Hpp Hu. destruct (D_pending u Hu) as (p & Hp & Hlt).
  destruct (Hpp u) as [Hp' Hq']. unfold childrenInBothViews.
  rewrite Hp', Hq', Hp.
  destruct (previous (ctrl u s1)) as [q|] eqn:Hq; simpl.
  - pose proof (D_previous u q Hu Hq) as Hql. eexists. split; [|reflexivity].
    unfold declarationOf, decl.
    by rewrite (inst_old _ _ _ HI Hlt), (inst_old _ _ _ HI Hql), (li_declarations _ _ _ HI).
  - eexists. split; [|reflexivity]. unfold declarationOf, decl.
    by rewrite (inst_old _ _ _ HI Hlt), (li_declarations _ _ _ HI).
Qed.

Lemma anyPendingDiffers_total ns st :
  (∀ n, n ∈ ns → is_Some (pending (ctrl n st))) →
  ∃ b, anyPendingDiffers ns st = (Ok b, st).
Proof.
  induction ns as [|n ns IH]; intros Hall; simpl; [by eexists|].
  destruct (Hall n) as [p Hp]; [by left|].
  unfold bind at 1. unfold select, selectPending. rewrite Hp.
  unfold bind at 1. cbn [gets].
  destruct (negb _); [by eexists|]. apply IH. intros m Hm. apply Hall. by right.
Qed.

Lemma Cloned_start : fInstantiated (frame s1) = [] → Cloned s1 s1.
Proof.
  intros Hf. split; [done|]. intros u Hu. rewrite Hf in Hu. by apply elem_of_nil in Hu.
Qed.

Lemma Linked_start : Linked linkVerdict s1 s1.
Proof.
  intros l t Hl Ht. rewrite <- (app_nil_r (events s1)) in Hl at 1.
  apply app_inv_head in Hl. subst l. by apply elem_of_nil in Ht.
Qed.

Lemma Linked_extend held st st' evs :
  LinkInv s1 held st → Linked linkVerdict s1 st →
  events st' = events st ++ evs →
  (∀ t, EvLink t ∈ evs → linksClone linkVerdict s1 t (Ok tt)) →
  Linked linkVerdict s1 st'.
Proof.
  intros HI HL He Hevs l t Hl Ht.
  destruct (li_events _ _ _ HI) as (l0 & Hl0 & _).
  rewrite He, Hl0, <- app_assoc in Hl. apply app_inv_head in Hl. subst l.
  apply elem_of_app in Ht as [Ht|Ht]; [by apply (HL l0 t)|by apply Hevs].
Qed.

(** One clone is placed, lines 572-575. *)
Lemma instantiateTemporary_Cloned node st :
  LinkInv s1 (fInstantiated (frame st)) st → Cloned s1 st → Linked linkVerdict s1 st →
  node ∈ D → node ∉ fInstantiated (frame st) →
  ∃ st', instantiateTemporary node st = (Ok tt, st')
         ∧ Cloned s1 st' ∧ Linked linkVerdict s1 st'.
Proof.
  intros HI HC HL Hnode Hnew. destruct (D_pending node Hnode) as (p & Hp & Hlt).
  destruct (cl_pending _ _ HC node) as [Hp' _]. rewrite Hp in Hp'.
  set (x := newInstance (iController (inst p st)) (declaration (inst p st))).
  set (t := length (instances st)).
  set (st' := setFrame (pushInstantiated node)
                (logEvent (EvInstantiate t)
                   (updateInst t (fun x => withData None (withStatus instantiated x))
                      (updateCtrl node (withTemporary (Some t))
                         (setInstances (fun l => l ++ [x]) st))))).
  assert (instantiateTemporary node st = (Ok tt, st')) as Hrun.
  { unfold instantiateTemporary. unfold bind at 1. unfold select, selectPending. by rewrite Hp'. }
  exists st'. split; [exact Hrun|].
  assert (∀ u, ctrl u st' = ctrl u (updateCtrl node (withTemporary (Some t)) st)) as Hctrl
    by reflexivity.
  assert (instances st'
          = alter (fun x => withData None (withStatus instantiated x)) t (instances st ++ [x]))
    as Hinst by reflexivity.
  assert (node ∈ dom (controllers st)) as Hdom by (by apply (ctrl_some_dom pending _ _ p)).
  split; [split|].
  - intros u. rewrite Hctrl.
    rewrite (ctrl_updateCtrl_field pending), (ctrl_updateCtrl_field previous) by done.
    apply (cl_pending _ _ HC).
  - intros u Hu. simpl in Hu. apply elem_of_app in Hu as [Hu|Hu].
    + destruct (cl_clone _ _ HC u Hu) as (p' & t' & H1 & H2 & H3 & H4 & H5).
      destruct (li_held _ _ _ HI u Hu) as (_ & _ & t'' & Ht'' & _ & Hlt'').
      rewrite H3 in Ht''. injection Ht'' as <-.
      exists p', t'. split; [done|]. split; [done|].
      assert (u ≠ node) as Hne by (by intros ->).
      split; [by rewrite Hctrl, ctrl_updateCtrl_ne|].
      assert (inst t' st' = inst t' st) as ->; [|done].
      unfold inst. rewrite Hinst.
      rewrite list_lookup_alter_ne by (unfold t; lia).
      by rewrite lookup_app_l by done.
    + apply list_elem_of_singleton in Hu. subst u.
      exists p, t. split; [done|]. split; [done|]. split.
      { rewrite Hctrl, ctrl_updateCtrl_eq by (by apply elem_of_dom). done. }
      assert (inst t st' = withData None (withStatus instantiated x)) as ->.
      { unfold inst. rewrite Hinst, list_lookup_alter_eq.
        by rewrite list_lookup_middle by done. }
      simpl. by rewrite (inst_old _ _ _ HI Hlt).
  - apply (Linked_extend _ st st' [EvInstantiate t] HI HL); [reflexivity|].
    intros t' Ht'. apply list_elem_of_singleton in Ht'. discriminate Ht'.
Qed.

Lemma instantiateTemporaries_Cloned ns : ∀ st,
  LinkInv s1 (fInstantiated (frame st)) st → Cloned s1 st → Linked linkVerdict s1 st →
  NoDup ns →
  (∀ u, u ∈ ns → u ∈ D ∧ u ∉ fInstantiated (frame st)) →
  ∃ st', forEach ns instantiateTemporary st = (Ok tt, st')
         ∧ LinkInv s1 (fInstantiated (frame st')) st' ∧ Cloned s1 st'
         ∧ Linked linkVerdict s1 st'
         ∧ fInstantiated (frame st') = fInstantiated (frame st) ++ ns.
Proof.
  induction ns as [|node ns IH]; intros st HI HC HL Hnd Hall; simpl.
  { exists st. by rewrite app_nil_r. }
  apply NoDup_cons in Hnd as [Hnode Hnd].
  destruct (Hall node) as [HnD Hnew]; [by left|].
  destruct (instantiateTemporary_Cloned node st HI HC HL HnD Hnew) as (sa & Hrun & HCa & HLa).
  pose proof (instantiateTemporary_LinkInv s1 _ node st HI Hnew) as HIa.
  rewrite Hrun in HIa. destruct HIa as [HIa Hfa]. rewrite <- Hfa in HIa.
  destruct (IH sa HIa HCa HLa Hnd) as (sb & Hrunb & HIb & HCb & HLb & Hfb).
  { intros u Hu. split; [apply Hall; by right|].
    rewrite Hfa, not_elem_of_app, list_elem_of_singleton. split.
    - apply Hall. by right.
    - by intros ->. }
  exists sb. rewrite (bind_eq _ _ _ _ _ Hrun). split; [done|]. split; [done|].
  split; [done|]. split; [done|]. by rewrite Hfb, Hfa, <- app_assoc.
Qed.

(** One clone is linked, lines 577-580. *)
Lemma linkTemporary_Cloned node st :
  LinkInv s1 (fInstantiated (frame st)) st → Cloned s1 st → Linked linkVerdict s1 st →
  node ∈ fInstantiated (frame st) →
  match linkTemporary linkVerdict node st with
  | (Ok _, st') => Cloned s1 st' ∧ Linked linkVerdict s1 st'
  | (Throw e, _) => ∃ t, linksClone linkVerdict s1 t (Throw e)
  end.
Proof.
  intros HI HC HL Hin.
  destruct (cl_clone _ _ HC node Hin) as (p & t & Hp & Hlt & Ht & Hc & Hd).
  destruct (li_held _ _ _ HI node Hin) as (_ & _ & t' & Ht' & Hge & Hlt').
  rewrite Ht in Ht'. injection Ht' as <-.
  destruct (cl_pending _ _ HC node) as [Hp' _]. rewrite Hp in Hp'.
  assert (∀ o, fst (link linkVerdict t selectTemporaryOrPending st) = o →
               linksClone linkVerdict s1 t o) as Hstep.
  { intros o Ho. exists st, node, p. split; [done|]. split; [done|]. split; [done|].
    split; [done|]. split; [done|]. split; [done|]. split; [done|].
    rewrite (inst_old _ _ _ HI Hlt). split; [done|]. split; [done|]. exact Ho. }
  unfold linkTemporary. unfold bind. unfold select, selectTemporary. rewrite Ht.
  destruct (link linkVerdict t selectTemporaryOrPending st) as [[[]|e] st'] eqn:Hlink.
  - specialize (Hstep (Ok tt) eq_refl).
    unfold link in Hlink. destruct (linkVerdict _ _ _); [done|]. injection Hlink as <-.
    split; [split|].
    + intros u. apply (cl_pending _ _ HC u).
    + intros u Hu. destruct (cl_clone _ _ HC u Hu) as (p' & t' & H1 & H2 & H3 & H4 & H5).
      exists p', t'. split; [done|]. split; [done|]. split; [exact H3|].
      rewrite !(inst_updateInst_field iController), !(inst_updateInst_field declaration);
        try (intros x; unfold markLinked; by destruct (decide _)).
      done.
    + apply (Linked_extend _ st _ [EvLink t] HI HL); [reflexivity|].
      intros t' Ht'. apply list_elem_of_singleton in Ht'. by injection Ht' as ->.
  - exists t. by apply Hstep.
Qed.

Lemma linkTemporaries_Cloned ns : ∀ st,
  LinkInv s1 (fInstantiated (frame st)) st → Cloned s1 st → Linked linkVerdict s1 st →
  (∀ u, u ∈ ns → u ∈ fInstantiated (frame st)) →
  match forEach ns (linkTemporary linkVerdict) st with
  | (Ok _, st') => Cloned s1 st' ∧ Linked linkVerdict s1 st'
  | (Throw e, _) => ∃ t, linksClone linkVerdict s1 t (Throw e)
  end.
Proof.
  induction ns as [|node ns IH]; intros st HI HC HL Hall; simpl; [done|].
  pose proof (linkTemporary_Cloned node st HI HC HL (Hall node ltac:(by left))) as Hstep.
  destruct (linkTemporary_LinkInv linkVerdict s1 _ node st HI (Hall node ltac:(by left)))
    as [HIa Hfa].
  unfold bind. destruct (linkTemporary linkVerdict node st) as [[[]|e] sa]; [|done].
  simpl in HIa, Hfa. rewrite <- Hfa in HIa. destruct Hstep as [HCa HLa].
  apply IH; [done|done|done|].
  intros u Hu. rewrite Hfa. apply Hall. by right.
Qed.

(** The post-visit of the link test, lines 559-584, on controllers that the
    dry run visited: no assertion fails, so that it throws only when the
    link of a clone does. *)
Lemma linkTestPost_Cloned ns frs st :
  LinkInv s1 (fInstantiated (frame st)) st → Cloned s1 st → Linked linkVerdict s1 st →
  NoDup ns →
  (∀ u, u ∈ ns → u ∈ D ∧ u ∉ fInstantiated (frame st)) →
  match linkTestPost linkVerdict ns frs st with
  | (Ok _, st') => Cloned s1 st' ∧ Linked linkVerdict s1 st'
  | (Throw e, _) => ∃ t, linksClone linkVerdict s1 t (Throw e)
  end.
Proof.
  intros HI HC HL Hnd Hall. rewrite linkTestPost_eq.
  assert (∀ b : bool,
    match (let* _ := (if b then
                        let* _ := forEach ns instantiateTemporary in
                        forEach ns (linkTemporary linkVerdict)
                      else ret tt) in ret b) st with
    | (Ok _, st') => Cloned s1 st' ∧ Linked linkVerdict s1 st'
    | (Throw e, _) => ∃ t, linksClone linkVerdict s1 t (Throw e)
    end) as Hbody.
  { intros [|]; [|done].
    destruct (instantiateTemporaries_Cloned ns st HI HC HL Hnd Hall)
      as (sa & Hrun & HIa & HCa & HLa & Hfa).
    unfold bind at 1. unfold bind at 1. rewrite Hrun.
    pose proof (linkTemporaries_Cloned ns sa HIa HCa HLa) as Hlinks.
    destruct (forEach ns (linkTemporary linkVerdict) sa) as [[[]|e] sb]; apply Hlinks;
      intros u Hu; rewrite Hfa; apply elem_of_app; by right. }
  destruct (existsb id frs).
  - rewrite (bind_eq _ _ _ _ _ (eq_refl : ret true st = (Ok true, st))). apply (Hbody true).
  - destruct (anyPendingDiffers_total ns st) as [b Hb].
    { intros n Hn. destruct (Hall n Hn) as [HnD _].
      destruct (D_pending n HnD) as (p & Hp & _).
      destruct (cl_pending _ _ HC n) as [Hp' _]. rewrite Hp', Hp. by eexists. }
    rewrite (bind_eq _ _ _ _ _ Hb). apply (Hbody b).
Qed.

(** The traversal of the link test: when it returns, every link was the
    link of a clone and did not throw; it throws only the error of such a
    link. *)
Lemma linkTraversal_links this :
  fInstantiated (frame s1) = [] → this ∈ D →
  match traverseDepthFirst linkTestPre (linkTestPost linkVerdict) this noCancel s1 with
  | (Ok _, st) => Linked linkVerdict s1 st
  | (Throw e, _) => ∃ t, linksClone linkVerdict s1 t (Throw e)
  end.
Proof.
  intros Hf Hroot.
  set (Inv := λ (K : list (string * list string)) (opened done : list string) (st : State),
         LinkInv s1 (fInstantiated (frame st)) st
         ∧ NoDup (opened ++ done)
         ∧ (∀ u, u ∈ fInstantiated (frame st) → u ∈ done)
         ∧ Cloned s1 st ∧ Linked linkVerdict s1 st
         ∧ (∀ u, u ∈ opened → u ∈ D)
         ∧ (∀ m cs c, (m, cs) ∈ K → c ∈ cs → c ∈ D)).
  set (Q := λ (e : Error) (_ : State), ∃ t, linksClone linkVerdict s1 t (Throw e)).
  assert (∀ n K opened done st,
    Inv K opened done st → n ∉ opened → n ∉ done → reached this K n →
    match linkTestPre n st with
    | (Ok cs, s') => n ∈ dom (controllers s1) ∧ Inv ((n, cs) :: K) (n :: opened) done s'
    | (Throw e, s') => Q e s'
    end) as Hpre.
  { intros n K opened done st (HI & Hnd & Hsub & HC & HL & Hop & HK) Hno Hndone Hreach.
    assert (n ∈ D) as HnD.
    { destruct Hreach as [->|(m & cs & Hm & Hn)]; [done|]. by apply (HK m cs). }
    destruct (childrenInBothViews_stable _ st n HI (cl_pending _ _ HC) HnD)
      as (cs & Hrun & Hcs).
    unfold linkTestPre. rewrite iterateWithDynamics_views, Hrun.
    destruct (D_pending n HnD) as (p & Hp & _).
    split.
    - by apply (ctrl_some_dom pending _ _ p).
    - split; [done|]. split.
      { simpl. apply NoDup_cons. split; [|done]. rewrite elem_of_app. tauto. }
      split; [done|]. split; [done|]. split; [done|]. split.
      + intros u Hu. apply elem_of_cons in Hu as [->|Hu]; [done|by apply Hop].
      + intros m cs' c Hm Hc. apply elem_of_cons in Hm as [[= -> ->]|Hm].
        * by apply (D_closed n cs c).
        * by apply (HK m cs' c). }
  assert (∀ ns (frs : list bool) K opened done st,
    Inv K (rev ns ++ opened) done st → Forall (λ _, True) frs →
    match linkTestPost linkVerdict ns frs st with
    | (Ok r, s') => Inv K opened (ns ++ done) s' ∧ True
    | (Throw e, s') => Q e s'
    end) as Hpost.
  { intros ns frs K opened done st (HI & Hnd & Hsub & HC & HL & Hop & HK) _.
    apply NoDup_app in Hnd as (Hnd1 & Hdisj & Hnd3).
    apply NoDup_app in Hnd1 as (Hnd1 & Hdisj1 & Hnd2).
    apply NoDup_of_rev in Hnd1.
    assert (∀ u, u ∈ ns → u ∉ fInstantiated (frame st)) as Hnew.
    { intros u Hu Hin. apply (Hdisj u); [|by apply Hsub].
      rewrite elem_of_app, elem_of_rev_iff. by left. }
    assert (∀ u, u ∈ ns → u ∈ D ∧ u ∉ fInstantiated (frame st)) as Hall.
    { intros u Hu. split; [|by apply Hnew].
      apply Hop. rewrite elem_of_app, elem_of_rev_iff. by left. }
    destruct (linkTestPost_LinkInv linkVerdict s1 ns frs st HI Hnd1 Hnew) as [HI' Hsub'].
    pose proof (linkTestPost_Cloned ns frs st HI HC HL Hnd1 Hall) as HC'.
    destruct (linkTestPost linkVerdict ns frs st) as [[r|e] s']; simpl in *; [|exact HC'].
    destruct HC' as [HC' HL'].
    split; [|done]. split; [done|]. split.
    { apply NoDup_app. split; [done|]. split.
      + intros u Hu Hin. apply elem_of_app in Hin as [Hin|Hin].
        * apply (Hdisj1 u); [by rewrite elem_of_rev_iff|done].
        * apply (Hdisj u); [|done]. rewrite elem_of_app. by right.
      + apply NoDup_app. split; [done|]. split; [|done].
        intros u Hu Hin. apply (Hdisj u); [|done]. rewrite elem_of_app, elem_of_rev_iff. by left. }
    split.
    { intros u Hu. rewrite elem_of_app. destruct (Hsub' u Hu); [right; by apply Hsub|by left]. }
    split; [done|]. split; [done|].
    split; [|done]. intros u Hu. apply Hop. rewrite elem_of_app. by right. }
  assert (Inv [] [] [] s1) as Hstart.
  { split; [rewrite Hf; by apply LinkInv_start|]. split; [constructor|].
    split; [intros u Hu; by rewrite Hf in Hu|]. split; [by apply Cloned_start|].
    split; [apply Linked_start|].
    split; [intros u Hu; by apply elem_of_nil in Hu|].
    intros m cs c Hm. by apply elem_of_nil in Hm. }
  pose proof (traverseDepthFirst_rule linkTestPre (linkTestPost linkVerdict)
                (dom (controllers s1)) Inv (λ _, True) Q this Hpre Hpost noCancel s1) as Hrule.
  destruct (traverseDepthFirst linkTestPre (linkTestPost linkVerdict) this noCancel s1)
    as [[r|e] s'].
  - destruct Hrule as (K & dn & (_ & _ & _ & _ & HL & _) & _); [done|by rewrite size_dom|done].
  - destruct Hrule as (e0 & st & ns & HQ & Hc).
    + done.
    + by rewrite size_dom.
    + unfold noCancel in Hc. destruct Hc as [[_ ->]|[=]]. exact HQ.
Qed.

End LinkSteps.

(** The [finally] block of the link test logs no link. *)
Lemma clearTemporaries_links s :
  ∃ l, events (snd (clearTemporaries s)) = events s ++ l ∧ ∀ t, EvLink t ∉ l.
Proof.
  set (unlinks := λ e : Event, match e with EvUnlink _ => true | _ => false end).
  assert (keeps (eventsExtend unlinks) clearTemporaries) as Hk.
  { apply (keeps_clearTemporaries (eventsExtend unlinks)).
    - intros u v. apply eventsExtend_writes.
    - intros i. by apply eventsExtend_logs. }
  destruct (Hk s) as (l & Hl & Hall). exists l. split; [done|].
  intros t Ht. rewrite forallb_forall in Hall.
  by specialize (Hall (EvLink t) (proj1 (list_elem_of_In _ _) Ht)).
Qed.

(** The controllers that a dry run visited have an instance to become
    pending, and their children were visited. *)
Lemma dryRun_closed this s0 r s1 :
  dryRun this s0 = (Ok r, s1) →
  ∃ done, DryInv s0 [] done s1 ∧ this ∈ done
    ∧ ∀ u, u ∈ done →
        is_Some (orElse (staging (ctrl u s0)) (current (ctrl u s0)))
        ∧ ∀ c, c ∈ dryChildren s0 u → c ∈ done.
Proof.
  intros H.
  set (Inv := λ (K : list (string * list string)) (opened dn : list string) (st : State),
         DryInv s0 opened dn st
         ∧ ∀ m cs, (m, cs) ∈ K →
             cs = dryChildren s0 m
             ∧ is_Some (orElse (staging (ctrl m s0)) (current (ctrl m s0)))).
  assert (∀ n K opened dn st,
    Inv K opened dn st → n ∉ opened → n ∉ dn → reached this K n →
    match dryRunPre n st with
    | (Ok cs, s') => n ∈ dom (controllers s0) ∧ Inv ((n, cs) :: K) (n :: opened) dn s'
    | (Throw e, s') => True
    end) as Hpre.
  { intros n K opened dn st [HI HK] Hno Hnd _.
    pose proof (dryRunPre_DryInv s0 opened dn n st HI Hno Hnd) as Hp.
    destruct (dryRunPre n st) as [[cs|e] s']; [|done].
    destruct Hp as (Hdom & Hcs & Hsome & HI'). split; [done|]. split; [done|].
    intros m cs' Hm. apply elem_of_cons in Hm as [[= -> ->]|Hm]; [done|by apply HK]. }
  assert (∀ ns frs K opened dn st,
    Inv K (rev ns ++ opened) dn st → Forall (λ _ : DryRunResult, True) frs →
    match dryRunPost ns frs st with
    | (Ok r, s') => Inv K opened (ns ++ dn) s' ∧ True
    | (Throw e, s') => True
    end) as Hpost.
  { intros ns frs K opened dn st [HI HK] _. rewrite dryRunPost_eq.
    split; [|done]. split; [by apply dryRunPost_DryInv|done]. }
  pose proof (traverseDepthFirst_rule dryRunPre dryRunPost (dom (controllers s0))
                Inv (λ _, True) (λ _ _, True) this
                Hpre Hpost clearPendingPrevious s0) as Hrule.
  unfold dryRun in H. rewrite H in Hrule.
  destruct Hrule as (K & dn & [HI HK] & _ & Hroot & Hclosed & Hvisited).
  { split; [apply DryInv_start|]. intros m cs Hm. by apply elem_of_nil in Hm. }
  { by rewrite size_dom. }
  exists dn. split; [done|]. split; [done|]. intros u Hu.
  destruct (Hvisited u Hu) as [cs Hcs]. destruct (HK u cs Hcs) as [-> Hsome].
  split; [done|]. intros c Hc. by apply (Hclosed u _ Hcs).
Qed.

(** What the link test needs of the dry run, in a store whose current and
    staged instances exist. *)
Lemma dryRun_visited s0 done s1 :
  Allocated s0 → DryInv s0 [] done s1 →
  (∀ u, u ∈ done →
     is_Some (orElse (staging (ctrl u s0)) (current (ctrl u s0)))
     ∧ ∀ c, c ∈ dryChildren s0 u → c ∈ done) →
  (∀ u, u ∈ done → ∃ p, pending (ctrl u s1) = Some p ∧ p < length (instances s1))
  ∧ (∀ u q, u ∈ done → previous (ctrl u s1) = Some q → q < length (instances s1))
  ∧ (∀ u cs c, u ∈ done → fst (childrenInBothViews u s1) = Ok cs → c ∈ cs → c ∈ done).
Proof.
  intros Ha HI Hdone.
  assert (∀ u, u ∈ done →
            ∃ p, orElse (staging (ctrl u s0)) (current (ctrl u s0)) = Some p
                 ∧ pending (ctrl u s1) = Some p ∧ p < length (instances s1)
                 ∧ previous (ctrl u s1) = current (ctrl u s0)) as Hp.
  { intros u Hu. destruct (Hdone u Hu) as [[p Hp] _].
    destruct (dry_marked _ _ _ _ HI u (or_intror Hu)) as (_ & H1 & H2).
    exists p. split; [done|]. split; [by rewrite H1|]. split; [|done].
    rewrite (dry_instances _ _ _ _ HI). apply (Ha u).
    destruct (staging (ctrl u s0)); simpl in Hp; [right|left]; done. }
  split; [|split].
  - intros u Hu. destruct (Hp u Hu) as (p & _ & H1 & H2 & _). eauto.
  - intros u q Hu Hq. destruct (Hp u Hu) as (p & _ & _ & _ & H3).
    rewrite (dry_instances _ _ _ _ HI). apply (Ha u). left. by rewrite <- H3.
  - intros u cs c Hu Hcs Hc. destruct (Hp u Hu) as (p & H0 & H1 & H2 & H3).
    destruct (Hdone u Hu) as [_ Hcl]. apply Hcl.
    unfold childrenInBothViews in Hcs. rewrite H1, H3 in Hcs.
    unfold dryChildren. rewrite H0. simpl.
    assert (∀ i, inst i s1 = inst i s0) as Hinst
      by (intros i; apply inst_same, HI).
    assert (∀ i, declarationOf i s1 = declarationOf i s0) as Hdecl
      by (intros i; apply declarationOf_same; apply HI).
    destruct (current (ctrl u s0)) as [q|]; simpl in Hcs; injection Hcs as <-;
      simpl; by rewrite <- Hdecl, <- Hinst.
Qed.

(** * The claim about the link test *)

(** C2. After a dry run that returned, the link test returns as well: it
    logs only instantiate, link and unlink events of instances that it
    created (no callback of a module runs), leaves every instance that
    existed and the [current] slot of every controller as they were, and
    every instance it created ends unlinked and in no [temporary] slot.
    When some link throws, its result is [linkError] with that error,
    [pending] and [previous] are cleared on the controllers that the dry run
    visited, and that result is what [requestUpdate] returns.

    What it links are clones held in [temporary], with the selector
    [temporary ?? pending]: in a store whose current and staged instances
    exist (in the source a slot holds the instance itself), every link that
    the test logs is the link of a clone of a pending instance, held in the
    [temporary] slot of its controller and linked with that selector.  When
    the traversal returns, each of these links succeeded; when it throws,
    the error is the one that such a link threw, and no assertion failed. *)
Theorem link_test_is_pure linkVerdict this s r s1 :
  fatalErrorOf (ctrl this s) = None →
  dryRun this (setFrame (λ _, newFrame) s) = (Ok r, s1) →
  ∃ out s2,
    linkTest linkVerdict this s1 = (Ok out, s2)
    ∧ LinkTested s s2
    ∧ (∀ u, current (ctrl u s2) = current (ctrl u s))
    ∧ eventsExtend (λ e, negb (isUserEvent e)) s s2
    ∧ match traverseDepthFirst linkTestPre (linkTestPost linkVerdict) this noCancel s1 with
      | (Ok _, _) =>
          out = None
          ∧ (Allocated s →
             ∀ l t, events s2 = events s ++ l → EvLink t ∈ l →
                    linksClone linkVerdict s1 t (Ok tt))
      | (Throw e, _) =>
          out = Some (Some (UpdateLinkError e))
          ∧ this ∈ nextControllers (frame s2)
          ∧ (∀ u, u ∈ nextControllers (frame s2) →
                  pending (ctrl u s2) = None ∧ previous (ctrl u s2) = None)
          ∧ (∀ u, u ∉ nextControllers (frame s2) →
                  pending (ctrl u s2) = pending (ctrl u s)
                  ∧ previous (ctrl u s2) = previous (ctrl u s))
          ∧ (linkTestRuns r →
             requestUpdate linkVerdict this s = (Ok (Some (UpdateLinkError e)), s2))
          ∧ (Allocated s → ∃ t, linksClone linkVerdict s1 t (Throw e))
      end.
Proof.
  intros Hf Hd. destruct (dryRun_closed _ _ _ _ Hd) as (done & HD & Hroot & Hclosed).
  assert (fInstantiated (frame s1) = []) as Hfi by (by rewrite (dry_instantiated _ _ _ _ HD)).
  destruct (linkTest_spec linkVerdict this s1 Hfi) as (out & s2 & Hlt & HI & Hres).
  pose proof (LinkTested_after_dryRun s done s1 s2 HD HI) as HT.
  exists out, s2. split; [done|]. split; [done|]. split.
  { intros u. by destruct (lt_slots _ _ HT u) as (? & _). }
  split.
  { destruct (lt_events _ _ HT) as (l & Hl & Hall). exists l. split; [done|].
    apply forallb_forall. intros e He. rewrite forallb_forall in Hall.
    by rewrite (linkEvent_not_user _ e (Hall e He)). }
  assert (∀ u, u ∈ nextControllers (frame s2) ↔ u ∈ done) as Hnext.
  { intros u. rewrite (li_next _ _ _ HI), (dry_next _ _ _ _ HD u). simpl.
    rewrite elem_of_nil. tauto. }
  assert (Allocated s →
          match traverseDepthFirst linkTestPre (linkTestPost linkVerdict) this noCancel s1 with
          | (Ok _, st) => Linked linkVerdict s1 st
          | (Throw e, _) => ∃ t, linksClone linkVerdict s1 t (Throw e)
          end) as Hlinks.
  { intros Ha.
    destruct (dryRun_visited (setFrame (λ _, newFrame) s) done s1 Ha HD Hclosed)
      as (H1 & H2 & H3).
    by apply (linkTraversal_links linkVerdict s1 done H1 H2 H3 this). }
  pose proof (linkTraversal_LinkInv linkVerdict this s1 Hfi) as HIt.
  destruct (traverseDepthFirst linkTestPre (linkTestPost linkVerdict) this noCancel s1)
    as [[b|e] st] eqn:Htr.
  - destruct Hres as [-> _]. split; [done|]. intros Ha l t Hl Ht.
    specialize (Hlinks Ha). simpl in HIt.
    assert (s2 = snd (clearTemporaries st)) as ->.
    { unfold linkTest, tryFinally, tryCatch in Hlt.
      rewrite (bind_eq _ _ _ _ _ Htr) in Hlt. cbn [ret] in Hlt.
      destruct (clearTemporaries st) as [[[]|e] sc]; [|done]. by injection Hlt as <-. }
    destruct (clearTemporaries_links st) as (lu & Hlu & Hno).
    destruct (li_events _ _ _ HIt) as (l0 & Hl0 & _).
    assert (events s1 = events s) as He by apply (dry_events _ _ _ _ HD).
    rewrite Hlu, Hl0, He, <- app_assoc in Hl. apply app_inv_head in Hl. subst l.
    apply elem_of_app in Ht as [Ht|Ht]; [|by destruct (Hno t)].
    apply (Hlinks l0 t); [|done]. by rewrite Hl0.
  - destruct Hres as (-> & Hcl & Hun). split; [done|]. split; [by apply Hnext|].
    split; [|split; [|split]].
    + intros u Hu. apply Hnext in Hu.
      destruct (dry_marked _ _ _ _ HD u (or_intror Hu)) as (Hdom & _).
      apply Hcl.
      * apply (dry_next _ _ _ _ HD u). by right.
      * by rewrite (dry_dom _ _ _ _ HD).
    + intros u Hu. rewrite Hnext in Hu.
      destruct (Hun u) as [H1 H2].
      { rewrite (dry_next _ _ _ _ HD u). simpl. rewrite elem_of_nil. tauto. }
      rewrite H1, H2, (dry_untouched _ _ _ _ HD u) by (done || apply not_elem_of_nil). done.
    + intros (Hn & Hdec & Hinv & Hnew).
      rewrite (requestUpdate_after_dryRun linkVerdict this s r s1 Hf Hd).
      rewrite Hn, Hdec, Hinv, Hnew. simpl. by rewrite (bind_eq _ _ _ _ _ Hlt).
    + exact Hlinks.
Qed.

Lemma link_test_is_pure_witness :
  let r := mkDryRunResult [mkDryRunResult [] [] ["child"] false true true] [] []
             false true true in
  (let s := linkErrorTest in
   let s1 := snd (dryRun "main" (setFrame (fun _ => newFrame) s)) in
   fatalErrorOf (ctrl "main" s) = None
   ∧ dryRun "main" (setFrame (fun _ => newFrame) s) = (Ok r, s1)
   ∧ linkTestRuns r
   ∧ Allocated s
   ∧ fst (traverseDepthFirst linkTestPre (linkTestPost directVerdict) "main" noCancel s1)
     = Throw (SyntaxError "main")
   ∧ ∃ out s2,
       linkTest directVerdict "main" s1 = (Ok out, s2)
       ∧ LinkTested s s2
       ∧ (∀ u, current (ctrl u s2) = current (ctrl u s))
       ∧ eventsExtend (fun e => negb (isUserEvent e)) s s2
       ∧ match traverseDepthFirst linkTestPre (linkTestPost directVerdict) "main" noCancel s1 with
         | (Ok _, _) =>
             out = None
             ∧ (Allocated s →
                ∀ l t, events s2 = events s ++ l → EvLink t ∈ l →
                       linksClone directVerdict s1 t (Ok tt))
         | (Throw e, _) =>
             out = Some (Some (UpdateLinkError e))
             ∧ "main" ∈ nextControllers (frame s2)
             ∧ (∀ u, u ∈ nextControllers (frame s2) →
                     pending (ctrl u s2) = None ∧ previous (ctrl u s2) = None)
             ∧ (∀ u, u ∉ nextControllers (frame s2) →
                     pending (ctrl u s2) = pending (ctrl u s)
                     ∧ previous (ctrl u s2) = previous (ctrl u s))
             ∧ (linkTestRuns r →
                requestUpdate directVerdict "main" s = (Ok (Some (UpdateLinkError e)), s2))
             ∧ (Allocated s → ∃ t, linksClone directVerdict s1 t (Throw e))
         end)
  ∧ (let s := simpleTest in
     let s1 := snd (dryRun "main" (setFrame (fun _ => newFrame) s)) in
     fatalErrorOf (ctrl "main" s) = None
     ∧ dryRun "main" (setFrame (fun _ => newFrame) s) = (Ok r, s1)
     ∧ Allocated s
     ∧ fst (traverseDepthFirst linkTestPre (linkTestPost directVerdict) "main" noCancel s1)
       = Ok true
     ∧ ∃ out s2,
         linkTest directVerdict "main" s1 = (Ok out, s2)
         ∧ events s2 = events s ++ [EvInstantiate 3; EvLink 3; EvInstantiate 4; EvLink 4;
                                    EvUnlink 3; EvUnlink 4]
         ∧ match traverseDepthFirst linkTestPre (linkTestPost directVerdict) "main" noCancel s1 with
           | (Ok _, _) =>
               out = None
               ∧ (Allocated s →
                  ∀ l t, events s2 = events s ++ l → EvLink t ∈ l →
                         linksClone directVerdict s1 t (Ok tt))
           | (Throw e, _) => out = Some (Some (UpdateLinkError e))
           end).
Proof.
  intros r. split.
  - intros s s1.
    assert (fatalErrorOf (ctrl "main" s) = None) as Hf by (vm_compute; reflexivity).
    assert (dryRun "main" (setFrame (fun _ => newFrame) s) = (Ok r, s1)) as Hd
      by (vm_compute; reflexivity).
    assert (Allocated s) as Ha.
    { apply Allocated_intro. apply (bool_decide_unpack _). vm_compute. exact I. }
    split; [exact Hf|]. split; [exact Hd|].
    split; [repeat split; reflexivity|].
    split; [exact Ha|].
    split; [vm_compute; reflexivity|].
    exact (link_test_is_pure directVerdict "main" s r s1 Hf Hd).
  - intros s s1.
    assert (fatalErrorOf (ctrl "main" s) = None) as Hf by (vm_compute; reflexivity).
    assert (dryRun "main" (setFrame (fun _ => newFrame) s) = (Ok r, s1)) as Hd
      by (vm_compute; reflexivity).
    assert (Allocated s) as Ha.
    { apply Allocated_intro. apply (bool_decide_unpack _). vm_compute. exact I. }
    split; [exact Hf|]. split; [exact Hd|]. split; [exact Ha|].
    split; [vm_compute; reflexivity|].
    pose proof (link_test_is_pure directVerdict "main" s r s1 Hf Hd) as H.
    revert H.
    generalize (traverseDepthFirst linkTestPre (linkTestPost directVerdict) "main" noCancel s1).
    intros outcome (out & s2 & Hlt & _ & _ & _ & Hres).
    exists out, s2. split; [exact Hlt|]. split.
    + assert (s2 = snd (linkTest directVerdict "main" s1)) as ->
        by (rewrite Hlt; reflexivity).
      vm_compute. reflexivity.
    + revert Hres. case outcome. intros o _. case o.
      * intros _ Hres. exact Hres.
      * intros e Hres. exact (proj1 Hres).
Defined.

(** The links of the first test, whose link test passes: the clone of
    the changed import and the clone of the root are linked, one after the
    other, and unlinked again. *)
Example links_of_the_first_test :
  let s := simpleTest in
  let s1 := snd (dryRun "main" (setFrame (fun _ => newFrame) s)) in
  let s2 := snd (linkTest directVerdict "main" s1) in
  fst (linkTest directVerdict "main" s1) = Ok None
  ∧ events s2
    = events s ++ [EvInstantiate 3; EvLink 3; EvInstantiate 4; EvLink 4;
                   EvUnlink 3; EvUnlink 4].
Proof. vm_compute. done. Qed.

(** * The claim about pruning *)

(** C6. [previousControllers] are the controllers imported from the root,
    directly or through others, before phase 3, each listed once; the
    [finally] block computes those imported after it.  When the controllers
    imported before and no longer after each have a current instance, the
    pruning loop returns.  Either it ran [prune] once for each of them, on
    its current instance, and left a clone of that instance in [staging]
    with [current] and [previous] cleared, so that the pre-visit of
    [dispatch] adopts the clone; or the [prune] callback of one of them
    threw, and the [fatalError] result with that error is stored in the
    root and returned. *)
Theorem orphans_are_pruned linkVerdict this s0 previousControllers s1 completion s2
    currentControllers s3 :
  Fresh s0 →
  traverse this (fun _ => ret tt) s0 = (Ok previousControllers, s1) →
  tryCatch (commit linkVerdict this) (commitCatch linkVerdict this) s1 = (completion, s2) →
  traverse this clearPrevious s2 = (Ok currentControllers, s3) →
  (∀ u, u ∈ orphansOf currentControllers previousControllers →
        ∃ i, current (ctrl u s3) = Some i ∧ i < length (instances s3)) →
  let orphans := orphansOf currentControllers previousControllers in
  (∀ u, u ∈ orphans ↔ tc (imports s0) this u ∧ ¬ tc (imports s2) this u)
  ∧ NoDup orphans
  ∧ ∃ out s4,
      pruneOrphans this currentControllers previousControllers s3 = (Ok out, s4)
      ∧ match out with
        | None =>
            Pruned orphans s3 s4
            ∧ (∀ u e, u ∈ orphans → ¬ pruneThrows s3 u e)
            ∧ (∀ u, u ∈ orphans →
                 ∃ cs s5, dispatchPre u s4 = (Ok cs, s5)
                          ∧ current (ctrl u s5) = staging (ctrl u s4))
            ∧ commitAndFinalize linkVerdict this previousControllers s1
              = (completed completion s4, s4)
        | Some r =>
            ∃ f, r = Some (UpdateFatal f) ∧ feType f = fatalError
                 ∧ fatalErrorOf (ctrl this s4) = Some f
                 ∧ (∃ u, u ∈ orphans ∧ pruneThrows s3 u (feError f))
                 ∧ commitAndFinalize linkVerdict this previousControllers s1 = (Ok r, s4)
        end.
Proof.
  intros Hfresh Hprev Hcommit Hcur Halloc orphans.
  destruct (traverse_walked _ _ _ _ _ quietYield_ret Hfresh Hprev)
    as (Hnd & Hreach0 & Hthis & _ & _ & Hdom1 & _ & Hfresh1).
  pose proof (commit_freshKept linkVerdict this s1) as Hkept.
  pose proof (commit_sameDom linkVerdict this s1) as Hdom2.
  rewrite Hcommit in Hkept, Hdom2. simpl in Hkept, Hdom2.
  pose proof (Fresh_kept _ _ Hfresh1 Hkept) as Hfresh2.
  destruct (traverse_walked _ _ _ _ _ quietYield_clearPrevious Hfresh2 Hcur)
    as (_ & Hreach2 & _ & _ & _ & Hdom3 & _ & _).
  assert (this ∈ dom (controllers s3)) as Hthis3.
  { rewrite Hdom3, Hdom2, Hdom1. destruct Hthis as [i Hi].
    by apply (ctrl_some_dom current _ _ i). }
  assert (NoDup orphans) as Hndo.
  { subst orphans. unfold orphansOf. apply NoDup_ListNoDup, List.NoDup_filter.
    by apply NoDup_ListNoDup. }
  split; [|split; [done|]].
  { intros u. subst orphans. by rewrite elem_of_orphansOf, Hreach0, Hreach2. }
  destruct (pruneOrphans_spec this currentControllers previousControllers s3 Hnd Hthis3 Halloc)
    as (out & s4 & Hrun & Hout).
  exists out, s4. split; [done|].
  assert (finalize this previousControllers s2 = (Ok out, s4)) as Hfin.
  { unfold finalize. by rewrite (bind_eq _ _ _ _ _ Hcur). }
  destruct out as [r|].
  - destruct Hout as (f & -> & Hty & Hst & Hthrow).
    exists f. split_and!; try done.
    unfold commitAndFinalize. by rewrite Hcommit, Hfin.
  - destruct Hout as [HP Hno]. split_and!; try done.
    + intros u Hu. destruct (pr_orphan _ _ _ HP u Hu) as (i & c & Hi & Hctrl & _).
      destruct (dispatchPre_revives u c (ctrl u s3) s4) as (cs & s5 & Hd & Hc); [|done|].
      { rewrite (pr_dom _ _ _ HP). by apply (ctrl_some_dom current _ _ i). }
      exists cs, s5. split; [done|]. by rewrite Hc, Hctrl.
    + unfold commitAndFinalize. rewrite Hcommit, Hfin. by destruct completion as [[r|]|e].
Qed.

(** A root that stops importing its child. *)
Definition orphanTest : State :=
  runScript [OpAcquire "main"; OpAcquire "child";
             OpSource "child" (bodyWith [] noHot) [];
             OpSource "main" (bodyWith [] (accepting CbOk)) [importing "child" []];
             OpDispatch "main";
             OpSource "main" (bodyWith [] (accepting CbOk)) []].

(** The store when the controllers are collected, line 598. *)
Definition beforeCollect (this : string) (s : State) : State :=
  snd (linkTest directVerdict this (snd (dryRun this (setFrame (fun _ => newFrame) s)))).

Lemma Fresh_intro s :
  map_Forall (fun _ c => visitIndex c ≤ currentVisitIndex s) (controllers s) → Fresh s.
Proof.
  intros H u. unfold ctrl. destruct (controllers s !! u) as [c|] eqn:E; simpl; [|lia].
  by apply (H u c).
Qed.

Lemma orphans_are_pruned_witness :
  let s0 := beforeCollect "main" orphanTest in
  let s1 := snd (traverse "main" (fun _ => ret tt) s0) in
  let phase3 := tryCatch (commit directVerdict "main") (commitCatch directVerdict "main") s1 in
  let s3 := snd (traverse "main" clearPrevious (snd phase3)) in
  Fresh s0
  ∧ traverse "main" (fun _ => ret tt) s0 = (Ok ["child"], s1)
  ∧ traverse "main" clearPrevious (snd phase3) = (Ok [], s3)
  ∧ orphansOf [] ["child"] = ["child"]
  ∧ (∀ u, u ∈ orphansOf [] ["child"] →
          ∃ i, current (ctrl u s3) = Some i ∧ i < length (instances s3))
  ∧ ∃ out s4,
      pruneOrphans "main" [] ["child"] s3 = (Ok out, s4)
      ∧ match out with
        | None =>
            Pruned (orphansOf [] ["child"]) s3 s4
            ∧ commitAndFinalize directVerdict "main" ["child"] s1
              = (completed (fst phase3) s4, s4)
        | Some r => ∃ f, r = Some (UpdateFatal f)
        end.
Proof.
  intros s0 s1 phase3 s3.
  assert (Fresh s0) as Hfresh.
  { apply Fresh_intro. apply (bool_decide_unpack _). vm_compute. exact I. }
  assert (traverse "main" (fun _ => ret tt) s0 = (Ok ["child"], s1)) as Hprev
    by (vm_compute; reflexivity).
  assert (tryCatch (commit directVerdict "main") (commitCatch directVerdict "main") s1
          = (fst phase3, snd phase3)) as Hcommit by exact (surjective_pairing phase3).
  assert (traverse "main" clearPrevious (snd phase3) = (Ok [], s3)) as Hcur
    by (vm_compute; reflexivity).
  assert (∀ u, u ∈ orphansOf [] ["child"] →
            ∃ i, current (ctrl u s3) = Some i ∧ i < length (instances s3)) as Halloc.
  { intros u Hu. apply list_elem_of_singleton in Hu. subst u. exists 0.
    split; [vm_compute; reflexivity|]. vm_compute. lia. }
  split; [exact Hfresh|]. split; [exact Hprev|]. split; [exact Hcur|].
  split; [reflexivity|]. split; [exact Halloc|].
  destruct (orphans_are_pruned directVerdict "main" s0 ["child"] s1 (fst phase3) (snd phase3)
              [] s3 Hfresh Hprev Hcommit Hcur Halloc) as (_ & _ & out & s4 & Hrun & Hout).
  exists out, s4. split; [exact Hrun|]. destruct out as [r|].
  - destruct Hout as (f & Hf & _). exists f. exact Hf.
  - destruct Hout as (HP & _ & _ & Hres). split; [exact HP|exact Hres].
Defined.

(** * Evaluation failures

    What the rollback of the evaluation loop and the [catch] block of phase
    3 do, when the recovery traversal returns. *)

(** When the members [yielded] of a component were evaluated, the
    evaluation of its next member [x] throws [e], and that throw is the one
    that ends the [try] block: the rollback has run, so that every yielded
    member whose current instance holds an evaluation error, [x] among
    them, has [current] reverted to [previous], and nothing else changed.
    When the recovery of the [catch] block returns, it has unlinked and
    dropped the pending instance and linked the current instance again on
    every controller the root reaches through current instances.  The
    result is [evaluationFailure] with [e] and the counters, unless a dispose
    failure was flagged or [prune] threw in the [finally] block: the result
    is then the [fatalError] object stored in the root. *)
Theorem evaluation_failure_recovers linkVerdict this previousControllers s1
    yielded x rest s sy e sx :
  NoDup (yielded ++ [x]) →
  (∀ n c, n ∈ yielded ++ [x] → current (ctrl n s) = Some c → c < length (instances s)) →
  forEach yielded evaluateNode s = (Ok tt, sy) →
  is_Some (current (ctrl x sy)) →
  evaluateNode x sy = (Throw e, sx) →
  (∀ s', iterateWithRollback (yielded ++ x :: rest) evaluationRollback [] evaluateNode s
           = (Throw e, s') →
         commit linkVerdict this s1 = (Throw e, s')) →
  ∃ s2,
    iterateWithRollback (yielded ++ x :: rest) evaluationRollback [] evaluateNode s
      = (Throw e, s2)
    ∧ commit linkVerdict this s1 = (Throw e, s2)
    ∧ Reverted (yielded ++ [x]) sx s2
    ∧ current (ctrl x s2) = previous (ctrl x sx)
    ∧ ∀ s3, recover linkVerdict this s2 = (Ok tt, s3) →
        Recovered this s2 s3
        ∧ dispatchLinkErrorType (frame s3) = dispatchLinkErrorType (frame sx)
        ∧ ∀ out s4, finalize this previousControllers (caughtState this e s3) = (Ok out, s4) →
            ∃ r, commitAndFinalize linkVerdict this previousControllers s1 = (Ok r, s4)
              ∧ (dispatchLinkErrorType (frame sx) = None → out = None →
                   r = Some (UpdateEvaluationError e (stats s3)))
              ∧ (dispatchLinkErrorType (frame sx) ≠ None ∨ out ≠ None →
                   ∃ f, r = Some (UpdateFatal f) ∧ fatalErrorOf (ctrl this s4) = Some f).
Proof.
  intros Hnd Halloc Hrun Hcur Hx Hends.
  destruct (evaluation_rollback yielded x rest s sy e sx Hnd Halloc Hrun Hcur Hx)
    as (s2 & Hloop & HR & Hrev).
  exists s2. pose proof (Hends s2 Hloop) as Hcommit.
  split; [done|]. split; [done|]. split; [done|]. split; [done|].
  intros s3 Hrec. pose proof (recover_spec _ _ _ _ Hrec) as HRec.
  assert (frame s3 = frame sx) as Hframe.
  { destruct (rc_graph _ _ _ HRec) as (_ & -> & _). apply HR. }
  split; [done|]. split; [by rewrite Hframe|].
  intros out s4 Hfin.
  pose proof (commitCatch_eq linkVerdict this e s2 s3 Hrec) as Hcatch.
  assert (commitAndFinalize linkVerdict this previousControllers s1
          = (Ok (match out with Some r => r | None => caught e s3 end), s4)) as Hres.
  { unfold commitAndFinalize, tryCatch. rewrite Hcommit, Hcatch, Hfin. by destruct out. }
  assert (this ∈ dom (controllers s1)) as Hdom.
  { pose proof (recover_root_dom _ _ _ _ Hrec) as Hd2.
    pose proof (keeps_commit sameDom linkVerdict this (proj1 (sameDom_updateAllowed this)) s1)
      as Hk. rewrite Hcommit in Hk. simpl in Hk. unfold sameDom in Hk. by rewrite <- Hk. }
  pose proof (commitAndFinalize_stored linkVerdict this previousControllers s1 Hdom) as Hst.
  rewrite Hres in Hst.
  eexists. split; [exact Hres|]. split.
  - intros Hflag ->. unfold caught. by rewrite Hframe, Hflag.
  - intros Hcase.
    assert (∃ f, match out with Some r => r | None => caught e s3 end = Some (UpdateFatal f))
      as [f Hf].
    { destruct out as [r|].
      - pose proof (finalize_kind this previousControllers (caughtState this e s3)) as Hk.
        by rewrite Hfin in Hk.
      - destruct Hcase as [Hflag|Hout]; [|done]. unfold caught. rewrite Hframe.
        destruct (dispatchLinkErrorType (frame sx)); [eauto|done]. }
    exists f. split; [done|]. by apply Hst.
Qed.

(** A child whose new source throws when it is evaluated; the root accepts. *)
Definition evaluationFails : State :=
  runScript [OpAcquire "main"; OpAcquire "child";
             OpSource "child" (bodyWith [] noHot) [];
             OpSource "main" (bodyWith [] (accepting CbOk)) [importing "child" []];
             OpDispatch "main";
             OpSource "child"
               {| async := false; bodyExports := []; bodyHot := noHot;
                  bodyDynamicImports := []; bodyThrows := Some (UserError "boom") |} []].

(** The store when the evaluation loop of the component of the child
    starts. *)
Definition beforeEvaluation : State :=
  snd ((let* _ := forEach ["child"] replaceInstance in
        forEach ["child"] (fun node =>
          let* cur := select node selectCurrent in link directVerdict cur selectCurrent))
       (beforeCommit "main" evaluationFails)).

Lemma evaluation_failure_recovers_witness :
  let s1 := beforeCommit "main" evaluationFails in
  let s := beforeEvaluation in
  let e := UserError "boom" in
  let sx := snd (evaluateNode "child" s) in
  NoDup ([] ++ ["child"])
  ∧ (∀ n c, n ∈ [] ++ ["child"] → current (ctrl n s) = Some c → c < length (instances s))
  ∧ forEach [] evaluateNode s = (Ok tt, s)
  ∧ is_Some (current (ctrl "child" s))
  ∧ evaluateNode "child" s = (Throw e, sx)
  ∧ ∃ s2,
      commit directVerdict "main" s1 = (Throw e, s2)
      ∧ Reverted ([] ++ ["child"]) sx s2
      ∧ current (ctrl "child" s2) = previous (ctrl "child" sx)
      ∧ ∀ s3, recover directVerdict "main" s2 = (Ok tt, s3) → Recovered "main" s2 s3.
Proof.
  intros s1 s e sx.
  assert (NoDup ([] ++ ["child"])) as Hnd by apply NoDup_singleton.
  assert (∀ n c, n ∈ [] ++ ["child"] → current (ctrl n s) = Some c →
            c < length (instances s)) as Halloc.
  { intros n c Hn. apply list_elem_of_singleton in Hn. subst n.
    assert (current (ctrl "child" s) = Some 2) as -> by (vm_compute; reflexivity).
    intros [= <-]. vm_compute. lia. }
  assert (forEach [] evaluateNode s = (Ok tt, s)) as Hrun by reflexivity.
  assert (is_Some (current (ctrl "child" s))) as Hcur.
  { exists 2. vm_compute. reflexivity. }
  assert (evaluateNode "child" s = (Throw e, sx)) as Hx by (vm_compute; reflexivity).
  assert (∀ s', iterateWithRollback ([] ++ "child" :: []) evaluationRollback [] evaluateNode s
                  = (Throw e, s') →
                commit directVerdict "main" s1 = (Throw e, s')) as Hends.
  { assert (iterateWithRollback ([] ++ "child" :: []) evaluationRollback [] evaluateNode s
            = (Throw e, snd (commit directVerdict "main" s1))) as Hloop
      by (vm_compute; reflexivity).
    assert (commit directVerdict "main" s1 = (Throw e, snd (commit directVerdict "main" s1)))
      as Hcommit by (vm_compute; reflexivity).
    revert Hloop Hcommit. generalize (snd (commit directVerdict "main" s1)).
    intros S2 Hloop Hcommit s' H. rewrite Hloop in H.
    assert (S2 = s') as <- by congruence. exact Hcommit. }
  split; [exact Hnd|]. split; [exact Halloc|]. split; [exact Hrun|]. split; [exact Hcur|].
  split; [exact Hx|].
  destruct (evaluation_failure_recovers directVerdict "main" ["child"] s1 [] "child" [] s s e sx
              Hnd Halloc Hrun Hcur Hx Hends) as (s2 & _ & Hcommit & HR & Hrev & Hrec).
  exists s2. split; [exact Hcommit|]. split; [exact HR|]. split; [exact Hrev|].
  intros s3 H3. exact (proj1 (Hrec s3 H3)).
Defined.

(** ** The claim about evaluation failures *)

Definition throwing (exports : list string) (e : Error) : ModuleBody :=
  {| async := false; bodyExports := exports; bodyHot := noHot;
     bodyDynamicImports := []; bodyThrows := Some e |}.

(** The root imports [p], which imports [x] from [c].  Then [c] renames its
    export to [y], and the new source of [p] imports [y] and throws when it
    is evaluated. *)
Definition renamedExport : State :=
  runScript [OpAcquire "main"; OpAcquire "p"; OpAcquire "c";
             OpSource "c" (bodyWith ["x"] noHot) [];
             OpSource "p" (bodyWith [] noHot) [importing "c" ["x"]];
             OpSource "main" (bodyWith [] (accepting CbOk)) [importing "p" []];
             OpDispatch "main";
             OpSource "c" (bodyWith ["y"] noHot) [];
             OpSource "p" (throwing [] (UserError "boom")) [importing "c" ["y"]]].

(** C1, at the failing input: the new [c] is evaluated and stays current,
    the evaluation of the new [p] throws and the rollback reverts [p] to its
    previous instance.  The [catch] block then relinks that instance, which
    imports [x], against the new [c], which exports [y] only: [relink]
    throws inside the [catch] block, line 730, and [requestUpdate] ends with
    that link error; it returns no [evaluationFailure] result and stores no
    [fatalError]. *)
Theorem evaluation_failure_rejects :
  let s := renamedExport in
  let s1 := beforeCommit "main" s in
  let s2 := snd (commit directVerdict "main" s1) in
  let s' := snd (requestUpdate directVerdict "main" s) in
  current (ctrl "p" s) = Some 1 ∧ staging (ctrl "p" s) = Some 4
  ∧ current (ctrl "c" s) = Some 0 ∧ staging (ctrl "c" s) = Some 3
  ∧ fst (commit directVerdict "main" s1) = Throw (UserError "boom")
  ∧ evaluationError (inst 4 s2) = Some (UserError "boom")
  ∧ current (ctrl "p" s2) = Some 1 ∧ current (ctrl "c" s2) = Some 3
  ∧ fst (relink directVerdict 1 s2) = Throw (SyntaxError "p")
  ∧ fst (recover directVerdict "main" s2) = Throw (SyntaxError "p")
  ∧ fst (requestUpdate directVerdict "main" s) = Throw (SyntaxError "p")
  ∧ fatalErrorOf (ctrl "main" s') = None
  ∧ current (ctrl "p" s') = Some 1 ∧ current (ctrl "c" s') = Some 3.
Proof. vm_compute. done. Qed.

(** * Further properties of the controller *)

(** ** [makeAcquire] *)

(** X1. [acquire] interns controllers by URL: afterwards the URL is
    registered, a controller that was registered is the same object as
    before, a URL that was not registered gets a controller as the
    constructor leaves it, no other URL is registered, and acquiring the URL
    again changes nothing. *)
Theorem acquire_interns url s :
  let s' := snd (acquire url s) in
  fst (acquire url s) = Ok tt
  ∧ dom (controllers s') = {[url]} ∪ dom (controllers s)
  ∧ (∀ v c, controllers s !! v = Some c → controllers s' !! v = Some c)
  ∧ (controllers s !! url = None → controllers s' !! url = Some newController)
  ∧ snd (acquire url s') = s'.
Proof.
  destruct s as [cs ins ds es n f]. unfold acquire, modify, setControllers; simpl.
  destruct (cs !! url) as [c|] eqn:Hu; simpl.
  - rewrite Hu. split_and!; try done.
    symmetry. apply subseteq_union_1_L, singleton_subseteq_l, elem_of_dom. eauto.
  - rewrite lookup_insert_eq. split_and!; try done.
    + by rewrite dom_insert_L.
    + intros v c Hv. rewrite lookup_insert_ne; [done|]. intros ->. congruence.
Qed.

(** ** The declaration that [load] builds *)

Lemma elem_of_map {A B} (f : A → B) (l : list A) (y : B) :
  y ∈ map f l ↔ ∃ x, y = f x ∧ x ∈ l.
Proof.
  rewrite list_elem_of_In, in_map_iff. split; intros (x & Hx & Hy); exists x;
    by rewrite ?list_elem_of_In in *.
Qed.

Lemma last_occurrence {V} (es : list (string * V)) k :
  k ∈ map fst es →
  ∃ v before after, es = before ++ (k, v) :: after ∧ k ∉ map fst after.
Proof.
  induction es as [|[k0 v0] es IH]; simpl; intros Hk; [by apply elem_of_nil in Hk|].
  destruct (decide (k ∈ map fst es)) as [Hin|Hin].
  - destruct (IH Hin) as (v & before & after & -> & Hafter).
    by exists v, ((k0, v0) :: before), after.
  - apply elem_of_cons in Hk as [->|Hk]; [|done]. by exists v0, [], es.
Qed.

Lemma mapSet_keys {V} k (v : V) m :
  ∀ x, x ∈ map fst (mapSet k v m) ↔ x = k ∨ x ∈ map fst m.
Proof.
  induction m as [|[k' v'] m IH]; intros x; simpl.
  - rewrite list_elem_of_singleton, elem_of_nil. tauto.
  - destruct (String.eqb_spec k k') as [->|Hne]; simpl.
    + rewrite !elem_of_cons. tauto.
    + rewrite !elem_of_cons, IH. tauto.
Qed.

Lemma mapSet_NoDup {V} k (v : V) m :
  NoDup (map fst m) → NoDup (map fst (mapSet k v m)).
Proof.
  induction m as [|[k' v'] m IH]; intros Hnd; simpl.
  - apply NoDup_singleton.
  - inversion Hnd as [|? ? Hnotin Hnd']; subst.
    destruct (String.eqb_spec k k') as [->|Hne]; simpl.
    + by constructor.
    + constructor; [|by apply IH]. rewrite mapSet_keys. intros [?|?]; [congruence|done].
Qed.

Lemma mapSet_entries {V} k (v : V) m k' v' :
  NoDup (map fst m) →
  (k', v') ∈ mapSet k v m ↔ (k' = k ∧ v' = v) ∨ (k' ≠ k ∧ (k', v') ∈ m).
Proof.
  induction m as [|[k0 v0] m IH]; intros Hnd; simpl.
  - rewrite list_elem_of_singleton, elem_of_nil. split; [intros [= -> ->]; by left|].
    intros [[-> ->]|[_ []]]. done.
  - inversion Hnd as [|? ? Hnotin Hnd']; subst.
    destruct (String.eqb_spec k k0) as [->|Hne]; simpl.
    + rewrite !elem_of_cons. split.
      * intros [[= -> ->]|Hin]; [by left|]. right. split; [|by right].
        intros ->. apply Hnotin. apply elem_of_map. by exists (k0, v').
      * intros [[-> ->]|[Hne [[= -> ->]|Hin]]]; [by left|done|by right].
    + rewrite !elem_of_cons, (IH Hnd'). split.
      * intros [[= -> ->]|[[-> ->]|[Hk Hin]]]; [right; split; [congruence|by left]|by left|].
        right. split; [done|by right].
      * intros [[-> ->]|[Hk [[= -> ->]|Hin]]]; [right; by left|by left|].
        right. right. done.
Qed.

Lemma mapFromEntries_fold {V} (entries : list (string * V)) acc :
  NoDup (map fst acc) →
  let m := fold_left (fun m kv => mapSet (fst kv) (snd kv) m) entries acc in
  NoDup (map fst m)
  ∧ ∀ k v, (k, v) ∈ m ↔
      (∃ before after, entries = before ++ (k, v) :: after ∧ k ∉ map fst after)
      ∨ ((k, v) ∈ acc ∧ k ∉ map fst entries).
Proof.
  revert acc. induction entries as [|[k0 v0] entries IH]; intros acc Hnd; simpl.
  - split; [done|]. intros k v. split.
    + intros Hin. right. split; [done|apply not_elem_of_nil].
    + intros [(before & after & Heq & _)|[Hin _]]; [|done]. by destruct before.
  - destruct (IH (mapSet k0 v0 acc) (mapSet_NoDup _ _ _ Hnd)) as [Hnd' Hall].
    split; [done|]. intros k v. rewrite Hall, (mapSet_entries _ _ _ _ _ Hnd). split.
    + intros [(before & after & -> & Hk)|[[[-> ->]|[Hne Hin]] Hk]].
      * left. by exists ((k0, v0) :: before), after.
      * left. by exists [], entries.
      * right. split; [done|]. rewrite not_elem_of_cons. done.
    + intros [(before & after & Heq & Hk)|[Hin Hk]].
      * destruct before as [|b before]; simpl in Heq.
        -- injection Heq as E1 E2 E3. subst. right. split; [by left|done].
        -- injection Heq as E1 E2. subst. left. by exists before, after.
      * rewrite not_elem_of_cons in Hk. destruct Hk as [Hne Hk]. right. split; [|done].
        right. done.
Qed.

(** X2. [indirectExportEntries] is a [Map]: every exported name is a key at
    most once, and a name that several indirect export bindings declare
    resolves to the last of them, in the order of the loaded modules and of
    their bindings. *)
Theorem indirect_exports_last_wins body meta usesDynamicImport format importAssertions
    loaded :
  let d := makeDeclaration body meta usesDynamicImport format importAssertions loaded in
  NoDup (map fst (indirectExportEntries d))
  ∧ ∀ k v, (k, v) ∈ indirectExportEntries d ↔
      ∃ before after, indirectEntriesOf loaded = before ++ (k, v) :: after
                      ∧ k ∉ map fst after.
Proof.
  simpl. unfold mapFromEntries.
  destruct (mapFromEntries_fold (indirectEntriesOf loaded) []) as [Hnd Hall];
    [constructor|].
  split; [done|]. intros k v. rewrite Hall. split; [|by left].
  intros [H|[Hin _]]; [done|]. by apply elem_of_nil in Hin.
Qed.

(** The name under which an indirect export binding exports. *)
Definition exportedAs (b : BindingEntry) : option string :=
  match b with
  | ExportIndirectEntry name as_ => Some (default name as_)
  | ExportIndirectStarEntry as_ => Some as_
  | _ => None
  end.

Lemma elem_of_flat_map {A B} (f : A → list B) (l : list A) (y : B) :
  y ∈ flat_map f l ↔ ∃ x, x ∈ l ∧ y ∈ f x.
Proof.
  rewrite list_elem_of_In, in_flat_map. split; intros (x & Hx & Hy); exists x;
    by rewrite ?list_elem_of_In in *.
Qed.

Lemma elem_of_indirectEntriesOf loaded k m b :
  (k, (m, b)) ∈ indirectEntriesOf loaded ↔ m ∈ loaded ∧ b ∈ bindings m ∧ exportedAs b = Some k.
Proof.
  unfold indirectEntriesOf. rewrite elem_of_flat_map. split.
  - intros (m' & Hm & Hin). apply elem_of_flat_map in Hin as (b' & Hb & Hin).
    destruct b'; simpl in Hin; try (by apply elem_of_nil in Hin);
      apply list_elem_of_singleton in Hin; injection Hin as -> -> ->; done.
  - intros (Hm & Hb & Hk). exists m. split; [done|]. apply elem_of_flat_map.
    exists b. split; [done|]. destruct b; simpl in Hk; try done;
      injection Hk as <-; by apply list_elem_of_singleton.
Qed.

(** X3. The export entries of a declaration: the keys of
    [indirectExportEntries] are exactly the names under which the indirect
    and indirect-star export bindings of the loaded modules export ([as], or
    [name] when an indirect export has no [as]), each entry holds a binding
    of that name together with the module request it belongs to, and
    [starExportEntries] holds exactly the export-star bindings; an import
    binding yields no entry. *)
Theorem export_entries_of_bindings body meta usesDynamicImport format importAssertions
    loaded :
  let d := makeDeclaration body meta usesDynamicImport format importAssertions loaded in
  (∀ k, k ∈ map fst (indirectExportEntries d) ↔
        ∃ m b, m ∈ loaded ∧ b ∈ bindings m ∧ exportedAs b = Some k)
  ∧ (∀ k m b, (k, (m, b)) ∈ indirectExportEntries d →
        m ∈ loaded ∧ b ∈ bindings m ∧ exportedAs b = Some k
        ∧ (bindingType b = indirectExport ∨ bindingType b = indirectStarExport))
  ∧ (∀ m b, (m, b) ∈ starExportEntries d ↔
        m ∈ loaded ∧ b ∈ bindings m ∧ bindingType b = exportStar)
  ∧ loadedModules d = loaded.
Proof.
  intros d.
  destruct (indirect_exports_last_wins body meta usesDynamicImport format importAssertions
              loaded) as [_ Hall]. fold d in Hall.
  split_and!.
  - intros k. rewrite elem_of_map. split.
    + intros ([k' [m b]] & -> & Hin). apply Hall in Hin as (before & after & Heq & _).
      exists m, b. apply elem_of_indirectEntriesOf. rewrite Heq.
      apply elem_of_app. right. by left.
    + intros (m & b & Hin). apply elem_of_indirectEntriesOf in Hin.
      assert (k ∈ map fst (indirectEntriesOf loaded)) as Hk
        by (apply elem_of_map; by exists (k, (m, b))).
      apply last_occurrence in Hk as (v & before & after & Heq & Hafter).
      exists (k, v). split; [done|]. apply Hall. eauto.
  - intros k m b Hin. apply Hall in Hin as (before & after & Heq & _).
    assert ((k, (m, b)) ∈ indirectEntriesOf loaded) as Hin
      by (rewrite Heq; apply elem_of_app; right; by left).
    apply elem_of_indirectEntriesOf in Hin as (Hm & Hb & Hk). split_and!; try done.
    destruct b; simpl in *; try done; auto.
  - intros m b. simpl. unfold starEntriesOf. rewrite elem_of_flat_map. split.
    + intros (m' & Hm & Hin). apply elem_of_flat_map in Hin as (b' & Hb & Hin).
      destruct b'; simpl in Hin; try (by apply elem_of_nil in Hin).
      apply list_elem_of_singleton in Hin. injection Hin as -> ->. done.
    + intros (Hm & Hb & Hk). exists m. split; [done|]. apply elem_of_flat_map.
      exists b. split; [done|]. destruct b; simpl in Hk; try done.
      by apply list_elem_of_singleton.
  - done.
Qed.

(** ** What [dispatch] and [requestUpdate] leave alone *)

(** The events of a dispatch. *)
Definition dispatchEvent (e : Event) : bool :=
  match e with
  | EvInstantiate _ | EvLink _ | EvUnlink _ | EvEvaluate _ => true
  | _ => false
  end.

(** X4. However it ends, [dispatch] writes no slot of any controller other
    than [current] and [staging]: [pending], [previous], [temporary],
    [fatalError], [version] and the visit index are unchanged; it registers
    no controller; and it only instantiates, links, unlinks and evaluates
    instances: no dispose, prune or accept handler runs and nothing is
    evicted. *)
Theorem dispatch_writes_current_and_staging linkVerdict this s :
  let s' := snd (dispatch linkVerdict this s) in
  (∀ u, pending (ctrl u s') = pending (ctrl u s)
        ∧ previous (ctrl u s') = previous (ctrl u s)
        ∧ temporary (ctrl u s') = temporary (ctrl u s)
        ∧ fatalErrorOf (ctrl u s') = fatalErrorOf (ctrl u s)
        ∧ version (ctrl u s') = version (ctrl u s)
        ∧ visitIndex (ctrl u s') = visitIndex (ctrl u s))
  ∧ dom (controllers s') = dom (controllers s)
  ∧ eventsExtend dispatchEvent s s'.
Proof.
  assert (∀ A (g : ReloadableModuleController → A),
            (∀ v c, g (withCurrent v c) = g c) → (∀ v c, g (withStaging v c) = g c) →
            ∀ u, g (ctrl u (snd (dispatch linkVerdict this s))) = g (ctrl u s)) as Hfield.
  { intros A g Hc Hs u.
    apply (keeps_dispatch (sameField g (λ _, False)) linkVerdict this);
      try (intros ? ?; by apply sameField_writes); try (intros; apply sameField_logs); auto. }
  split_and!.
  - intros u. split_and!; by apply Hfield.
  - apply (keeps_dispatch sameDom linkVerdict this);
      try (intros ? ?; apply sameDom_writes); intros; apply sameDom_logs.
  - apply (keeps_dispatch (eventsExtend dispatchEvent) linkVerdict this);
      try (intros ? ?; apply eventsExtend_writes); intros; by apply eventsExtend_logs.
Qed.

(** The events that are not an eviction. *)
Definition updateEvent (e : Event) : bool :=
  match e with
  | EvEvict _ _ => false
  | _ => true
  end.

(** X5. However it ends, [requestUpdate] changes the [version] of no
    controller, writes [fatalError] of no controller other than the one it
    was called on, registers no controller and evicts nothing. *)
Theorem requestUpdate_keeps_versions linkVerdict this s :
  let s' := snd (requestUpdate linkVerdict this s) in
  (∀ u, version (ctrl u s') = version (ctrl u s))
  ∧ (∀ u, u ≠ this → fatalErrorOf (ctrl u s') = fatalErrorOf (ctrl u s))
  ∧ dom (controllers s') = dom (controllers s)
  ∧ eventsExtend updateEvent s s'.
Proof.
  split_and!.
  - intros u.
    apply (keeps_requestUpdate (sameField version (λ _, False)) linkVerdict this); [|auto].
    apply sameField_updateAllowed; auto.
  - intros u Hu.
    apply (keeps_requestUpdate (sameField fatalErrorOf (eq this)) linkVerdict this); [|auto].
    apply sameField_updateAllowed; auto.
  - apply (keeps_requestUpdate sameDom linkVerdict this). apply sameDom_updateAllowed.
  - apply (keeps_requestUpdate (eventsExtend updateEvent) linkVerdict this).
    unfold updateAllowed, commitAllowed, writesSlot.
    split_and!; intros; try apply eventsExtend_writes; by apply eventsExtend_logs.
Qed.

(** ** Controllers that were never loaded *)

(** X6. Dispatching a controller that has neither a current nor a staged
    instance fails with an assertion error and changes nothing. *)
Theorem dispatch_of_unloaded_fails linkVerdict this s :
  current (ctrl this s) = None → staging (ctrl this s) = None →
  dispatch linkVerdict this s = (Throw AssertionError, s).
Proof.
  intros Hc Hs. unfold dispatch, bind. cbn [gets]. rewrite Hc.
  unfold traverseDepthFirst. cbn [visit].
  unfold dispatchPre at 1. unfold bind. cbn [gets]. rewrite Hc.
  unfold select, selectStaging. rewrite Hs. done.
Qed.

Lemma dispatch_of_unloaded_fails_witness :
  current (ctrl "main" emptyState) = None
  ∧ staging (ctrl "main" emptyState) = None
  ∧ dispatch noLinkErrors "main" emptyState = (Throw AssertionError, emptyState).
Proof.
  split; [reflexivity|]. split; [reflexivity|].
  apply (dispatch_of_unloaded_fails noLinkErrors "main" emptyState); reflexivity.
Defined.

(** X7. An update of a root that has neither a current nor a staged
    instance, and no fatal error, fails with an assertion error in the dry
    run; the store is unchanged but for the counters of the call. *)
Theorem requestUpdate_of_unloaded_fails linkVerdict this s :
  fatalErrorOf (ctrl this s) = None →
  current (ctrl this s) = None → staging (ctrl this s) = None →
  requestUpdate linkVerdict this s = (Throw AssertionError, setFrame (λ _, newFrame) s).
Proof.
  intros Hf Hc Hs. unfold requestUpdate. unfold bind at 1. cbn [gets]. rewrite Hf.
  unfold bind at 1. cbn [modify]. unfold bind at 1.
  unfold dryRun, traverseDepthFirst. cbn [visit].
  unfold dryRunPre at 1. unfold bind. cbn [gets].
  change (ctrl this (setFrame (λ _, newFrame) s)) with (ctrl this s). rewrite Hs.
  unfold select, selectCurrent.
  change (ctrl this (setFrame (λ _, newFrame) s)) with (ctrl this s). rewrite Hc. done.
Qed.

Lemma requestUpdate_of_unloaded_fails_witness :
  fatalErrorOf (ctrl "main" emptyState) = None
  ∧ current (ctrl "main" emptyState) = None
  ∧ staging (ctrl "main" emptyState) = None
  ∧ requestUpdate noLinkErrors "main" emptyState
    = (Throw AssertionError, setFrame (λ _, newFrame) emptyState).
Proof.
  split; [reflexivity|]. split; [reflexivity|]. split; [reflexivity|].
  apply (requestUpdate_of_unloaded_fails noLinkErrors "main" emptyState); reflexivity.
Defined.

(** ** [dispatch] *)

Lemma dispatch_eq linkVerdict this s :
  current (ctrl this s) = None →
  dispatch linkVerdict this s
  = (let* _ := traverseDepthFirst dispatchPre (dispatchLink linkVerdict) this unlinkAndForget in
     traverseDepthFirst (fun node => iterate node selectCurrent)
       dispatchEvaluate this noCancel) s.
Proof. intros Hc. unfold dispatch. unfold bind at 1. cbn [gets]. by rewrite Hc. Qed.

Lemma dispatchEvaluate_keeps_current nodes frs u s :
  current (ctrl u (snd (dispatchEvaluate nodes frs s))) = current (ctrl u s).
Proof.
  assert (keeps (sameField current (λ _, False)) (dispatchEvaluate nodes frs)) as Hk.
  { unfold dispatchEvaluate. keeps_auto; try apply sameField_logs.
    all: by apply sameField_writes. }
  apply Hk. auto.
Qed.

Lemma evaluateTraversal_keeps_current this u s :
  current (ctrl u (snd (traverseDepthFirst (fun node => iterate node selectCurrent)
                          dispatchEvaluate this noCancel s)))
  = current (ctrl u s).
Proof.
  assert (keeps (sameField current (λ _, False))
            (traverseDepthFirst (fun node => iterate node selectCurrent)
               dispatchEvaluate this noCancel)) as Hk.
  { apply (keeps_traverseDepthFirst (sameField current (λ _, False))).
    - intros n. keeps_auto.
    - intros ns frs s1 v _. apply dispatchEvaluate_keeps_current.
    - intros ns. apply (keeps_ret _). }
  apply Hk. auto.
Qed.

Lemma iterate_current node s cs s' :
  iterate node selectCurrent s = (Ok cs, s') →
  s' = s ∧ ∃ i, current (ctrl node s) = Some i
                ∧ cs = reloadableChildren (loadedModules (declarationOf i s)).
Proof.
  unfold iterate. intros H. apply bind_Ok in H as (i & s1 & Hi & H).
  apply select_Ok in Hi as [Hi ->]. apply gets_Ok in H as [<- <-]. eauto.
Qed.

(** X8. A dispatch that returns leaves its root with a current instance, so
    that dispatching the root again does nothing: [dispatch] returns at once
    and the store is unchanged. *)
Theorem dispatch_is_idempotent linkVerdict this s s' :
  dispatch linkVerdict this s = (Ok tt, s') →
  is_Some (current (ctrl this s')) ∧ dispatch linkVerdict this s' = (Ok tt, s').
Proof.
  intros Hrun.
  assert (is_Some (current (ctrl this s'))) as [c Hc].
  { destruct (current (ctrl this s)) as [c|] eqn:Hcur.
    - unfold dispatch, bind in Hrun. cbn [gets] in Hrun. rewrite Hcur in Hrun.
      injection Hrun as <-. eauto.
    - rewrite (dispatch_eq _ _ _ Hcur) in Hrun.
      apply bind_Ok in Hrun as ([] & sa & _ & Hrun).
      pose proof (evaluateTraversal_keeps_current this this sa) as Hk.
      rewrite Hrun in Hk. simpl in Hk. rewrite Hk.
      apply traverseDepthFirst_Ok_pre in Hrun as (cs & s1 & Hpre).
      apply iterate_current in Hpre as (_ & i & Hi & _). eauto. }
  split; [eauto|]. unfold dispatch, bind. cbn [gets]. by rewrite Hc.
Qed.

(** [c] is imported statically by the current instance of [u]: the graph
    that [dispatch] walks. *)
Definition importsStatically (s : State) (u c : string) : Prop :=
  ∃ i, current (ctrl u s) = Some i
       ∧ c ∈ reloadableChildren (loadedModules (declarationOf i s)).

(** The current instance of [u] ran to completion and is not staged any
    more. *)
Definition Settled (s : State) (u : string) : Prop :=
  ∃ i, current (ctrl u s) = Some i ∧ status (inst i s) = evaluated
       ∧ evaluationError (inst i s) = None ∧ staging (ctrl u s) ≠ Some i.

Lemma Allocated_heap s s' :
  controllers s' = controllers s → length (instances s') = length (instances s) →
  Allocated s → Allocated s'.
Proof. intros Hc Hl Ha u i. unfold ctrl. rewrite Hc, Hl. apply Ha. Qed.

Lemma Allocated_forget u s :
  Allocated s → Allocated (updateCtrl u (withCurrent None) s).
Proof.
  intros Ha v i. rewrite (ctrl_updateCtrl_field staging) by done.
  destruct (decide (u = v)) as [->|Hne].
  - destruct (controllers s !! v) as [c|] eqn:Hv.
    + rewrite ctrl_updateCtrl_eq by eauto. simpl. intros [?|?]; [done|]. apply (Ha v). eauto.
    + assert (ctrl v (updateCtrl v (withCurrent None) s) = ctrl v s) as ->.
      { unfold ctrl, updateCtrl; simpl. by rewrite lookup_alter_eq, Hv. }
      apply (Ha v).
  - rewrite ctrl_updateCtrl_ne by done. apply (Ha v).
Qed.

Lemma Allocated_adopt u i s :
  staging (ctrl u s) = Some i →
  Allocated s → Allocated (updateCtrl u (withCurrent (Some i)) s).
Proof.
  intros Hs Ha v j. rewrite (ctrl_updateCtrl_field staging) by done.
  destruct (decide (u = v)) as [->|Hne].
  - rewrite ctrl_updateCtrl_eq by (apply elem_of_dom; by apply (ctrl_some_dom staging _ _ i)).
    simpl. intros [[= <-]|?]; apply (Ha v); eauto.
  - rewrite ctrl_updateCtrl_ne by done. apply (Ha v).
Qed.

Lemma Allocated_unstage u s :
  Allocated s → Allocated (updateCtrl u (withStaging None) s).
Proof.
  intros Ha v i. rewrite (ctrl_updateCtrl_field current) by done.
  destruct (decide (u = v)) as [->|Hne].
  - destruct (controllers s !! v) as [c|] eqn:Hv.
    + rewrite ctrl_updateCtrl_eq by eauto. simpl. intros [?|?]; [|done]. apply (Ha v). eauto.
    + assert (ctrl v (updateCtrl v (withStaging None) s) = ctrl v s) as ->.
      { unfold ctrl, updateCtrl; simpl. by rewrite lookup_alter_eq, Hv. }
      apply (Ha v).
  - rewrite ctrl_updateCtrl_ne by done. apply (Ha v).
Qed.

Lemma dispatchPre_Allocated n s cs s' :
  Allocated s → dispatchPre n s = (Ok cs, s') →
  Allocated s' ∧ dom (controllers s') = dom (controllers s) ∧ n ∈ dom (controllers s).
Proof.
  intros Ha H. unfold dispatchPre in H.
  apply bind_Ok in H as (cur & s1 & H1 & H). apply gets_Ok in H1 as [<- <-].
  apply bind_Ok in H as ([] & s1 & H1 & H).
  apply iterate_current in H as (-> & i & Hi & _).
  assert (Allocated s1 ∧ dom (controllers s1) = dom (controllers s)) as [Ha1 Hd1].
  { destruct (current (ctrl n s)) as [c|].
    - by apply ret_Ok in H1 as [_ <-].
    - apply bind_Ok in H1 as (staged & s2 & H2 & H1). apply select_Ok in H2 as [H2 ->].
      apply bind_Ok in H1 as ([] & s2 & H2' & H1). apply modify_Ok in H2' as <-.
      unfold instantiate in H1. apply modify_Ok in H1 as <-. split.
      + eapply Allocated_heap; [| |by apply (Allocated_adopt n staged s)];
          [done|simpl; by rewrite length_alter].
      + simpl. apply dom_alter_L. }
  split; [done|]. split; [done|]. rewrite <- Hd1. by apply (ctrl_some_dom current _ _ i).
Qed.

Lemma link_heap linkVerdict i sel s s' :
  link linkVerdict i sel s = (Ok tt, s') →
  controllers s' = controllers s ∧ length (instances s') = length (instances s).
Proof.
  unfold link. destruct (linkVerdict _ _ _); [done|]. intros [= <-]. simpl.
  by rewrite length_alter.
Qed.

Lemma dispatchLink_Allocated linkVerdict ns frs s s' :
  Allocated s → dispatchLink linkVerdict ns frs s = (Ok tt, s') →
  Allocated s' ∧ dom (controllers s') = dom (controllers s).
Proof.
  unfold dispatchLink. generalize (@nil string) as yielded. revert s.
  induction ns as [|n ns IH]; intros s yielded Ha H; simpl in H.
  { by apply ret_Ok in H as [_ <-]. }
  apply bind_Ok in H as ([] & s1 & H1 & H).
  assert (controllers s1 = controllers s ∧ length (instances s1) = length (instances s))
    as [Hc Hl].
  { unfold tryCatch in H1.
    destruct ((let* i := select n selectCurrent in link linkVerdict i selectCurrent) s)
      as [[[]|e] s2] eqn:Hbody.
    - injection H1 as <-. apply bind_Ok in Hbody as (i & s3 & Hi & Hbody).
      apply select_Ok in Hi as [_ ->]. by apply link_heap in Hbody.
    - apply bind_Ok in H1 as (? & ? & _ & H1). done. }
  destruct (IH s1 _ (Allocated_heap _ _ Hc Hl Ha) H) as [Ha' Hd'].
  split; [done|]. by rewrite Hd', Hc.
Qed.

(** The first traversal of [dispatch], when it returns. *)
Lemma linkTraversal_Allocated linkVerdict this s s' :
  Allocated s →
  traverseDepthFirst dispatchPre (dispatchLink linkVerdict) this unlinkAndForget s = (Ok tt, s') →
  Allocated s'.
Proof.
  intros Ha H.
  set (Inv := λ (_ : list (string * list string)) (_ _ : list string) st,
                Allocated st ∧ dom (controllers st) = dom (controllers s)).
  assert (∀ n K opened done st,
    Inv K opened done st → n ∉ opened → n ∉ done → reached this K n →
    match dispatchPre n st with
    | (Ok cs, s1) => n ∈ dom (controllers s) ∧ Inv ((n, cs) :: K) (n :: opened) done s1
    | (Throw e, s1) => True
    end) as Hpre.
  { intros n K opened done st [Hst Hd] _ _ _.
    destruct (dispatchPre n st) as [[cs|e] s1] eqn:Hpre; [|done].
    apply dispatchPre_Allocated in Hpre as (Ha1 & Hd1 & Hn); [|done].
    split; [by rewrite <- Hd|]. split; [done|]. by rewrite Hd1. }
  assert (∀ ns frs K opened done st,
    Inv K (rev ns ++ opened) done st → Forall (λ _ : unit, True) frs →
    match dispatchLink linkVerdict ns frs st with
    | (Ok r, s1) => Inv K opened (ns ++ done) s1 ∧ True
    | (Throw e, s1) => True
    end) as Hpost.
  { intros ns frs K opened done st [Hst Hd] _.
    destruct (dispatchLink linkVerdict ns frs st) as [[[]|e] s1] eqn:Hpost; [|done].
    apply dispatchLink_Allocated in Hpost as [Ha1 Hd1]; [|done].
    split; [|done]. split; [done|]. by rewrite Hd1. }
  pose proof (traverseDepthFirst_rule dispatchPre (dispatchLink linkVerdict)
                (dom (controllers s)) Inv (λ _, True) (λ _ _, True) this
                Hpre Hpost unlinkAndForget s) as Hrule.
  rewrite H in Hrule.
  destruct Hrule as (K & dn & [Ha' _] & _); [done|by rewrite size_dom|done].
Qed.

(** What the second traversal of [dispatch] keeps: the controllers, their
    current instances, the code of every instance, and the instances that
    ran to completion. *)
Record Evaluating (s s' : State) : Prop := {
  ev_dom : dom (controllers s') = dom (controllers s);
  ev_declarations : declarations s' = declarations s;
  ev_length : length (instances s') = length (instances s);
  ev_declaration : ∀ i, declaration (inst i s') = declaration (inst i s);
  ev_current : ∀ u, current (ctrl u s') = current (ctrl u s);
  ev_settled : ∀ u, Settled s u → Settled s' u;
}.

Lemma Evaluating_refl s : Evaluating s s.
Proof. by split. Qed.

Lemma Evaluating_trans a b c : Evaluating a b → Evaluating b c → Evaluating a c.
Proof.
  intros [H1 H2 H3 H4 H5 H6] [G1 G2 G3 G4 G5 G6].
  split; [congruence|congruence|congruence| | |auto].
  - intros i. by rewrite G4.
  - intros u. by rewrite G5.
Qed.

Lemma Evaluating_declarationOf s s' i : Evaluating s s' → declarationOf i s' = declarationOf i s.
Proof.
  intros H. unfold declarationOf, decl.
  by rewrite (ev_declarations _ _ H), (ev_declaration _ _ H).
Qed.

Lemma Evaluating_unstage node s :
  Evaluating s (updateCtrl node (withStaging None) s).
Proof.
  split; try done.
  - apply dom_updateCtrl.
  - intros u. by apply ctrl_updateCtrl_field.
  - intros u (i & Hc & Hst & Herr & Hs). exists i.
    rewrite (ctrl_updateCtrl_field current) by done. split_and!; try done.
    destruct (decide (node = u)) as [->|Hne]; [|by rewrite ctrl_updateCtrl_ne].
    rewrite ctrl_updateCtrl_eq; [done|].
    apply elem_of_dom. by apply (ctrl_some_dom current _ _ i).
Qed.

Lemma Evaluating_evaluate i s : Evaluating s (snd (evaluate i s)).
Proof.
  destruct (evaluate_frame i s) as (Hc & _ & Hd & Hl & Hother & Hsame).
  assert (∀ u, ctrl u (snd (evaluate i s)) = ctrl u s) as Hctrl
    by (intros u; unfold ctrl; by rewrite Hc).
  split; try done.
  - by rewrite Hc.
  - intros j. unfold evaluate. destruct (decide (status (inst i s) = evaluated)) as [He|He].
    + by destruct (evaluationError (inst i s)).
    + assert (declaration (inst j (updateInst i (afterRun (body (declarationOf i s)))
                                     (logEvent (EvEvaluate i) s)))
              = declaration (inst j s)) as Hj
        by (etrans; [by apply (inst_updateInst_field declaration)|done]).
      by destruct (bodyThrows (body (declarationOf i s))).
  - intros u. by rewrite Hctrl.
  - intros u (j & Hcur & Hst & Herr & Hs). exists j. rewrite Hctrl.
    destruct (decide (j = i)) as [->|Hne]; [by rewrite (Hsame Hst)|by rewrite (Hother j Hne)].
Qed.

Lemma dispatchEvaluate_spec frs ns : ∀ s s',
  (∀ u i, current (ctrl u s) = Some i → i < length (instances s)) →
  dispatchEvaluate ns frs s = (Ok tt, s') →
  Evaluating s s' ∧ ∀ u, u ∈ ns → Settled s' u.
Proof.
  unfold dispatchEvaluate.
  induction ns as [|n ns IH]; intros s s' Hall H; simpl in H.
  { apply ret_Ok in H as [_ <-]. split; [apply Evaluating_refl|].
    intros u Hu. by apply elem_of_nil in Hu. }
  apply bind_Ok in H as ([] & s2 & Hn & H).
  apply bind_Ok in Hn as (cur & s0 & Hcur & Hn). apply select_Ok in Hcur as [Hcur ->].
  apply bind_Ok in Hn as (staged & s0 & Hst & Hn). apply gets_Ok in Hst as [<- <-].
  apply bind_Ok in Hn as ([] & s1 & H1 & Hn).
  unfold selectCurrent in Hcur.
  assert (Evaluating s s1 ∧ staging (ctrl n s1) ≠ Some cur) as [E1 Hns].
  { unfold optEqb in H1. destruct (bool_decide_reflect (Some cur = staging (ctrl n s))) as [Heq|Hne].
    - apply modify_Ok in H1 as <-. split; [apply Evaluating_unstage|].
      rewrite ctrl_updateCtrl_eq; [done|].
      apply elem_of_dom. by apply (ctrl_some_dom current _ _ cur).
    - apply ret_Ok in H1 as [_ <-]. split; [apply Evaluating_refl|]. congruence. }
  assert (cur < length (instances s1)) as Hlt.
  { rewrite (ev_length _ _ E1). by apply (Hall n). }
  pose proof (Evaluating_evaluate cur s1) as E2.
  destruct (evaluate_outcome cur s1 Hlt) as [Hev Herr].
  destruct (evaluate_frame cur s1) as (Hc2 & _).
  rewrite Hn in E2, Hev, Herr, Hc2. simpl in E2, Hev, Herr, Hc2.
  assert (Evaluating s s2) as E12 by (by apply (Evaluating_trans _ s1)).
  assert (Settled s2 n) as Hsn.
  { exists cur. rewrite (ev_current _ _ E12). split_and!; try done.
    unfold ctrl. rewrite Hc2. done. }
  destruct (IH s2 s') as [E3 Hrest]; [|done|].
  { intros u i Hi. rewrite (ev_length _ _ E12). apply (Hall u).
    by rewrite <- (ev_current _ _ E12). }
  split; [by apply (Evaluating_trans _ s2)|].
  intros u Hu. apply elem_of_cons in Hu as [->|Hu]; [|by apply Hrest].
  by apply (ev_settled _ _ E3).
Qed.

(** The second traversal of [dispatch], when it returns. *)
Lemma evaluateTraversal_spec this s s' :
  (∀ u i, current (ctrl u s) = Some i → i < length (instances s)) →
  traverseDepthFirst (fun node => iterate node selectCurrent) dispatchEvaluate this noCancel s
    = (Ok tt, s') →
  Evaluating s s' ∧ ∀ u, rtc (importsStatically s) this u → Settled s' u.
Proof.
  intros Hall H.
  set (Inv := λ (K : list (string * list string)) (_ dn : list string) st,
                Evaluating s st ∧ (∀ u, u ∈ dn → Settled st u)
                ∧ ∀ m cs, (m, cs) ∈ K → ∀ c, importsStatically s m c ↔ c ∈ cs).
  assert (∀ n K opened dn st,
    Inv K opened dn st → n ∉ opened → n ∉ dn → reached this K n →
    match iterate n selectCurrent st with
    | (Ok cs, s1) => n ∈ dom (controllers s) ∧ Inv ((n, cs) :: K) (n :: opened) dn s1
    | (Throw e, s1) => True
    end) as Hpre.
  { intros n K opened dn st (HE & Hdn & HK) _ _ _.
    destruct (iterate n selectCurrent st) as [[cs|e] s1] eqn:Hpre; [|done].
    apply iterate_current in Hpre as (-> & i & Hi & ->).
    split. { rewrite <- (ev_dom _ _ HE). by apply (ctrl_some_dom current _ _ i). }
    split; [done|]. split; [done|].
    intros m cs Hm c. apply elem_of_cons in Hm as [[= -> ->]|Hm]; [|by apply HK].
    rewrite (Evaluating_declarationOf _ _ _ HE). rewrite (ev_current _ _ HE) in Hi.
    unfold importsStatically. split.
    - intros (j & Hj & Hc). congruence.
    - intros Hc. eauto. }
  assert (∀ ns frs K opened dn st,
    Inv K (rev ns ++ opened) dn st → Forall (λ _ : unit, True) frs →
    match dispatchEvaluate ns frs st with
    | (Ok r, s1) => Inv K opened (ns ++ dn) s1 ∧ True
    | (Throw e, s1) => True
    end) as Hpost.
  { intros ns frs K opened dn st (HE & Hdn & HK) _.
    destruct (dispatchEvaluate ns frs st) as [[[]|e] s1] eqn:Hpost; [|done].
    apply dispatchEvaluate_spec in Hpost as [E1 Hns].
    - split; [|done]. split; [by apply (Evaluating_trans _ st)|]. split; [|done].
      intros u Hu. apply elem_of_app in Hu as [Hu|Hu]; [by apply Hns|].
      apply (ev_settled _ _ E1). by apply Hdn.
    - intros u i Hi. rewrite (ev_length _ _ HE). apply (Hall u).
      by rewrite <- (ev_current _ _ HE). }
  pose proof (traverseDepthFirst_rule (fun node => iterate node selectCurrent) dispatchEvaluate
                (dom (controllers s)) Inv (λ _, True) (λ _ _, True) this
                Hpre Hpost noCancel s) as Hrule.
  rewrite H in Hrule.
  destruct Hrule as (K & dn & (HE & Hdn & HK) & _ & Hroot & Hclosed & Hentry).
  { split; [apply Evaluating_refl|]. split; intros ? Hx; [by apply elem_of_nil in Hx|].
    intros Hx'. by apply elem_of_nil in Hx'. }
  { by rewrite size_dom. }
  split; [done|].
  assert (∀ x u, rtc (importsStatically s) x u → x ∈ dn → u ∈ dn) as Hreach.
  { intros x u Hr. induction Hr as [|x y z Hxy Hyz IH]; [done|]. intros Hx. apply IH.
    destruct (Hentry x Hx) as (cs & Hcs). destruct (Hclosed x cs Hcs) as [_ Hkids].
    apply Hkids. by apply (HK x cs Hcs). }
  intros u Hu. apply Hdn. by apply (Hreach this).
Qed.

(** X9. A dispatch of a root without a current instance that returns has
    evaluated the graph: the root and every controller that it imports
    statically, directly or through other controllers, has a current
    instance that ran to completion without an evaluation error, and that
    instance is no longer staged. *)
Theorem dispatch_evaluates_the_graph linkVerdict this s s' :
  Allocated s → current (ctrl this s) = None →
  dispatch linkVerdict this s = (Ok tt, s') →
  ∀ u, rtc (importsStatically s') this u → Settled s' u.
Proof.
  intros Ha Hc Hrun. rewrite (dispatch_eq _ _ _ Hc) in Hrun.
  apply bind_Ok in Hrun as ([] & sa & Hlink & Hrun).
  apply linkTraversal_Allocated in Hlink; [|done].
  apply evaluateTraversal_spec in Hrun as [HE Hall].
  - intros u Hu. apply Hall.
    eapply (rtc_congruence (λ x, x)); [|exact Hu].
    intros x y (i & Hi & Hy). exists i.
    rewrite <- (ev_current _ _ HE), <- (Evaluating_declarationOf _ _ _ HE). done.
  - intros u i Hi. apply (Hlink u). by left.
Qed.

(** ** The generator [traverse] returns *)

(** Every controller that [node] imports, directly or through other
    controllers, and [node] itself, has a current instance. *)
Definition Complete (s : State) (node : string) : Prop :=
  ∀ u, rtc (imports s) node u → is_Some (current (ctrl u s)).

Lemma Complete_Quiet s s' node : Quiet s s' → Complete s node → Complete s' node.
Proof.
  intros HQ HC u Hu. destruct HQ as (H1 & H2 & H3 & H4 & H5). rewrite H5. apply HC.
  eapply (rtc_congruence (λ x, x)); [|exact Hu].
  intros x y. by apply (imports_Quiet s s').
Qed.

Lemma Complete_child s node c : imports s node c → Complete s node → Complete s c.
Proof. intros Hi HC u Hu. apply HC. by eapply rtc_l. Qed.

Lemma Quiet_mark c tag s : Quiet s (updateCtrl c (withVisitIndex tag) s).
Proof.
  split_and!; try done; [apply dom_updateCtrl|]. intros u. by apply ctrl_updateCtrl_field.
Qed.

Section Total.

Variable tag : nat.
Variable onYield : string → M unit.
Hypothesis HonYield : quietYield onYield.
Hypothesis Hreturns : ∀ u s, fst (onYield u s) = Ok tt.

Lemma traverseChildren_total recurse fuel :
  (∀ node s l s', recurse node s = (Ok l, s') →
     is_Some (current (ctrl node s)) ∧ walkedFrom tag node s l s') →
  (∀ node s, size (unmarked tag s) + 2 ≤ fuel → Complete s node →
     ∃ l s', recurse node s = (Ok l, s')) →
  ∀ children s,
    size (unmarked tag s) + 2 ≤ S fuel → (∀ c, c ∈ children → Complete s c) →
    ∃ l s', traverseChildren recurse tag onYield children s = (Ok l, s').
Proof.
  intros Hrec Hfuel. induction children as [|c rest IH]; intros s Hs HC; simpl; [by eexists _, _|].
  unfold bind at 1. cbn [gets].
  destruct (Nat.eqb_spec (visitIndex (ctrl c s)) tag) as [Hseen|Hseen].
  { apply IH; [done|]. intros c' Hc'. apply HC. by right. }
  unfold bind at 1. cbn [modify]. set (sa := updateCtrl c (withVisitIndex tag) s).
  unfold bind at 1. destruct (HonYield c sa) as [Hq Hv]. pose proof (Hreturns c sa) as Hr.
  destruct (onYield c sa) as [[[]|e] sb] eqn:Hy; simpl in *; [|done].
  assert (Quiet s sb) as Hqs by (eapply Quiet_trans; [apply Quiet_mark|done]).
  assert (c ∈ dom (controllers s)) as Hin.
  { assert (Complete s c) as HCc by (apply HC; by left).
    destruct (HCc c) as [i Hi]; [apply rtc_refl|].
    by apply (ctrl_some_dom current _ _ i). }
  assert (dom (controllers sb) = dom (controllers s)) as Hdom by apply Hqs.
  assert (unmarked tag sb ⊂ unmarked tag s) as Hstrict.
  { split.
    - intros u. unfold unmarked. rewrite !elem_of_filter, Hdom, Hv. intros [Hu Hd].
      split; [|done]. intros Hm. apply Hu. subst sa.
      destruct (decide (c = u)) as [->|Hne]; [|by rewrite ctrl_updateCtrl_ne].
      rewrite ctrl_updateCtrl_eq; [done|]. by apply elem_of_dom.
    - intros Hback.
      assert (c ∈ unmarked tag s) as Hc by (unfold unmarked; by rewrite elem_of_filter).
      apply Hback in Hc. unfold unmarked in Hc. rewrite elem_of_filter, Hv in Hc.
      destruct Hc as [Hc _]. apply Hc. subst sa.
      rewrite ctrl_updateCtrl_eq; [done|]. by apply elem_of_dom. }
  apply subset_size in Hstrict.
  destruct (Hfuel c sb) as (below & sc & Hb); [lia| |].
  { apply (Complete_Quiet s); [done|]. apply HC. by left. }
  unfold bind at 1. rewrite Hb.
  destruct (Hrec c sb below sc Hb) as (_ & HW & _).
  pose proof (unmarked_Walked _ _ _ _ HW) as Hsub. apply subseteq_size in Hsub.
  destruct (IH sc) as (others & sd & Ho); [lia| |].
  { intros c' Hc'. apply (Complete_Quiet s); [|apply HC; by right].
    eapply Quiet_trans; [exact Hqs|apply HW]. }
  unfold bind. rewrite Ho. by eexists _, _.
Qed.

Lemma traverseFrom_total fuel : ∀ node s,
  size (unmarked tag s) + 2 ≤ fuel → Complete s node →
  ∃ l s', traverseFrom fuel tag onYield node s = (Ok l, s').
Proof.
  induction fuel as [|fuel IH]; intros node s Hs HC; [lia|]. simpl.
  destruct (HC node) as [i Hi]; [apply rtc_refl|].
  assert (iterateWithDynamics node selectCurrent selectCurrent s
          = (Ok (iterateDependencies i s), s)) as Hcs.
  { unfold iterateWithDynamics, iterate, bind, select, selectCurrent. rewrite Hi.
    cbn [gets]. rewrite Hi. done. }
  unfold bind at 1. rewrite Hcs.
  apply (traverseChildren_total (traverseFrom fuel tag onYield) fuel); [| |lia|].
  - intros n st l st' Hrun. by apply (traverseFrom_walked tag onYield HonYield fuel).
  - intros n st Hn HCn. by apply IH.
  - intros c Hc. apply (Complete_child s node); [|done]. by exists i.
Qed.

End Total.

(** X10. [traverse] over a graph in which the root and every controller it
    imports have a current instance returns; it yields, once each, exactly
    the controllers that the root imports, directly or through other
    controllers (the root itself only when it lies on an import cycle), and
    it writes nothing but visit indices. *)
Theorem traverse_enumerates_imports this s :
  Fresh s →
  (∀ u, rtc (imports s) this u → is_Some (current (ctrl u s))) →
  ∃ l s', traverse this (fun _ => ret tt) s = (Ok l, s')
    ∧ NoDup l
    ∧ (∀ u, u ∈ l ↔ tc (imports s) this u)
    ∧ instances s' = instances s ∧ declarations s' = declarations s
    ∧ events s' = events s
    ∧ (∀ u, ctrl u s' = withVisitIndex (visitIndex (ctrl u s')) (ctrl u s)).
Proof.
  intros Hfresh HC.
  assert (∃ l s', traverse this (fun _ => ret tt) s = (Ok l, s')) as (l & s' & Hrun).
  { unfold traverse, bind. cbn [acquireVisitIndex gets].
    apply (traverseFrom_total _ _ quietYield_ret); [done| |done].
    assert (size (unmarked (S (currentVisitIndex s))
                    (setCurrentVisitIndex (S (currentVisitIndex s)) s))
            ≤ size (controllers s)).
    { rewrite <- size_dom. apply subseteq_size. intros u. unfold unmarked.
      rewrite elem_of_filter. by intros [_ ?]. }
    simpl. lia. }
  exists l, s'. split; [done|].
  destruct (traverse_walked _ _ _ _ _ quietYield_ret Hfresh Hrun)
    as (Hnd & Hiff & _ & Hi & Hd & _ & Hcur & _).
  split_and!; try done.
  - assert (keeps (eventsExtend (λ _, false)) (traverse this (fun _ => ret tt))) as Hk.
    { apply (keeps_traverse (eventsExtend (λ _, false)));
        [intros; apply eventsExtend_writes|intros; apply (keeps_ret _)]. }
    specialize (Hk s). rewrite Hrun in Hk. destruct Hk as (evs & Hev & Hall).
    destruct evs; [by rewrite app_nil_r in Hev|done].
  - assert (∀ A (g : ReloadableModuleController → A),
              (∀ n c, g (withVisitIndex n c) = g c) → ∀ u, g (ctrl u s') = g (ctrl u s)) as Hfield.
    { intros A g Hg u.
      assert (keeps (sameField g (λ _, False)) (traverse this (fun _ => ret tt))) as Hk.
      { apply (keeps_traverse (sameField g (λ _, False)));
          [intros; by apply sameField_writes|intros; apply (keeps_ret _)]. }
      specialize (Hk s). rewrite Hrun in Hk. apply Hk. auto. }
    intros u.
    pose proof (Hfield _ current (λ _ _, eq_refl) u).
    pose proof (Hfield _ pending (λ _ _, eq_refl) u).
    pose proof (Hfield _ previous (λ _ _, eq_refl) u).
    pose proof (Hfield _ staging (λ _ _, eq_refl) u).
    pose proof (Hfield _ temporary (λ _ _, eq_refl) u).
    pose proof (Hfield _ fatalErrorOf (λ _ _, eq_refl) u).
    pose proof (Hfield _ version (λ _ _, eq_refl) u).
    destruct (ctrl u s'), (ctrl u s). unfold withVisitIndex. simpl in *. congruence.
Qed.

(** ** The unaccepted update *)

(** Nothing but visit indices was written. *)
Record OnlyMarks (s s' : State) : Prop := {
  om_instances : instances s' = instances s;
  om_declarations : declarations s' = declarations s;
  om_events : events s' = events s;
  om_frame : frame s' = frame s;
  om_dom : dom (controllers s') = dom (controllers s);
  om_ctrl : ∀ u, ctrl u s' = withVisitIndex (visitIndex (ctrl u s')) (ctrl u s);
}.

Lemma OnlyMarks_refl s : OnlyMarks s s.
Proof. split; try done. intros u. by destruct (ctrl u s). Qed.

Lemma OnlyMarks_trans a b c : OnlyMarks a b → OnlyMarks b c → OnlyMarks a c.
Proof.
  intros [H1 H2 H3 H4 H5 H6] [G1 G2 G3 G4 G5 G6].
  split; [congruence|congruence|congruence|congruence|congruence|].
  intros u. rewrite (G6 u) at 1. rewrite (H6 u). done.
Qed.

Lemma OnlyMarks_mark u tag s : OnlyMarks s (updateCtrl u (withVisitIndex tag) s).
Proof.
  split; try done; [apply dom_updateCtrl|]. intros v.
  destruct (decide (u = v)) as [->|Hne].
  - unfold ctrl, updateCtrl; simpl. rewrite lookup_alter_eq.
    by destruct (controllers s !! v) as [[]|].
  - rewrite ctrl_updateCtrl_ne by done. by destruct (ctrl v s).
Qed.

Lemma OnlyMarks_tag n s : OnlyMarks s (setCurrentVisitIndex n s).
Proof. split; try done. intros u. change (ctrl u (setCurrentVisitIndex n s)) with (ctrl u s). by destruct (ctrl u s). Qed.

Lemma OnlyMarks_current s s' u : OnlyMarks s s' → current (ctrl u s') = current (ctrl u s).
Proof. intros H. by rewrite (om_ctrl _ _ H u). Qed.

Lemma markInvalidated_total tag nodes s :
  ∃ seen s', markInvalidated tag nodes s = (Ok seen, s') ∧ OnlyMarks s s'.
Proof.
  revert s. induction nodes as [|n nodes IH]; intros s; simpl.
  { eexists _, _. split; [done|apply OnlyMarks_refl]. }
  unfold bind at 1. cbn [gets]. destruct (Nat.eqb _ _).
  { eexists _, _. split; [done|apply OnlyMarks_refl]. }
  unfold bind at 1. cbn [modify].
  destruct (IH (updateCtrl n (withVisitIndex tag) s)) as (seen & s' & Hrun & HM).
  exists seen, s'. split; [done|]. eapply OnlyMarks_trans; [apply OnlyMarks_mark|done].
Qed.

Lemma importedModulesOf_total nodes s :
  (∀ u, u ∈ nodes → is_Some (current (ctrl u s))) →
  ∃ imported, importedModulesOf nodes s = (Ok imported, s).
Proof.
  induction nodes as [|n nodes IH]; intros Hall; simpl; [by eexists|].
  destruct (Hall n) as [i Hi]; [by left|].
  destruct IH as (others & Ho); [intros u Hu; apply Hall; by right|].
  unfold bind at 1. unfold select, selectCurrent. rewrite Hi.
  unfold bind at 1. cbn [gets]. unfold bind. rewrite Ho. by eexists.
Qed.

Lemma invalidationChain_total tag : ∀ r s,
  (∀ r' u, inTree r' r → u ∈ drInvalidated r' → is_Some (current (ctrl u s))) →
  ∃ chain s', invalidationChain tag r s = (Ok chain, s') ∧ OnlyMarks s s'.
Proof.
  fix IH 1. intros [frs ds inv b1 b2 b3] s Hall. simpl.
  destruct (markInvalidated_total tag inv s) as (seen & s1 & Hm & HM1).
  unfold bind at 1. rewrite Hm. destruct seen; [by eexists _, _|].
  destruct (importedModulesOf_total inv s1) as (imported & Hi).
  { intros u Hu. rewrite (OnlyMarks_current _ _ _ HM1).
    apply (Hall (mkDryRunResult frs ds inv b1 b2 b3)); [apply inTree_here|done]. }
  unfold bind at 1. rewrite Hi. unfold bind at 1.
  match goal with |- context [?F frs s1] => set (each := F) end.
  assert (each [] = ret []) as Hnil by reflexivity.
  assert (∀ f rs, each (f :: rs)
            = (let* chains :=
                 (if Nat.ltb 0 (length (List.filter (fun c => mem c imported) (drInvalidated f)))
                  then invalidationChain tag f else ret []) in
               let* others := each rs in
               ret (chains ++ others))) as Hcons by reflexivity.
  clearbody each.
  assert (∀ rs st,
    (∀ f, f ∈ rs → f ∈ frs) → OnlyMarks s st →
    ∃ chains st', each rs st = (Ok chains, st') ∧ OnlyMarks s st') as Heach.
  { induction rs as [|f rs IHrs]; intros st Hsub HMst.
    { rewrite Hnil. by eexists _, _. }
    assert (∃ chains st1,
              (if Nat.ltb 0 (length (List.filter (fun c => mem c imported) (drInvalidated f)))
               then invalidationChain tag f else ret []) st = (Ok chains, st1)
              ∧ OnlyMarks s st1) as (chains & st1 & Hc & HM).
    { destruct (Nat.ltb _ _); [|by eexists _, _].
      destruct (IH f st) as (chains & st1 & Hc & HM).
      - intros r' u Hin Hu. rewrite (OnlyMarks_current _ _ _ HMst).
        apply (Hall r'); [|done]. eapply inTree_forward; [|exact Hin].
        simpl. apply Hsub. by left.
      - exists chains, st1. split; [done|]. by eapply OnlyMarks_trans. }
    destruct (IHrs st1) as (others & st2 & Ho & HM2); [intros g Hg; apply Hsub; by right|done|].
    rewrite Hcons. rewrite (bind_eq _ _ _ _ _ Hc), (bind_eq _ _ _ _ _ Ho). by eexists _, _. }
  destruct (Heach frs s1) as (chains & s2 & Hc & HM2); [done|done|].
  rewrite Hc. by eexists _, _.
Qed.

(** ** The results of [requestUpdate] *)

(** A result that is not of the [UpdateSuccess] shape, or the one that the
    last statement of [requestUpdate] builds. *)
Definition successAtEnd (r : UpdateResult) (s' : State) : Prop :=
  match r with
  | Some (UpdateSuccess type st) => type = success ∧ st = stats s'
  | _ => True
  end.

Lemma commitAndFinalize_successAtEnd linkVerdict this previousControllers s :
  match commitAndFinalize linkVerdict this previousControllers s with
  | (Ok r, s') => successAtEnd r s'
  | (Throw _, _) => True
  end.
Proof.
  unfold commitAndFinalize.
  assert (match tryCatch (commit linkVerdict this) (commitCatch linkVerdict this) s with
          | (Ok (Some r), _) => ∀ type st, r ≠ Some (UpdateSuccess type st)
          | _ => True
          end) as H1.
  { unfold tryCatch. pose proof (commit_returns linkVerdict this s) as Hc.
    destruct (commit linkVerdict this s) as [[[r|]|e] s1]; [by subst r|done|].
    unfold commitCatch, bind. destruct (recover linkVerdict this s1) as [[[]|e'] s2]; [|done].
    cbn [gets]. by destruct (dispatchLinkErrorType (frame s2)). }
  destruct (tryCatch _ _ s) as [completion s1].
  pose proof (finalize_kind this previousControllers s1) as H2.
  destruct (finalize this previousControllers s1) as [[[r|]|e] s2]; [| |done].
  - by destruct H2 as [f ->].
  - destruct completion as [[r|]|e]; [|done|done].
    destruct r as [[t st| | | | |]|]; try done. by destruct (H1 t st).
Qed.

Lemma invalidationChain_singleton tag r s :
  match invalidationChain tag r s with
  | (Ok chain, _) => ∃ next, chain = [mkChain (drInvalidated r) next]
  | (Throw _, _) => True
  end.
Proof.
  destruct r as [frs ds inv b1 b2 b3]. simpl. unfold bind at 1.
  destruct (markInvalidated tag inv s) as [[[|]|e] s1]; [by eexists| |done].
  unfold bind at 1. destruct (importedModulesOf inv s1) as [[imported|e] s2]; [|done].
  unfold bind at 1.
  match goal with |- context [?f frs s2] => destruct (f frs s2) as [[chains|e] s3] end;
    [by eexists|done].
Qed.

(** X11. The results that [requestUpdate] returns: a result with [stats]
    and no error always has the type [success], never [unacceptedEvaluation],
    and its [stats] are the final counters of the call; a [fatalError]
    result is the object stored in the controller; the chain of an
    [unaccepted] result has one root, the invalidated members of the
    component of the root module. *)
Theorem requestUpdate_result_kinds linkVerdict this s r s' :
  requestUpdate linkVerdict this s = (Ok r, s') →
  (∀ type st, r = Some (UpdateSuccess type st) → type = success ∧ st = stats s')
  ∧ (∀ f, r = Some (UpdateFatal f) → fatalErrorOf (ctrl this s') = Some f)
  ∧ (∀ chain, r = Some (UpdateUnaccepted chain) →
       ∃ initialResult s1 next,
         dryRun this (setFrame (λ _, newFrame) s) = (Ok initialResult, s1)
         ∧ drInvalidated initialResult ≠ []
         ∧ chain = [mkChain (drInvalidated initialResult) next]).
Proof.
  intros Hrun. split_and!.
  - revert Hrun. unfold requestUpdate. unfold bind at 1. cbn [gets].
    destruct (fatalErrorOf (ctrl this s)) as [f|]; [by intros [= <- <-]|].
    unfold bind at 1. cbn [modify]. unfold bind at 1.
    destruct (dryRun this _) as [[initialResult|e] s1]; [|done].
    destruct (negb _).
    { unfold bind. destruct (rollback s1) as [[[]|?] ?]; [|done]. by intros [= <- <-]. }
    destruct (drHasDecline _).
    { unfold bind. destruct (rollback s1) as [[[]|?] ?]; [|done]. by intros [= <- <-]. }
    destruct (Nat.ltb _ _).
    { unfold bind. destruct (acquireVisitIndex s1) as [[tag|?] s2]; [|done].
      destruct (invalidationChain tag initialResult s2) as [[chain|?] s3]; [|done].
      destruct (rollback s3) as [[[]|?] ?]; [|done]. by intros [= <- <-]. }
    unfold bind at 1.
    pose proof (linkTest_returns linkVerdict this s1) as Hlt.
    destruct ((if drHasNewCode initialResult then linkTest linkVerdict this else ret None) s1)
      as [[[res|]|e] s2] eqn:Htest; [| |done].
    { destruct (drHasNewCode initialResult); [|done]. rewrite Htest in Hlt.
      destruct Hlt as [error ->]. by intros [= <- <-]. }
    unfold bind at 1. destruct (traverse this _ s2) as [[previousControllers|e] s3]; [|done].
    intros Hcf type st ->.
    pose proof (commitAndFinalize_successAtEnd linkVerdict this previousControllers s3) as H.
    by rewrite Hcf in H.
  - pose proof (requestUpdate_stored linkVerdict this s) as H. by rewrite Hrun in H.
  - revert Hrun. unfold requestUpdate. unfold bind at 1. cbn [gets].
    destruct (fatalErrorOf (ctrl this s)) as [f|]; [by intros [= <- <-]|].
    unfold bind at 1. cbn [modify]. unfold bind at 1.
    destruct (dryRun this _) as [[initialResult|e] s1]; [|done].
    destruct (negb _).
    { unfold bind. destruct (rollback s1) as [[[]|?] ?]; [|done]. by intros [= <- <-]. }
    destruct (drHasDecline _).
    { unfold bind. destruct (rollback s1) as [[[]|?] ?]; [|done]. by intros [= <- <-]. }
    destruct (Nat.ltb _ _) eqn:Hlen.
    { unfold bind. destruct (acquireVisitIndex s1) as [[tag|?] s2]; [|done].
      pose proof (invalidationChain_singleton tag initialResult s2) as Hch.
      destruct (invalidationChain tag initialResult s2) as [[chain|?] s3]; [|done].
      destruct Hch as [next ->].
      destruct (rollback s3) as [[[]|?] ?]; [|done]. intros [= <- <-] chain [= <-].
      exists initialResult, s1, next. split; [done|]. split; [|done].
      apply Nat.ltb_lt in Hlen. intros Hnil. rewrite Hnil in Hlen. simpl in Hlen. lia. }
    unfold bind at 1.
    pose proof (linkTest_returns linkVerdict this s1) as Hlt.
    destruct ((if drHasNewCode initialResult then linkTest linkVerdict this else ret None) s1)
      as [[[res|]|e] s2] eqn:Htest; [| |done].
    { destruct (drHasNewCode initialResult); [|done]. rewrite Htest in Hlt.
      destruct Hlt as [error ->]. by intros [= <- <-]. }
    unfold bind at 1. destruct (traverse this _ s2) as [[previousControllers|e] s3]; [|done].
    intros Hcf chain ->.
    pose proof (commitAndFinalize_kind linkVerdict this previousControllers s3) as H.
    by rewrite Hcf in H.
Qed.

(** X12. The unaccepted update, lines 493-541: when the dry run returns a
    result that needs a dispatch, has no decline and has invalidated members
    at the root, and the invalidated members of every component have a
    current instance, [requestUpdate] returns [unaccepted] with a chain
    whose one root lists the invalidated members of the root component; the
    dry run is rolled back ([pending] and [previous] are cleared on every
    controller it visited), no instance, declaration or other slot has
    changed, and no callback has run. *)
Theorem unaccepted_update_is_rolled_back linkVerdict this s r s1 :
  fatalErrorOf (ctrl this s) = None →
  dryRun this (setFrame (λ _, newFrame) s) = (Ok r, s1) →
  drNeedsDispatch r = true → drHasDecline r = false → drInvalidated r ≠ [] →
  (∀ r' u, inTree r' r → u ∈ drInvalidated r' → is_Some (current (ctrl u s))) →
  ∃ next s',
    requestUpdate linkVerdict this s
      = (Ok (Some (UpdateUnaccepted [mkChain (drInvalidated r) next])), s')
    ∧ events s' = events s ∧ instances s' = instances s
    ∧ declarations s' = declarations s
    ∧ (∀ u, current (ctrl u s') = current (ctrl u s)
            ∧ staging (ctrl u s') = staging (ctrl u s)
            ∧ temporary (ctrl u s') = temporary (ctrl u s)
            ∧ fatalErrorOf (ctrl u s') = fatalErrorOf (ctrl u s)
            ∧ version (ctrl u s') = version (ctrl u s))
    ∧ this ∈ nextControllers (frame s')
    ∧ (∀ u, u ∈ nextControllers (frame s') →
            pending (ctrl u s') = None ∧ previous (ctrl u s') = None)
    ∧ (∀ u, u ∉ nextControllers (frame s') →
            pending (ctrl u s') = pending (ctrl u s)
            ∧ previous (ctrl u s') = previous (ctrl u s)).
Proof.
  intros Hf Hdry Hneeds Hdecl Hinv Hcur.
  rewrite (requestUpdate_after_dryRun linkVerdict this s r s1 Hf Hdry), Hneeds, Hdecl.
  assert (Nat.ltb 0 (length (drInvalidated r)) = true) as ->.
  { apply Nat.ltb_lt. destruct (drInvalidated r); [done|simpl; lia]. }
  cbn [negb].
  destruct (dryRun_spec _ _ _ _ Hdry) as (dn & HI & _ & Hroot).
  set (s0 := setFrame (λ _, newFrame) s) in *.
  set (s2 := setCurrentVisitIndex (S (currentVisitIndex s1)) s1).
  destruct (invalidationChain_total (S (currentVisitIndex s1)) r s2) as (chain & s3 & Hch & HM).
  { intros r' u Hin Hu. change (ctrl u s2) with (ctrl u s1).
    destruct (dry_slots _ _ _ _ HI u) as (-> & _). by apply (Hcur r'). }
  pose proof (invalidationChain_singleton (S (currentVisitIndex s1)) r s2) as Hone.
  rewrite Hch in Hone. destruct Hone as [next ->].
  destruct (clearPendingPrevious_spec (nextControllers (frame s3)) s3)
    as (s' & Hrun & Hi & Hd & He & Hfr & Ht & Hdom & Hs & Hun & Hcl).
  exists next, s'. split.
  { unfold bind at 1. cbn [acquireVisitIndex]. fold s2.
    unfold bind at 1. rewrite Hch. unfold bind at 1. unfold rollback, bind at 1. cbn [gets].
    by rewrite Hrun. }
  assert (frame s3 = frame s1) as Hf3 by (by rewrite (om_frame _ _ HM)).
  assert (∀ u, u ∈ nextControllers (frame s') ↔ u ∈ dn) as Hnext.
  { intros u. rewrite Hfr, Hf3, (dry_next _ _ _ _ HI u). simpl. split; [|auto].
    intros [Hu|]; [|done]. by apply elem_of_nil in Hu. }
  assert (∀ A (g : ReloadableModuleController → A),
            (∀ n c, g (withVisitIndex n c) = g c) →
            ∀ u, g (ctrl u s3) = g (ctrl u s1)) as Hfield.
  { intros A g Hg u. rewrite (om_ctrl _ _ HM u). rewrite Hg. done. }
  split_and!.
  - rewrite He, (om_events _ _ HM). apply HI.
  - rewrite Hi, (om_instances _ _ HM). apply HI.
  - rewrite Hd, (om_declarations _ _ HM). apply HI.
  - intros u. destruct (Hs u) as (E1 & E2 & E3 & E4 & _ & E6).
    destruct (dry_slots _ _ _ _ HI u) as (F1 & F2 & F3 & F4 & _ & F6).
    rewrite E1, E2, E3, E4, E6.
    rewrite (Hfield _ current), (Hfield _ staging), (Hfield _ temporary),
      (Hfield _ fatalErrorOf), (Hfield _ version) by done.
    rewrite F1, F2, F3, F4, F6. done.
  - by apply Hnext.
  - intros u Hu. apply Hcl; [by rewrite <- Hfr|].
    rewrite (om_dom _ _ HM). change (dom (controllers s2)) with (dom (controllers s1)).
    rewrite (dry_dom _ _ _ _ HI). apply (dry_marked _ _ _ _ HI u). right. by apply Hnext.
  - intros u Hu. rewrite (Hun u) by (by rewrite <- Hfr).
    rewrite (Hfield _ pending), (Hfield _ previous) by done.
    rewrite (dry_untouched _ _ _ _ HI u); [done|apply not_elem_of_nil|]. by rewrite <- Hnext.
Qed.

(** ** The post-visit of phase 3 *)

Lemma anyNewCode_unchanged ns s :
  (∀ n, n ∈ ns → staging (ctrl n s) = None
                 ∧ ∃ i, current (ctrl n s) = Some i ∧ isInvalidated i s = false) →
  anyNewCode ns s = (Ok false, s).
Proof.
  induction ns as [|n ns IH]; intros Hall; simpl; [done|].
  destruct (Hall n) as (Hs & i & Hc & Hi); [by left|].
  unfold bind at 1. cbn [gets]. rewrite Hs. cbn [isSome].
  unfold bind at 1. unfold select, selectCurrent. rewrite Hc.
  unfold bind at 1. cbn [gets]. rewrite Hi. apply IH. intros m Hm. apply Hall. by right.
Qed.

Lemma clearPendingOf_settled ns : ∀ s,
  NoDup ns →
  (∀ n, n ∈ ns → n ∈ dom (controllers s) ∧ current (ctrl n s) = pending (ctrl n s)) →
  ∃ s', forEach ns (fun node =>
          let* c := gets (ctrl node) in
          let* _ := assert_ok (optEqb (current c) (pending c)) in
          modify (updateCtrl node (withPending None))) s = (Ok tt, s')
    ∧ events s' = events s ∧ instances s' = instances s
    ∧ declarations s' = declarations s ∧ frame s' = frame s
    ∧ ∀ u, ctrl u s' = if decide (u ∈ ns) then withPending None (ctrl u s) else ctrl u s.
Proof.
  induction ns as [|n ns IH]; intros s Hnd Hall; simpl.
  { exists s. split_and!; try done. }
  inversion Hnd as [|? ? Hnotin Hnd']; subst.
  destruct (Hall n) as [Hdom Heq]; [by left|].
  unfold bind at 1. unfold bind at 1. cbn [gets]. unfold bind at 1.
  rewrite Heq, optEqb_refl. cbn [assert_ok ret modify].
  destruct (IH (updateCtrl n (withPending None) s) Hnd') as (s' & Hrun & He & Hi & Hd & Hf & Hc).
  { intros m Hm. rewrite dom_updateCtrl. rewrite ctrl_updateCtrl_ne by (intros ->; done).
    apply Hall. by right. }
  exists s'. split; [done|]. split_and!; try done.
  intros u. rewrite Hc. destruct (decide (u = n)) as [->|Hne].
  - rewrite decide_False by done. rewrite decide_True by (by left).
    rewrite ctrl_updateCtrl_eq; [done|]. by apply elem_of_dom.
  - rewrite ctrl_updateCtrl_ne by done.
    destruct (decide (u ∈ ns)) as [Hin|Hin].
    + rewrite decide_True; [done|by right].
    + rewrite decide_False; [done|]. rewrite not_elem_of_cons. done.
Qed.

(** X13. A component without new code below an unchanged tree is skipped
    by phase 3, lines 618-645: when no member is staged or invalidated, every
    member's [pending] is its current instance and no successor component
    was updated, the post-visit only clears [pending] on the members; it
    reports no update, runs no callback and replaces no instance. *)
Theorem unchanged_component_is_skipped linkVerdict cycleNodes forwardResults s :
  NoDup cycleNodes →
  (∀ n, n ∈ cycleNodes →
        n ∈ dom (controllers s) ∧ staging (ctrl n s) = None
        ∧ ∃ i, current (ctrl n s) = Some i ∧ pending (ctrl n s) = Some i
               ∧ isInvalidated i s = false) →
  existsb rrTreeDidUpdate forwardResults = false →
  ∃ s', commitPost linkVerdict cycleNodes forwardResults s
          = (Ok (mkRunResult forwardResults [] false), s')
    ∧ events s' = events s ∧ instances s' = instances s
    ∧ declarations s' = declarations s ∧ frame s' = frame s
    ∧ ∀ u, ctrl u s' = if decide (u ∈ cycleNodes)
                       then withPending None (ctrl u s) else ctrl u s.
Proof.
  intros Hnd Hall Hfw.
  destruct (clearPendingOf_settled cycleNodes s Hnd) as (s' & Hrun & Hrest).
  { intros n Hn. destruct (Hall n Hn) as (Hd & _ & i & Hc & Hp & _). split; [done|congruence]. }
  exists s'. split; [|done].
  assert (anyNewCode cycleNodes s = (Ok false, s)) as Hnew.
  { apply anyNewCode_unchanged. intros n Hn.
    destruct (Hall n Hn) as (_ & Hs & i & Hc & _ & Hi). eauto. }
  unfold commitPost. rewrite (bind_eq _ _ _ _ _ Hnew).
  rewrite Hfw. cbn [andb]. unfold bind at 1. cbn [ret negb].
  by rewrite (bind_eq _ _ _ _ _ Hrun).
Qed.

(** X14. The replacement of an instance in phase 3, lines 648-666, for a
    controller with a current and a pending instance.  When [dispose] of the
    current instance returns, the controller gets a current instance that
    is not the one that was disposed: the pending instance, or a new clone
    of it when the pending instance is the current one; that instance has
    the declaration of the pending instance and is instantiated with the
    data that [dispose] handed over.  When the dispose handler throws, the
    error propagates, the update is marked as fatal and the controller keeps
    its current instance. *)
Theorem replaceInstance_installs_pending node s p c :
  node ∈ dom (controllers s) →
  pending (ctrl node s) = Some p → current (ctrl node s) = Some c →
  p < length (instances s) → c < length (instances s) →
  let hot := iHot (inst c s) in
  let i := if decide (p = c) then length (instances s) else p in
  ((∀ e, hDispose hot ≠ CbThrows e) →
     ∃ s', replaceInstance node s = (Ok tt, s')
       ∧ current (ctrl node s') = Some i ∧ i ≠ c
       ∧ declaration (inst i s') = declaration (inst p s)
       ∧ status (inst i s') = instantiated
       ∧ iData (inst i s') = Some (hData hot)
       ∧ events s' = events s ++ [EvDispose c; EvInstantiate i]
       ∧ pending (ctrl node s') = Some p
       ∧ previous (ctrl node s') = previous (ctrl node s)
       ∧ ∀ u, u ≠ node → ctrl u s' = ctrl u s)
  ∧ (∀ e, hDispose hot = CbThrows e →
     ∃ s', replaceInstance node s = (Throw e, s')
       ∧ dispatchLinkErrorType (frame s') = Some fatalError
       ∧ controllers s' = controllers s ∧ instances s' = instances s
       ∧ events s' = events s ++ [EvDispose c]).
Proof.
  intros Hdom Hp Hc Hplt Hclt hot i. split.
  - intros Hok. unfold replaceInstance.
    unfold bind at 1. unfold select, selectPending. rewrite Hp.
    unfold bind at 1. cbn [gets]. rewrite Hc.
    assert (∃ sd, tryCatch (dispose c)
              (fun error =>
                 let* _ := modify (setFrame (setDispatchLinkErrorType (Some fatalError))) in
                 throw error) s = (Ok (Some (hData hot)), sd)
            ∧ controllers sd = controllers s ∧ events sd = events s ++ [EvDispose c]
            ∧ length (instances sd) = length (instances s)
            ∧ (∀ j, declaration (inst j sd) = declaration (inst j s))) as (sd & Hd & Hcs & Hev & Hlen & Hdecl).
    { unfold tryCatch, dispose, bind. cbn [modify gets].
      change (iHot (inst c (logEvent (EvDispose c) s))) with hot.
      destruct (hDispose hot) as [|e|] eqn:Hh.
      - eexists. split; [reflexivity|]. done.
      - by destruct (Hok e).
      - eexists. split; [reflexivity|]. simpl. split_and!; try done.
        + by rewrite length_alter.
        + intros j. etrans; [by apply (inst_updateInst_field declaration)|done]. }
    unfold bind at 1. rewrite Hd.
    assert (ctrl node sd = ctrl node s) as Hn by (unfold ctrl; by rewrite Hcs).
    assert (is_Some (controllers sd !! node)) as Hsome
      by (rewrite Hcs; by apply elem_of_dom).
    unfold bind at 1. cbn [gets]. rewrite Hn, Hc.
    set (data := Some (hData hot)).
    set (mark := fun x => withData data (withStatus instantiated x)).
    unfold optEqb. subst i. destruct (decide (p = c)) as [->|Hne].
    + rewrite bool_decide_eq_true_2 by done.
      set (copy := length (instances sd)).
      set (sc := setInstances
                   (fun l => l ++ [newInstance (iController (inst c sd)) (declaration (inst c sd))])
                   sd).
      set (s1 := updateCtrl node (withCurrent (Some copy)) sc).
      assert (current (ctrl node s1) = Some copy) as Hcur.
      { subst s1. by rewrite ctrl_updateCtrl_eq. }
      exists (logEvent (EvInstantiate copy) (updateInst copy mark s1)). split.
      { unfold bind at 1. unfold bind at 1. unfold clone, constructInstance. fold copy sc.
        cbn [modify]. fold s1. unfold bind, select, selectCurrent. rewrite Hcur. done. }
      assert (inst copy (updateInst copy mark s1)
              = mark (newInstance (iController (inst c sd)) (declaration (inst c sd)))) as Hinst.
      { unfold inst, updateInst. simpl. rewrite list_lookup_alter_eq.
        unfold copy. by rewrite list_lookup_middle. }
      rewrite <- Hlen. fold copy.
      change (inst copy (logEvent (EvInstantiate copy) (updateInst copy mark s1)))
        with (inst copy (updateInst copy mark s1)).
      rewrite Hinst. split_and!; try done.
      * unfold copy. lia.
      * simpl. apply Hdecl.
      * change (events sd ++ [EvInstantiate copy] = events s ++ [EvDispose c; EvInstantiate copy]).
        rewrite Hev, <- app_assoc. done.
      * change (pending (ctrl node s1) = Some c). subst s1.
        rewrite (ctrl_updateCtrl_field pending) by done.
        change (ctrl node sc) with (ctrl node sd). by rewrite Hn.
      * change (previous (ctrl node s1) = previous (ctrl node s)). subst s1.
        rewrite (ctrl_updateCtrl_field previous) by done.
        change (ctrl node sc) with (ctrl node sd). by rewrite Hn.
      * intros u Hu. change (ctrl u s1 = ctrl u s). subst s1.
        rewrite ctrl_updateCtrl_ne by done. unfold ctrl. simpl. by rewrite Hcs.
    + rewrite bool_decide_eq_false_2 by congruence.
      set (s1 := updateCtrl node (withCurrent (Some p)) sd).
      assert (current (ctrl node s1) = Some p) as Hcur.
      { subst s1. by rewrite ctrl_updateCtrl_eq. }
      exists (logEvent (EvInstantiate p) (updateInst p mark s1)). split.
      { unfold bind at 1. cbn [modify]. fold s1. unfold bind, select, selectCurrent.
        rewrite Hcur. done. }
      assert (inst p (updateInst p mark s1) = mark (inst p sd)) as Hinst.
      { apply (inst_updateInst_eq p mark s1). simpl. lia. }
      change (inst p (logEvent (EvInstantiate p) (updateInst p mark s1)))
        with (inst p (updateInst p mark s1)).
      rewrite Hinst. split_and!; try done.
      * simpl. apply Hdecl.
      * change (events sd ++ [EvInstantiate p] = events s ++ [EvDispose c; EvInstantiate p]).
        rewrite Hev, <- app_assoc. done.
      * change (pending (ctrl node s1) = Some p). subst s1.
        rewrite (ctrl_updateCtrl_field pending) by done. by rewrite Hn.
      * change (previous (ctrl node s1) = previous (ctrl node s)). subst s1.
        rewrite (ctrl_updateCtrl_field previous) by done. by rewrite Hn.
      * intros u Hu. change (ctrl u s1 = ctrl u s). subst s1.
        rewrite ctrl_updateCtrl_ne by done. unfold ctrl. by rewrite Hcs.
  - intros e He. unfold replaceInstance.
    unfold bind at 1. unfold select, selectPending. rewrite Hp.
    unfold bind at 1. cbn [gets]. rewrite Hc.
    unfold bind at 1. unfold tryCatch, dispose. unfold bind at 1. cbn [modify].
    unfold bind at 1. cbn [gets].
    change (iHot (inst c (logEvent (EvDispose c) s))) with hot. rewrite He.
    eexists. split; [reflexivity|]. done.
Qed.

(** ** The properties above, on the graphs of the tests *)

(** A root and its import, loaded and not yet dispatched. *)
Definition loadedGraph : State :=
  runScript [OpAcquire "main"; OpAcquire "child";
             OpSource "child" (bodyWith ["counter"] noHot) [];
             OpSource "main" (bodyWith [] (accepting CbOk)) [importing "child" ["counter"]]].

Lemma reachable_in_closed (R : string → string → Prop) (G : gset string) this :
  this ∈ G → (∀ u c, u ∈ G → R u c → c ∈ G) → ∀ u, rtc R this u → u ∈ G.
Proof. intros Hroot Hclosed u Hu. induction Hu as [|x y z Hxy _ IH]; eauto. Qed.

Lemma dispatch_is_idempotent_witness :
  let s := loadedGraph in
  let s' := snd (dispatch directVerdict "main" s) in
  dispatch directVerdict "main" s = (Ok tt, s')
  ∧ is_Some (current (ctrl "main" s'))
  ∧ dispatch directVerdict "main" s' = (Ok tt, s').
Proof.
  intros s s'.
  assert (dispatch directVerdict "main" s = (Ok tt, s')) as H by (vm_compute; reflexivity).
  split; [exact H|]. exact (dispatch_is_idempotent directVerdict "main" s s' H).
Defined.

Lemma dispatch_evaluates_the_graph_witness :
  let s := loadedGraph in
  let s' := snd (dispatch directVerdict "main" s) in
  Allocated s
  ∧ current (ctrl "main" s) = None
  ∧ dispatch directVerdict "main" s = (Ok tt, s')
  ∧ ∀ u, rtc (importsStatically s') "main" u → Settled s' u.
Proof.
  intros s s'.
  assert (Allocated s) as Ha.
  { apply Allocated_intro. apply (bool_decide_unpack _). vm_compute. exact I. }
  assert (current (ctrl "main" s) = None) as Hc by (vm_compute; reflexivity).
  assert (dispatch directVerdict "main" s = (Ok tt, s')) as H by (vm_compute; reflexivity).
  split; [exact Ha|]. split; [exact Hc|]. split; [exact H|].
  exact (dispatch_evaluates_the_graph directVerdict "main" s s' Ha Hc H).
Defined.

Lemma traverse_enumerates_imports_witness :
  let s := unchangedGraph in
  Fresh s
  ∧ (∀ u, rtc (imports s) "main" u → is_Some (current (ctrl u s)))
  ∧ ∃ l s', traverse "main" (fun _ => ret tt) s = (Ok l, s')
      ∧ NoDup l ∧ (∀ u, u ∈ l ↔ tc (imports s) "main" u).
Proof.
  intros s.
  assert (Fresh s) as Hfresh.
  { apply Fresh_intro. apply (bool_decide_unpack _). vm_compute. exact I. }
  set (G := ({[ "main"; "child" ]} : gset string)).
  assert ("main" ∈ G) as Hroot by (apply elem_of_union; left; apply elem_of_singleton; reflexivity).
  assert ("child" ∈ G) as Hchild by (apply elem_of_union; right; apply elem_of_singleton; reflexivity).
  assert (current (ctrl "main" s) = Some 1) as Hm by (vm_compute; reflexivity).
  assert (current (ctrl "child" s) = Some 0) as Hk by (vm_compute; reflexivity).
  assert (iterateDependencies 1 s = ["child"]) as Hdm by (vm_compute; reflexivity).
  assert (iterateDependencies 0 s = []) as Hdk by (vm_compute; reflexivity).
  assert (∀ u c, u ∈ G → imports s u c → c ∈ G) as Hclosed.
  { intros u c Hu (i & Hi & Hc).
    apply elem_of_union in Hu as [Hu|Hu]; apply elem_of_singleton in Hu; subst u.
    - rewrite Hm in Hi. injection Hi as <-. rewrite Hdm in Hc.
      apply list_elem_of_singleton in Hc. subst c. exact Hchild.
    - rewrite Hk in Hi. injection Hi as <-. rewrite Hdk in Hc.
      apply elem_of_nil in Hc. destruct Hc. }
  assert (∀ u, rtc (imports s) "main" u → is_Some (current (ctrl u s))) as Hall.
  { intros u Hu. apply (reachable_in_closed _ G "main" Hroot Hclosed) in Hu.
    apply elem_of_union in Hu as [Hu|Hu]; apply elem_of_singleton in Hu; subst u.
    - rewrite Hm. eexists. reflexivity.
    - rewrite Hk. eexists. reflexivity. }
  split; [exact Hfresh|]. split; [exact Hall|].
  destruct (traverse_enumerates_imports "main" s Hfresh Hall) as (l & s' & Hrun & Hnd & Hiff & _).
  exists l, s'. split; [exact Hrun|]. split; [exact Hnd|exact Hiff].
Defined.

Lemma unaccepted_update_is_rolled_back_witness :
  let s := unacceptedTest in
  let leaf := mkDryRunResult [] [] ["child"] false true true in
  let r := mkDryRunResult [leaf] [] ["main"] false true true in
  fatalErrorOf (ctrl "main" s) = None
  ∧ fst (dryRun "main" (setFrame (fun _ => newFrame) s)) = Ok r
  ∧ (∀ r' u, inTree r' r → u ∈ drInvalidated r' → is_Some (current (ctrl u s)))
  ∧ ∃ next s',
      requestUpdate directVerdict "main" s
        = (Ok (Some (UpdateUnaccepted [mkChain ["main"] next])), s')
      ∧ events s' = events s
      ∧ ∀ u, u ∈ nextControllers (frame s') →
             pending (ctrl u s') = None ∧ previous (ctrl u s') = None.
Proof.
  intros s leaf r.
  assert (fatalErrorOf (ctrl "main" s) = None) as Hf by (vm_compute; reflexivity).
  assert (dryRun "main" (setFrame (fun _ => newFrame) s)
          = (Ok r, snd (dryRun "main" (setFrame (fun _ => newFrame) s)))) as Hd
    by (vm_compute; reflexivity).
  assert (current (ctrl "main" s) = Some 1) as Hm by (vm_compute; reflexivity).
  assert (current (ctrl "child" s) = Some 0) as Hk by (vm_compute; reflexivity).
  assert (∀ r' u, inTree r' r → u ∈ drInvalidated r' → is_Some (current (ctrl u s))) as Hall.
  { intros r' u Hin Hu.
    assert (u = "main" ∨ u = "child") as [->| ->].
    { apply inTree_inv in Hin as [->|(f & Hf' & Hin)].
      - left. apply list_elem_of_singleton in Hu. exact Hu.
      - apply list_elem_of_singleton in Hf'. subst f.
        apply inTree_inv in Hin as [->|(f & Hf' & _)].
        + right. apply list_elem_of_singleton in Hu. exact Hu.
        + apply elem_of_nil in Hf'. destruct Hf'. }
    - rewrite Hm. eexists. reflexivity.
    - rewrite Hk. eexists. reflexivity. }
  split; [exact Hf|]. split; [rewrite Hd; reflexivity|]. split; [exact Hall|].
  destruct (unaccepted_update_is_rolled_back directVerdict "main" s r _ Hf Hd
              eq_refl eq_refl ltac:(discriminate) Hall)
    as (next & s' & Hrun & Hev & _ & _ & _ & _ & Hcl & _).
  exists next, s'. split; [exact Hrun|]. split; [exact Hev|exact Hcl].
Defined.

Lemma requestUpdate_result_kinds_witness :
  let s := simpleTest in
  let r := Some (UpdateSuccess success {| loads := 1; reevaluations := 1 |}) in
  let s' := snd (requestUpdate directVerdict "main" s) in
  requestUpdate directVerdict "main" s = (Ok r, s')
  ∧ (∀ type st, r = Some (UpdateSuccess type st) → type = success ∧ st = stats s')
  ∧ (∀ f, r = Some (UpdateFatal f) → fatalErrorOf (ctrl "main" s') = Some f).
Proof.
  intros s r s'.
  assert (requestUpdate directVerdict "main" s = (Ok r, s')) as H by (vm_compute; reflexivity).
  split; [exact H|].
  destruct (requestUpdate_result_kinds directVerdict "main" s r s' H) as (H1 & H2 & _).
  split; [exact H1|exact H2].
Defined.

(** The store after the dry run of an update. *)
Definition afterDryRun (this : string) (s : State) : State :=
  snd (dryRun this (setFrame (fun _ => newFrame) s)).

Lemma unchanged_component_is_skipped_witness :
  let s := afterDryRun "main" unchangedGraph in
  NoDup ["child"]
  ∧ (∀ n, n ∈ ["child"] →
          n ∈ dom (controllers s) ∧ staging (ctrl n s) = None
          ∧ ∃ i, current (ctrl n s) = Some i ∧ pending (ctrl n s) = Some i
                 ∧ isInvalidated i s = false)
  ∧ ∃ s', commitPost directVerdict ["child"] [] s = (Ok (mkRunResult [] [] false), s')
      ∧ events s' = events s ∧ pending (ctrl "child" s') = None.
Proof.
  intros s.
  assert (NoDup ["child"]) as Hnd by apply NoDup_singleton.
  assert (∀ n, n ∈ ["child"] →
            n ∈ dom (controllers s) ∧ staging (ctrl n s) = None
            ∧ ∃ i, current (ctrl n s) = Some i ∧ pending (ctrl n s) = Some i
                   ∧ isInvalidated i s = false) as Hall.
  { intros n Hn. apply list_elem_of_singleton in Hn. subst n. split; [|split].
    - apply elem_of_dom. vm_compute. eexists. reflexivity.
    - vm_compute. reflexivity.
    - exists 0. split; [vm_compute; reflexivity|]. split; vm_compute; reflexivity. }
  split; [exact Hnd|]. split; [exact Hall|].
  destruct (unchanged_component_is_skipped directVerdict ["child"] [] s Hnd Hall eq_refl)
    as (s' & Hrun & Hev & _ & _ & _ & Hctrl).
  exists s'. split; [exact Hrun|]. split; [exact Hev|].
  rewrite (Hctrl "child"). reflexivity.
Defined.

Lemma replaceInstance_installs_pending_witness :
  let s := afterDryRun "main" simpleTest in
  "child" ∈ dom (controllers s)
  ∧ pending (ctrl "child" s) = Some 2 ∧ current (ctrl "child" s) = Some 0
  ∧ 2 < length (instances s) ∧ 0 < length (instances s)
  ∧ ∃ s', replaceInstance "child" s = (Ok tt, s')
      ∧ current (ctrl "child" s') = Some 2
      ∧ status (inst 2 s') = instantiated.
Proof.
  intros s.
  assert ("child" ∈ dom (controllers s)) as Hdom
    by (apply elem_of_dom; vm_compute; eexists; reflexivity).
  assert (pending (ctrl "child" s) = Some 2) as Hp by (vm_compute; reflexivity).
  assert (current (ctrl "child" s) = Some 0) as Hc by (vm_compute; reflexivity).
  assert (2 < length (instances s)) as Hplt by (vm_compute; lia).
  assert (0 < length (instances s)) as Hclt by (vm_compute; lia).
  assert (hDispose (iHot (inst 0 s)) = CbOk) as Hh by (vm_compute; reflexivity).
  split; [exact Hdom|]. split; [exact Hp|]. split; [exact Hc|].
  split; [exact Hplt|]. split; [exact Hclt|].
  destruct (proj1 (replaceInstance_installs_pending "child" s 2 0 Hdom Hp Hc Hplt Hclt))
    as (s' & Hrun & Hcur & _ & _ & Hst & _).
  { intros e. rewrite Hh. discriminate. }
  exists s'. split; [exact Hrun|]. split; [exact Hcur|exact Hst].
Defined.

(** ** The post-visit of the root *)

Section RootRule.
Context {Result : Type}.
Variable visitPre : string → M (list string).
Variable visitPost : list string → list Result → M Result.
Variable U : gset string.
Variable Inv : list (string * list string) → list string → list string → State → Prop.
Variable P : Result → Prop.
Variable Q : Error → State → Prop.
Variable root : string.

Hypothesis Hpre : ∀ n K opened done s,
  Inv K opened done s → n ∉ opened → n ∉ done → reached root K n →
  match visitPre n s with
  | (Ok cs, s') => n ∈ U ∧ Inv ((n, cs) :: K) (n :: opened) done s'
  | (Throw e, s') => Q e s'
  end.

Hypothesis Hpost : ∀ ns frs K opened done s,
  Inv K (rev ns ++ opened) done s → Forall P frs →
  match visitPost ns frs s with
  | (Ok r, s') => Inv K opened (ns ++ done) s' ∧ P r
  | (Throw e, s') => Q e s'
  end.

(** The result of a traversal is the result of the post-visit of the
    component of the root, which is the last one: it is called in a store
    that satisfies the invariant with the root still open. *)
Lemma traverseDepthFirst_root onCancel s r s' :
  Inv [] [] [] s → size U ≤ size (controllers s) →
  traverseDepthFirst visitPre visitPost root onCancel s = (Ok r, s') →
  ∃ K done nodes frs s2,
    Inv K (nodes ++ [root]) done s2 ∧ Forall P frs ∧ (root ∉ done)
    ∧ visitPost (root :: rev nodes) frs s2 = (Ok r, s').
Proof.
  intros HI Hsz Hrun. unfold traverseDepthFirst in Hrun. cbn [visit] in Hrun.
  set (t0 := {| info := (∅ : gmap string (NodeState (Result := Result))); nextIndex := 0 |}) in *.
  assert (TInv U P t0 [] [] []) as HT0.
  { split; unfold visitedIn, t0; simpl.
    - intros m [x Hx]. by rewrite lookup_empty in Hx.
    - intros m. rewrite lookup_empty. split; [intros [i Hi]; done|].
      intros Hm. by apply elem_of_nil in Hm.
    - intros m. rewrite lookup_empty. split; [intros (k & r0 & Hi); done|].
      intros Hm. by apply elem_of_nil in Hm.
    - intros m k r0. by rewrite lookup_empty.
    - constructor.
    - intros m cs Hm. by apply elem_of_nil in Hm.
    - intros m cs c Hm. by apply elem_of_nil in Hm.
    - intros m [x Hx]. by rewrite lookup_empty in Hx. }
  pose proof (Hpre root [] [] [] s HI (not_elem_of_nil _) (not_elem_of_nil _)
                (or_introl eq_refl)) as Hp.
  destruct (visitPre root s) as [[cs|e] s1].
  2: { destruct (onCancel _ s1) as [[x|e'] s2]; done. }
  destruct Hp as [HU HI1].
  pose proof (TInv_push U P t0 [] [] [] root cs HT0 (lookup_empty _) HU) as HT1.
  set (t1 := {| info := <[root := Active (nextIndex t0)]> (info t0);
                nextIndex := S (nextIndex t0) |}) in *.
  set (fuel := size (controllers s)) in *.
  assert (size U < fuel + size (dom (info t1))) as Hsz1.
  { unfold t1, t0; simpl. rewrite dom_insert_L, dom_empty_L, union_empty_r_L, size_singleton.
    unfold fuel. lia. }
  assert (ChildrenPost U Inv P Q root [] cs (nextIndex t0) t1 [(root, cs)]
            (visitChildren (visit visitPre visitPost fuel) cs (nextIndex t0) [] [] t1 s1)) as Hc.
  { apply (visitChildren_spec U Inv P Q root (visit visitPre visitPost fuel) fuel root []
             (visit_spec visitPre visitPost U Inv P Q root Hpre Hpost fuel)
             cs (nextIndex t0) [] [] t1 s1 [(root, cs)] [] HT1 HI1).
    - constructor.
    - intros m cs' c Hm. by apply elem_of_nil in Hm.
    - intros c Hc. right. exists root, cs. split; [apply elem_of_cons; by left|done].
    - done. }
  unfold ChildrenPost in Hc.
  destruct (visitChildren (visit visitPre visitPost fuel) cs (nextIndex t0) [] [] t1 s1)
    as [[[low nodes fw|e ns] t2] s2].
  2: { destruct (onCancel _ s2) as [[x|e'] s3]; done. }
  destruct Hc as (K2 & done2 & HT2 & HI2 & HPfw & _).
  destruct (Nat.eqb low (nextIndex t0)); [|done].
  destruct (visitPost (root :: rev nodes) (map snd fw) s2) as [[r0|e] s3] eqn:Hvp.
  2: { destruct (onCancel _ s3) as [[x|e'] s4]; done. }
  injection Hrun as <- <-.
  exists K2, done2, nodes, (map snd fw), s2. split_and!; try done.
  intros Hd. apply (ti_done _ _ _ _ _ _ HT2) in Hd as (k & r1 & Hk).
  assert (root ∈ nodes ++ [root]) as Ho by (apply elem_of_app; right; by left).
  apply (ti_active _ _ _ _ _ _ HT2) in Ho as (i & Hi). congruence.
Qed.

End RootRule.

(** ** A change of the root is never dropped *)

(** The dry run of a root whose staged instance is not its current one
    reports new code and asks for a dispatch. *)
Lemma dryRun_of_staged_root this s0 r s1 i :
  dryRun this s0 = (Ok r, s1) →
  staging (ctrl this s0) = Some i → current (ctrl this s0) ≠ Some i →
  drNeedsDispatch r = true ∧ drHasNewCode r = true.
Proof.
  intros H Hs Hc.
  assert (∀ n (K : list (string * list string)) opened done s,
    DryInv s0 opened done s → n ∉ opened → n ∉ done → reached this K n →
    match dryRunPre n s with
    | (Ok cs, s') => n ∈ dom (controllers s0) ∧ DryInv s0 (n :: opened) done s'
    | (Throw e, s') => True
    end) as Hpre.
  { intros n K opened done s HI Hno Hnd _.
    pose proof (dryRunPre_DryInv s0 opened done n s HI Hno Hnd) as Hp.
    destruct (dryRunPre n s) as [[cs|e] s']; [|done]. tauto. }
  assert (∀ ns frs (K : list (string * list string)) opened done s,
    DryInv s0 (rev ns ++ opened) done s → Forall (DryWf s0) frs →
    match dryRunPost ns frs s with
    | (Ok r, s') => DryInv s0 opened (ns ++ done) s' ∧ DryWf s0 r
    | (Throw e, s') => True
    end) as Hpost.
  { intros ns frs K opened done s HI HP. rewrite dryRunPost_eq. split.
    - by apply dryRunPost_DryInv.
    - eapply dryRunResultOf_wf; [exact HI|done]. }
  destruct (traverseDepthFirst_root dryRunPre dryRunPost (dom (controllers s0))
              (λ _ opened done s, DryInv s0 opened done s) (DryWf s0) (λ _ _, True) this
              Hpre Hpost clearPendingPrevious s0 r s1 (DryInv_start s0))
    as (K & dn & nodes & frs & s2 & HI & _ & _ & Hrun); [by rewrite size_dom|exact H|].
  rewrite dryRunPost_eq in Hrun. injection Hrun as <- _.
  destruct (dry_marked _ _ _ _ HI this) as (_ & Hp & Hq).
  { left. apply elem_of_app. right. by left. }
  assert (nodeHasNewCode s2 this = true) as Hnew.
  { unfold nodeHasNewCode. rewrite Hp, Hq, Hs. simpl. unfold optEqb.
    by rewrite bool_decide_eq_false_2. }
  simpl. unfold nodeNeedsDispatch. rewrite Hnew. done.
Qed.

Lemma keeps_iterateWithRollback_in (R : State → State → Prop) `{!Tolerates R} {A}
    (vector : list A) rollback yielded loopBody :
  (∀ l, keeps R (rollback l)) → (∀ x, x ∈ vector → keeps R (loopBody x)) →
  keeps R (iterateWithRollback vector rollback yielded loopBody).
Proof.
  intros Hr Hb. revert yielded.
  induction vector as [|x l IH]; intros yielded; simpl; [apply (keeps_ret R)|].
  apply (keeps_bind R).
  - apply (keeps_tryCatch R); [apply Hb; by left|].
    intros e. apply (keeps_bind R); [auto|]. intros _. apply (keeps_throw R).
  - intros _. apply IH. intros y Hy. apply Hb. by right.
Qed.

(** The post-visit of phase 3 writes the [staging] slot of no controller
    outside the component. *)
Lemma commitPost_staging linkVerdict ns frs s u :
  u ∉ ns →
  staging (ctrl u (snd (commitPost linkVerdict ns frs s))) = staging (ctrl u s).
Proof.
  intros Hu.
  set (R := sameField staging (λ v, v ∈ ns)).
  assert (writesSlot R withCurrent) as Hc by (intros ? ?; by apply sameField_writes).
  assert (writesSlot R withPending) as Hp by (intros ? ?; by apply sameField_writes).
  assert (∀ i, logs R (EvInstantiate i)) as Hi by (intros; apply sameField_logs).
  assert (∀ i, logs R (EvLink i)) as Hl by (intros; apply sameField_logs).
  assert (∀ i, logs R (EvRelink i)) as Hr by (intros; apply sameField_logs).
  assert (∀ i, logs R (EvEvaluate i)) as He by (intros; apply sameField_logs).
  assert (∀ i, logs R (EvDispose i)) as Hd by (intros; apply sameField_logs).
  assert (∀ i d, logs R (EvAccept i d)) as Ha by (intros; apply sameField_logs).
  assert (∀ i, logs R (EvAcceptSelf i)) as Hx by (intros; apply sameField_logs).
  assert (keeps R (commitPost linkVerdict ns frs)) as Hk.
  { unfold commitPost.
    apply (keeps_bind R); [apply (keeps_anyNewCode R)|]. intros newCode.
    apply (keeps_bind R).
    { destruct (_ && _); [by apply (keeps_anyUnaccepted R)|apply (keeps_ret R)]. }
    intros needsUpdate. destruct (negb needsUpdate); [keeps_auto|].
    apply (keeps_bind R);
      [apply (keeps_forEach R); intros ?; by apply (keeps_replaceInstance R)|]. intros _.
    apply (keeps_bind R); [keeps_auto|]. intros _.
    apply (keeps_bind R).
    { apply (keeps_iterateWithRollback_in R); [intros ?; by apply (keeps_evaluationRollback R)|].
      intros node Hnode.
      assert (∀ v, writes R node (withStaging v)) as Hs
        by (intros v; by apply sameField_writes_except).
      unfold evaluateNode. keeps_auto. }
    intros _. apply (keeps_bind R); [by apply (keeps_trySelfAccepts R)|]. intros ?.
    apply (keeps_ret R). }
  by apply Hk.
Qed.

(** The commit traversal of a root with a staged instance reports an
    update. *)
Lemma commitResult_of_staged_root linkVerdict this s rr s' i :
  commitResult linkVerdict this s = (Ok rr, s') →
  staging (ctrl this s) = Some i →
  rrTreeDidUpdate rr = true.
Proof.
  intros H Hs.
  set (Inv := λ (_ : list (string * list string)) (_ dn : list string) st,
                dom (controllers st) = dom (controllers s)
                ∧ (this ∉ dn → staging (ctrl this st) = Some i)).
  assert (∀ n K opened dn st,
    Inv K opened dn st → n ∉ opened → n ∉ dn → reached this K n →
    match commitPre n st with
    | (Ok cs, s1) => n ∈ dom (controllers s) ∧ Inv ((n, cs) :: K) (n :: opened) dn s1
    | (Throw e, s1) => True
    end) as Hpre.
  { intros n K opened dn st [Hd Hst] _ _ _.
    destruct (commitPre n st) as [[cs|e] s1] eqn:Hp; [|done].
    unfold commitPre in Hp.
    pose proof (iterateWithDynamics_readonly n selectPending (selectPreviousOrPendingOf n) st)
      as Hro. rewrite Hp in Hro. simpl in Hro. subst s1.
    split; [|done]. rewrite <- Hd.
    unfold iterateWithDynamics, iterate in Hp.
    apply bind_Ok in Hp as (statics & s1 & Hp & _).
    apply bind_Ok in Hp as (j & s2 & Hj & _). apply select_Ok in Hj as [Hj _].
    by apply (ctrl_some_dom pending _ _ j). }
  assert (∀ ns frs K opened dn st,
    Inv K (rev ns ++ opened) dn st → Forall (λ _ : RunResult, True) frs →
    match commitPost linkVerdict ns frs st with
    | (Ok r, s1) => Inv K opened (ns ++ dn) s1 ∧ True
    | (Throw e, s1) => True
    end) as Hpost.
  { intros ns frs K opened dn st [Hd Hst] _.
    pose proof (keeps_commitPost sameDom linkVerdict ns frs
                  (proj1 (sameDom_updateAllowed this)) st) as Hdom.
    destruct (commitPost linkVerdict ns frs st) as [[r|e] s1] eqn:Hp; [|done].
    simpl in Hdom. split; [|done]. split; [by rewrite Hdom|].
    intros Hn. apply not_elem_of_app in Hn as [Hns Hdn].
    pose proof (commitPost_staging linkVerdict ns frs st this Hns) as Hk.
    rewrite Hp in Hk. simpl in Hk. rewrite Hk. by apply Hst. }
  destruct (traverseDepthFirst_root commitPre (commitPost linkVerdict) (dom (controllers s))
              Inv (λ _, True) (λ _ _, True) this Hpre Hpost noCancel s rr s')
    as (K & dn & nodes & frs & s2 & [_ Hst] & _ & Hnd & Hrun); [done|by rewrite size_dom|exact H|].
  specialize (Hst Hnd). unfold commitPost in Hrun.
  assert (anyNewCode (this :: rev nodes) s2 = (Ok true, s2)) as Hnew.
  { simpl. unfold bind. cbn [gets]. by rewrite Hst. }
  rewrite (bind_eq _ _ _ _ _ Hnew) in Hrun.
  rewrite andb_false_r in Hrun. unfold bind at 1 in Hrun. cbn [ret negb] in Hrun.
  apply bind_Ok in Hrun as ([] & s3 & _ & Hrun).
  apply bind_Ok in Hrun as ([] & s4 & _ & Hrun).
  apply bind_Ok in Hrun as ([] & s5 & _ & Hrun).
  apply bind_Ok in Hrun as (invalidated & s6 & _ & Hrun).
  by apply ret_Ok in Hrun as [<- _].
Qed.

(** X15. A change of the root module is never dropped: when the root has a
    staged instance that is not its current one, a [requestUpdate] that
    returns does not return [undefined]: neither the no-op exit of the dry
    run (line 485) nor the one of phase 3 (line 710) is taken. *)
Theorem staged_root_is_never_skipped linkVerdict this s i r s' :
  staging (ctrl this s) = Some i → current (ctrl this s) ≠ Some i →
  requestUpdate linkVerdict this s = (Ok r, s') →
  r ≠ None.
Proof.
  intros Hs Hc. unfold requestUpdate. unfold bind at 1. cbn [gets].
  destruct (fatalErrorOf (ctrl this s)) as [f|]; [by intros [= <- <-]|].
  unfold bind at 1. cbn [modify]. set (s0 := setFrame (λ _, newFrame) s).
  unfold bind at 1.
  pose proof (keeps_dryRun (sameField staging (λ _, False)) this
                ltac:(intros ? ?; by apply sameField_writes)
                ltac:(intros ? ?; by apply sameField_writes) s0) as Hk1.
  pose proof (dryRun_of_staged_root this s0) as Hdry.
  destruct (dryRun this s0) as [[initialResult|e] s1]; [|done].
  destruct (Hdry initialResult s1 i eq_refl Hs Hc) as [Hneeds _]. rewrite Hneeds. cbn [negb].
  simpl in Hk1.
  destruct (drHasDecline _).
  { unfold bind. destruct (rollback s1) as [[[]|?] ?]; [|done]. by intros [= <- <-]. }
  destruct (Nat.ltb _ _).
  { unfold bind. destruct (acquireVisitIndex s1) as [[tag|?] s2]; [|done].
    destruct (invalidationChain tag initialResult s2) as [[chain|?] s3]; [|done].
    destruct (rollback s3) as [[[]|?] ?]; [|done]. by intros [= <- <-]. }
  unfold bind at 1.
  assert (match (if drHasNewCode initialResult then linkTest linkVerdict this else ret None) s1 with
          | (Ok (Some res), _) => ∃ error, res = Some (UpdateLinkError error)
          | (_, s2) => sameField staging (λ _, False) s1 s2
          end) as Hlt.
  { destruct (drHasNewCode initialResult); [|done].
    pose proof (linkTest_returns linkVerdict this s1) as H1.
    pose proof (keeps_linkTest (sameField staging (λ _, False)) linkVerdict this
                  ltac:(intros ? ?; by apply sameField_writes)
                  ltac:(intros ? ?; by apply sameField_writes)
                  ltac:(intros ? ?; by apply sameField_writes)
                  ltac:(intros; apply sameField_logs) ltac:(intros; apply sameField_logs)
                  ltac:(intros; apply sameField_logs) s1) as H2.
    destruct (linkTest linkVerdict this s1) as [[[res|]|e] s2]; done. }
  destruct ((if drHasNewCode initialResult then linkTest linkVerdict this else ret None) s1)
    as [[[res|]|e] s2]; [| |done].
  { destruct Hlt as [error ->]. by intros [= <- <-]. }
  unfold bind at 1.
  pose proof (keeps_traverse (sameField staging (λ _, False)) this (λ _, ret tt)
                ltac:(intros; by apply sameField_writes)
                ltac:(intros; apply (keeps_ret _)) s2) as Hk3.
  destruct (traverse this _ s2) as [[previousControllers|e] s3]; [|done].
  simpl in Hk3.
  assert (staging (ctrl this s3) = Some i) as Hs3.
  { rewrite Hk3, Hlt, Hk1 by auto. done. }
  unfold commitAndFinalize.
  assert (match tryCatch (commit linkVerdict this) (commitCatch linkVerdict this) s3 with
          | (Ok (Some res), _) => res ≠ None
          | _ => True
          end) as H1.
  { unfold tryCatch, commit. unfold bind at 1.
    pose proof (commitResult_of_staged_root linkVerdict this s3) as Hcr.
    destruct (commitResult linkVerdict this s3) as [[rr|e] s4].
    - rewrite (Hcr rr s4 i eq_refl Hs3). done.
    - unfold commitCatch, bind. destruct (recover linkVerdict this s4) as [[[]|e'] s5]; [|done].
      cbn [gets]. by destruct (dispatchLinkErrorType (frame s5)). }
  destruct (tryCatch _ _ s3) as [completion s4].
  pose proof (finalize_kind this previousControllers s4) as H2.
  destruct (finalize this previousControllers s4) as [[[res|]|e] s5]; [| |done].
  - destruct H2 as [f ->]. by intros [= <- <-].
  - destruct completion as [[res|]|e]; [| |done]; by intros [= <- <-].
Qed.

(** The root of the test "simple test", with a change of its own. *)
Definition rootChanged : State :=
  runOperations directVerdict false
    [OpSource "main" (bodyWith [] (accepting CbOk)) [importing "child" ["counter"]]]
    (snd (requestUpdate directVerdict "main" simpleTest)).

Lemma staged_root_is_never_skipped_witness :
  let s := rootChanged in
  let r := Some (UpdateSuccess success {| loads := 1; reevaluations := 0 |}) in
  staging (ctrl "main" s) = Some 6
  ∧ current (ctrl "main" s) ≠ Some 6
  ∧ fst (requestUpdate directVerdict "main" s) = Ok r
  ∧ r ≠ None.
Proof.
  intros s r.
  assert (staging (ctrl "main" s) = Some 6) as Hs by (vm_compute; reflexivity).
  assert (current (ctrl "main" s) ≠ Some 6) as Hc by (vm_compute; discriminate).
  assert (requestUpdate directVerdict "main" s
          = (Ok r, snd (requestUpdate directVerdict "main" s))) as H
    by (vm_compute; reflexivity).
  split; [exact Hs|]. split; [exact Hc|]. split; [rewrite H; reflexivity|].
  exact (staged_root_is_never_skipped directVerdict "main" s 6 r _ Hs Hc H).
Defined.

(** ** Temporary instances *)

Lemma commitAndFinalize_keeps_temporary linkVerdict this previousControllers s u :
  temporary (ctrl u (snd (commitAndFinalize linkVerdict this previousControllers s)))
  = temporary (ctrl u s).
Proof.
  set (R := sameField temporary (λ _, False)).
  assert (∀ w, (∀ v c, temporary (w v c) = temporary c) → writesSlot R w) as Hw
    by (intros w Hw ? ?; by apply sameField_writes).
  assert (∀ e, logs R e) as Hl by (intros; apply sameField_logs).
  assert (keeps R (tryCatch (commit linkVerdict this) (commitCatch linkVerdict this))) as H1.
  { apply (keeps_tryCatch R).
    - apply (keeps_commit R). unfold commitAllowed. split_and!; auto.
    - intros e. apply (keeps_commitCatch R); auto. intros v. by apply sameField_writes. }
  assert (keeps R (finalize this previousControllers)) as H2.
  { apply (keeps_finalize R); auto; intros; by apply sameField_writes. }
  unfold commitAndFinalize. specialize (H1 s).
  destruct (tryCatch _ _ s) as [completion s1]. simpl in H1. specialize (H2 s1).
  assert (temporary (ctrl u (snd (finalize this previousControllers s1)))
          = temporary (ctrl u s)) as H by (rewrite H2, H1; auto).
  destruct (finalize this previousControllers s1) as [[[r|]|e] s2]; simpl in *; try done.
  by destruct completion as [[r|]|e].
Qed.

(** X16. [requestUpdate] leaves no temporary instance behind: if the
    [temporary] slot of every controller is empty before the call, it is
    empty afterwards, whether the call returns a result or throws. *)
Theorem requestUpdate_leaves_no_temporary linkVerdict this s :
  (∀ u, temporary (ctrl u s) = None) →
  ∀ u, temporary (ctrl u (snd (requestUpdate linkVerdict this s))) = None.
Proof.
  intros Hnone u. rewrite <- (Hnone u).
  set (R := sameField temporary (λ _, False)).
  assert (writesSlot R withPending) as Hp by (intros ? ?; by apply sameField_writes).
  assert (writesSlot R withPrevious) as Hq by (intros ? ?; by apply sameField_writes).
  assert (∀ v n, writes R v (withVisitIndex n)) as Hv by (intros; by apply sameField_writes).
  unfold requestUpdate. unfold bind at 1. cbn [gets].
  destruct (fatalErrorOf (ctrl this s)) as [f|]; [done|].
  unfold bind at 1. cbn [modify]. set (s0 := setFrame (λ _, newFrame) s).
  unfold bind at 1.
  pose proof (keeps_dryRun R this Hp Hq s0) as Hk1.
  pose proof (dryRun_spec this s0) as Hspec.
  destruct (dryRun this s0) as [[initialResult|e] s1]; simpl in Hk1;
    [|simpl; apply Hk1; auto].
  destruct (Hspec initialResult s1 eq_refl) as (dn & HI & _).
  assert (∀ v, temporary (ctrl v s1) = temporary (ctrl v s)) as H1 by (intros v; apply Hk1; auto).
  destruct (negb _).
  { rewrite snd_bind. pose proof (keeps_rollback R Hp Hq s1) as Hk.
    destruct (rollback s1) as [[[]|?] sr]; simpl in *; rewrite Hk by auto; apply H1. }
  destruct (drHasDecline _).
  { rewrite snd_bind. pose proof (keeps_rollback R Hp Hq s1) as Hk.
    destruct (rollback s1) as [[[]|?] sr]; simpl in *; rewrite Hk by auto; apply H1. }
  destruct (Nat.ltb _ _).
  { assert (keeps R (let* tag := acquireVisitIndex in
                     let* chain := invalidationChain tag initialResult in
                     let* _ := rollback in
                     ret (Some (UpdateUnaccepted chain)))) as Hk.
    { apply (keeps_bind R); [apply (keeps_acquireVisitIndex R)|]. intros tag.
      apply (keeps_bind R); [by apply (keeps_invalidationChain R)|]. intros chain.
      apply (keeps_bind R); [by apply (keeps_rollback R)|]. intros _. apply (keeps_ret R). }
    rewrite (Hk s1) by auto. apply H1. }
  assert (fInstantiated (frame s1) = []) as Hf by (by rewrite (dry_instantiated _ _ _ _ HI)).
  unfold bind at 1.
  assert (∃ tested s2,
            (if drHasNewCode initialResult then linkTest linkVerdict this else ret None) s1
            = (Ok tested, s2)
            ∧ ∀ v, temporary (ctrl v s2) = None) as (tested & s2 & Htest & H2).
  { destruct (drHasNewCode initialResult).
    - destruct (linkTest_spec linkVerdict this s1 Hf) as (out & s2 & Hrun & HL & _).
      exists out, s2. split; [done|]. intros v.
      rewrite (li_other _ _ _ HL v) by apply not_elem_of_nil.
      destruct (decide _); [done|]. by rewrite H1.
    - exists None, s1. split; [done|]. intros v. by rewrite H1. }
  rewrite Htest. rewrite (Hnone u), <- (H2 u). destruct tested as [res|]; [done|].
  pose proof (keeps_traverse R this (λ _, ret tt) Hv
                ltac:(intros; apply (keeps_ret _)) s2) as Hk3.
  rewrite snd_bind.
  destruct (traverse this _ s2) as [[previousControllers|e] s3]; simpl in *;
    [|apply Hk3; auto].
  rewrite commitAndFinalize_keeps_temporary. apply Hk3. auto.
Qed.

(** ** The [finally] block *)

Section Yielded.

Variable tag : nat.
Variable onYield : string → M unit.
Variable Qy : string → State → Prop.
Variable R : State → State → Prop.
Context `{!Tolerates R}.

Hypothesis Hstable : ∀ u s s', Qy u s → R s s' → Qy u s'.
Hypothesis Hyield : ∀ u s s', onYield u s = (Ok tt, s') → Qy u s'.
Hypothesis Hkeeps : ∀ u, keeps R (onYield u).
Hypothesis Hmarks : ∀ u n, writes R u (withVisitIndex n).

Lemma traverseChildren_yielded recurse :
  (∀ node s l s', recurse node s = (Ok l, s') → ∀ u, u ∈ l → Qy u s') →
  (∀ node, keeps R (recurse node)) →
  ∀ children s l s',
    traverseChildren recurse tag onYield children s = (Ok l, s') →
    ∀ u, u ∈ l → Qy u s'.
Proof.
  intros Hrec Hkr. induction children as [|c rest IH]; intros s l s' Hrun u Hu; simpl in Hrun.
  { apply ret_Ok in Hrun as [<- _]. by apply elem_of_nil in Hu. }
  apply bind_Ok in Hrun as (seen & s0 & Hseen & Hrun). apply gets_Ok in Hseen as [<- <-].
  destruct (Nat.eqb _ _); [by apply (IH s l s')|].
  apply bind_Ok in Hrun as ([] & sa & Hm & Hrun). apply modify_Ok in Hm as <-.
  apply bind_Ok in Hrun as ([] & sb & Hy & Hrun).
  apply bind_Ok in Hrun as (below & sc & Hb & Hrun).
  apply bind_Ok in Hrun as (others & sd & Ho & Hrun).
  apply ret_Ok in Hrun as [<- <-].
  pose proof (Hkr c sb) as Hbc. rewrite Hb in Hbc. simpl in Hbc.
  assert (keeps R (traverseChildren recurse tag onYield rest)) as Hkrest
    by (by apply (keeps_traverseChildren R)).
  pose proof (Hkrest sc) as Hcd. rewrite Ho in Hcd. simpl in Hcd.
  apply elem_of_cons in Hu as [->|Hu].
  - apply (Hstable _ sc); [|done]. apply (Hstable _ sb); [|done]. by apply (Hyield _ _ _ Hy).
  - apply elem_of_app in Hu as [Hu|Hu].
    + apply (Hstable _ sc); [|done]. by apply (Hrec c sb below sc Hb).
    + by apply (IH sc others sd Ho).
Qed.

Lemma traverseFrom_yielded fuel : ∀ node s l s',
  traverseFrom fuel tag onYield node s = (Ok l, s') → ∀ u, u ∈ l → Qy u s'.
Proof.
  induction fuel as [|fuel IH]; intros node s l s' Hrun; simpl in Hrun; [done|].
  apply bind_Ok in Hrun as (cs & s0 & Hcs & Hrun).
  pose proof (iterateWithDynamics_readonly node selectCurrent selectCurrent s) as Hro.
  rewrite Hcs in Hro. simpl in Hro. subst s0.
  apply (traverseChildren_yielded (traverseFrom fuel tag onYield) IH) with (children := cs) (s := s);
    [|done].
  intros n. by apply (keeps_traverseFrom R).
Qed.

End Yielded.

(** Nothing is written to [pending], and [previous] is only cleared. *)
Definition clearing (s s' : State) : Prop :=
  ∀ u, pending (ctrl u s') = pending (ctrl u s)
       ∧ (previous (ctrl u s) = None → previous (ctrl u s') = None).

Global Instance clearing_Tolerates : Tolerates clearing.
Proof.
  split; unfold clearing; try done.
  intros a b c Hab Hbc u. destruct (Hab u) as [H1 H2], (Hbc u) as [G1 G2].
  split; [congruence|auto].
Qed.

Lemma clearing_writes u f :
  (∀ c, pending (f c) = pending c) →
  (∀ c, previous (f c) = previous c ∨ previous (f c) = None) →
  writes clearing u f.
Proof.
  intros Hp Hq s v. split; [by apply ctrl_updateCtrl_field|].
  destruct (decide (u = v)) as [->|Hne]; [|by rewrite ctrl_updateCtrl_ne].
  unfold ctrl, updateCtrl; simpl. rewrite lookup_alter_eq.
  destruct (controllers s !! v) as [c|]; simpl; [|done].
  destruct (Hq c) as [->| ->]; done.
Qed.

Lemma clearPrevious_cleared u s s' :
  clearPrevious u s = (Ok tt, s') →
  pending (ctrl u s') = None ∧ previous (ctrl u s') = None.
Proof.
  unfold clearPrevious. intros H.
  apply bind_Ok in H as (next & s0 & Hn & H). apply gets_Ok in Hn as [<- <-].
  apply bind_Ok in H as ([] & s0 & Ha & H).
  destruct (pending (ctrl u s)) as [p|] eqn:Hp; [done|]. apply ret_Ok in Ha as [_ <-].
  apply modify_Ok in H as <-. split.
  - by rewrite (ctrl_updateCtrl_field pending).
  - unfold ctrl, updateCtrl; simpl. rewrite lookup_alter_eq.
    by destruct (controllers s !! u).
Qed.

Lemma pruneOrphans_keeps_current this currentControllers previousControllers : ∀ s s',
  pruneOrphans this currentControllers previousControllers s = (Ok None, s') →
  ∀ u, u ∈ currentControllers → ctrl u s' = ctrl u s.
Proof.
  induction previousControllers as [|c rest IH]; intros s s' Hrun u Hu; simpl in Hrun.
  { by apply ret_Ok in Hrun as [_ <-]. }
  destruct (mem c currentControllers) eqn:Hmem; [by apply (IH s s')|].
  assert (c ≠ u) as Hne.
  { intros ->. unfold mem in Hmem. by rewrite bool_decide_eq_true_2 in Hmem. }
  apply bind_Ok in Hrun as (cur & s0 & Hcur & Hrun). apply select_Ok in Hcur as [_ ->].
  apply bind_Ok in Hrun as (failed & s1 & Hp & Hrun).
  assert (controllers s1 = controllers s ∨ failed ≠ None) as Hc1.
  { unfold tryCatch, bind at 1 in Hp. destruct (prune cur s) as [[[]|e] sp] eqn:Hpr.
    - unfold ret in Hp. injection Hp as <- <-. left. unfold prune in Hpr.
      apply bind_Ok in Hpr as ([] & sa & Ha & Hpr). apply modify_Ok in Ha as <-.
      apply bind_Ok in Hpr as (hot & sa & Hh & Hpr). apply gets_Ok in Hh as [<- <-].
      destruct (hPrune _); [by apply ret_Ok in Hpr as [_ <-]|done|].
      unfold invalidate in Hpr. by apply modify_Ok in Hpr as <-.
    - right. unfold setFatalError, bind, modify, ret in Hp. by injection Hp as <-. }
  destruct failed as [res|]; [by apply ret_Ok in Hrun as [? _]|].
  destruct Hc1 as [Hc1|]; [|done].
  apply bind_Ok in Hrun as (copy & s2 & Hcl & Hrun).
  unfold clone, constructInstance in Hcl. injection Hcl as _ <-.
  apply bind_Ok in Hrun as ([] & s3 & H1 & Hrun). apply modify_Ok in H1 as <-.
  apply bind_Ok in Hrun as ([] & s3 & H1 & Hrun). apply modify_Ok in H1 as <-.
  apply bind_Ok in Hrun as ([] & s3 & H1 & Hrun). apply modify_Ok in H1 as <-.
  rewrite (IH _ _ Hrun u Hu). rewrite !ctrl_updateCtrl_ne by done.
  unfold ctrl. simpl. by rewrite Hc1.
Qed.

(** X17. The [finally] block, lines 739-764, when no prune handler fails:
    every controller that the root imports, directly or through other
    controllers, ends with [pending] and [previous] undefined and keeps its
    current instance.  (The root itself is among them only when it lies on
    an import cycle.) *)
Theorem finally_clears_reachable this previousControllers s s' :
  Fresh s →
  finalize this previousControllers s = (Ok None, s') →
  ∀ u, tc (imports s) this u →
       pending (ctrl u s') = None ∧ previous (ctrl u s') = None
       ∧ current (ctrl u s') = current (ctrl u s).
Proof.
  intros Hfresh Hrun u Hu. unfold finalize in Hrun.
  apply bind_Ok in Hrun as (l & s3 & Htr & Hrun).
  destruct (traverse_walked _ _ _ _ _ quietYield_clearPrevious Hfresh Htr)
    as (_ & Hiff & _ & _ & _ & _ & Hcur & _).
  apply Hiff in Hu. rewrite (pruneOrphans_keeps_current _ _ _ _ _ Hrun u Hu), Hcur.
  assert (pending (ctrl u s3) = None ∧ previous (ctrl u s3) = None) as [Hp Hq]; [|done].
  unfold traverse in Htr.
  apply bind_Ok in Htr as (tag & s0 & Htag & Htr).
  apply bind_Ok in Htr as (fuel & s1 & Hfuel & Htr). apply gets_Ok in Hfuel as [<- <-].
  apply (traverseFrom_yielded tag clearPrevious
           (λ v st, pending (ctrl v st) = None ∧ previous (ctrl v st) = None) clearing
          ) with (u := u) in Htr; try done.
  - intros v st st' [Hp Hq] Hc. destruct (Hc v) as [H1 H2]. split; [congruence|auto].
  - apply clearPrevious_cleared.
  - intros v. unfold clearPrevious.
    apply (keeps_bind clearing); [apply (keeps_gets _)|].
    intros next.
    apply (keeps_bind clearing); [apply (keeps_assert_ok _)|].
    intros _. intros st. apply clearing_writes; auto.
  - intros v n. apply clearing_writes; auto.
Qed.

(** ** The two properties above, on the first test *)

Lemma temporary_intro s :
  map_Forall (fun _ c => temporary c = None) (controllers s) →
  ∀ u, temporary (ctrl u s) = None.
Proof.
  intros H u. unfold ctrl. destruct (controllers s !! u) as [c|] eqn:E; simpl; [|done].
  by apply (H u c).
Qed.

Lemma requestUpdate_leaves_no_temporary_witness :
  let s := simpleTest in
  (∀ u, temporary (ctrl u s) = None)
  ∧ ∀ u, temporary (ctrl u (snd (requestUpdate directVerdict "main" s))) = None.
Proof.
  intros s.
  assert (∀ u, temporary (ctrl u s) = None) as H.
  { apply temporary_intro. apply (bool_decide_unpack _). vm_compute. exact I. }
  split; [exact H|]. exact (requestUpdate_leaves_no_temporary directVerdict "main" s H).
Defined.

(** The store of the first test when the [try] block of phase 3 has
    returned: the import was replaced and the root re-evaluated. *)
Definition beforeFinally : State :=
  snd ((let* _ := modify (setFrame (fun _ => newFrame)) in
        let* _ := dryRun "main" in
        let* _ := linkTest directVerdict "main" in
        let* _ := traverse "main" (fun _ => ret tt) in
        commit directVerdict "main") simpleTest).

Lemma finally_clears_reachable_witness :
  let s := beforeFinally in
  let s' := snd (finalize "main" ["child"] s) in
  Fresh s
  ∧ finalize "main" ["child"] s = (Ok None, s')
  ∧ tc (imports s) "main" "child"
  ∧ previous (ctrl "child" s) = Some 0
  ∧ pending (ctrl "child" s') = None ∧ previous (ctrl "child" s') = None
  ∧ current (ctrl "child" s') = current (ctrl "child" s).
Proof.
  intros s s'.
  assert (Fresh s) as Hfresh.
  { apply Fresh_intro. apply (bool_decide_unpack _). vm_compute. exact I. }
  assert (finalize "main" ["child"] s = (Ok None, s')) as H by (vm_compute; reflexivity).
  assert (tc (imports s) "main" "child") as Htc.
  { apply tc_once. exists 5. split; [vm_compute; reflexivity|].
    assert (iterateDependencies 5 s = ["child"]) as -> by (vm_compute; reflexivity).
    apply list_elem_of_singleton. reflexivity. }
  split; [exact Hfresh|]. split; [exact H|]. split; [exact Htc|].
  split; [vm_compute; reflexivity|].
  exact (finally_clears_reachable "main" ["child"] s s' Hfresh H "child" Htc).
Defined.

(** ** Self-accepting modules *)

Lemma dryRun_self_accepting this s0 r s1 :
  (∀ u, u ∈ dom (controllers s0) →
        ∃ i, current (ctrl u s0) = Some i ∧ isAcceptedSelf i s0 = true) →
  dryRun this s0 = (Ok r, s1) →
  drInvalidated r = [] ∧ drHasDecline r = false.
Proof.
  intros Hself H.
  set (P := λ r : DryRunResult, drInvalidated r = [] ∧ drHasDecline r = false).
  assert (∀ n (K : list (string * list string)) opened done s,
    DryInv s0 opened done s → n ∉ opened → n ∉ done → reached this K n →
    match dryRunPre n s with
    | (Ok cs, s') => n ∈ dom (controllers s0) ∧ DryInv s0 (n :: opened) done s'
    | (Throw e, s') => True
    end) as Hpre.
  { intros n K opened done s HI Hno Hnd _.
    pose proof (dryRunPre_DryInv s0 opened done n s HI Hno Hnd) as Hp.
    destruct (dryRunPre n s) as [[cs|e] s']; [|done]. tauto. }
  assert (∀ ns frs (K : list (string * list string)) opened done s,
    DryInv s0 (rev ns ++ opened) done s → Forall P frs →
    match dryRunPost ns frs s with
    | (Ok r, s') => DryInv s0 opened (ns ++ done) s' ∧ P r
    | (Throw e, s') => True
    end) as Hpost.
  { intros ns frs K opened done s HI HP. rewrite dryRunPost_eq.
    split; [by apply dryRunPost_DryInv|].
    assert (List.filter (nodeInvalidated (concat (map drInvalidated frs)) s) ns = []) as Hnil.
    { assert (∀ l, (∀ n, n ∈ l → n ∈ ns) →
                List.filter (nodeInvalidated (concat (map drInvalidated frs)) s) l = []) as Hl.
      { induction l as [|n l IH]; intros Hsub; [done|]. simpl.
        assert (n ∈ ns) as Hn by (apply Hsub, elem_of_cons; by left).
        assert (n ∈ dom (controllers s0)) as Hd.
        { apply (dry_marked _ _ _ _ HI n). left. apply elem_of_app. left.
          by rewrite elem_of_rev_iff. }
        destruct (Hself n Hd) as (i & Hi & Hacc).
        assert (nodeInvalidated (concat (map drInvalidated frs)) s n = false) as ->.
        { unfold nodeInvalidated.
          destruct (dry_slots _ _ _ _ HI n) as [Hc _]. rewrite Hc, Hi.
          unfold isAcceptedSelf in *. rewrite (inst_same _ _ s0) by apply HI.
          rewrite Hacc. simpl. apply andb_false_r. }
        apply IH. intros m Hm. apply Hsub, elem_of_cons. by right. }
      by apply Hl. }
    unfold P, dryRunResultOf. simpl. rewrite Hnil. simpl. split; [done|].
    destruct (existsb drHasDecline frs) eqn:Hex; [|done].
    apply existsb_elem in Hex as (f & Hf & Hfd).
    rewrite Forall_forall in HP. destruct (HP f Hf) as [_ Hno]. congruence. }
  pose proof (traverseDepthFirst_rule dryRunPre dryRunPost (dom (controllers s0))
                (λ _ opened done s, DryInv s0 opened done s) P (λ _ _, True) this
                Hpre Hpost clearPendingPrevious s0 (DryInv_start s0)) as Hrule.
  unfold dryRun in H. rewrite H in Hrule.
  destruct Hrule as (K & dn & HI & HP & Hroot & _); [by rewrite size_dom|exact HP].
Qed.

(** X18. When the current instance of every registered controller accepts
    itself ([import.meta.hot.accept()] without arguments), [requestUpdate]
    never answers [declined] nor [unaccepted]: no controller is collected
    into [invalidated] by the dry run, lines 445-462, and only invalidated
    controllers are looked at for a decline. *)
Theorem self_accepting_modules_are_never_blocked linkVerdict this s r s' :
  (∀ u, u ∈ dom (controllers s) →
        ∃ i, current (ctrl u s) = Some i ∧ isAcceptedSelf i s = true) →
  requestUpdate linkVerdict this s = (Ok r, s') →
  (∀ declined, r ≠ Some (UpdateDeclined declined))
  ∧ (∀ chain, r ≠ Some (UpdateUnaccepted chain)).
Proof.
  intros Hself Hrun.
  assert (match r with
          | Some (UpdateDeclined _) | Some (UpdateUnaccepted _) => False
          | _ => True
          end) as Hr; [|split; intros x ->; exact Hr].
  revert Hrun. unfold requestUpdate. unfold bind at 1. cbn [gets].
  destruct (fatalErrorOf (ctrl this s)) as [f|]; [by intros [= <- <-]|].
  unfold bind at 1. cbn [modify]. unfold bind at 1.
  destruct (dryRun this _) as [[initialResult|e] s1] eqn:Hdry; [|done].
  apply dryRun_self_accepting in Hdry as [Hinv Hdec]; [|exact Hself].
  rewrite Hdec, Hinv. simpl.
  destruct (negb _).
  { unfold bind. destruct (rollback s1) as [[[]|?] ?]; [|done]. by intros [= <- <-]. }
  unfold bind at 1.
  pose proof (linkTest_returns linkVerdict this s1) as Hlt.
  destruct ((if drHasNewCode initialResult then linkTest linkVerdict this else ret None) s1)
    as [[[res|]|e] s2] eqn:Htest; [| |done].
  { destruct (drHasNewCode initialResult); [|done]. rewrite Htest in Hlt.
    destruct Hlt as [error ->]. by intros [= <- <-]. }
  unfold bind at 1. destruct (traverse this _ s2) as [[previousControllers|e] s3]; [|done].
  intros Hcf.
  pose proof (commitAndFinalize_kind linkVerdict this previousControllers s3) as H.
  rewrite Hcf in H. by destruct r as [[]|].
Qed.

(** Two modules that both accept themselves; the import then changes. *)
Definition selfAcceptingGraph : State :=
  runScript [OpAcquire "main"; OpAcquire "child";
             OpSource "child" (bodyWith ["counter"] (accepting CbOk)) [];
             OpSource "main" (bodyWith [] (accepting CbOk)) [importing "child" ["counter"]];
             OpDispatch "main";
             OpSource "child" (bodyWith ["counter"] (accepting CbOk)) []].

Definition acceptsItself (s : State) (c : ReloadableModuleController) : bool :=
  match current c with Some i => isAcceptedSelf i s | None => false end.

Lemma self_accepting_intro s :
  map_Forall (fun _ c => acceptsItself s c = true) (controllers s) →
  ∀ u, u ∈ dom (controllers s) →
       ∃ i, current (ctrl u s) = Some i ∧ isAcceptedSelf i s = true.
Proof.
  intros H u Hu. apply elem_of_dom in Hu as [c Hc]. specialize (H u c Hc).
  unfold ctrl. rewrite Hc. simpl. unfold acceptsItself in H.
  destruct (current c) as [i|]; [eauto|done].
Qed.

Lemma self_accepting_modules_are_never_blocked_witness :
  let s := selfAcceptingGraph in
  let r := Some (UpdateSuccess success {| loads := 1; reevaluations := 0 |}) in
  (∀ u, u ∈ dom (controllers s) →
        ∃ i, current (ctrl u s) = Some i ∧ isAcceptedSelf i s = true)
  ∧ fst (requestUpdate directVerdict "main" s) = Ok r
  ∧ (∀ declined, r ≠ Some (UpdateDeclined declined))
  ∧ (∀ chain, r ≠ Some (UpdateUnaccepted chain)).
Proof.
  intros s r.
  assert (∀ u, u ∈ dom (controllers s) →
               ∃ i, current (ctrl u s) = Some i ∧ isAcceptedSelf i s = true) as Hself.
  { apply self_accepting_intro. apply (bool_decide_unpack _). vm_compute. exact I. }
  assert (requestUpdate directVerdict "main" s
          = (Ok r, snd (requestUpdate directVerdict "main" s))) as H
    by (vm_compute; reflexivity).
  split; [exact Hself|]. split; [vm_compute; reflexivity|].
  exact (self_accepting_modules_are_never_blocked directVerdict "main" s r _ Hself H).
Defined.

(** ** A successful update installs the staged root *)

(** The controller [u] is as it was. *)
Definition leaves (u : string) (s s' : State) : Prop := ctrl u s' = ctrl u s.

Global Instance leaves_Tolerates u : Tolerates (leaves u).
Proof.
  split; unfold leaves; try done. intros a b c Hab Hbc. by rewrite Hbc.
Qed.

Lemma leaves_logs u e : logs (leaves u) e.
Proof. done. Qed.

Lemma leaves_writes u v f : v ≠ u → writes (leaves u) v f.
Proof. intros Hne s. unfold leaves. by rewrite ctrl_updateCtrl_ne. Qed.

Lemma keeps_forEach_in (R : State → State → Prop) `{!Tolerates R} {A} (l : list A) f :
  (∀ x, x ∈ l → keeps R (f x)) → keeps R (forEach l f).
Proof.
  induction l as [|x l IH]; intros Hf; simpl; [apply (keeps_ret R)|].
  apply (keeps_bind R); [apply Hf; by left|]. intros _. apply IH.
  intros y Hy. apply Hf. by right.
Qed.

(** A loop over [iterateWithRollback] that completes has run its body on
    every value, and the rollback was not called. *)
Lemma iterateWithRollback_Ok {A} (vector : list A) rollback loopBody :
  ∀ yielded s s',
    iterateWithRollback vector rollback yielded loopBody s = (Ok tt, s') →
    forEach vector loopBody s = (Ok tt, s').
Proof.
  induction vector as [|x l IH]; intros yielded s s' H; simpl in *; [done|].
  apply bind_Ok in H as ([] & s1 & Hx & H).
  assert (loopBody x s = (Ok tt, s1)) as Hb.
  { unfold tryCatch in Hx. destruct (loopBody x s) as [[[]|e] sx]; [done|].
    unfold bind, throw in Hx. by destruct (rollback _ sx) as [[[]|?] ?]. }
  rewrite (bind_eq _ _ _ _ _ Hb). by apply (IH (yielded ++ [x])).
Qed.

Lemma keeps_replaceInstance_at u node : node ≠ u → keeps (leaves u) (replaceInstance node).
Proof.
  intros Hne.
  assert (∀ v, writes (leaves u) node (withCurrent v)) as Hw
    by (intros v; by apply leaves_writes).
  assert (∀ i, logs (leaves u) (EvInstantiate i)) as Hi by (intros; apply leaves_logs).
  assert (∀ i, logs (leaves u) (EvDispose i)) as Hd by (intros; apply leaves_logs).
  unfold replaceInstance. keeps_auto.
Qed.

Lemma keeps_evaluateNode_at u node : node ≠ u → keeps (leaves u) (evaluateNode node).
Proof.
  intros Hne.
  assert (∀ v, writes (leaves u) node (withPending v)) as Hp
    by (intros v; by apply leaves_writes).
  assert (∀ v, writes (leaves u) node (withStaging v)) as Hs
    by (intros v; by apply leaves_writes).
  assert (∀ i, logs (leaves u) (EvEvaluate i)) as Hi by (intros; apply leaves_logs).
  unfold evaluateNode. keeps_auto.
Qed.

Lemma keeps_linkAll linkVerdict u ns :
  keeps (leaves u) (forEach ns (fun node =>
    let* cur := select node selectCurrent in link linkVerdict cur selectCurrent)).
Proof.
  assert (∀ i, logs (leaves u) (EvLink i)) as Hi by (intros; apply leaves_logs).
  keeps_auto.
Qed.

(** The post-visit of phase 3, when it returns, has written no controller
    outside the component. *)
Lemma commitPost_leaves linkVerdict ns frs s r s' u :
  commitPost linkVerdict ns frs s = (Ok r, s') → u ∉ ns → ctrl u s' = ctrl u s.
Proof.
  intros H Hu. unfold commitPost in H.
  assert (∀ i, logs (leaves u) (EvRelink i)) as Hr by (intros; apply leaves_logs).
  assert (∀ i d, logs (leaves u) (EvAccept i d)) as Ha by (intros; apply leaves_logs).
  assert (∀ i, logs (leaves u) (EvAcceptSelf i)) as Hx by (intros; apply leaves_logs).
  assert (∀ {A} (m : M A) a s1 s2, keeps (leaves u) m → m s1 = (Ok a, s2) → ctrl u s2 = ctrl u s1)
    as Hstep.
  { intros A m a s1 s2 Hk Hm. specialize (Hk s1). by rewrite Hm in Hk. }
  apply bind_Ok in H as (newCode & s1 & H1 & H).
  apply (Hstep _ _ _ _ _ (keeps_anyNewCode (leaves u) ns)) in H1.
  apply bind_Ok in H as (needsUpdate & s2 & H2 & H).
  assert (ctrl u s2 = ctrl u s1) as E2.
  { destruct (_ && _).
    - by apply (Hstep _ _ _ _ _ (keeps_anyUnaccepted (leaves u) linkVerdict _ ns Hr Ha)) in H2.
    - by apply ret_Ok in H2 as [_ <-]. }
  destruct (negb needsUpdate).
  - apply bind_Ok in H as ([] & s3 & H3 & H). apply ret_Ok in H as [_ <-].
    rewrite <- H1, <- E2. revert H3. apply Hstep. apply (keeps_forEach_in (leaves u)).
    intros node Hnode.
    assert (∀ v, writes (leaves u) node (withPending v)) as Hp.
    { intros v. apply leaves_writes. by intros ->. }
    keeps_auto.
  - apply bind_Ok in H as ([] & s3 & H3 & H).
    apply bind_Ok in H as ([] & s4 & H4 & H).
    apply bind_Ok in H as ([] & s5 & H5 & H).
    apply bind_Ok in H as (invalidated & s6 & H6 & H). apply ret_Ok in H as [_ <-].
    apply iterateWithRollback_Ok in H5.
    rewrite <- H1, <- E2.
    etrans; [exact (Hstep _ _ _ _ _ (keeps_trySelfAccepts (leaves u) ns Hx) H6)|].
    etrans; [|etrans; [|etrans]]; [| |exact (Hstep _ _ _ _ _ (keeps_linkAll linkVerdict u ns) H4)|].
    + revert H5. apply Hstep. apply (keeps_forEach_in (leaves u)).
      intros node Hnode. apply keeps_evaluateNode_at. by intros ->.
    + done.
    + revert H3. apply Hstep. apply (keeps_forEach_in (leaves u)).
      intros node Hnode. apply keeps_replaceInstance_at. by intros ->.
Qed.

Lemma keeps_Ok {A} (R : State → State → Prop) (m : M A) a s s' :
  keeps R m → m s = (Ok a, s') → R s s'.
Proof. intros Hk Hm. specialize (Hk s). by rewrite Hm in Hk. Qed.

(** [replaceInstance] of a controller whose pending instance is not its
    current one makes the pending instance current. *)
Lemma replaceInstance_other node s s' i :
  replaceInstance node s = (Ok tt, s') →
  pending (ctrl node s) = Some i → current (ctrl node s) ≠ Some i →
  node ∈ dom (controllers s) →
  ctrl node s' = withCurrent (Some i) (ctrl node s).
Proof.
  intros H Hp Hc Hd. unfold replaceInstance in H.
  assert (∀ j, logs (leaves node) (EvDispose j)) as Hl by (intros; apply leaves_logs).
  assert (∀ j, logs (leaves node) (EvInstantiate j)) as Hi by (intros; apply leaves_logs).
  apply bind_Ok in H as (next & s0 & Hn & H). apply select_Ok in Hn as [Hn ->].
  unfold selectPending in Hn. rewrite Hp in Hn. injection Hn as <-.
  apply bind_Ok in H as (cur & s0 & Hcur & H). apply gets_Ok in Hcur as [<- <-].
  apply bind_Ok in H as (data & s1 & Hdis & H).
  assert (ctrl node s1 = ctrl node s) as E1.
  { revert Hdis. apply (keeps_Ok (leaves node)). keeps_auto. }
  apply bind_Ok in H as (cur & s0 & Hcur & H). apply gets_Ok in Hcur as [<- <-].
  rewrite E1 in H.
  assert (optEqb (current (ctrl node s)) (Some i) = false) as Hne.
  { unfold optEqb. by apply bool_decide_eq_false_2. }
  rewrite Hne in H.
  apply bind_Ok in H as ([] & s2 & Hw & H). apply modify_Ok in Hw as <-.
  apply bind_Ok in H as (c & s0 & Hsel & H). apply select_Ok in Hsel as [_ ->].
  assert (ctrl node s' = ctrl node (updateCtrl node (withCurrent (Some i)) s1)) as ->.
  { revert H. apply (keeps_Ok (leaves node)). keeps_auto. }
  rewrite ctrl_updateCtrl_eq, E1; [done|].
  unfold ctrl in E1.
  apply elem_of_dom in Hd as [c0 Hc0].
  destruct (controllers s1 !! node) as [c1|] eqn:E; [eauto|].
  rewrite Hc0 in E1. simpl in E1. subst c0.
  unfold ctrl in Hp. rewrite Hc0 in Hp. simpl in Hp. discriminate Hp.
Qed.

(** [evaluateNode] of a controller whose current instance is the staged
    one empties [staging] and [pending]. *)
Lemma evaluateNode_staged node s s' i :
  evaluateNode node s = (Ok tt, s') →
  current (ctrl node s) = Some i → staging (ctrl node s) = Some i →
  current (ctrl node s') = Some i ∧ staging (ctrl node s') = None
  ∧ pending (ctrl node s') = None.
Proof.
  intros H Hc Hs. unfold evaluateNode in H.
  assert (node ∈ dom (controllers s)) as Hd by (by apply (ctrl_some_dom current _ _ i)).
  assert (∀ j, logs (leaves node) (EvEvaluate j)) as Hl by (intros; apply leaves_logs).
  apply bind_Ok in H as (cur & s0 & Hsel & H). apply select_Ok in Hsel as [Hsel ->].
  unfold selectCurrent in Hsel. rewrite Hc in Hsel. injection Hsel as <-.
  apply bind_Ok in H as (same & s0 & Hg & H). apply gets_Ok in Hg as [_ <-].
  apply bind_Ok in H as ([] & s1 & Hm & H). apply modify_Ok in Hm as <-.
  apply bind_Ok in H as ([] & s2 & He & H).
  assert (controllers s2 = controllers s) as E2.
  { pose proof (evaluate_frame i (setFrame (if same then countReevaluation else countLoad) s))
      as Hf. rewrite He in Hf. simpl in Hf. apply Hf. }
  assert (ctrl node s2 = ctrl node s) as C2 by (unfold ctrl; by rewrite E2).
  assert (is_Some (controllers s2 !! node)) as Hsome.
  { rewrite E2. by apply elem_of_dom. }
  apply bind_Ok in H as ([] & s3 & Hm & H). apply modify_Ok in Hm as <-.
  apply bind_Ok in H as (staged & s0 & Hg & H). apply gets_Ok in Hg as [<- <-].
  rewrite (ctrl_updateCtrl_field staging) in H by done. rewrite C2, Hs in H.
  unfold optEqb in H. rewrite bool_decide_eq_true_2 in H by done.
  apply modify_Ok in H as <-.
  rewrite !ctrl_updateCtrl_eq, C2; [simpl; by rewrite Hc|done|].
  apply elem_of_dom. rewrite dom_updateCtrl. by apply elem_of_dom.
Qed.

(** The post-visit of the component of a staged controller. *)
Lemma commitPost_installs linkVerdict node rest frs s r s' i :
  commitPost linkVerdict (node :: rest) frs s = (Ok r, s') →
  node ∉ rest →
  staging (ctrl node s) = Some i → pending (ctrl node s) = Some i →
  current (ctrl node s) ≠ Some i →
  current (ctrl node s') = Some i ∧ staging (ctrl node s') = None
  ∧ pending (ctrl node s') = None.
Proof.
  intros H Hn Hs Hp Hc. unfold commitPost in H.
  assert (node ∈ dom (controllers s)) as Hd by (by apply (ctrl_some_dom staging _ _ i)).
  assert (∀ j, logs (leaves node) (EvAcceptSelf j)) as Hx by (intros; apply leaves_logs).
  assert (anyNewCode (node :: rest) s = (Ok true, s)) as Hnew.
  { simpl. unfold bind. cbn [gets]. by rewrite Hs. }
  rewrite (bind_eq _ _ _ _ _ Hnew) in H.
  rewrite andb_false_r in H. unfold bind at 1 in H. cbn [ret negb] in H.
  apply bind_Ok in H as ([] & s3 & H3 & H).
  apply bind_Ok in H as ([] & s4 & H4 & H).
  apply bind_Ok in H as ([] & s5 & H5 & H).
  apply bind_Ok in H as (invalidated & s6 & H6 & H). apply ret_Ok in H as [_ <-].
  apply iterateWithRollback_Ok in H5.
  simpl in H3. apply bind_Ok in H3 as ([] & sa & Ha & H3).
  pose proof (replaceInstance_other node s sa i Ha Hp Hc Hd) as Ea.
  assert (ctrl node s3 = ctrl node sa) as E3.
  { revert H3. apply (keeps_Ok (leaves node)). apply (keeps_forEach_in (leaves node)).
    intros x Hx'. apply keeps_replaceInstance_at. by intros ->. }
  assert (ctrl node s4 = ctrl node s3) as E4
    by exact (keeps_Ok (leaves node) _ _ _ _ (keeps_linkAll linkVerdict node _) H4).
  simpl in H5. apply bind_Ok in H5 as ([] & sb & Hb & H5).
  assert (current (ctrl node s4) = Some i ∧ staging (ctrl node s4) = Some i) as [Hc4 Hs4].
  { rewrite E4, E3, Ea. simpl. by rewrite Hs. }
  pose proof (evaluateNode_staged node s4 sb i Hb Hc4 Hs4) as Eb.
  assert (ctrl node s5 = ctrl node sb) as E5.
  { revert H5. apply (keeps_Ok (leaves node)). apply (keeps_forEach_in (leaves node)).
    intros x Hx'. apply keeps_evaluateNode_at. by intros ->. }
  assert (ctrl node s6 = ctrl node s5) as E6
    by exact (keeps_Ok (leaves node) _ _ _ _ (keeps_trySelfAccepts (leaves node) _ Hx) H6).
  by rewrite E6, E5.
Qed.

(** The commit traversal of a root whose staged instance is pending. *)
Lemma commitResult_installs linkVerdict this s rr s' i :
  commitResult linkVerdict this s = (Ok rr, s') →
  staging (ctrl this s) = Some i → pending (ctrl this s) = Some i →
  current (ctrl this s) ≠ Some i →
  current (ctrl this s') = Some i ∧ staging (ctrl this s') = None
  ∧ pending (ctrl this s') = None.
Proof.
  intros H Hs Hp Hc.
  set (Inv := λ (_ : list (string * list string)) (opened dn : list string) st,
                dom (controllers st) = dom (controllers s) ∧ NoDup opened
                ∧ (this ∉ dn → ctrl this st = ctrl this s)).
  assert (∀ n K opened dn st,
    Inv K opened dn st → n ∉ opened → n ∉ dn → reached this K n →
    match commitPre n st with
    | (Ok cs, s1) => n ∈ dom (controllers s) ∧ Inv ((n, cs) :: K) (n :: opened) dn s1
    | (Throw e, s1) => True
    end) as Hpre.
  { intros n K opened dn st (Hd & Hnd & Hst) Hno _ _.
    destruct (commitPre n st) as [[cs|e] s1] eqn:Hpr; [|done].
    unfold commitPre in Hpr.
    pose proof (iterateWithDynamics_readonly n selectPending (selectPreviousOrPendingOf n) st)
      as Hro. rewrite Hpr in Hro. simpl in Hro. subst s1.
    split; [|split; [done|split; [by apply NoDup_cons|done]]]. rewrite <- Hd.
    unfold iterateWithDynamics, iterate in Hpr.
    apply bind_Ok in Hpr as (statics & s1 & Hpr & _).
    apply bind_Ok in Hpr as (j & s2 & Hj & _). apply select_Ok in Hj as [Hj _].
    by apply (ctrl_some_dom pending _ _ j). }
  assert (∀ ns frs K opened dn st,
    Inv K (rev ns ++ opened) dn st → Forall (λ _ : RunResult, True) frs →
    match commitPost linkVerdict ns frs st with
    | (Ok r, s1) => Inv K opened (ns ++ dn) s1 ∧ True
    | (Throw e, s1) => True
    end) as Hpost.
  { intros ns frs K opened dn st (Hd & Hnd & Hst) _.
    pose proof (keeps_commitPost sameDom linkVerdict ns frs
                  (proj1 (sameDom_updateAllowed this)) st) as Hdom.
    destruct (commitPost linkVerdict ns frs st) as [[r|e] s1] eqn:Hpo; [|done].
    simpl in Hdom. split; [|done]. split; [by rewrite Hdom|].
    split; [by apply NoDup_app in Hnd as (_ & _ & ?)|].
    intros Hn. apply not_elem_of_app in Hn as [Hns Hdn].
    rewrite (commitPost_leaves _ _ _ _ _ _ _ Hpo Hns). by apply Hst. }
  destruct (traverseDepthFirst_root commitPre (commitPost linkVerdict) (dom (controllers s))
              Inv (λ _, True) (λ _ _, True) this Hpre Hpost noCancel s rr s')
    as (K & dn & nodes & frs & s2 & (_ & Hnd & Hst) & _ & Hdn & Hrun);
    [split; [done|split; [apply NoDup_nil_2|done]]|by rewrite size_dom|exact H|].
  specialize (Hst Hdn).
  apply NoDup_app in Hnd as (_ & Hdisj & _).
  apply (commitPost_installs _ _ _ _ _ _ _ i) in Hrun; [done| |by rewrite Hst..].
  rewrite elem_of_rev_iff. intros Hin. apply (Hdisj this Hin). by left.
Qed.

(** A [requestUpdate] that answers [success] went through the [try] block
    and the [finally] block without a [return]. *)
Lemma commitAndFinalize_success linkVerdict this previousControllers s type st s' :
  commitAndFinalize linkVerdict this previousControllers s
    = (Ok (Some (UpdateSuccess type st)), s') →
  ∃ s1, commit linkVerdict this s = (Ok None, s1)
        ∧ finalize this previousControllers s1 = (Ok None, s').
Proof.
  unfold commitAndFinalize, tryCatch.
  pose proof (commit_returns linkVerdict this s) as Hc.
  destruct (commit linkVerdict this s) as [[[r|]|e] s1] eqn:Hcommit.
  - subst r. pose proof (finalize_kind this previousControllers s1) as Hf.
    destruct (finalize this previousControllers s1) as [[[r|]|e] s2];
      [|(intros Hx; discriminate Hx)|(intros Hx; discriminate Hx)].
    destruct Hf as [f ->]. (intros Hx; discriminate Hx).
  - pose proof (finalize_kind this previousControllers s1) as Hf.
    destruct (finalize this previousControllers s1) as [[[r|]|e] s2] eqn:Hfin;
      [|intros [= _ _ <-]; eauto|(intros Hx; discriminate Hx)].
    destruct Hf as [f ->]. (intros Hx; discriminate Hx).
  - assert (match commitCatch linkVerdict this e s1 with
            | (Ok (Some r), _) => ∀ type st, r ≠ Some (UpdateSuccess type st)
            | _ => True
            end) as Hcc.
    { unfold commitCatch, bind. destruct (recover linkVerdict this s1) as [[[]|e'] s2]; [|done].
      cbn [gets]. by destruct (dispatchLinkErrorType (frame s2)). }
    destruct (commitCatch linkVerdict this e s1) as [[[r|]|e'] s2] eqn:Hcatch.
    + pose proof (finalize_kind this previousControllers s2) as Hf.
      destruct (finalize this previousControllers s2) as [[[r'|]|e'] s3]; [| |(intros Hx; discriminate Hx)].
      * destruct Hf as [f ->]. (intros Hx; discriminate Hx).
      * intros [= -> _]. by destruct (Hcc type st).
    + pose proof (commitCatch_kind linkVerdict this e s1) as Hk. by rewrite Hcatch in Hk.
    + pose proof (finalize_kind this previousControllers s2) as Hf.
      destruct (finalize this previousControllers s2) as [[[r'|]|e''] s3];
        [|(intros Hx; discriminate Hx)|(intros Hx; discriminate Hx)].
      destruct Hf as [f ->]. (intros Hx; discriminate Hx).
Qed.

(** The pruning of the [finally] block either leaves the root alone or
    moves its current instance to a staged clone. *)
Lemma pruneOrphans_root this currentControllers previousControllers i : ∀ s s',
  pruneOrphans this currentControllers previousControllers s = (Ok None, s') →
  current (ctrl this s) = Some i → staging (ctrl this s) = None →
  (current (ctrl this s') = Some i ∧ staging (ctrl this s') = None)
  ∨ (current (ctrl this s') = None ∧ is_Some (staging (ctrl this s'))).
Proof.
  assert (∀ previousControllers s s',
    pruneOrphans this currentControllers previousControllers s = (Ok None, s') →
    (current (ctrl this s) = Some i ∧ staging (ctrl this s) = None)
    ∨ (current (ctrl this s) = None ∧ is_Some (staging (ctrl this s))) →
    (current (ctrl this s') = Some i ∧ staging (ctrl this s') = None)
    ∨ (current (ctrl this s') = None ∧ is_Some (staging (ctrl this s')))) as Hgen;
    [|intros s s' H Hc Hs; apply (Hgen _ _ _ H); by left].
  clear previousControllers.
  induction previousControllers as [|c rest IH]; intros s s' Hrun HP; simpl in Hrun.
  { by apply ret_Ok in Hrun as [_ <-]. }
  destruct (mem c currentControllers); [by apply (IH s s')|].
  apply bind_Ok in Hrun as (cur & s0 & Hcur & Hrun). apply select_Ok in Hcur as [Hcur ->].
  apply bind_Ok in Hrun as (failed & s1 & Hp & Hrun).
  destruct failed as [res|]; [by apply ret_Ok in Hrun as [? _]|].
  assert (controllers s1 = controllers s) as Hc1.
  { unfold tryCatch, bind at 1 in Hp. destruct (prune cur s) as [[[]|e] sp] eqn:Hpr.
    - unfold ret in Hp. injection Hp as <-. unfold prune in Hpr.
      apply bind_Ok in Hpr as ([] & sa & Ha & Hpr). apply modify_Ok in Ha as <-.
      apply bind_Ok in Hpr as (hot & sa & Hh & Hpr). apply gets_Ok in Hh as [<- <-].
      destruct (hPrune _); [by apply ret_Ok in Hpr as [_ <-]|done|].
      unfold invalidate in Hpr. by apply modify_Ok in Hpr as <-.
    - unfold setFatalError, bind, modify, ret in Hp. by injection Hp. }
  apply bind_Ok in Hrun as (copy & s2 & Hcl & Hrun).
  unfold clone, constructInstance in Hcl. injection Hcl as _ <-.
  apply bind_Ok in Hrun as ([] & s3 & H1 & Hrun). apply modify_Ok in H1 as <-.
  apply bind_Ok in Hrun as ([] & s3 & H1 & Hrun). apply modify_Ok in H1 as <-.
  apply bind_Ok in Hrun as ([] & s3 & H1 & Hrun). apply modify_Ok in H1 as <-.
  apply (IH _ _ Hrun).
  destruct (decide (c = this)) as [->|Hne].
  - right. unfold selectCurrent in Hcur.
    assert (is_Some (controllers s1 !! this)) as Hsome.
    { rewrite Hc1. apply elem_of_dom. by apply (ctrl_some_dom current _ _ cur). }
    rewrite (ctrl_updateCtrl_field staging), (ctrl_updateCtrl_field staging) by done.
    rewrite (ctrl_updateCtrl_field current) by done.
    rewrite ctrl_updateCtrl_eq.
    2:{ apply elem_of_dom. rewrite dom_updateCtrl. apply elem_of_dom.
        unfold setInstances. simpl. exact Hsome. }
    rewrite ctrl_updateCtrl_eq by (unfold setInstances; simpl; exact Hsome).
    simpl. eauto.
  - rewrite !ctrl_updateCtrl_ne by done. unfold ctrl. simpl. rewrite Hc1. exact HP.
Qed.

(** X19. A successful update installs the new code of the root: when the
    root has a staged instance that is not its current one and
    [requestUpdate] answers [success], that instance is the current one
    afterwards and [staging] is empty -- unless the [finally] block pruned
    the root as an orphan (it was on an import cycle before the update and
    is no longer), in which case the root has no current instance and a
    clone is staged, lines 760-764. *)
Theorem successful_update_installs_the_staged_root linkVerdict this s i type st s' :
  staging (ctrl this s) = Some i → current (ctrl this s) ≠ Some i →
  requestUpdate linkVerdict this s = (Ok (Some (UpdateSuccess type st)), s') →
  (current (ctrl this s') = Some i ∧ staging (ctrl this s') = None)
  ∨ (current (ctrl this s') = None ∧ is_Some (staging (ctrl this s'))).
Proof.
  intros Hs Hc Hrun.
  destruct (fatalErrorOf (ctrl this s)) as [f|] eqn:Hfatal.
  { revert Hrun. unfold requestUpdate. unfold bind at 1. cbn [gets]. rewrite Hfatal.
    intros Hx. discriminate Hx. }
  set (s0 := setFrame (λ _, newFrame) s) in *.
  destruct (dryRun this s0) as [[r0|e] s1] eqn:Hdry.
  2:{ revert Hrun. unfold requestUpdate. unfold bind at 1. cbn [gets]. rewrite Hfatal.
      unfold bind at 1. cbn [modify]. unfold bind at 1. fold s0. rewrite Hdry.
      intros Hx. discriminate Hx. }
  rewrite (requestUpdate_after_dryRun linkVerdict this s r0 s1 Hfatal Hdry) in Hrun.
  destruct (dryRun_spec this s0 r0 s1 Hdry) as (dn & HI & _ & Hroot).
  destruct (dry_marked _ _ _ _ HI this (or_intror Hroot)) as (_ & Hp1 & _).
  destruct (dry_slots _ _ _ _ HI this) as (Hc1 & Hs1 & _).
  change (ctrl this s0) with (ctrl this s) in Hp1, Hc1, Hs1.
  rewrite Hs in Hp1, Hs1. simpl in Hp1.
  destruct (negb (drNeedsDispatch r0)).
  { apply bind_Ok in Hrun as ([] & ? & _ & Hx). discriminate Hx. }
  destruct (drHasDecline r0).
  { apply bind_Ok in Hrun as ([] & ? & _ & Hx). discriminate Hx. }
  destruct (Nat.ltb 0 (length (drInvalidated r0))).
  { apply bind_Ok in Hrun as (tag & ? & _ & Hrun).
    apply bind_Ok in Hrun as (chain & ? & _ & Hrun).
    apply bind_Ok in Hrun as ([] & ? & _ & Hx). discriminate Hx. }
  apply bind_Ok in Hrun as (tested & s2 & Htest & Hrun).
  assert (tested = None ∧ pending (ctrl this s2) = Some i
          ∧ staging (ctrl this s2) = Some i ∧ current (ctrl this s2) ≠ Some i)
    as (-> & Hp2 & Hs2 & Hc2).
  { destruct (drHasNewCode r0).
    - assert (fInstantiated (frame s1) = []) as Hfi
        by (by rewrite (dry_instantiated _ _ _ _ HI)).
      destruct (linkTest_spec linkVerdict this s1 Hfi) as (out & s2' & Hlt & HL & Hout).
      rewrite Hlt in Htest. injection Htest as -> ->.
      destruct (traverseDepthFirst linkTestPre (linkTestPost linkVerdict) this noCancel s1)
        as [[x|e] sx].
      + destruct Hout as [-> Hpp]. split; [done|].
        destruct (li_slots _ _ _ HL this) as (E1 & E2 & _). destruct (Hpp this) as [E3 _].
        rewrite E1, E2, E3, Hc1. done.
      + destruct Hout as [-> _]. apply ret_Ok in Hrun as [Hx _]. discriminate Hx.
    - apply ret_Ok in Htest as [<- <-]. rewrite Hc1. done. }
  apply bind_Ok in Hrun as (previousControllers & s3 & Htr & Hrun).
  assert (∀ {A} (g : ReloadableModuleController → A),
            (∀ n c, g (withVisitIndex n c) = g c) → g (ctrl this s3) = g (ctrl this s2)) as Hsame.
  { intros A g Hg.
    assert (keeps (sameField g (λ _, False)) (traverse this (λ _, ret tt))) as Hk.
    { apply (keeps_traverse (sameField g (λ _, False))).
      - intros u n. apply sameField_writes. intros c. apply Hg.
      - intros u. apply (keeps_ret _). }
    specialize (Hk s2). rewrite Htr in Hk. apply Hk. auto. }
  assert (pending (ctrl this s3) = Some i) as Hp3 by (by rewrite (Hsame _ pending)).
  assert (staging (ctrl this s3) = Some i) as Hs3 by (by rewrite (Hsame _ staging)).
  assert (current (ctrl this s3) ≠ Some i) as Hc3 by (by rewrite (Hsame _ current)).
  apply commitAndFinalize_success in Hrun as (s4 & Hcommit & Hfin).
  unfold commit in Hcommit. apply bind_Ok in Hcommit as (rr & s4' & Hres & Hret).
  assert (s4' = s4) as ->.
  { destruct (negb _); by apply ret_Ok in Hret as [_ <-]. }
  destruct (commitResult_installs linkVerdict this s3 rr s4 i Hres Hs3 Hp3 Hc3)
    as (Hc4 & Hs4 & _).
  unfold finalize in Hfin. apply bind_Ok in Hfin as (currentControllers & s5 & Hclear & Hprune).
  assert (∀ {A} (g : ReloadableModuleController → A),
            (∀ n c, g (withVisitIndex n c) = g c) → (∀ v c, g (withPrevious v c) = g c) →
            g (ctrl this s5) = g (ctrl this s4)) as Hsame5.
  { intros A g Hg Hg'.
    assert (keeps (sameField g (λ _, False)) (traverse this clearPrevious)) as Hk.
    { apply (keeps_traverse_clearPrevious (sameField g (λ _, False))).
      - intros u n. apply sameField_writes. intros c. apply Hg.
      - intros u v. apply sameField_writes. intros c. apply Hg'. }
    specialize (Hk s4). rewrite Hclear in Hk. apply Hk. auto. }
  apply (pruneOrphans_root _ _ _ i _ _ Hprune).
  - by rewrite (Hsame5 _ current).
  - by rewrite (Hsame5 _ staging).
Qed.

Lemma successful_update_installs_the_staged_root_witness :
  let s := rootChanged in
  let s' := snd (requestUpdate directVerdict "main" s) in
  staging (ctrl "main" s) = Some 6
  ∧ current (ctrl "main" s) ≠ Some 6
  ∧ requestUpdate directVerdict "main" s
    = (Ok (Some (UpdateSuccess success {| loads := 1; reevaluations := 0 |})), s')
  ∧ ((current (ctrl "main" s') = Some 6 ∧ staging (ctrl "main" s') = None)
     ∨ (current (ctrl "main" s') = None ∧ is_Some (staging (ctrl "main" s')))).
Proof.
  intros s s'.
  assert (staging (ctrl "main" s) = Some 6) as Hs by (vm_compute; reflexivity).
  assert (current (ctrl "main" s) ≠ Some 6) as Hc by (vm_compute; discriminate).
  assert (requestUpdate directVerdict "main" s
          = (Ok (Some (UpdateSuccess success {| loads := 1; reevaluations := 0 |})), s')) as H
    by (vm_compute; reflexivity).
  split; [exact Hs|]. split; [exact Hc|]. split; [exact H|].
  exact (successful_update_installs_the_staged_root directVerdict "main" s 6 _ _ s' Hs Hc H).
Defined.

(** The second case occurs: a root that imported itself through [a] and no
    longer does is pruned by its own successful update. *)
Definition cyclicRootChanged : State :=
  runScript [OpAcquire "main"; OpAcquire "a";
             OpSource "a" (bodyWith [] noHot) [importing "main" []];
             OpSource "main" (bodyWith [] (accepting CbOk)) [importing "a" []];
             OpDispatch "main";
             OpSource "main" (bodyWith [] (accepting CbOk)) []].

Example cyclic_root_is_pruned :
  let s := cyclicRootChanged in
  let s' := snd (requestUpdate directVerdict "main" s) in
  fst (requestUpdate directVerdict "main" s)
    = Ok (Some (UpdateSuccess success {| loads := 1; reevaluations := 0 |}))
  ∧ staging (ctrl "main" s) = Some 2 ∧ current (ctrl "main" s) = Some 1
  ∧ current (ctrl "main" s') = None ∧ staging (ctrl "main" s') = Some 5.
Proof. vm_compute. done. Qed.
